(* ===== verification/_CoqProject ===== *)
-Q . S2P
Prelude.v
GoStd.v
Text.v
Logging.v
Prog.v
Ghost.v
Heap.v
K8s.v
Api.v
Client.v
Fixture.v
DeepCopy.v
Patching.v
Guards.v
Power.v
Json.v
Wol.v
Agent.v
Pools.v
Fit.v
NodeOps.v
MachineController.v
Scenarios.v
MachineLifecycle.v
MachineSafety.v
MachineActions.v
MachineTimers.v
MachineTransitions.v
ScaleUp.v
ScaleUpFit.v
ScaleUpSafety.v
ScaleUpComplete.v
ScaleDown.v
ScaleDownSafety.v
ScaleDownComplete.v
PoolController.v
Metrics.v
ShutdownAgent.v
Watches.v
Cmd.v
MachineSystem.v
SystemRuns.v
Waits.v
Fleet.v
FleetRuns.v
Cycle.v
