(* ===== verification/Prelude.v ===== *)
(** * ONP: a verification development for the on-prem node provisioner

    ONP is a Kubernetes controller that powers bare-metal nodes on (Wake-on-LAN)
    when pods are pending and off again when they are empty.  This library
    translates its Go code (src/) into Rocq and proves what makes it correct.

    ** The program and the files that model it

    - api/v1alpha1: the Machine and NodePool objects, the seven lifecycle
      states, annotations and labels.  [Api]; [K8s] has the parts of the core
      Kubernetes objects the code reads, and the library functions it calls
      (label selectors, quantities, affinity and toleration matching) as
      parameters ([K8sTypes], [K8sLib]) with their documented laws ([K8sLaws]).
      The generated deep copies are [DeepCopy], over the explicit memory of
      [Heap]; the copy functions of the Kubernetes types are parameters
      ([KubeCopies], [KubeCopyLaws]).
    - internal/controller/guards.go and the pod predicates: [Guards].  Pool
      membership, drain policy and watch mappers: [Pools].
    - internal/controller/machine_controller.go: one [Definition] per method,
      whole handlers with every read, write, event, metric and clock reading;
      the Node writes in [NodeOps], the state handlers and [Reconcile] in
      [MachineController].
    - internal/controller/scaleup_controller.go and internal/scheduler/fit.go:
      [ScaleUp] and [Fit].  scaledown_controller.go: [ScaleDown].
      nodepool_controller.go and metrics_collector.go: [PoolController].  The ten
      functions of the reconcilers that change an object in place and patch the
      difference, on memory: [Patching].  The
      SetupWithManager methods, as maps from watch events to queued requests:
      [Watches].
    - internal/power, internal/power/wol and internal/metrics: the provider
      registry, the WoL provider, the HTTP client of the wol-agent ([Power]), the
      magic packet and its transmission ([Wol]), the metrics as registered and
      scraped ([Metrics]).
    - internal/agent: the HTTP server of the wol-agent ([Agent]), with the JSON
      scanner and decoder of the standard library it relies on ([Json]).
    - internal/shutdownagent: the agent that halts its own node, and its reading
      of /proc/stat ([ShutdownAgent]).
    - internal/logging: the level flag and the renamed keys ([Logging], with the
      facts about white space in [Text]).
    - cmd: the four [main] functions from the parsed flags to the exit status
      ([Cmd]).

    ** How code is modelled

    A function that talks to anything it does not own is a [prog] ([Prog]): a
    tree of calls, with a continuation for every response.  Nothing is assumed
    of the responses, so a theorem about the runs ([exec]) of a [prog] holds
    against every API server, cache, clock and interleaving of other writers;
    where a theorem needs more of the environment its statement says so.  The
    calls are [Client] (API server, cache, clocks, events, metrics, HTTP, host),
    [NetSignature] of [Wol] (sockets) and [HostSignature] of [Cmd] (process).
    Go's (value, error) pairs are [result]; wrapped errors keep the reason the
    code inspects.  Integers keep their width ([wrap64] and the saturating
    [Time.Sub] in [GoStd]); maps iterate in an arbitrary order ([MapRange]) and
    [sort.Slice] may be any sort.  State kept between runs (the agent's episode,
    the announced holds) is passed explicitly.  Objects are values, except where
    sharing is the point: [Heap] has typed cells and pointers, and [Patching] shows
    that the in-place code sends the patches the value model sends.

    [wp] and its tactics are the program logic: every call is checked against
    the history before it.  [Ghost] adds a protocol with ghost state, for
    composing components over a shared server.  [Fixture] and [Scenarios]
    instantiate the parameters and run the programs on concrete clusters; the
    theorems do not depend on them, their witnesses do.

    ** What is proved

    - The lifecycle ([MachineLifecycle], [MachineTransitions]): every status
      write is a transition of the state machine, and one the run has earned:
      the answers of the guards of that edge are computed from responses before
      the write.
    - Safety of the Machine reconciler ([MachineSafety], [MachineActions]): power
      off only after a drain confirmed by the API server, evictions only of
      drainable pods, HTTP requests only to wake, Node writes that respect an
      operator's cordon, labels and taints; nothing at all on a Node claimed
      twice.  [MachineTimers]: the bounds of the poll delay, and how a deadline
      that passes during a run can end the polling.
    - Scaling ([ScaleUpSafety], [ScaleUpFit], [ScaleDownSafety]): what justifies
      a wake or a drain; the fit check against its specification and against the
      Node a Machine becomes; the smallest candidate, the synthetic
      allocatable; holds announced once; every event that can make a Machine a
      scale-down candidate queues it ([Watches]).  The converse
      ([ScaleUpComplete], [ScaleDownComplete]): a run that does not wake or drain
      has a reason for every Machine it passed over, and asks for another run
      where no event will lift the reason.
    - Budgets ([Fleet]): over a whole fleet on the API server, with other writers
      between any two calls, scale-down keeps minNodes and maxConcurrent however
      stale the cache is, and scale-up keeps maxNodes when the cache is up to date.
      [FleetRuns] executes such a server: the witnesses, and the run that exceeds
      maxNodes on a stale cache.
    - Pools and gauges ([PoolController], [Metrics]): counts are exact, a scrape is
      well formed and complete, no metric call can panic.
    - Memory ([DeepCopy], [Patching]): deep copies share nothing with the original
      and never panic, and every patch is the difference between the object as
      read and the one change.
    - The agents: exactly one power-off per episode and only of the own node, the
      boot-time round trip and the termination of its scan ([ShutdownAgent]);
      packets only for authorised requests, the wire format round trip, the
      packet's bytes, and the path from the controller's power-on to the packet
      on the wire ([Agent], [Json], [Wol], [Power]).
    - The system ([MachineSystem]): all reconcilers, the agents and an operator
      interleaved call by call over one API server refine the lifecycle, and the
      timers of the waiting states are always set, as long as the cache is not
      behind on the Machine's state.  [SystemRuns] executes the server: a full
      cycle, and the run that shows why that proviso is needed.
    - Liveness.  [Waits]: against any environment that leaves the Machine alone
      during the run, a run in a waiting state that ends without an error moves the
      Machine on or found the budget unspent and asks for the next run.  [Cycle]:
      in a cluster that cooperates, given setting by setting, the runs exist and
      carry a wake request from Off to Ready and a drain request from Ready to
      Off.  [Watches]: the events that queue a run.
    - Processes ([Cmd], [Logging]): the controller starts only fully wired, the
      wol-agent serves with its token, one secret opens it to the controller, the
      level flag accepts what it says.

    ** Bounds and fuel

    Programs are finite trees, so every run ends; the loops over lists are
    structural.  [parseBootTime] scans with one round per byte of the input and
    one more, and satisfies its loop's equation on every input
    ([parseBootTime_terminates]); [Json.scan] and the MAC and address parsers
    recurse on their input.  The JSON round trip is for ASCII strings, and the
    path to the wire for broadcast addresses of at most 600 bytes, which keeps the
    request under the agent's body limit.  [Cycle] takes boot and shutdown budgets
    of at most half the int64 range, so that no difference of two readings
    overflows.  The int32 counters of members are integers: up to 2^31 - 1 members
    they are the same ([count_int32_exact]).

    ** Not modelled

    Log lines; scheme registration; the work queue of controller-runtime (rate
    limits, back-off); the JSON encoder of log/slog; SystemctlPowerOff, which runs
    a command (it is the call [HostPowerOff]).  In [Patching] a Machine has a cell
    of its own also where the code points into a list.  Of Unicode, [%q] passes
    non-ASCII bytes through and [strings.Fields] splits at ASCII space only; names,
    flags and /proc/stat are ASCII.  Flags are taken as parsed.  A fair schedule of
    the queue is not modelled: [Cycle] takes the sequence of runs as given, and the
    results of the runs and [Watches] say what queues the next one. *)

From stdpp Require Export base gmap strings list sorting pretty.
From Stdlib Require Export ZArith Lia.
From Stdlib Require Ascii String.

(** The lemmas that close the routine goals of the component files. *)
Create HintDb onp.

Declare Scope onp_scope.
Delimit Scope onp_scope with onp.

(** ** Results: Go's [(T, error)] pairs

    Every fallible function of the program returns the zero value next to a
    non-nil error, so the pair is a sum. *)

Inductive result (E A : Type) : Type :=
| Ok (a : A)
| Err (e : E).
Arguments Ok {E A} a.
Arguments Err {E A} e.

Definition result_map {E A B} (f : A → B) (r : result E A) : result E B :=
  match r with Ok a => Ok (f a) | Err e => Err e end.

Definition is_ok {E A} (r : result E A) : bool :=
  match r with Ok _ => true | Err _ => false end.

(** ** Tactics *)

(** Split every conjunction of the goal and break every conjunction and
    existential of the hypotheses. *)
Ltac split_all :=
  repeat match goal with
  | H : _ ∧ _ |- _ => destruct H
  | H : ∃ _, _ |- _ => destruct H
  | |- _ ∧ _ => split
  end.

(** Settle a closed decidable proposition by evaluating its decision. *)
Ltac by_compute := refine (bool_decide_unpack _ _); vm_compute; exact I.

(** Reduce the boolean tests of the source to the propositions they decide. *)
Ltac bool_simpl :=
  repeat match goal with
  | H : _ && _ = true |- _ => apply andb_true_iff in H as [??]
  | H : _ || _ = false |- _ => apply orb_false_iff in H as [??]
  | H : negb _ = true |- _ => apply negb_true_iff in H
  | H : negb _ = false |- _ => apply negb_false_iff in H
  | H : bool_decide _ = true |- _ => apply bool_decide_eq_true_1 in H
  | H : bool_decide _ = false |- _ => apply bool_decide_eq_false_1 in H
  | H : (_ <? _)%Z = true |- _ => apply Z.ltb_lt in H
  | H : (_ <? _)%Z = false |- _ => apply Z.ltb_ge in H
  | H : (_ <=? _)%Z = true |- _ => apply Z.leb_le in H
  | H : (_ <=? _)%Z = false |- _ => apply Z.leb_gt in H
  | H : (_ =? _)%Z = true |- _ => apply Z.eqb_eq in H
  | H : (_ =? _)%Z = false |- _ => apply Z.eqb_neq in H
  end.

(** ** Sorting by a comparison function

    [sort.Slice] and [sort.Strings] leave the algorithm open.  [sort_by] is an
    insertion sort; the lemmas below about sorted permutations hold for the
    output of every algorithm. *)

(** What [sort.Slice] asks of its [less]: a strict weak order. *)
Class WeakOrder {A} (less : A → A → bool) : Prop := {
  less_asym x y : less x y = true → less y x = false;
  less_negtrans x y z : less y x = false → less z y = false → less z x = false;
}.

Section sort_by.
Context {A : Type} (less : A → A → bool).

Fixpoint insert_by (x : A) (l : list A) : list A :=
  match l with
  | [] => [x]
  | y :: l' => if less x y then x :: y :: l' else y :: insert_by x l'
  end.

Definition sort_by (l : list A) : list A :=
  foldl (λ acc x, insert_by x acc) [] l.

(** The order [sort.Slice] establishes: no later element is less than an
    earlier one. *)
Definition sorted_by : list A → Prop :=
  StronglySorted (λ x y, less y x = false).

Lemma insert_by_perm x l : insert_by x l ≡ₚ x :: l.
Proof.
  induction l as [|y l IH]; simpl; [done|].
  destruct (less x y); [done|]. rewrite IH. apply Permutation_swap.
Qed.

Lemma foldl_insert_perm l acc :
  foldl (λ acc x, insert_by x acc) acc l ≡ₚ acc ++ l.
Proof.
  revert acc; induction l as [|x l IH]; intros acc; simpl; [by rewrite app_nil_r|].
  rewrite IH, insert_by_perm. simpl. by rewrite Permutation_middle.
Qed.

Lemma sort_by_perm l : sort_by l ≡ₚ l.
Proof. apply foldl_insert_perm. Qed.

Context `{!WeakOrder less}.

Lemma insert_by_sorted x l : sorted_by l → sorted_by (insert_by x l).
Proof.
  induction 1 as [|y l Hs IH Hy]; simpl; [repeat constructor|].
  destruct (less x y) eqn:E.
  - constructor; [by constructor|]. constructor; [by apply less_asym|].
    eapply Forall_impl; [exact Hy|]. intros z Hz.
    eapply less_negtrans; [|exact Hz]. by apply less_asym.
  - constructor; [done|]. rewrite insert_by_perm. by constructor.
Qed.

Lemma sort_by_sorted l : sorted_by (sort_by l).
Proof.
  unfold sort_by.
  assert (∀ acc, sorted_by acc →
    sorted_by (foldl (λ acc x, insert_by x acc) acc l)) as H.
  { induction l as [|x l IH]; intros acc Hacc; simpl; [done|].
    by apply IH, insert_by_sorted. }
  apply H. constructor.
Qed.

(** The head of any sorted arrangement is minimal. *)
Lemma sorted_by_head_min x l l' y :
  l ≡ₚ x :: l' → sorted_by (x :: l') → y ∈ l → less y x = false.
Proof.
  intros Hp [_ Hx]%StronglySorted_inv. rewrite Hp. intros [->|Hy]%elem_of_cons.
  - destruct (less x x) eqn:E; [|done]. by rewrite (less_asym _ _ E) in E.
  - rewrite Forall_forall in Hx. by apply Hx.
Qed.
End sort_by.

(** Go's [<] on strings: bytewise lexicographic. *)
Definition str_lt (a b : string) : bool := String.ltb a b.

Lemma str_lt_leb a b : str_lt a b = negb (String.leb b a).
Proof.
  unfold str_lt, String.ltb, String.leb. rewrite String.compare_antisym.
  by destruct (String.compare b a).
Qed.

#[global] Instance str_lt_weak : WeakOrder str_lt.
Proof.
  split.
  - intros x y. rewrite !str_lt_leb, negb_true_iff, negb_false_iff.
    intros H. destruct (String.leb_total x y); congruence.
  - intros x y z. rewrite !str_lt_leb, !negb_false_iff. intros H1 H2.
    apply Is_true_true. etrans; by apply Is_true_true.
Qed.

Lemma str_lt_trichotomy a b : str_lt a b = false → str_lt b a = false → a = b.
Proof.
  rewrite !str_lt_leb, !negb_false_iff. intros. by apply String.leb_antisym.
Qed.

(** ** Lists *)

Lemma reverse_subseteq {A} (l : list A) : reverse l ⊆ l.
Proof. intros x. by rewrite elem_of_reverse. Qed.

Lemma app_subseteq_r {A} (l k : list A) : l ⊆ k ++ l.
Proof. intros x Hx. apply elem_of_app. by right. Qed.

(** With distinct keys, the key determines the element. *)
Lemma NoDup_key {A B} (f : A → B) (l : list A) x y :
  NoDup (f <$> l) → x ∈ l → y ∈ l → f x = f y → x = y.
Proof.
  induction l as [|z l IH]; simpl; [by intros _ ?%elem_of_nil|].
  rewrite NoDup_cons, !elem_of_cons. intros [Hz Hnd] [->|Hx] [->|Hy] Hf; auto.
  - destruct Hz. rewrite Hf. by apply list_elem_of_fmap_2.
  - destruct Hz. rewrite <- Hf. by apply list_elem_of_fmap_2.
Qed.

#[export] Hint Resolve reverse_subseteq app_subseteq_r : onp.

(** ** Counting *)

(** A loop that increments a counter on the elements satisfying [f] is the
    length of the filter. *)
Definition count_if {A} (f : A → bool) (l : list A) : Z :=
  foldl (λ n x, if f x then (n + 1)%Z else n) 0%Z l.

Lemma count_if_acc {A} (f : A → bool) l n :
  foldl (λ n x, if f x then (n + 1)%Z else n) n l = (n + count_if f l)%Z.
Proof.
  unfold count_if. revert n; induction l as [|x l IH]; intros n; simpl; [lia|].
  rewrite (IH (if f x then _ else _)). symmetry.
  rewrite (IH (if f x then _ else _)). destruct (f x); lia.
Qed.

Lemma count_if_cons {A} (f : A → bool) x l :
  count_if f (x :: l) = ((if f x then 1 else 0) + count_if f l)%Z.
Proof. unfold count_if at 1. simpl. rewrite count_if_acc. destruct (f x); lia. Qed.

Lemma count_if_length {A} (f : A → bool) l :
  count_if f l = Z.of_nat (length (filter (λ x, f x = true) l)).
Proof.
  induction l as [|x l IH]; [done|]. rewrite count_if_cons, filter_cons, IH.
  case_decide as H; [rewrite H; simpl; lia|]. destruct (f x); [done|lia].
Qed.

Lemma count_if_bounds {A} (f : A → bool) l :
  (0 ≤ count_if f l ≤ Z.of_nat (length l))%Z.
Proof.
  induction l as [|x l IH]; [simpl; unfold count_if; simpl; lia|].
  rewrite count_if_cons. simpl. destruct (f x); lia.
Qed.

#[global] Instance count_if_perm {A} (f : A → bool) :
  Proper ((≡ₚ) ==> (=)) (count_if f).
Proof.
  induction 1; rewrite ?count_if_cons; lia.
Qed.
