(* ===== verification/GoStd.v ===== *)
(** * The Go language and standard library, as far as the program uses them

    Machine integers with their wrap-around, [time.Time] and [time.Duration],
    the functions of [strings], [strconv] and [fmt] the sources call.  A string
    is its bytes.  [%q] passes bytes outside ASCII through where Go would consult
    Unicode tables; every string the program quotes is an ASCII name. *)

From S2P Require Import Prelude.
From Stdlib Require Import Ascii.

Local Open Scope Z_scope.

(** ** Integers *)

Definition int32_min : Z := -2^31.
Definition int32_max : Z := 2^31 - 1.
Definition int64_min : Z := -2^63.
Definition int64_max : Z := 2^63 - 1.

(** Signed 64-bit wrap-around, the result of [+], [-] and [*] on int64. *)
Definition wrap64 (z : Z) : Z := (z + 2^63) mod 2^64 - 2^63.

Definition in_int32 (z : Z) : Prop := int32_min ≤ z ≤ int32_max.
Definition in_int64 (z : Z) : Prop := int64_min ≤ z ≤ int64_max.

Lemma wrap64_range z : in_int64 (wrap64 z).
Proof.
  unfold in_int64, wrap64, int64_min, int64_max.
  pose proof (Z.mod_pos_bound (z + 2^63) (2^64) ltac:(lia)). lia.
Qed.

Lemma wrap64_id z : in_int64 z → wrap64 z = z.
Proof.
  unfold in_int64, wrap64, int64_min, int64_max. intros. rewrite Z.mod_small; lia.
Qed.

(** Signed 32-bit wrap-around and the counting loops of the reconcilers,
    [for ... { if f(x) { n++ } }] on an int32: up to the largest int32 of elements
    the count is the mathematical one, and the models of those loops use it. *)
Definition wrap32 (z : Z) : Z := (z + 2^31) mod 2^32 - 2^31.

Lemma wrap32_id z : in_int32 z → wrap32 z = z.
Proof. unfold in_int32, wrap32, int32_min, int32_max. intros. rewrite Z.mod_small; lia. Qed.

Definition count_int32 {A} (f : A → bool) (l : list A) : Z :=
  foldl (λ n x, if f x then wrap32 (n + 1) else n) 0 l.

Lemma count_int32_exact {A} (f : A → bool) l :
  Z.of_nat (length l) ≤ int32_max → count_int32 f l = count_if f l.
Proof.
  intros Hl. unfold count_int32.
  assert (∀ n, 0 ≤ n → n + Z.of_nat (length l) ≤ int32_max →
    foldl (λ n x, if f x then wrap32 (n + 1) else n) n l = n + count_if f l) as Hgen; [|by apply Hgen].
  clear Hl. induction l as [|x l IH]; intros n Hn Hl; simpl in *; [unfold count_if; simpl; lia|].
  rewrite count_if_cons. destruct (f x); [|rewrite IH; lia].
  rewrite wrap32_id by (unfold in_int32, int32_min, int32_max in *; lia). rewrite IH; lia.
Qed.

(** ** Time

    A [time.Time] is the number of nanoseconds since the zero time (January 1,
    year 1), so [time.Time{}] is 0.  A [time.Duration] is an int64 count of
    nanoseconds. *)

Definition Time := Z.
Definition Duration := Z.

Definition zeroTime : Time := 0.
Definition IsZero (t : Time) : bool := t =? 0.
(** [IsZero] on a pointer to a [metav1.Time]: nil is zero too. *)
Definition ptr_IsZero (t : option Z) : bool :=
  match t with Some t => t =? 0 | None => true end.
Definition Before (t u : Time) : bool := t <? u.
Definition After (t u : Time) : bool := u <? t.

(** [Time.Sub] saturates at the ends of the int64 range. *)
Definition Sub (t u : Time) : Duration :=
  Z.max int64_min (Z.min int64_max (t - u)).

Definition Add (t : Time) (d : Duration) : Time := t + d.

Definition Second : Duration := 1000000000.
Definition Minute : Duration := 60 * Second.

(** [d - e] and [n * time.Second] on durations. *)
Definition dur_sub (d e : Duration) : Duration := wrap64 (d - e).
Definition dur_mul (n d : Duration) : Duration := wrap64 (n * d).

Lemma Sub_exact t u : in_int64 (t - u) → Sub t u = t - u.
Proof. unfold Sub, in_int64. lia. Qed.

Lemma Sub_range t u : in_int64 (Sub t u).
Proof. unfold Sub, in_int64, int64_min, int64_max. lia. Qed.

(** [Sub] is monotone in the later instant: waiting never shrinks an elapsed
    time. *)
Lemma Sub_mono t t' u : t ≤ t' → Sub t u ≤ Sub t' u.
Proof. unfold Sub. lia. Qed.

(** ** Strings *)


Definition HasPrefix (s p : string) : bool := String.prefix p s.

Fixpoint Contains (s sub : string) : bool :=
  String.prefix sub s ||
  match s with
  | EmptyString => false
  | String _ s' => Contains s' sub
  end.

Fixpoint Join (elems : list string) (sep : string) : string :=
  match elems with
  | [] => ""
  | [x] => x
  | x :: rest => x +:+ sep +:+ Join rest sep
  end.

Definition is_space (c : Ascii.ascii) : bool :=
  let n := Ascii.nat_of_ascii c in
  (n =? 32)%nat || ((9 <=? n)%nat && (n <=? 13)%nat).

Fixpoint rev_string (acc s : string) : string :=
  match s with
  | EmptyString => acc
  | String c s' => rev_string (String c acc) s'
  end.

Fixpoint trim_left (f : Ascii.ascii → bool) (s : string) : string :=
  match s with
  | String c s' => if f c then trim_left f s' else s
  | EmptyString => ""
  end.

Definition trim_right (f : Ascii.ascii → bool) (s : string) : string :=
  rev_string "" (trim_left f (rev_string "" s)).

(** The white space of [unicode.IsSpace] that is two or three bytes of UTF-8:
    U+0085 and U+00A0; U+1680, U+2000 to U+200A, U+2028, U+2029, U+202F, U+205F
    and U+3000. *)
Definition is_space2 (c d : Ascii.ascii) : bool :=
  let n := Ascii.nat_of_ascii d in
  (Ascii.nat_of_ascii c =? 194)%nat && ((n =? 133)%nat || (n =? 160)%nat).

Definition is_space3 (c d e : Ascii.ascii) : bool :=
  let x := Ascii.nat_of_ascii c in
  let y := Ascii.nat_of_ascii d in
  let n := Ascii.nat_of_ascii e in
  (x =? 225)%nat && (y =? 154)%nat && (n =? 128)%nat ||
  (x =? 226)%nat && (y =? 128)%nat &&
    ((128 <=? n)%nat && (n <=? 138)%nat || (n =? 168)%nat || (n =? 169)%nat || (n =? 175)%nat) ||
  (x =? 226)%nat && (y =? 129)%nat && (n =? 159)%nat ||
  (x =? 227)%nat && (y =? 128)%nat && (n =? 128)%nat.

(** Dropping leading white space, the bytes of each rune given in the order
    [two] and [three] read them. *)
Fixpoint skip_space (two : Ascii.ascii → Ascii.ascii → bool)
    (three : Ascii.ascii → Ascii.ascii → Ascii.ascii → bool) (s : string) : string :=
  match s with
  | EmptyString => ""
  | String c s1 =>
      if is_space c then skip_space two three s1
      else
      match s1 with
      | EmptyString => s
      | String d s2 =>
          if two c d then skip_space two three s2
          else
          match s2 with
          | EmptyString => s
          | String e s3 => if three c d e then skip_space two three s3 else s
          end
      end
  end.

(** [strings.TrimSpace]: the runes at the end are read backwards. *)
Definition TrimSpace (s : string) : string :=
  rev_string ""
    (skip_space (λ d c, is_space2 c d) (λ e d c, is_space3 c d e)
       (rev_string "" (skip_space is_space2 is_space3 s))).

(** [unicode.ToLower] where its result is ASCII: the letters A to Z, and the two
    runes outside ASCII with an ASCII lower case, U+0130 (i) and U+212A (k). *)
Definition to_lower_ascii (c : Ascii.ascii) : Ascii.ascii :=
  let n := Ascii.nat_of_ascii c in
  if (65 <=? n)%nat && (n <=? 90)%nat then Ascii.ascii_of_nat (n + 32) else c.

(** [strings.ToLower] when the result is ASCII, [None] when it is not: what a
    comparison with an ASCII string can see of it. *)
Fixpoint ToLower (s : string) : option string :=
  match s with
  | EmptyString => Some ""
  | String c s1 =>
      if (Ascii.nat_of_ascii c <? 128)%nat then String (to_lower_ascii c) <$> ToLower s1
      else
      match s1 with
      | EmptyString => None
      | String d s2 =>
          if (Ascii.nat_of_ascii c =? 196)%nat && (Ascii.nat_of_ascii d =? 176)%nat
          then String "i" <$> ToLower s2
          else
          match s2 with
          | EmptyString => None
          | String e s3 =>
              if (Ascii.nat_of_ascii c =? 226)%nat && (Ascii.nat_of_ascii d =? 132)%nat &&
                 (Ascii.nat_of_ascii e =? 170)%nat
              then String "k" <$> ToLower s3 else None
          end
      end
  end.

(** Appending and reversing. *)
Lemma append_assoc (a b c : string) : (a +:+ b) +:+ c = a +:+ (b +:+ c).
Proof. induction a as [|x a IH]; [done|]. exact (f_equal (String x) IH). Qed.

Lemma append_empty_r (a : string) : a +:+ "" = a.
Proof. induction a as [|x a IH]; [done|]. exact (f_equal (String x) IH). Qed.

Lemma length_append (a b : string) :
  String.length (a +:+ b) = (String.length a + String.length b)%nat.
Proof. induction a as [|x a IH]; [done|]. exact (f_equal S IH). Qed.

Lemma rev_string_app acc s : rev_string acc s = rev_string "" s +:+ acc.
Proof.
  revert acc. induction s as [|c s IH]; intros acc; simpl; [done|].
  rewrite (IH (String c acc)), (IH (String c "")). by rewrite append_assoc.
Qed.

(** ** fmt *)

(** [strconv.Quote] (the [%q] verb). *)
Definition hex_digit (n : nat) : Ascii.ascii :=
  Ascii.ascii_of_nat (if (n <? 10)%nat then 48 + n else 87 + n).

Definition quote_char (c : Ascii.ascii) : string :=
  let n := Ascii.nat_of_ascii c in
  match n with
  | 34%nat => "\" +:+ String c ""
  | 92%nat => "\\"
  | 7%nat => "\a" | 8%nat => "\b" | 12%nat => "\f" | 10%nat => "\n"
  | 13%nat => "\r" | 9%nat => "\t" | 11%nat => "\v"
  | _ => if (n <? 32)%nat || (n =? 127)%nat
         then "\x" +:+ String (hex_digit (n / 16)) (String (hex_digit (n mod 16)) "")
         else String c ""
  end.

Definition dquote : string := String (Ascii.ascii_of_nat 34) "".

Fixpoint quote_body (s : string) : string :=
  match s with
  | EmptyString => ""
  | String c s' => quote_char c +:+ quote_body s'
  end.

Definition Quote (s : string) : string := dquote +:+ quote_body s +:+ dquote.

(** [Duration.String]: [fmtFrac] prints [v / 10^prec] as a fraction without
    trailing zeros and returns the integer part. *)
Fixpoint fmt_frac (prec : nat) (print : bool) (v : Z) (acc : string) : string * Z :=
  match prec with
  | O => ((if print then "." +:+ acc else acc), v)
  | S n =>
      let digit := v mod 10 in
      let print := print || negb (digit =? 0) in
      fmt_frac n print (v / 10) (if print then pretty digit +:+ acc else acc)
  end.

Definition duration_string (d : Duration) : string :=
  let u := Z.abs d in
  let sign := if d <? 0 then "-" else "" in
  let body :=
    if u <? Second then
      if u =? 0 then "0s"
      else
        let '(prec, unit) :=
          if u <? 1000 then (0%nat, "ns")
          else if u <? 1000000 then (3%nat, "µs") else (6%nat, "ms") in
        let '(f, n) := fmt_frac prec false u "" in pretty n +:+ f +:+ unit
    else
      let '(f, secs) := fmt_frac 9 false u "" in
      let s := pretty (secs mod 60) +:+ f +:+ "s" in
      let mins := secs / 60 in
      if mins =? 0 then s
      else
        let s := pretty (mins mod 60) +:+ "m" +:+ s in
        let hours := mins / 60 in
        if hours =? 0 then s else pretty hours +:+ "h" +:+ s
  in sign +:+ body.

(** The operands the program formats: strings, integers, durations and error
    values (printed by their message). *)
Inductive arg : Type :=
| AStr (s : string)
| AInt (z : Z)
| ADur (d : Duration)
| AErr (msg : string).

Definition render (verb : Ascii.ascii) (a : arg) : string :=
  match a with
  | AStr s => if decide (verb = "q"%char) then Quote s else s
  | AInt z => pretty z
  | ADur d => duration_string d
  | AErr m => m
  end.

Fixpoint Sprintf (fmt : string) (args : list arg) : string :=
  match fmt with
  | EmptyString => ""
  | String "%"%char (String v rest) =>
      if decide (v = "%"%char) then String v (Sprintf rest args)
      else match args with
           | [] => "%!" +:+ String v ("(MISSING)" +:+ Sprintf rest [])
           | a :: args' => render v a +:+ Sprintf rest args'
           end
  | String c rest => String c (Sprintf rest args)
  end.

Arguments Sprintf : simpl never.
Arguments Quote : simpl never.

(** ** Errors

    The part of an API error the program inspects is its status reason
    ([apierrors.IsNotFound], [IsInvalid], [IsTooManyRequests] look through
    wrapping); an error of another origin has reason [ReasonUnknown]. *)

Inductive status_reason : Type :=
| ReasonNotFound | ReasonInvalid | ReasonTooManyRequests | ReasonConflict | ReasonUnknown.

#[global] Instance status_reason_eq_dec : EqDecision status_reason.
Proof. solve_decision. Defined.

Record error : Type := MkError { err_reason : status_reason; err_msg : string }.

Definition IsNotFound (e : error) : bool := bool_decide (err_reason e = ReasonNotFound).
Definition IsInvalid (e : error) : bool := bool_decide (err_reason e = ReasonInvalid).
Definition IsTooManyRequests (e : error) : bool :=
  bool_decide (err_reason e = ReasonTooManyRequests).

(** [fmt.Errorf] with the wrapped error as the last operand: [%w] keeps the
    chain, so the reason survives. *)
Definition Errorf (fmt : string) (args : list arg) (e : error) : error :=
  MkError (err_reason e) (Sprintf fmt (args ++ [AErr (err_msg e)])).

(** [fmt.Errorf] and [errors.New] without a wrapped error. *)
Definition NewErrorf (fmt : string) (args : list arg) : error :=
  MkError ReasonUnknown (Sprintf fmt args).

(** ** Iteration over a map

    [for k, v := range m] visits every entry once in an order the language
    leaves open.  The order is a parameter; its only law is that the visited
    entries are the map's. *)
Class MapRange : Type := {
  map_range {A : Type} : gmap string A → list (string * A);
  map_range_perm {A : Type} (m : gmap string A) : map_range m ≡ₚ map_to_list m;
}.

(** Writing every entry of [src] into [dst]:
    [for k, v := range src { dst[k] = v }]. *)
Definition overlay `{!MapRange} {A} (dst src : gmap string A) : gmap string A :=
  foldl (λ acc kv, <[kv.1 := kv.2]> acc) dst (map_range src).

Lemma foldl_insert_lookup {A} (l : list (string * A)) (acc : gmap string A) k :
  NoDup l.*1 →
  foldl (λ acc kv, <[kv.1 := kv.2]> acc) acc l !! k =
    match (list_to_map l : gmap string A) !! k with Some v => Some v | None => acc !! k end.
Proof.
  revert acc. induction l as [|[k' v] l IH]; intros acc Hnd; simpl.
  { by rewrite lookup_empty. }
  apply NoDup_cons in Hnd as [Hk Hnd]. rewrite IH by done.
  destruct (decide (k = k')) as [->|Hne].
  - rewrite lookup_insert_eq. rewrite not_elem_of_list_to_map_1 by done.
    by rewrite lookup_insert_eq.
  - by rewrite !lookup_insert_ne by done.
Qed.

(** The iteration order does not matter: the result is the left-biased union. *)
Lemma overlay_union `{!MapRange} {A} (dst src : gmap string A) :
  overlay dst src = src ∪ dst.
Proof.
  apply map_eq. intros k. unfold overlay.
  assert (NoDup (map_range src).*1) as Hnd.
  { rewrite map_range_perm. apply NoDup_fst_map_to_list. }
  rewrite foldl_insert_lookup by done.
  rewrite (list_to_map_proper _ (map_to_list src)) by (done || apply map_range_perm).
  rewrite list_to_map_to_list, lookup_union.
  by destruct (src !! k), (dst !! k).
Qed.
