(* ===== verification/Text.v ===== *)
(** * White space

    What [strings.TrimSpace] does, for the flags and secrets the programs trim:
    it takes off white space at both ends and nothing else, and white space
    around a string does not change its result. *)

From S2P Require Import Prelude GoStd.
From Stdlib Require Import Ascii.

Local Open Scope nat_scope.

(** Strings of white space runes, given which pairs and triples of bytes are one. *)
Section runs.
Variable two : ascii → ascii → bool.
Variable three : ascii → ascii → ascii → bool.

Inductive runs : string → Prop :=
| runs_nil : runs ""
| runs_one c s : is_space c = true → runs s → runs (String c s)
| runs_two c d s : two c d = true → runs s → runs (String c (String d s))
| runs_three c d e s : three c d e = true → runs s → runs (String c (String d (String e s))).

Lemma runs_app p q : runs p → runs q → runs (p +:+ q).
Proof. induction 1; intros; [done|apply runs_one|apply runs_two|apply runs_three]; auto. Qed.

(** What is skipped is white space. *)
Lemma skip_split s : ∃ p, s = p +:+ skip_space two three s ∧ runs p.
Proof.
  remember (String.length s) as n eqn:Hn. revert s Hn.
  induction (lt_wf n) as [n _ IH]; intros s ->.
  assert (∀ s', String.length s' < String.length s →
    ∃ p, s' = p +:+ skip_space two three s' ∧ runs p) as Hs by (intros s' Hl; by apply (IH _ Hl)).
  assert (∃ p, s = p +:+ s ∧ runs p) as Hstop by (exists ""; split; [done|constructor]).
  destruct s as [|c s1]; [exact Hstop|]. cbn [skip_space]. destruct (is_space c) eqn:Hc.
  { destruct (Hs s1) as (p & Hp & ?); [simpl; lia|]. exists (String c p). split; [|by apply runs_one].
    exact (f_equal (String c) Hp). }
  destruct s1 as [|d s2]; [exact Hstop|]. destruct (two c d) eqn:H2.
  { destruct (Hs s2) as (p & Hp & ?); [simpl; lia|]. exists (String c (String d p)).
    split; [|by apply runs_two]. exact (f_equal (λ x, String c (String d x)) Hp). }
  destruct s2 as [|e s3]; [exact Hstop|]. destruct (three c d e) eqn:H3; [|exact Hstop].
  destruct (Hs s3) as (p & Hp & ?); [simpl; lia|]. exists (String c (String d (String e p))).
  split; [|by apply runs_three]. exact (f_equal (λ x, String c (String d (String e x))) Hp).
Qed.

(** The bytes tell the three lengths of a rune apart. *)
Hypothesis two_not_one : ∀ c d, two c d = true → is_space c = false.
Hypothesis three_not_shorter : ∀ c d e, three c d e = true → is_space c = false ∧ two c d = false.

Lemma skip_runs p s : runs p → skip_space two three (p +:+ s) = skip_space two three s.
Proof.
  induction 1 as [|c p Hc _ IH|c d p H2 _ IH|c d e p H3 _ IH]; [done|..]; simpl.
  - by rewrite Hc.
  - rewrite (two_not_one _ _ H2). by rewrite H2.
  - destruct (three_not_shorter _ _ _ H3) as [-> ->]. by rewrite H3.
Qed.
End runs.

Definition white : string → Prop := runs is_space2 is_space3.
Definition white_back : string → Prop := runs (λ d c, is_space2 c d) (λ e d c, is_space3 c d e).
Definition skip : string → string := skip_space is_space2 is_space3.
Definition skip_back : string → string :=
  skip_space (λ d c, is_space2 c d) (λ e d c, is_space3 c d e).

(** ** The bytes of white space *)

Lemma is_space_code c : is_space c = true → nat_of_ascii c = 32 ∨ 9 ≤ nat_of_ascii c ≤ 13.
Proof.
  unfold is_space. rewrite orb_true_iff, andb_true_iff, Nat.eqb_eq, !Nat.leb_le. lia.
Qed.

Lemma is_space2_code c d :
  is_space2 c d = true → nat_of_ascii c = 194 ∧ (nat_of_ascii d = 133 ∨ nat_of_ascii d = 160).
Proof. unfold is_space2. rewrite andb_true_iff, orb_true_iff, !Nat.eqb_eq. lia. Qed.

Lemma is_space3_code c d e :
  is_space3 c d e = true →
  225 ≤ nat_of_ascii c ≤ 227 ∧
  (nat_of_ascii d = 154 ∨ nat_of_ascii d = 128 ∨ nat_of_ascii d = 129) ∧
  128 ≤ nat_of_ascii e ≤ 175.
Proof.
  unfold is_space3. rewrite ?orb_true_iff, ?andb_true_iff, ?orb_true_iff, ?andb_true_iff,
    ?Nat.eqb_eq, ?Nat.leb_le. lia.
Qed.

Lemma not_space c : 33 ≤ nat_of_ascii c → is_space c = false.
Proof. intros. apply not_true_is_false. intros ?%is_space_code. lia. Qed.

Lemma not_space2 c d : nat_of_ascii c ≠ 194 → is_space2 c d = false.
Proof. intros. apply not_true_is_false. intros ?%is_space2_code. lia. Qed.

Lemma skip_white p s : white p → skip (p +:+ s) = skip s.
Proof.
  apply skip_runs.
  - intros c d H%is_space2_code. apply not_space. lia.
  - intros c d e H%is_space3_code. split; [apply not_space|apply not_space2]; lia.
Qed.

Lemma skip_white_back p s : white_back p → skip_back (p +:+ s) = skip_back s.
Proof.
  apply skip_runs.
  - intros c d H%is_space2_code. apply not_space. lia.
  - intros c d e H%is_space3_code. split; [apply not_space|apply not_space2]; lia.
Qed.

Lemma rev_string_cons c s : rev_string "" (String c s) = rev_string "" s +:+ String c "".
Proof. exact (rev_string_app (String c "") s). Qed.

Lemma rev_append a b : rev_string "" (a +:+ b) = rev_string "" b +:+ rev_string "" a.
Proof.
  induction a as [|c a IH]; [symmetry; apply append_empty_r|].
  change (String c a +:+ b) with (String c (a +:+ b)).
  rewrite !rev_string_cons, IH. apply append_assoc.
Qed.

Lemma rev_involutive s : rev_string "" (rev_string "" s) = s.
Proof.
  induction s as [|c s IH]; [done|]. rewrite rev_string_cons, rev_append, IH. done.
Qed.

(** White space is white space read backwards. *)
Lemma white_rev p : white p → white_back (rev_string "" p).
Proof.
  induction 1; [constructor|..]; rewrite !rev_string_cons, ?append_assoc;
    (apply runs_app; [done|]); [apply runs_one|apply runs_two|apply runs_three]; done || apply runs_nil.
Qed.

Lemma back_rev p : white_back p → white (rev_string "" p).
Proof.
  induction 1; [constructor|..]; rewrite !rev_string_cons, ?append_assoc;
    (apply runs_app; [done|]); [apply runs_one|apply runs_two|apply runs_three]; done || apply runs_nil.
Qed.

(** A rune of white space starts with no continuation byte. *)
Lemma white_head c s : white (String c s) → nat_of_ascii c < 128 ∨ 192 ≤ nat_of_ascii c.
Proof.
  inversion 1 as [|? ? Hc|? ? ? Hc|? ? ? ? Hc];
    first [apply is_space_code in Hc|apply is_space2_code in Hc|apply is_space3_code in Hc]; lia.
Qed.

(** White space after what is left does not change what is skipped. *)
Lemma skip_app s q : white q → skip s ≠ "" → skip (s +:+ q) = skip s +:+ q.
Proof.
  intros Hq. assert (∀ c q', q = String c q' → nat_of_ascii c < 128 ∨ 192 ≤ nat_of_ascii c) as Hh
    by (intros c q' ->; by eapply white_head).
  remember (String.length s) as n eqn:Hn. revert s Hn.
  induction (lt_wf n) as [n _ IH]; intros s -> Hs.
  assert (∀ s', String.length s' < String.length s → skip s' ≠ "" →
    skip (s' +:+ q) = skip s' +:+ q) as Hr by (intros s' Hl; by apply (IH _ Hl)). clear IH.
  assert (∀ c d, (∃ q', q = String d q') → is_space2 c d = false) as H2.
  { intros c d [q' ->]. apply not_true_is_false. intros ?%is_space2_code.
    destruct (Hh d q'); [done|lia..]. }
  assert (∀ c d e, (∃ q', q = String d q' ∨ q = String e q') → is_space3 c d e = false) as H3.
  { intros c d e [q' Hc]. apply not_true_is_false. intros ?%is_space3_code.
    destruct Hc as [Hc|Hc]; destruct (Hh _ q' Hc); lia. }
  unfold skip in *. destruct s as [|c s1]; [done|]. simpl in Hs |- *. destruct (is_space c) eqn:Hc.
  { apply Hr; [simpl; lia|done]. }
  destruct s1 as [|d s2]; simpl in Hs |- *.
  { destruct q as [|x [|y q]]; [done|..]; simpl; rewrite H2 by eauto; [done|]. by rewrite H3 by eauto. }
  destruct (is_space2 c d) eqn:Hcd; [apply Hr; [simpl; lia|done]|].
  destruct s2 as [|e s3]; simpl in Hs |- *.
  { destruct q as [|x q]; [done|]. simpl. by rewrite H3 by eauto. }
  destruct (is_space3 c d e); [apply Hr; [simpl; lia|done]|done].
Qed.

Lemma skip_white_all p : white p → skip p = "".
Proof. intros Hp. rewrite <- (append_empty_r p). by rewrite skip_white. Qed.

(** White space around a string is not seen. *)
Lemma TrimSpace_around p s q : white p → white q → TrimSpace (p +:+ s +:+ q) = TrimSpace s.
Proof.
  intros Hp Hq. unfold TrimSpace. fold skip skip_back. rewrite skip_white by done.
  destruct (decide (skip s = "")) as [Hs|Hs].
  - destruct (skip_split is_space2 is_space3 s) as (p' & Hsp & Hw). fold skip in Hsp.
    rewrite Hs, append_empty_r in Hsp. subst p'.
    rewrite (skip_white_all (s +:+ q)) by (by apply runs_app). by rewrite Hs.
  - rewrite skip_app by done. rewrite rev_append, skip_white_back by (by apply white_rev). done.
Qed.

(** What is taken off is white space. *)
Lemma TrimSpace_split s : ∃ p q, s = p +:+ TrimSpace s +:+ q ∧ white p ∧ white q.
Proof.
  destruct (skip_split is_space2 is_space3 s) as (p & Hp & Hwp). fold skip in Hp.
  destruct (skip_split (λ d c, is_space2 c d) (λ e d c, is_space3 c d e) (rev_string "" (skip s)))
    as (q & Hq & Hwq). fold skip_back in Hq.
  exists p, (rev_string "" q). split_and!; [|done|by apply back_rev].
  unfold TrimSpace. fold skip skip_back. rewrite <- rev_append, <- Hq, rev_involutive. done.
Qed.
