(* ===== verification/Logging.v ===== *)
(** * internal/logging

    The level flag ([ParseLevel]), the renaming of the top-level keys
    ([ecsKeys]) and the handler options [New] fills in. *)

From S2P Require Import Prelude GoStd Text.
From Stdlib Require Import Ascii.

Local Open Scope Z_scope.

(** [slog.Level] is an integer; [slog.HandlerOptions] with a nil [Level] means
    Info. *)
Definition LevelDebug : Z := -4.
Definition LevelInfo : Z := 0.
Definition LevelWarn : Z := 4.
Definition LevelError : Z := 8.

Definition TimeKey : string := "time".
Definition LevelKey : string := "level".
Definition MessageKey : string := "msg".

(** An attribute; its value is not looked at. *)
Record Attr (V : Type) : Type := MkAttr { Attr_Key : string; Attr_Value : V }.
Arguments MkAttr {V} Attr_Key Attr_Value.
Arguments Attr_Key {V} a.
Arguments Attr_Value {V} a.

Definition ecsKeys {V} (groups : list string) (a : Attr V) : Attr V :=
  match groups with
  | _ :: _ => a
  | [] =>
      if decide (Attr_Key a = TimeKey) then MkAttr "@timestamp" (Attr_Value a)
      else if decide (Attr_Key a = LevelKey) then MkAttr "log.level" (Attr_Value a)
      else if decide (Attr_Key a = MessageKey) then MkAttr "message" (Attr_Value a)
      else a
  end.

Definition ParseLevel (s : string) : result error Z :=
  let l := ToLower (TrimSpace s) in
  if decide (l = Some "debug") then Ok LevelDebug
  else if decide (l = Some "info") then Ok LevelInfo
  else if decide (l = Some "warn") then Ok LevelWarn
  else if decide (l = Some "error") then Ok LevelError
  else Err (NewErrorf "logging: unknown level %q (want debug|info|warn|error)" [AStr s]).

(** [Options]; [Output] is the writer, nil or named. *)
Record Options : Type := MkOptions {
  Opt_Level : option Z;
  Opt_Output : option string;
  Opt_AddSource : bool;
}.

Record JSONHandler : Type := MkJSONHandler {
  Handler_out : string;
  Handler_Level : option Z;
  Handler_AddSource : bool;
  Handler_ReplaceAttr : ∀ V, list string → Attr V → Attr V;
}.

Definition New (opts : Options) : JSONHandler :=
  MkJSONHandler (default "stdout" (Opt_Output opts)) (Opt_Level opts) (Opt_AddSource opts)
    (@ecsKeys).

(** [slog.JSONHandler.Enabled]: whether a record of the level is written. *)
Definition Enabled (h : JSONHandler) (l : Z) : bool := default LevelInfo (Handler_Level h) <=? l.

(** ** Theorems *)

(** The canonical name of a level. *)
Definition level_name (l : Z) : option string :=
  if decide (l = LevelDebug) then Some "debug"
  else if decide (l = LevelInfo) then Some "info"
  else if decide (l = LevelWarn) then Some "warn"
  else if decide (l = LevelError) then Some "error"
  else None.

Lemma ToLower_cons w x y :
  ToLower w = Some (String x y) →
  (∃ c w', w = String c w' ∧ to_lower_ascii c = x ∧ (nat_of_ascii c < 128)%nat ∧ ToLower w' = Some y) ∨
  (∃ c d w', w = String c (String d w') ∧ x = "i"%char ∧ nat_of_ascii c = 196%nat ∧
     nat_of_ascii d = 176%nat ∧ ToLower w' = Some y) ∨
  (x = "k"%char).
Proof.
  destruct w as [|c w1]; [done|]. cbn [ToLower].
  destruct (nat_of_ascii c <? 128)%nat eqn:Hc.
  { destruct (ToLower w1) eqn:E; [|done]. intros [= <- <-]. left. exists c, w1.
    apply Nat.ltb_lt in Hc. done. }
  destruct w1 as [|d w2]; [done|]. destruct (_ && _) eqn:Hcd.
  { destruct (ToLower w2) eqn:E; [|done]. intros [= <- <-]. right; left. exists c, d, w2.
    apply andb_true_iff in Hcd as [?%Nat.eqb_eq ?%Nat.eqb_eq]. done. }
  destruct w2 as [|e w3]; [done|]. destruct (_ && _ && _) eqn:Hce; [|done].
  destruct (ToLower w3); [|done]. intros [= <- <-]. by right; right.
Qed.

Lemma ToLower_nil w : ToLower w = Some "" → w = "".
Proof.
  destruct w as [|c w1]; [done|]. cbn [ToLower].
  repeat (case_match; try done); by intros (? & ? & ?)%fmap_Some.
Qed.

(** The spellings of a letter. *)
Lemma letter_spellings x c :
  to_lower_ascii c = x → c = x ∨ c = ascii_of_nat (nat_of_ascii x - 32).
Proof. intros <-. destruct c as [[] [] [] [] [] [] [] []]; vm_compute; auto. Qed.

(** Spell out every string whose lower case is a given name. *)
Ltac spell :=
  repeat match goal with
  | H : ToLower ?w = Some "" |- _ => apply ToLower_nil in H; subst w
  | H : ToLower ?w = Some (String _ _) |- _ =>
      let Hx := fresh in
      apply ToLower_cons in H as
        [(? & ? & -> & [->| ->]%letter_spellings & _ & H)|[(? & ? & ? & -> & Hx & ? & ? & H)|Hx]];
      try discriminate Hx; try clear Hx
  | H : nat_of_ascii ?c = _ |- _ =>
      apply (f_equal ascii_of_nat) in H; rewrite ascii_nat_embedding in H; subst c
  end.

Lemma level_name_trimmed l w name : level_name l = Some name → ToLower w = Some name → TrimSpace w = w.
Proof.
  unfold level_name. intros Hn Hw. repeat case_decide; simplify_eq; spell; vm_compute; reflexivity.
Qed.

(** The level flag: a string is accepted exactly when, white space at both
    ends aside, its lower case is one of the four names, and it means that
    level; anything else is an error that quotes the flag. *)
Theorem ParseLevel_accepts s :
  match ParseLevel s with
  | Ok l => ∃ p w q, s = p +:+ w +:+ q ∧ white p ∧ white q ∧ ToLower w = level_name l ∧ is_Some (level_name l)
  | Err e =>
      e = NewErrorf "logging: unknown level %q (want debug|info|warn|error)" [AStr s] ∧
      ∀ p w q l name, s = p +:+ w +:+ q → white p → white q → level_name l = Some name →
        ToLower w ≠ Some name
  end.
Proof.
  destruct (ParseLevel s) as [l|e] eqn:E; unfold ParseLevel in E.
  - destruct (TrimSpace_split s) as (p & q & Hs & Hp & Hq). exists p, (TrimSpace s), q.
    repeat case_decide; simplify_eq; eauto 10.
  - split; [by repeat case_decide; simplify_eq|]. intros p w q l name -> Hp Hq Hl Hw.
    rewrite TrimSpace_around, (level_name_trimmed _ _ _ Hl Hw), Hw in E by done.
    unfold level_name in Hl. repeat case_decide; simplify_eq.
Qed.

(** Nested attributes keep their keys; at the root the three keys of slog
    become those of the Elastic Common Schema, and no value changes. *)
Lemma ecsKeys_spec {V} groups (a : Attr V) :
  Attr_Value (ecsKeys groups a) = Attr_Value a ∧
  (groups ≠ [] → ecsKeys groups a = a) ∧
  (groups = [] → Attr_Key (ecsKeys groups a) ∉ [TimeKey; LevelKey; MessageKey]).
Proof.
  destruct groups as [|g gs]; simpl; [|done]. repeat case_decide; simpl;
    (split_and!; [done..|]); intros _; rewrite !not_elem_of_cons; (split_and!; done || apply not_elem_of_nil).
Qed.
