(* ===== verification/Prog.v ===== *)
(** * Programs that call the outside world

    A reconciler is a sequential Go function that computes between calls it
    makes on objects it does not own: the API server through the client, the
    clock, the event recorder, the metrics, the network, the host.  [prog] is
    that shape: a tree of calls, each with a continuation for every response.
    Nothing is fixed about the responses, so what is proved about the runs of a
    [prog] holds against every API server, every clock and every interleaving
    with other writers.

    [exec p t a] says that [p] returns [a] after the calls and responses of
    [t].  [wp] is the program logic the component files use: it checks every
    call against the history before it. *)

From S2P Require Import Prelude GoStd.

(** The calls of a program and the type of each response. *)
Class Signature : Type := {
  call : Type;
  resp : call → Type;
}.

Section prog.
Context {S : Signature}.

Inductive prog (A : Type) : Type :=
| Ret (a : A)
| Call (c : call) (k : resp c → prog A).

(** One call together with its response, and a run's calls in order. *)
Record event : Type := Ev { ev_call : call; ev_resp : resp ev_call }.
Definition trace : Type := list event.
End prog.
Arguments Ret {S A} a.
Arguments Call {S A} c k.
Arguments Ev {S} ev_call ev_resp.

Fixpoint bind {S : Signature} {A B} (p : prog A) (f : A → prog B) : prog B :=
  match p with
  | Ret a => f a
  | Call c k => Call c (λ r, bind (k r) f)
  end.

(** One call. *)
Definition do {S : Signature} (c : call) : prog (resp c) := Call c Ret.

(** Go's [if err != nil { return ..., err }]. *)
Definition rbind {S : Signature} {A B} (p : prog (result error A))
    (f : A → prog (result error B)) : prog (result error B) :=
  bind p (λ r, match r with Ok a => f a | Err e => Ret (Err e) end).

Notation "'let!' x ':=' p 'in' k" := (bind p (λ x, k))
  (at level 10, x binder, p at level 100, k at level 200).
Notation "'let?' x ':=' p 'in' k" := (rbind p (λ x, k))
  (at level 10, x binder, p at level 100, k at level 200).

(** [return x, nil] and [return ..., fmt.Errorf("...: %w", ..., err)]. *)
Definition ok {S : Signature} {A} (a : A) : prog (result error A) := Ret (Ok a).
Definition fail {S : Signature} {A} (e : error) : prog (result error A) := Ret (Err e).
Definition wrapf {S : Signature} {A} (fmt : string) (args : list arg)
    (p : prog (result error A)) : prog (result error A) :=
  bind p (λ r, match r with Ok a => ok a | Err e => fail (Errorf fmt args e) end).

(** A [for range] loop whose body may return early from the function. *)
Fixpoint for_each {S : Signature} {A} (l : list A)
    (body : A → prog (result error unit)) : prog (result error unit) :=
  match l with
  | [] => ok tt
  | x :: l' => let? _ := body x in for_each l' body
  end.

(** A [for range] loop that also updates local variables. *)
Fixpoint foldM {S : Signature} {A B} (f : B → A → prog (result error B)) (b : B) (l : list A)
    : prog (result error B) :=
  match l with
  | [] => ok b
  | x :: l' => let? b' := f b x in foldM f b' l'
  end.

(** ** Runs *)

Section exec.
Context {S : Signature} {A : Type}.

Inductive exec : prog A → trace → A → Prop :=
| exec_ret a : exec (Ret a) [] a
| exec_call c k r t a : exec (k r) t a → exec (Call c k) (Ev c r :: t) a.

(** Running against a handler that answers every call from a state. *)
Fixpoint run {W} (h : ∀ c, W → resp c * W) (p : prog A) (w : W) : trace * A * W :=
  match p with
  | Ret a => ([], a, w)
  | Call c k =>
      let '(r, w) := h c w in
      let '(t, a, w) := run h (k r) w in (Ev c r :: t, a, w)
  end.

Definition run_trace {W} (h : ∀ c, W → resp c * W) p w : trace := (run h p w).1.1.
Definition run_value {W} (h : ∀ c, W → resp c * W) p w : A := (run h p w).1.2.
Definition run_world {W} (h : ∀ c, W → resp c * W) p w : W := (run h p w).2.

Lemma run_exec {W} (h : ∀ c, W → resp c * W) p w :
  exec p (run_trace h p w) (run_value h p w).
Proof.
  unfold run_trace, run_value. revert w.
  induction p as [a|c k IH]; intros w; simpl; [constructor|].
  destruct (h c w) as [r w']. specialize (IH r w').
  destruct (run h (k r) w') as [[t a] w'']. by constructor.
Qed.
(** The first event of a run. *)
Lemma run_first {W} (h : ∀ c, W → resp c * W) c k w :
  Ev c (h c w).1 ∈ run_trace h (Call c k) w.
Proof.
  unfold run_trace. simpl. destruct (h c w) as [r w']. destruct (run h (k r) w') as [[t a] w''].
  left.
Qed.
End exec.

Lemma exec_bind {S : Signature} {A B} (p : prog A) (f : A → prog B) t1 t2 a b :
  exec p t1 a → exec (f a) t2 b → exec (bind p f) (t1 ++ t2) b.
Proof. induction 1; intros H2; [done|]. simpl. constructor. auto. Qed.

Lemma exec_inv {S : Signature} {A} (p : prog A) t a :
  exec p t a →
  match p with
  | Ret a' => t = [] ∧ a = a'
  | Call c k => ∃ r t', t = Ev c r :: t' ∧ exec (k r) t' a
  end.
Proof. destruct 1; eauto. Qed.

Lemma exec_ret_inv {S : Signature} {A} (a a' : A) t : exec (Ret a) t a' → t = [] ∧ a' = a.
Proof. exact (exec_inv (Ret a) t a'). Qed.

Lemma exec_bind_inv {S : Signature} {A B} (p : prog A) (f : A → prog B) t b :
  exec (bind p f) t b → ∃ t1 t2 a, t = t1 ++ t2 ∧ exec p t1 a ∧ exec (f a) t2 b.
Proof.
  revert t. induction p as [a|c k IH]; intros t Hx; simpl in Hx.
  { exists [], t, a. split_and!; [done|constructor|done]. }
  destruct (exec_inv _ _ _ Hx) as (r & t' & -> & Hx').
  destruct (IH r t' Hx') as (t1 & t2 & a & -> & ? & ?).
  exists (Ev c r :: t1), t2, a. split_and!; [done|by constructor|done].
Qed.

Lemma exec_rbind_inv {S : Signature} {A B} (p : prog (result error A))
    (f : A → prog (result error B)) t b :
  exec (rbind p f) t (Ok b) → ∃ t1 t2 a, t = t1 ++ t2 ∧ exec p t1 (Ok a) ∧ exec (f a) t2 (Ok b).
Proof.
  intros (t1 & t2 & [a|e] & -> & H1 & H2)%exec_bind_inv; [by exists t1, t2, a|].
  by apply exec_ret_inv in H2 as [_ ?].
Qed.

Lemma exec_wrapf_inv {S : Signature} {A} fmt args (p : prog (result error A)) t a :
  exec (wrapf fmt args p) t (Ok a) → exec p t (Ok a).
Proof.
  intros (t1 & t2 & [a'|e] & -> & H1 & H2)%exec_bind_inv; apply exec_ret_inv in H2 as [-> [= ->]].
  by rewrite app_nil_r.
Qed.

Lemma exec_do_inv {S : Signature} (c : call) t a : exec (do c) t a → t = [Ev c a].
Proof.
  intros Hx. destruct (exec_inv (do c) t a Hx) as (r & t' & -> & [-> ->]%exec_ret_inv). done.
Qed.

(** ** The program logic

    [wp rely permitted h p Q]: started after the history [h] (newest event
    first), in an environment whose responses satisfy [rely], every call [p]
    makes is [permitted] by the history before it, and if [p] returns [a] with
    history [h'] then [Q h' a].  With [anything] for [rely] the environment is
    unconstrained. *)

Definition anything {S : Signature} : event → Prop := λ _, True.

Section wp.
Context {S : Signature}.

Fixpoint wp {A} (rely : event → Prop) (permitted : trace → call → Prop) (h : trace)
    (p : prog A) (Q : trace → A → Prop) : Prop :=
  match p with
  | Ret a => Q h a
  | Call c k =>
      permitted h c ∧
      ∀ r, rely (Ev c r) → wp rely permitted (Ev c r :: h) (k r) Q
  end.

(** Every call of [p] is permitted wherever [p] runs: it gathers itself
    whatever evidence its calls need. *)
Definition obeys {A} (rely : event → Prop) (permitted : trace → call → Prop)
    (p : prog A) : Prop :=
  ∀ h, wp rely permitted h p (λ _ _, True).

(** Every call of [p] satisfies [P], independently of what happened before. *)
Definition emits {A} (rely : event → Prop) (P : call → Prop) (p : prog A) : Prop :=
  obeys rely (λ _ c, P c) p.

Implicit Types permitted : trace → call → Prop.
Implicit Types R : event → Prop.

Lemma wp_mono {A} R R' permitted permitted' h (p : prog A) (Q Q' : trace → A → Prop) :
  (∀ e, R' e → R e) → (∀ h c, permitted h c → permitted' h c) →
  (∀ h a, Q h a → Q' h a) → wp R permitted h p Q → wp R' permitted' h p Q'.
Proof.
  intros HR Hp HQ. revert h. induction p as [a|c k IH]; simpl; intros h; [by apply HQ|].
  intros [??]. split; [by apply Hp|]. auto.
Qed.

Lemma wp_conseq {A} R permitted h (p : prog A) (Q Q' : trace → A → Prop) :
  (∀ h a, Q h a → Q' h a) → wp R permitted h p Q → wp R permitted h p Q'.
Proof. intros. by eapply wp_mono. Qed.

Lemma wp_and {A} R permitted h (p : prog A) (Q Q' : trace → A → Prop) :
  wp R permitted h p Q → wp R permitted h p Q' → wp R permitted h p (λ h a, Q h a ∧ Q' h a).
Proof.
  revert h. induction p as [a|c k IH]; simpl; intros h; [done|]. intros [? ?] [? ?]. split; [done|]. auto.
Qed.

Lemma wp_bind {A B} R permitted h (p : prog A) (f : A → prog B) Q :
  wp R permitted h p (λ h' a, wp R permitted h' (f a) Q) →
  wp R permitted h (bind p f) Q.
Proof.
  revert h. induction p as [a|c k IH]; intros h; [done|]. simpl.
  intros [??]. split; [done|]. auto.
Qed.

Lemma wp_rbind {A B} R permitted h (p : prog (result error A))
    (f : A → prog (result error B)) Q :
  wp R permitted h p (λ h' r, match r with
    | Ok a => wp R permitted h' (f a) Q
    | Err e => Q h' (Err e) end) →
  wp R permitted h (rbind p f) Q.
Proof. intros Hp. apply wp_bind. eapply wp_conseq; [|exact Hp]. by intros h' [a|e]. Qed.

Lemma wp_wrapf {A} R permitted h fmt args (p : prog (result error A)) Q :
  wp R permitted h p (λ h' r, match r with
    | Ok a => Q h' (Ok a)
    | Err e => Q h' (Err (Errorf fmt args e)) end) →
  wp R permitted h (wrapf fmt args p) Q.
Proof. intros Hp. apply wp_bind. eapply wp_conseq; [|exact Hp]. by intros h' [a|e]. Qed.

Lemma wp_do R permitted h c (Q : trace → resp c → Prop) :
  permitted h c → (∀ r, R (Ev c r) → Q (Ev c r :: h) r) → wp R permitted h (do c) Q.
Proof. done. Qed.

Lemma wp_ret {A} R permitted h (a : A) (Q : trace → A → Prop) :
  Q h a → wp R permitted h (Ret a) Q.
Proof. done. Qed.

(** What [p] obeys is all its caller needs to know when the postcondition
    survives every extension of the history. *)
Lemma wp_obeys {A} R permitted permitted' h (p : prog A) (Q : trace → A → Prop) :
  obeys R permitted' p → (∀ t c, permitted' (t ++ h) c → permitted (t ++ h) c) →
  (∀ t a, Q (t ++ h) a) → wp R permitted h p Q.
Proof.
  intros He Hp HQ. specialize (He h).
  assert (∀ t, wp R permitted' (t ++ h) p (λ _ _, True) → wp R permitted (t ++ h) p Q) as Hgen.
  { clear He. induction p as [a|c k IH]; simpl; intros t; [by intros _|].
    intros [? Hk]. split; [by apply Hp|]. intros r Hr.
    apply (IH r (Ev c r :: t)). by apply Hk. }
  by apply (Hgen []).
Qed.

(** Likewise for a property of the calls, which the new events then have. *)
Lemma wp_emits_new {A} R permitted (P : call → Prop) h (p : prog A) (Q : trace → A → Prop) :
  emits R P p → (∀ t c, P c → permitted (t ++ h) c) →
  (∀ t a, Forall (λ e, P (ev_call e)) t → Q (t ++ h) a) → wp R permitted h p Q.
Proof.
  intros He Hp HQ. specialize (He h).
  assert (∀ t, Forall (λ e, P (ev_call e)) t → wp R (λ _ c, P c) (t ++ h) p (λ _ _, True) →
    wp R permitted (t ++ h) p Q) as Hgen.
  { clear He. induction p as [a|c k IH]; simpl; intros t Ht; [by intros _; apply HQ|].
    intros [? Hk]. split; [by apply Hp|]. intros r Hr.
    apply (IH r (Ev c r :: t)); [by constructor|]. by apply Hk. }
  apply (Hgen []); [by constructor|done].
Qed.

Lemma wp_emits {A} R permitted (P : call → Prop) h (p : prog A) (Q : trace → A → Prop) :
  emits R P p → (∀ t c, P c → permitted (t ++ h) c) → (∀ t a, Q (t ++ h) a) →
  wp R permitted h p Q.
Proof. intros He Hp HQ. eapply wp_emits_new; [exact He|exact Hp|]. intros t a _. apply HQ. Qed.

Lemma obeys_mono {A} R R' permitted permitted' (p : prog A) :
  (∀ e, R' e → R e) → (∀ h c, permitted h c → permitted' h c) →
  obeys R permitted p → obeys R' permitted' p.
Proof. intros HR HP Ho h. eapply wp_mono; [exact HR|exact HP| |apply Ho]. done. Qed.

(** What is left after a call that was answered emits no more than before. *)
Lemma emits_call {A} R (P : call → Prop) c (k : resp c → prog A) res :
  emits R P (Call c k) → R (Ev c res) → emits R P (k res).
Proof.
  intros Hp Hr h. destruct (Hp []) as [_ Hk]. specialize (Hk res Hr). revert Hk.
  generalize ([Ev c res] : trace). clear Hp. revert h.
  induction (k res) as [a|c' k' IH]; intros h h'; simpl; [done|].
  intros [? Hk]. split; [done|]. intros r Hr'. by eapply IH, Hk.
Qed.

Lemma emits_weaken {A} R (P P' : call → Prop) (p : prog A) :
  (∀ c, P c → P' c) → emits anything P p → emits R P' p.
Proof. intros HP. apply obeys_mono; [done|]. auto. Qed.

Lemma obeys_bind {A B} R P (p : prog A) (f : A → prog B) :
  obeys R P p → (∀ a, obeys R P (f a)) → obeys R P (bind p f).
Proof.
  intros Hp Hf h. apply wp_bind.
  eapply wp_obeys; [exact Hp|done|]. intros t a. apply Hf.
Qed.

Lemma obeys_rbind {A B} R P (p : prog (result error A)) (f : A → prog (result error B)) :
  obeys R P p → (∀ a, obeys R P (f a)) → obeys R P (rbind p f).
Proof. intros Hp Hf. apply obeys_bind; [done|]. by intros [a|e]. Qed.

Lemma obeys_wrapf {A} R P fmt args (p : prog (result error A)) :
  obeys R P p → obeys R P (wrapf fmt args p).
Proof. intros Hp. apply obeys_bind; [done|]. by intros [a|e]. Qed.

Lemma obeys_do R P c : (∀ h, P h c) → obeys R P (do c).
Proof. by intros Hc h. Qed.

Lemma obeys_ret {A} R P (a : A) : obeys R P (Ret a).
Proof. by intros h. Qed.

Lemma obeys_for_each {A} R P (l : list A) body :
  (∀ x, x ∈ l → obeys R P (body x)) → obeys R P (for_each l body).
Proof.
  induction l as [|x l IH]; intros Hl; simpl; [apply obeys_ret|].
  apply obeys_rbind; [apply Hl; left|]. intros _. apply IH. intros; apply Hl; by right.
Qed.

Lemma obeys_foldM {A B} R P (f : B → A → prog (result error B)) b l :
  (∀ b x, x ∈ l → obeys R P (f b x)) → obeys R P (foldM f b l).
Proof.
  revert b. induction l as [|x l IH]; intros b Hl; simpl; [apply obeys_ret|].
  apply obeys_rbind; [apply Hl; left|]. intros b'. apply IH. intros; apply Hl; by right.
Qed.

(** A loop invariant over the elements done, the history and the local
    variables. *)
Lemma wp_foldM_done {A B} R permitted (I : list A → trace → B → Prop) (E : trace → error → Prop)
    (f : B → A → prog (result error B)) l h b Q :
  I [] h b →
  (∀ done h b x, x ∈ l → I done h b →
     wp R permitted h (f b x)
       (λ h' r, match r with Ok b' => I (done ++ [x]) h' b' | Err e => E h' e end)) →
  (∀ h b, I l h b → Q h (Ok b)) → (∀ h e, E h e → Q h (Err e)) →
  wp R permitted h (foldM f b l) Q.
Proof.
  intros HI Hf HQ HE.
  assert (∀ done todo h b, done ++ todo = l → I done h b →
    wp R permitted h (foldM f b todo) Q) as Hgen; [|by apply (Hgen [])].
  clear h b HI. intros done todo. revert done.
  induction todo as [|x todo IH]; intros done h b Hl HI; simpl.
  { rewrite app_nil_r in Hl. subst done. by apply HQ. }
  apply wp_rbind. eapply wp_conseq; [|apply (Hf done); [|done]]; [|set_solver].
  intros h' [b'|e]; [|by apply HE]. intros HI'. apply (IH (done ++ [x])); [|done].
  by rewrite <- (assoc_L (++)).
Qed.

(** The same when the invariant does not need the elements done. *)
Lemma wp_foldM {A B} R permitted (I : trace → B → Prop) (E : trace → error → Prop)
    (f : B → A → prog (result error B)) l h b Q :
  I h b →
  (∀ h b x, x ∈ l → I h b →
     wp R permitted h (f b x) (λ h' r, match r with Ok b' => I h' b' | Err e => E h' e end)) →
  (∀ h b, I h b → Q h (Ok b)) → (∀ h e, E h e → Q h (Err e)) →
  wp R permitted h (foldM f b l) Q.
Proof. intros HI Hf. apply (wp_foldM_done _ _ (λ _, I)); [done|]. intros _. apply Hf. Qed.

Lemma wp_for_each {A} R permitted (I : trace → Prop) (E : trace → error → Prop)
    (body : A → prog (result error unit)) l h Q :
  I h →
  (∀ h x, x ∈ l → I h →
     wp R permitted h (body x) (λ h' r, match r with Ok _ => I h' | Err e => E h' e end)) →
  (∀ h, I h → Q h (Ok tt)) → (∀ h e, E h e → Q h (Err e)) →
  wp R permitted h (for_each l body) Q.
Proof.
  intros HI Hf HQ HE. revert h HI Hf. induction l as [|x l IH]; intros h HI Hf; simpl.
  { by apply HQ. }
  apply wp_rbind. eapply wp_conseq; [|apply Hf; [left|done]].
  intros h' [[]|e]; [|by apply HE]. intros HI'. apply IH; [done|].
  intros; apply Hf; [by right|done].
Qed.

(** A program whose calls and result do not matter. *)
Lemma wp_skip {A} R permitted h (p : prog A) (Q : trace → A → Prop) :
  (∀ t c, permitted (t ++ h) c) → (∀ t a, Q (t ++ h) a) → wp R permitted h p Q.
Proof.
  intros HP HQ. apply (wp_obeys _ _ (λ _ _, True)); [|auto|exact HQ].
  clear HP HQ. intros h'. revert h'. induction p as [a|c k IH]; intros h'; [done|].
  split; [done|]. intros r _. apply IH.
Qed.

(** The history only grows. *)
Lemma wp_grows {A} R permitted h (p : prog A) (Q : trace → A → Prop) :
  wp R permitted h p Q → wp R permitted h p (λ h' a, h ⊆ h' ∧ Q h' a).
Proof.
  enough (∀ h0, h0 ⊆ h → wp R permitted h p Q → wp R permitted h p (λ h' a, h0 ⊆ h' ∧ Q h' a)) as Hgen
    by by apply Hgen.
  intros h0. revert h. induction p as [a|c k IH]; simpl; intros h Hsub; [done|]. intros [? Hk].
  split; [done|]. intros r Hr. apply IH; [|by apply Hk]. etrans; [exact Hsub|]. set_solver.
Qed.

(** *** Gates

    [gate K E]: calls of the kind [K] need the evidence [E], the others need
    nothing.  A program that makes no call of the kind is [quiet]. *)
Definition gate (K : call → Prop) (E : trace → call → Prop) (h : trace) (c : call) : Prop :=
  K c → E h c.

Definition quiet {A} (K : call → Prop) (p : prog A) : Prop :=
  ∀ R, emits R (λ c, ¬ K c) p.

(** No call of the kind so far. *)
Definition none_of (K : call → Prop) (h : trace) : Prop := Forall (λ e, ¬ K (ev_call e)) h.

Lemma wp_quiet_new {A} R K E h (p : prog A) (Q : trace → A → Prop) :
  quiet K p → (∀ t a, none_of K t → Q (t ++ h) a) → wp R (gate K E) h p Q.
Proof.
  intros Hp HQ. eapply wp_emits_new; [apply Hp| |exact HQ]. by intros t c Hn HK%Hn.
Qed.

Lemma wp_quiet {A} R K E h (p : prog A) (Q : trace → A → Prop) :
  quiet K p → (∀ t a, Q (t ++ h) a) → wp R (gate K E) h p Q.
Proof.
  intros Hp HQ. eapply wp_emits; [apply Hp| |exact HQ]. by intros t c Hn HK%Hn.
Qed.

(** The value of a quiet program is the value of one of its runs on the
    responses now in the history. *)
Lemma wp_quiet_run {A} R K E h (p : prog A) (Q : trace → A → Prop) :
  quiet K p → (∀ t a, exec p t a → none_of K t → Q (reverse t ++ h) a) →
  wp R (gate K E) h p Q.
Proof.
  intros Hp. specialize (Hp R h). revert h Hp Q. induction p as [a|c k IH]; intros h Hp Q HQ; simpl.
  { apply (HQ []); constructor. }
  destruct Hp as [Hc Hk]. split; [by intros HK%Hc|]. intros r Hr. apply IH; [by apply Hk|].
  intros t a Hx Ht. specialize (HQ (Ev c r :: t) a). rewrite reverse_cons, <- (assoc_L (++)) in HQ.
  apply HQ; by constructor.
Qed.

(** [a] is what [p] computes from responses in the history. *)
Definition observed {A} (h : trace) (p : prog A) (a : A) : Prop := ∃ t, t ⊆ h ∧ exec p t a.

Lemma observed_mono {A} h h' (p : prog A) a : h ⊆ h' → observed h p a → observed h' p a.
Proof. intros Hsub (t & ? & ?). exists t. split; [by etrans|done]. Qed.

Lemma wp_observed {A} R K E h (p : prog A) (Q : trace → A → Prop) :
  quiet K p → (∀ t a, none_of K t → observed (t ++ h) p a → Q (t ++ h) a) →
  wp R (gate K E) h p Q.
Proof.
  intros Hp HQ. apply wp_quiet_run; [done|]. intros t a Hx Ht. apply HQ.
  - unfold none_of in *. by rewrite reverse_Permutation.
  - exists t. split; [|done]. intros e He. apply elem_of_app. left. by apply elem_of_reverse.
Qed.

(** The run of [p] is evidence for what it returned. *)
Lemma wp_record {A} R h (p : prog A) (Q : trace → A → Prop) :
  (∀ t a, observed (t ++ h) p a → Q (t ++ h) a) → wp R (λ _ _, True) h p Q.
Proof.
  intros HQ. apply (wp_mono R R (gate (λ _, False) (λ _ _, False)) _ h p Q Q); [done..|].
  apply wp_observed; [|by auto]. intros R' h'. apply wp_skip; [by intros ? ? ?|done].
Qed.

(** *** Adequacy: what [wp] says of the runs *)

Lemma wp_exec {A} R permitted h (p : prog A) Q t a :
  wp R permitted h p Q → exec p t a → Forall R t →
  Q (reverse t ++ h) a ∧
  ∀ i e, t !! i = Some e → permitted (reverse (take i t) ++ h) (ev_call e).
Proof.
  intros Hwp Hx. revert h Hwp. induction Hx as [a|c k r t a Hx IH]; intros h; simpl.
  - by intros HQ _.
  - intros [Hc Hk] [Hr Ht]%Forall_cons. destruct (IH _ (Hk r Hr) Ht) as [HQ Hp].
    rewrite reverse_cons, <- (assoc_L (++)). split; [done|].
    intros [|i] e He; simplify_eq/=; [done|].
    rewrite reverse_cons, <- (assoc_L (++)). by apply Hp.
Qed.

(** Every call of a run is permitted by the calls before it. *)
Lemma wp_exec_at {A} R permitted (p : prog A) Q t a i e :
  wp R permitted [] p Q → exec p t a → Forall R t → t !! i = Some e →
  permitted (reverse (take i t)) (ev_call e).
Proof.
  intros Hwp Hx HR He. destruct (wp_exec _ _ _ _ _ _ _ Hwp Hx HR) as [_ H].
  specialize (H i e He). by rewrite app_nil_r in H.
Qed.

Lemma wp_exec_value {A} R permitted (p : prog A) Q t a :
  wp R permitted [] p Q → exec p t a → Forall R t → Q (reverse t) a.
Proof.
  intros Hwp Hx HR. destruct (wp_exec _ _ _ _ _ _ _ Hwp Hx HR) as [H _].
  by rewrite app_nil_r in H.
Qed.

Lemma emits_exec {A} R P (p : prog A) t a e :
  emits R P p → exec p t a → Forall R t → e ∈ t → P (ev_call e).
Proof.
  intros Hp Hx HR [i Hi]%list_elem_of_lookup.
  by eapply (wp_exec_at _ _ _ _ _ _ _ _ (Hp [])).
Qed.

Lemma Forall_anything t : Forall anything t.
Proof. by apply Forall_true. Qed.
End wp.

(** ** Symbolic execution

    [obeys_go] walks a program of the components: it follows every branch and
    leaves one goal per call it cannot discharge by computation.  [wp_go] does
    the same for [wp], introducing each response.  The argument is tried first
    on every goal, to apply a known lemma. *)

Ltac obeys_unfold :=
  match goal with
  | |- obeys ?R ?P ?p => let p' := eval red in p in change (obeys R P p')
  end.

Ltac obeys_step :=
  lazymatch goal with
  | |- emits _ _ _ => unfold emits
  | |- obeys _ _ (bind _ _) => apply obeys_bind; [|intros ?]
  | |- obeys _ _ (rbind _ _) => apply obeys_rbind; [|intros ?]
  | |- obeys _ _ (wrapf _ _ _) => apply obeys_wrapf
  | |- obeys _ _ (Ret _) => apply obeys_ret
  | |- obeys _ _ (ok _) => apply obeys_ret
  | |- obeys _ _ (fail _) => apply obeys_ret
  | |- obeys _ _ (for_each _ _) => apply obeys_for_each; intros ? ?
  | |- obeys _ _ (foldM _ _ _) => apply obeys_foldM; intros ? ? ?
  | |- obeys _ _ (do _) => apply obeys_do; intros ?; cbv beta
  | |- obeys _ _ (match ?x with _ => _ end) => destruct x eqn:?
  | |- obeys _ _ _ => obeys_unfold
  end.
Ltac obeys_go tac := repeat first [tac | exact I | exact (False_ind _) | obeys_step]; try done.

Ltac wp_unfold :=
  match goal with
  | |- wp ?R ?P ?h ?p ?Q => let p' := eval red in p in change (wp R P h p' Q)
  end.

(** The next call, with its response named. *)
Ltac wp_call res :=
  repeat first [apply wp_bind | apply wp_rbind | apply wp_wrapf];
  try (lazymatch goal with |- wp _ _ _ (do _) _ => fail | _ => wp_unfold end);
  lazymatch goal with
  | |- wp ?R ?P ?h (do ?c) ?Q =>
      refine (wp_do R P h c Q _ _); [|intros res ?; cbv beta iota]
  end.

Ltac wp_step :=
  lazymatch goal with
  | |- wp _ _ _ (bind _ _) _ => apply wp_bind
  | |- wp _ _ _ (rbind _ _) _ => apply wp_rbind
  | |- wp _ _ _ (wrapf _ _ _) _ => apply wp_wrapf
  | |- wp _ _ _ (Ret _) _ => apply wp_ret; cbv beta iota
  | |- wp _ _ _ (ok _) _ => apply wp_ret; cbv beta iota
  | |- wp _ _ _ (fail _) _ => apply wp_ret; cbv beta iota
  | |- wp ?R ?P ?h (do ?c) ?Q => refine (wp_do R P h c Q _ _); [|intros ? ?; cbv beta iota]
  | |- wp _ _ _ (match ?x with _ => _ end) _ => destruct x eqn:?; cbv beta iota
  | |- match ?x with Ok _ => _ | Err _ => _ end => destruct x eqn:?; cbv beta iota
  | |- wp _ _ _ _ _ => wp_unfold
  end.
Ltac wp_go tac := repeat first [tac | exact I | exact (False_ind _) | wp_step].
