(* ===== verification/Ghost.v ===== *)
(** * A program logic with a ghost state

    [gwp P g p Q]: started with the ghost state [g] — what the program's
    environment is known to hold — every call of [p] meets the protocol's
    precondition, and if [p] returns [a] with the ghost state [g'] then
    [Q g' a].  A response the protocol rules out need not be considered; every
    other one moves the ghost state by [next]. *)

From S2P Require Import Prelude GoStd Prog.

Section ghost.
Context {S : Signature} {G : Type}.

Record protocol : Type := MkProtocol {
  pre : G → call → Prop;
  valid : G → event → Prop;
  next : G → event → G;
}.

Variable P : protocol.

Fixpoint gwp {A} (g : G) (p : prog A) (Q : G → A → Prop) : Prop :=
  match p with
  | Ret a => Q g a
  | Call c k =>
      pre P g c ∧ ∀ res, valid P g (Ev c res) → gwp (next P g (Ev c res)) (k res) Q
  end.

Lemma gwp_mono {A} g (p : prog A) (Q Q' : G → A → Prop) :
  (∀ g a, Q g a → Q' g a) → gwp g p Q → gwp g p Q'.
Proof.
  intros HQ. revert g. induction p as [a|c k IH]; intros g; simpl; [auto|].
  intros [? Hk]. split; auto.
Qed.

Lemma gwp_ret {A} g (a : A) (Q : G → A → Prop) : Q g a → gwp g (Ret a) Q.
Proof. done. Qed.

Lemma gwp_bind {A B} g (p : prog A) (f : A → prog B) Q :
  gwp g p (λ g a, gwp g (f a) Q) → gwp g (bind p f) Q.
Proof.
  revert g. induction p as [a|c k IH]; intros g; simpl; [done|]. intros [? Hk]. split; auto.
Qed.

Lemma gwp_rbind {A B} g (p : prog (result error A)) (f : A → prog (result error B)) Q :
  gwp g p (λ g res, match res with Ok a => gwp g (f a) Q | Err e => Q g (Err e) end) →
  gwp g (rbind p f) Q.
Proof.
  intros H. apply gwp_bind. eapply gwp_mono; [|exact H]. by intros g' [a|e].
Qed.

Lemma gwp_wrapf {A} g fmt args (p : prog (result error A)) Q :
  gwp g p (λ g res, match res with Ok a => Q g (Ok a) | Err e => Q g (Err (Errorf fmt args e)) end) →
  gwp g (wrapf fmt args p) Q.
Proof.
  intros H. apply gwp_bind. eapply gwp_mono; [|exact H]. by intros g' [a|e].
Qed.

Lemma gwp_do g c Q :
  pre P g c → (∀ res, valid P g (Ev c res) → Q (next P g (Ev c res)) res) → gwp g (do c) Q.
Proof. done. Qed.

(** A call the protocol does not care about. *)
Definition idle (c : call) : Prop := ∀ g, pre P g c ∧ ∀ res, next P g (Ev c res) = g.

Lemma gwp_idle {A} g (p : prog A) (Q : G → A → Prop) :
  emits anything idle p → (∀ a, Q g a) → gwp g p Q.
Proof.
  intros Hp HQ. specialize (Hp []). revert Hp. generalize (@nil event).
  induction p as [a|c k IH]; intros h; simpl; [done|]. intros [Hc Hk].
  split; [apply Hc|]. intros res _. destruct (Hc g) as [_ ->]. by eapply IH, Hk.
Qed.

(** *** Adequacy: the runs whose responses the protocol allows *)

Fixpoint plays (g : G) (t : trace) : Prop :=
  match t with [] => True | e :: t' => valid P g e ∧ plays (next P g e) t' end.

Definition ends_in (g : G) (t : trace) : G := foldl (next P) g t.

Lemma gwp_exec {A} g (p : prog A) (Q : G → A → Prop) t a :
  gwp g p Q → exec p t a → plays g t → Q (ends_in g t) a.
Proof.
  intros Hp Hx. revert g Hp. induction Hx as [a|c k res t a Hx IH]; intros g; simpl; [done|].
  intros [_ Hk] [Hv Ht]. apply IH; [by apply Hk|done].
Qed.
End ghost.
Arguments protocol {S} G.

Ltac gwp_unfold :=
  match goal with
  | |- gwp ?P ?g ?p ?Q => let p' := eval red in p in change (gwp P g p' Q)
  end.

(** One step of symbolic execution; [tac] is tried first, on calls and
    sub-programs it knows. *)
Ltac gwp_step :=
  lazymatch goal with
  | |- gwp _ _ (bind _ _) _ => apply gwp_bind
  | |- gwp _ _ (rbind _ _) _ => apply gwp_rbind
  | |- gwp _ _ (wrapf _ _ _) _ => apply gwp_wrapf
  | |- gwp _ _ (Ret _) _ => apply gwp_ret; cbv beta iota
  | |- gwp _ _ (ok _) _ => apply gwp_ret; cbv beta iota
  | |- gwp _ _ (fail _) _ => apply gwp_ret; cbv beta iota
  | |- gwp _ _ (do _) _ => apply gwp_do; [|intros ? ?; cbv beta iota]
  | |- gwp _ _ (match ?x with _ => _ end) _ => destruct x eqn:?; cbv beta iota
  | |- match ?x with Ok _ => _ | Err _ => _ end => destruct x eqn:?; cbv beta iota
  | |- gwp _ _ _ _ => gwp_unfold
  end.
Ltac gwp_go tac := repeat first [tac | exact I | gwp_step].
