(* ===== verification/Heap.v ===== *)
(** * Memory

    Go values that hold pointers, maps and slices share memory.  Here the heap is
    explicit: a finite map from addresses to typed cells, and a function that
    allocates, reads or writes is a computation over it that fails where Go would
    panic (a nil or ill-typed dereference).

    [awp h n m Q] is the logic for code that only adds to the memory it was
    given: started on [h] and its own earlier allocations [n], [m] returns, leaves
    [h] as it is, and its allocations [n'] satisfy [Q]. *)

From S2P Require Import Prelude.

Definition loc : Type := positive.
(** A pointer, a map or a slice; [None] is nil. *)
Abbreviation ptr := (option loc).

Section heap.
Context {ty : Type} `{!EqDecision ty} (tyD : ty → Type).

Inductive cell : Type :=
| Cell (t : ty) (v : tyD t).
#[local] Abbreviation heap := (gmap loc cell).
Definition M (A : Type) : Type := heap → option (A * heap).

Definition ret {A} (a : A) : M A := λ h, Some (a, h).
Definition mbind_ {A B} (m : M A) (f : A → M B) : M B :=
  λ h, match m h with Some (a, h') => f a h' | None => None end.

(** [*p], [new(T)] with its contents, [*p = v]. *)
Definition read (t : ty) (l : loc) : M (tyD t) := λ h,
  match h !! l with
  | Some (Cell t' v) =>
      match decide (t' = t) with left e => Some (eq_rect _ tyD v _ e, h) | right _ => None end
  | None => None
  end.
Definition alloc (t : ty) (v : tyD t) : M loc := λ h,
  let l := fresh (dom h) in Some (l, <[l := Cell t v]> h).
Definition write (t : ty) (l : loc) (v : tyD t) : M unit := λ h,
  match h !! l with Some _ => Some (tt, <[l := Cell t v]> h) | None => None end.

(** [l] points to a [t] holding [v]. *)
Definition points (l : loc) (t : ty) (v : tyD t) (h : heap) : Prop := h !! l = Some (Cell t v).

Lemma read_points t l v h : points l t v h → read t l h = Some (v, h).
Proof.
  unfold points, read. intros ->. destruct (decide (t = t)) as [e|]; [|done].
  by rewrite (proof_irrel e eq_refl).
Qed.

Lemma points_inj l t v v' h : points l t v h → points l t v' h → v = v'.
Proof. unfold points. intros -> [= H]. by apply (Eqdep_dec.inj_pair2_eq_dec _ (decide_rel (=))) in H. Qed.

Lemma points_mono l t v h h' : h ⊆ h' → points l t v h → points l t v h'.
Proof. unfold points. intros. by eapply lookup_weaken. Qed.

(** ** Code that only adds *)

Definition awp {A} (h n : heap) (m : M A) (Q : A → heap → Prop) : Prop :=
  n ##ₘ h → ∃ a n', m (h ∪ n) = Some (a, h ∪ n') ∧ n' ##ₘ h ∧ n ⊆ n' ∧ Q a n'.

Lemma awp_ret {A} h n (a : A) (Q : A → heap → Prop) : Q a n → awp h n (ret a) Q.
Proof. intros HQ Hd. by exists a, n. Qed.

Lemma awp_bind {A B} h n (m : M A) (f : A → M B) Q :
  awp h n m (λ a n', n ⊆ n' → awp h n' (f a) Q) → awp h n (mbind_ m f) Q.
Proof.
  intros Hm Hd. destruct (Hm Hd) as (a & n1 & E1 & Hd1 & Hs1 & Hf).
  destruct (Hf Hs1 Hd1) as (b & n2 & E2 & Hd2 & Hs2 & HQ).
  exists b, n2. unfold mbind_. rewrite E1, E2. split_and!; [done|done|by etrans|done].
Qed.

Lemma awp_mono {A} h n (m : M A) (Q Q' : A → heap → Prop) :
  (∀ a n', n ⊆ n' → Q a n' → Q' a n') → awp h n m Q → awp h n m Q'.
Proof. intros HQ Hm Hd. destruct (Hm Hd) as (a & n' & ? & ? & ? & ?). exists a, n'. eauto 10. Qed.

Lemma awp_read h n t l v (Q : tyD t → heap → Prop) :
  points l t v h → Q v n → awp h n (read t l) Q.
Proof.
  intros Hl HQ Hd. exists v, n. split_and!; [|done..]. apply read_points.
  eapply points_mono; [|done]. apply map_union_subseteq_l.
Qed.

Lemma awp_alloc h n t v (Q : loc → heap → Prop) :
  (∀ l, n !! l = None → Q l (<[l := Cell t v]> n)) → awp h n (alloc t v) Q.
Proof.
  intros HQ Hd. unfold alloc. set (l := fresh (dom (h ∪ n))).
  assert (l ∉ dom (h ∪ n)) as Hl by apply is_fresh.
  apply not_elem_of_dom, lookup_union_None in Hl as [Hlh Hln].
  exists l, (<[l := Cell t v]> n). split_and!.
  - by rewrite insert_union_r.
  - by apply map_disjoint_insert_l_2.
  - by apply insert_subseteq.
  - by apply HQ.
Qed.

(** ** What a value in memory stands for *)

(** [R x v h]: in [h], the Go value [x] stands for [v]. *)
Class RepMono {T V} (R : T → V → heap → Prop) : Prop :=
  rep_mono x v h h' : h ⊆ h' → R x v h → R x v h'.

(** A deep copy: it returns, with memory of its own standing for the same value. *)
Class Copies {T V} (R : T → V → heap → Prop) (copy : T → M T) : Prop :=
  copies h n x v : R x v h → awp h n (copy x) (λ x' n', R x' v n').

(** A plain value. *)
Definition rep_val {A} (x v : A) (h : heap) : Prop := x = v.

(** A pointer to a [t] that stands for [v]; [rep_nil] for maps and slices, where
    nil reads as the empty one. *)
Definition rep_ptr (t : ty) {V} (R : tyD t → V → heap → Prop) (p : ptr) (o : option V) (h : heap) : Prop :=
  match p, o with
  | None, None => True
  | Some l, Some v => ∃ x, points l t x h ∧ R x v h
  | _, _ => False
  end.
Definition rep_nil (t : ty) {V} (R : tyD t → V → heap → Prop) (zero : V) (p : ptr) (v : V) (h : heap) : Prop :=
  match p with
  | None => v = zero
  | Some l => ∃ x, points l t x h ∧ R x v h
  end.

#[global] Instance rep_val_mono {A} : RepMono (@rep_val A).
Proof. by intros ????. Qed.

#[global] Instance rep_ptr_mono t {V} (R : tyD t → V → heap → Prop) : RepMono R → RepMono (rep_ptr t R).
Proof.
  intros HR [l|] [v|] h h' Hs; simpl; [|done..]. intros (x & ? & ?). exists x.
  split; [by eapply points_mono|by eapply HR].
Qed.

#[global] Instance rep_nil_mono t {V} (R : tyD t → V → heap → Prop) zero :
  RepMono R → RepMono (rep_nil t R zero).
Proof.
  intros HR [l|] v h h' Hs; simpl; [|done]. intros (x & ? & ?). exists x.
  split; [by eapply points_mono|by eapply HR].
Qed.

(** ** Shapes of generated copies *)

(** [if in.X != nil { *out = new(T); copy **in into **out }] *)
Definition copy_ptr (t : ty) (into : tyD t → M (tyD t)) (p : ptr) : M ptr :=
  match p with
  | None => ret None
  | Some l =>
      mbind_ (read t l) (λ x, mbind_ (into x) (λ x', mbind_ (alloc t x') (λ q, ret (Some q))))
  end.

(** [for i := range in { in[i].DeepCopyInto(&out[i]) }] *)
Fixpoint copy_all {T} (copy : T → M T) (xs : list T) : M (list T) :=
  match xs with
  | [] => ret []
  | x :: xs => mbind_ (copy x) (λ x', mbind_ (copy_all copy xs) (λ xs', ret (x' :: xs')))
  end.

Definition rep_list {T V} (R : T → V → heap → Prop) (xs : list T) (vs : list V) (h : heap) : Prop :=
  Forall2 (λ x v, R x v h) xs vs.

#[global] Instance rep_list_mono {T V} (R : T → V → heap → Prop) : RepMono R → RepMono (rep_list R).
Proof. intros HR xs vs h h' Hs Hf. eapply Forall2_impl; [exact Hf|]. intros x v. by apply HR. Qed.

Lemma points_new l t v (n : heap) : points l t v (<[l := Cell t v]> n).
Proof. unfold points. by rewrite lookup_insert_eq. Qed.

#[global] Instance ret_copies {A} : Copies (@rep_val A) ret.
Proof. intros h n x v Hx. by apply awp_ret. Qed.

Lemma awp_new {V} h n t (R : tyD t → V → heap → Prop) x v :
  RepMono R → R x v n →
  awp h n (alloc t x) (λ l n', points l t x n' ∧ R x v n').
Proof.
  intros HR Hx. apply awp_alloc. intros l Hl. split; [apply points_new|].
  eapply HR; [|exact Hx]. by apply insert_subseteq.
Qed.

#[global] Instance copy_ptr_copies t {V} (R : tyD t → V → heap → Prop) into :
  RepMono R → Copies R into → Copies (rep_ptr t R) (copy_ptr t into).
Proof.
  intros HR Hc h n [l|] [v|]; simpl; [|done..|by intros; apply awp_ret].
  intros (x & Hl & Hx). apply awp_bind. eapply awp_read; [done|]. intros _.
  apply awp_bind. eapply awp_mono; [|by apply Hc]. intros x' n1 _ Hx' _.
  apply awp_bind. eapply awp_mono; [|by apply (awp_new _ _ t R x' v)]. intros q n2 _ [Hq Hxq] _.
  apply awp_ret. by exists x'.
Qed.

#[global] Instance copy_nil_copies t {V} (R : tyD t → V → heap → Prop) zero into :
  RepMono R → Copies R into → Copies (rep_nil t R zero) (copy_ptr t into).
Proof.
  intros HR Hc h n [l|] v Hv; [|by apply awp_ret].
  assert (rep_ptr t R (Some l) (Some v) h) as Hp by exact Hv.
  eapply awp_mono; [|exact (copies h n _ _ Hp)]. by intros [l'|] n' _ ?.
Qed.

#[global] Instance copy_all_copies {T V} (R : T → V → heap → Prop) copy :
  RepMono R → Copies R copy → Copies (rep_list R) (copy_all copy).
Proof.
  intros HR Hc h n xs vs Hf. revert n. induction Hf as [|x v xs vs Hx _ IH]; intros n.
  { apply awp_ret. constructor. }
  simpl. apply awp_bind. eapply awp_mono; [|by apply Hc]. intros x' n1 _ Hx' _.
  apply awp_bind. eapply awp_mono; [|by apply IH]. intros xs' n2 Hs Hxs _.
  apply awp_ret. constructor; [by eapply HR|done].
Qed.
End heap.
Arguments RepMono {ty tyD T V} R.
Arguments Copies {ty tyD T V} R copy.
Arguments rep_mono {ty tyD T V R _} x v h h' _ _.
Arguments copies {ty tyD T V R copy _} h n x v _.
