(* ===== verification/K8s.v ===== *)
(** * The Kubernetes libraries, as parameters

    The types of [k8s.io/api] the program only passes along, and the functions
    of [k8s.io/apimachinery] and [k8s.io/component-helpers] it calls, are
    parameters of the development: [K8sTypes] and [K8sLib].  [K8sLaws] states
    the documented behaviour the theorems rely on.  The core objects are
    records with the fields the program reads or writes. *)

From S2P Require Import Prelude GoStd.

(** ** Opaque types *)

Class K8sTypes : Type := {
  (** [resource.Quantity] *)
  Quantity : Type;
  (** [metav1.LabelSelector] and the [labels.Selector] it converts to *)
  LabelSelector : Type;
  Selector : Type;
  (** [corev1.Toleration] *)
  Toleration : Type;
  (** [corev1.NodeSelector] and the matcher [nodeaffinity.NewNodeSelector] builds *)
  NodeSelector : Type;
  NodeSelectorMatcher : Type;
  (** what a pod's spec holds besides the fields below: containers, overhead,
      nodeSelector, affinity *)
  PodSpecRest : Type;
}.

Abbreviation ResourceList := (gmap string Quantity).

(** ** metav1 *)

Inductive ConditionStatus : Type := ConditionTrue | ConditionFalse | ConditionUnknown.

#[global] Instance ConditionStatus_eq_dec : EqDecision ConditionStatus.
Proof. solve_decision. Defined.

Record Condition : Type := MkCondition {
  Cond_Type : string;
  Cond_Status : ConditionStatus;
  Cond_ObservedGeneration : Z;
  Cond_LastTransitionTime : Time;
  Cond_Reason : string;
  Cond_Message : string;
}.

Record ObjectMeta : Type := MkMeta {
  Name : string;
  Namespace : string;
  Labels : gmap string string;
  Annotations : gmap string string;
  Generation : Z;
  ResourceVersion : Z;
  DeletionTimestamp : option Time;
  (** the kinds of [ownerReferences] *)
  OwnerKinds : list string;
}.

Definition set_Annotations (a : gmap string string) (o : ObjectMeta) : ObjectMeta :=
  MkMeta (Name o) (Namespace o) (Labels o) a (Generation o) (ResourceVersion o)
    (DeletionTimestamp o) (OwnerKinds o).

Definition set_Labels (l : gmap string string) (o : ObjectMeta) : ObjectMeta :=
  MkMeta (Name o) (Namespace o) l (Annotations o) (Generation o) (ResourceVersion o)
    (DeletionTimestamp o) (OwnerKinds o).

(** Reading a missing key of a Go map yields the zero value. *)
Definition map_get (m : gmap string string) (k : string) : string :=
  default "" (m !! k).

(** ** corev1 *)

Inductive TaintEffect : Type := NoSchedule | PreferNoSchedule | NoExecute.

#[global] Instance TaintEffect_eq_dec : EqDecision TaintEffect.
Proof. solve_decision. Defined.

Record Taint : Type := MkTaint {
  Taint_Key : string;
  Taint_Value : string;
  Taint_Effect : TaintEffect;
  Taint_TimeAdded : option Time;
}.

Record NodeCondition : Type := MkNodeCondition {
  NCond_Type : string;
  NCond_Status : ConditionStatus;
  NCond_LastTransitionTime : Time;
}.

Inductive PodPhase : Type :=
| PodPending | PodRunning | PodSucceeded | PodFailed | PodUnknown.

#[global] Instance PodPhase_eq_dec : EqDecision PodPhase.
Proof. solve_decision. Defined.

Record PodCondition : Type := MkPodCondition {
  PCond_Type : string;
  PCond_Status : ConditionStatus;
  PCond_Reason : string;
}.

(** The volume sources the program distinguishes. *)
Inductive VolumeSource : Type :=
| VolPersistentVolumeClaim (claimName : string)
| VolEphemeral
| VolOther.

Record Volume : Type := MkVolume { Volume_Name : string; Volume_Source : VolumeSource }.

Section core.
Context `{K8sTypes}.

Record Node : Type := MkNode {
  Node_ObjectMeta : ObjectMeta;
  Unschedulable : bool;
  Taints : list Taint;
  Node_Conditions : list NodeCondition;
  Allocatable : ResourceList;
}.

Record Pod : Type := MkPod {
  Pod_ObjectMeta : ObjectMeta;
  Pod_NodeName : string;
  Pod_Tolerations : list Toleration;
  Pod_Volumes : list Volume;
  Pod_Rest : PodSpecRest;
  Pod_Phase : PodPhase;
  Pod_Conditions : list PodCondition;
}.

(** [PersistentVolumeClaim.spec.volumeName]. *)
Record PVC : Type := MkPVC { PVC_VolumeName : string }.
(** [PersistentVolume.spec.nodeAffinity.required], when both are set. *)
Record PV : Type := MkPV { PV_RequiredAffinity : option NodeSelector }.
End core.
Coercion Node_ObjectMeta : Node >-> ObjectMeta.
Coercion Pod_ObjectMeta : Pod >-> ObjectMeta.

(** ** Library functions *)

Class K8sLib `{K8sTypes} : Type := {
  (** resource.Quantity *)
  Quantity_zero : Quantity;
  Quantity_Cmp : Quantity → Quantity → comparison;
  Quantity_Add : Quantity → Quantity → Quantity;
  Quantity_Sub : Quantity → Quantity → Quantity;
  Quantity_Sign : Quantity → Z;
  Quantity_String : Quantity → string;
  (** metav1.LabelSelectorAsSelector and labels.Selector.Matches *)
  LabelSelectorAsSelector : LabelSelector → result error Selector;
  Selector_Matches : Selector → gmap string string → bool;
  (** component-helpers/scheduling/corev1 *)
  TolerationsTolerateTaint : list Toleration → Taint → bool;
  FindMatchingUntoleratedTaint :
    list Taint → list Toleration → (Taint → bool) → option Taint;
  RequiredNodeAffinity_Match : Pod → Node → result error bool;
  NewNodeSelector : NodeSelector → result error NodeSelectorMatcher;
  NodeSelector_Match : NodeSelectorMatcher → Node → bool;
  (** component-helpers/resource *)
  PodRequests : Pod → ResourceList;
  (** apimachinery/api/meta; the last argument is the wall clock
      [SetStatusCondition] reads *)
  SetStatusCondition : list Condition → Condition → Time → list Condition;
  FindStatusCondition : list Condition → string → option Condition;
}.

(** Documented behaviour of those functions. *)
Class K8sLaws `{K8sLib} : Prop := {
  (** [Cmp] is a total preorder *)
  Cmp_refl q : Quantity_Cmp q q = Eq;
  Cmp_antisym q r : Quantity_Cmp r q = CompOpp (Quantity_Cmp q r);
  Cmp_trans q r s : Quantity_Cmp q r ≠ Gt → Quantity_Cmp r s ≠ Gt → Quantity_Cmp q s ≠ Gt;
  (** [Sign] compares with the zero quantity *)
  Sign_neg q : (Quantity_Sign q < 0)%Z ↔ Quantity_Cmp q Quantity_zero = Lt;
  (** subtracting a non-negative quantity does not increase *)
  Sub_le q r : Quantity_Cmp Quantity_zero r ≠ Gt → Quantity_Cmp (Quantity_Sub q r) q ≠ Gt;
  (** "checks if the given tolerations tolerates all the filtered taints, and
      returns the first taint without a toleration" *)
  Find_untolerated_None ts tol f :
    FindMatchingUntoleratedTaint ts tol f = None ↔
    ∀ t, t ∈ ts → f t = true → TolerationsTolerateTaint tol t = true;
  Find_untolerated_Some ts tol f t :
    FindMatchingUntoleratedTaint ts tol f = Some t →
    t ∈ ts ∧ f t = true ∧ TolerationsTolerateTaint tol t = false;
  (** "sets the corresponding condition to newCondition": status, reason and
      message are the new ones, LastTransitionTime is now when the status
      changed and kept otherwise, conditions of other types are untouched *)
  Find_set_same cs c now :
    ∃ c', FindStatusCondition (SetStatusCondition cs c now) (Cond_Type c) = Some c' ∧
      Cond_Status c' = Cond_Status c ∧ Cond_Reason c' = Cond_Reason c ∧
      Cond_Message c' = Cond_Message c;
  Find_set_other cs c now ty :
    ty ≠ Cond_Type c →
    FindStatusCondition (SetStatusCondition cs c now) ty = FindStatusCondition cs ty;
}.

(** [q.Cmp(r) < 0] and [q.Cmp(r) > 0]. *)
Definition Cmp_lt `{K8sLib} (q r : Quantity) : bool :=
  match Quantity_Cmp q r with Lt => true | _ => false end.
Definition Cmp_gt `{K8sLib} (q r : Quantity) : bool :=
  match Quantity_Cmp q r with Gt => true | _ => false end.
