(* ===== verification/Api.v ===== *)
(** * api/v1alpha1: the Machine and NodePool resources

    The CRD types of [machine_types.go] and [nodepool_types.go] and the keys of
    [annotations.go].  Pointers are options, [metav1.Time] is [Time],
    [metav1.Duration] is [Duration] and int32 fields are integers. *)

From S2P Require Import Prelude GoStd K8s.

Local Open Scope Z_scope.

(** ** annotations.go *)

Definition AnnotationWakeNow : string := "onp.io/wake-now".
Definition AnnotationWakeNowValue : string := "true".
Definition AnnotationDrainNow : string := "onp.io/drain-now".
Definition AnnotationDrainNowValue : string := "true".
Definition AnnotationCordonedByONP : string := "onp.io/cordoned-by-onp".
Definition AnnotationDoNotDisrupt : string := "onp.io/do-not-disrupt".
Definition AnnotationDoNotDisruptValue : string := "true".
Definition LabelAlwaysOn : string := "onp.io/always-on".
Definition LabelAlwaysOnValue : string := "true".
Definition ConditionPowerOnSucceeded : string := "PowerOnSucceeded".
Definition ConditionReady : string := "Ready".
Definition ConditionDrainSucceeded : string := "DrainSucceeded".

(** ** machine_types.go *)

(** The lifecycle states; [Unset] is the empty string of a Machine whose status
    was never written.  The CRD admits no other value. *)
Inductive MachineState : Type :=
| Unset | Off | Booting | Ready | Draining | ShuttingDown | Failed.

#[global] Instance MachineState_eq_dec : EqDecision MachineState.
Proof. solve_decision. Defined.

#[global] Instance MachineState_countable : Countable MachineState.
Proof.
  refine (inj_countable'
    (λ s, match s with Unset => 0 | Off => 1 | Booting => 2 | Ready => 3
          | Draining => 4 | ShuttingDown => 5 | Failed => 6 end)
    (λ n, match n with 0 => Unset | 1 => Off | 2 => Booting | 3 => Ready
          | 4 => Draining | 5 => ShuttingDown | _ => Failed end) _).
  by intros [].
Qed.

Definition MachineState_string (s : MachineState) : string :=
  match s with
  | Unset => "" | Off => "Off" | Booting => "Booting" | Ready => "Ready"
  | Draining => "Draining" | ShuttingDown => "ShuttingDown" | Failed => "Failed"
  end.

Definition ShutdownProviderAgent : string := "agent".
Definition ConsolidationPolicyWhenEmpty : string := "WhenEmpty".

Record WoLConfig : Type := MkWoLConfig {
  MacAddress : string;
  BroadcastAddress : string;
}.

Record PowerSpec : Type := MkPowerSpec {
  Power_Provider : string;
  Power_WoL : option WoLConfig;
}.

(** [MachineSpec.shutdown]; [None] is a nil pointer. *)
Record ShutdownSpec : Type := MkShutdownSpec { Shutdown_Provider : string }.

Record MachineStatus : Type := MkMachineStatus {
  State : MachineState;
  BootStartTime : option Time;
  DrainStartTime : option Time;
  EmptySince : option Time;
  ShutdownStartTime : option Time;
  NotReadySince : option Time;
  Conditions : list Condition;
}.

Section machine.
Context `{K8sTypes}.

Record MachineSpec : Type := MkMachineSpec {
  NodeName : string;
  Capacity : ResourceList;
  Spec_Labels : gmap string string;
  Power : PowerSpec;
  Shutdown : option ShutdownSpec;
}.

Record Machine : Type := MkMachine {
  Machine_ObjectMeta : ObjectMeta;
  Spec : MachineSpec;
  Status : MachineStatus;
}.

(** [m.Status.<field> = v] *)
Definition with_Status (f : MachineStatus → MachineStatus) (m : Machine) : Machine :=
  MkMachine (Machine_ObjectMeta m) (Spec m) (f (Status m)).

Definition set_State (s : MachineState) : Machine → Machine :=
  with_Status (λ st, MkMachineStatus s (BootStartTime st) (DrainStartTime st)
    (EmptySince st) (ShutdownStartTime st) (NotReadySince st) (Conditions st)).
Definition set_BootStartTime (t : option Time) : Machine → Machine :=
  with_Status (λ st, MkMachineStatus (State st) t (DrainStartTime st)
    (EmptySince st) (ShutdownStartTime st) (NotReadySince st) (Conditions st)).
Definition set_DrainStartTime (t : option Time) : Machine → Machine :=
  with_Status (λ st, MkMachineStatus (State st) (BootStartTime st) t
    (EmptySince st) (ShutdownStartTime st) (NotReadySince st) (Conditions st)).
Definition set_EmptySince (t : option Time) : Machine → Machine :=
  with_Status (λ st, MkMachineStatus (State st) (BootStartTime st) (DrainStartTime st)
    t (ShutdownStartTime st) (NotReadySince st) (Conditions st)).
Definition set_ShutdownStartTime (t : option Time) : Machine → Machine :=
  with_Status (λ st, MkMachineStatus (State st) (BootStartTime st) (DrainStartTime st)
    (EmptySince st) t (NotReadySince st) (Conditions st)).
Definition set_NotReadySince (t : option Time) : Machine → Machine :=
  with_Status (λ st, MkMachineStatus (State st) (BootStartTime st) (DrainStartTime st)
    (EmptySince st) (ShutdownStartTime st) t (Conditions st)).
Definition set_Conditions (cs : list Condition) : Machine → Machine :=
  with_Status (λ st, MkMachineStatus (State st) (BootStartTime st) (DrainStartTime st)
    (EmptySince st) (ShutdownStartTime st) (NotReadySince st) cs).

(** [m.Annotations[k] = v] and [delete(m.Annotations, k)] *)
Definition with_Meta (f : ObjectMeta → ObjectMeta) (m : Machine) : Machine :=
  MkMachine (f (Machine_ObjectMeta m)) (Spec m) (Status m).
Definition annotate (k v : string) (o : ObjectMeta) : ObjectMeta :=
  set_Annotations (<[k := v]> (Annotations o)) o.
Definition unannotate (k : string) (o : ObjectMeta) : ObjectMeta :=
  set_Annotations (delete k (Annotations o)) o.

(** The lifecycle state of a Machine. *)
Definition state (m : Machine) : MachineState := State (Status m).

Lemma state_set_State s m : state (set_State s m) = s.
Proof. done. Qed.
Lemma state_set_Conditions cs m : state (set_Conditions cs m) = state m.
Proof. done. Qed.
End machine.
Coercion Machine_ObjectMeta : Machine >-> ObjectMeta.

(** ** nodepool_types.go *)

Record NodePoolTemplate : Type := MkTemplate {
  Template_Labels : gmap string string;
  Template_Taints : list Taint;
}.

Record DisruptionSpec : Type := MkDisruption {
  ConsolidationPolicy : string;
  ConsolidateAfter : option Duration;
  MaxConcurrent : option Z;
}.

Record CooldownSpec : Type := MkCooldown {
  Cooldown_ScaleUp : option Duration;
  Cooldown_ScaleDown : option Duration;
}.

Record DrainSpec : Type := MkDrain {
  TimeoutSeconds : option Z;
  Force : bool;
}.

Record NodePoolStatus : Type := MkPoolStatus {
  TotalMachines : Z;
  ReadyMachines : Z;
  LastScaleUpTime : option Time;
  LastScaleDownTime : option Time;
  Pool_Conditions : list Condition;
}.

Section nodepool.
Context `{K8sTypes}.

Record NodePoolSpec : Type := MkPoolSpec {
  MinNodes : Z;
  MaxNodes : option Z;
  MachineSelector : LabelSelector;
  Template : NodePoolTemplate;
  Disruption : DisruptionSpec;
  Cooldown : CooldownSpec;
  Drain : DrainSpec;
}.

Record NodePool : Type := MkPool {
  Pool_ObjectMeta : ObjectMeta;
  Pool_Spec : NodePoolSpec;
  Pool_Status : NodePoolStatus;
}.

Definition with_PoolStatus (f : NodePoolStatus → NodePoolStatus) (p : NodePool) : NodePool :=
  MkPool (Pool_ObjectMeta p) (Pool_Spec p) (f (Pool_Status p)).
Definition set_Membership (total ready : Z) : NodePool → NodePool :=
  with_PoolStatus (λ st, MkPoolStatus total ready (LastScaleUpTime st)
    (LastScaleDownTime st) (Pool_Conditions st)).
Definition set_LastScaleUpTime (t : option Time) : NodePool → NodePool :=
  with_PoolStatus (λ st, MkPoolStatus (TotalMachines st) (ReadyMachines st) t
    (LastScaleDownTime st) (Pool_Conditions st)).
Definition set_LastScaleDownTime (t : option Time) : NodePool → NodePool :=
  with_PoolStatus (λ st, MkPoolStatus (TotalMachines st) (ReadyMachines st)
    (LastScaleUpTime st) t (Pool_Conditions st)).
End nodepool.
Coercion Pool_ObjectMeta : NodePool >-> ObjectMeta.
