(* ===== verification/Client.v ===== *)
(** * The calls the program makes

    One constructor per call on the controller-runtime client, the clock, the
    event recorder, the metrics registry, the network and the host.  A read
    names the reader it goes through: the informer cache ([r.Client]) or the
    API server itself ([r.APIReader]).  [Patch] calls carry the object the
    patch was computed from and the modified object; the difference is what
    [client.MergeFrom] sends.  A successful write answers with the object as
    the server stored it, which the client writes back through the pointer.

    Log lines are not calls. *)

From S2P Require Import Prelude GoStd Prog K8s Api.

Inductive reader : Type := Cache | APIReader.

Inductive EventType : Type := EventTypeNormal | EventTypeWarning.

(** The object an Event is recorded on. *)
Inductive involved : Type :=
| OnMachine (name : string)
| OnPod (namespace name : string)
| OnPool (name : string).

(** [http.Request], as far as the wol client builds it. *)
Record HTTPRequest : Type := MkHTTPRequest {
  Req_Method : string;
  Req_URL : string;
  Req_Headers : gmap string string;
  Req_Body : string;
}.

Record HTTPResponse : Type := MkHTTPResponse {
  Resp_StatusCode : Z;
  Resp_Status : string;
  Resp_Body : string;
}.

Inductive kcall `{K8sTypes} : Type :=
(** reads *)
| GetMachine (name : string)
| GetNode (name : string)
| GetPod (namespace name : string)
| GetPool (rd : reader) (name : string)
| GetPVC (namespace name : string)
| GetPV (name : string)
| ListPools
| ListMachines
| ListMachinesOnNode (nodeName : string)
| ListMachinesMatching (rd : reader) (sel : Selector)
| ListPods
| ListPodsOnNode (rd : reader) (nodeName : string)
(** writes *)
| UpdateMachineStatus (m : Machine)
| PatchMachineStatus (orig m : Machine)
| PatchMachine (orig m : Machine)
| PatchNode (orig n : Node)
| UpdatePoolStatus (p : NodePool)
| PatchPoolStatus (orig p : NodePool)
| CreateEviction (p : Pod)
(** clocks: the injected [r.Clock] and the [time.Now] inside the libraries *)
| ClockNow
| WallNow
(** observability *)
| RecordEvent (on : involved) (ty : EventType) (reason message : string)
| CounterInc (metric : string) (labels : list string)
| HistogramObserve (metric : string) (d : Duration)
(** network and host; [HTTPNewRequest] is the URL parsing of [net/http] *)
| HTTPNewRequest (method url : string)
| HTTPDo (req : HTTPRequest)
| HostPowerOff
| ReadProcStat.

Definition kresp `{K8sTypes} (c : kcall) : Type :=
  match c with
  | GetMachine _ => result error Machine
  | GetNode _ => result error Node
  | GetPod _ _ => result error Pod
  | GetPool _ _ => result error NodePool
  | GetPVC _ _ => result error PVC
  | GetPV _ => result error PV
  | ListPools => result error (list NodePool)
  | ListMachines => result error (list Machine)
  | ListMachinesOnNode _ => result error (list Machine)
  | ListMachinesMatching _ _ => result error (list Machine)
  | ListPods => result error (list Pod)
  | ListPodsOnNode _ _ => result error (list Pod)
  | UpdateMachineStatus _ => result error Machine
  | PatchMachineStatus _ _ => result error Machine
  | PatchMachine _ _ => result error Machine
  | PatchNode _ _ => result error Node
  | UpdatePoolStatus _ => result error NodePool
  | PatchPoolStatus _ _ => result error NodePool
  | CreateEviction _ => result error unit
  | ClockNow => Time
  | WallNow => Time
  | RecordEvent _ _ _ _ => unit
  | CounterInc _ _ => unit
  | HistogramObserve _ _ => unit
  | HTTPNewRequest _ _ => result error unit
  | HTTPDo _ => result error HTTPResponse
  | HostPowerOff => result error unit
  | ReadProcStat => result error string
  end.

#[global] Instance KubeSignature `{K8sTypes} : Signature :=
  {| call := kcall; resp := kresp |}.

Section client.
Context `{K8sTypes}.

(** [Client.Get] and friends, at the types of their responses. *)
Definition get_machine (n : string) : prog (result error Machine) := do (GetMachine n).
Definition get_node (n : string) : prog (result error Node) := do (GetNode n).
Definition get_pod (ns n : string) : prog (result error Pod) := do (GetPod ns n).
Definition get_pool (rd : reader) (n : string) : prog (result error NodePool) := do (GetPool rd n).
Definition get_pvc (ns n : string) : prog (result error PVC) := do (GetPVC ns n).
Definition get_pv (n : string) : prog (result error PV) := do (GetPV n).
Definition list_pools : prog (result error (list NodePool)) := do ListPools.
Definition list_machines : prog (result error (list Machine)) := do ListMachines.
Definition list_machines_on (n : string) : prog (result error (list Machine)) :=
  do (ListMachinesOnNode n).
Definition list_machines_matching rd (s : Selector) : prog (result error (list Machine)) :=
  do (ListMachinesMatching rd s).
Definition list_pods : prog (result error (list Pod)) := do ListPods.
Definition list_pods_on rd (n : string) : prog (result error (list Pod)) :=
  do (ListPodsOnNode rd n).
Definition update_status (m : Machine) : prog (result error Machine) :=
  do (UpdateMachineStatus m).
Definition patch_status (orig m : Machine) : prog (result error Machine) :=
  do (PatchMachineStatus orig m).
Definition patch_machine (orig m : Machine) : prog (result error Machine) :=
  do (PatchMachine orig m).
Definition patch_node (orig n : Node) : prog (result error Node) := do (PatchNode orig n).
Definition update_pool_status (p : NodePool) : prog (result error NodePool) :=
  do (UpdatePoolStatus p).
Definition patch_pool_status (orig p : NodePool) : prog (result error NodePool) :=
  do (PatchPoolStatus orig p).
Definition create_eviction (p : Pod) : prog (result error unit) := do (CreateEviction p).
Definition clock_now : prog Time := do ClockNow.
Definition wall_now : prog Time := do WallNow.
Definition emit (on : involved) (ty : EventType) (reason message : string) : prog unit :=
  do (RecordEvent on ty reason message).
Definition counter_inc (metric : string) (labels : list string) : prog unit :=
  do (CounterInc metric labels).
Definition histogram_observe (metric : string) (d : Duration) : prog unit :=
  do (HistogramObserve metric d).
Definition http_new_request (method url : string) : prog (result error unit) :=
  do (HTTPNewRequest method url).
Definition http_do (req : HTTPRequest) : prog (result error HTTPResponse) := do (HTTPDo req).
Definition host_power_off : prog (result error unit) := do HostPowerOff.
Definition read_proc_stat : prog (result error string) := do ReadProcStat.

(** [r.Clock.Since(t)] *)
Definition clock_since (t : Time) : prog Duration :=
  let! now := clock_now in Ret (Sub now t).

(** ** Classes of calls *)

(** A call that changes no cluster object, no host and no network peer:
    reads, clocks, events and metrics. *)
Definition observes (c : call) : bool :=
  match c with
  | UpdateMachineStatus _ | PatchMachineStatus _ _ | PatchMachine _ _ | PatchNode _ _
  | UpdatePoolStatus _ | PatchPoolStatus _ _ | CreateEviction _
  | HTTPDo _ | HostPowerOff => false
  | _ => true
  end.
End client.

(** ** Observations on a run *)

Section observations.
Context `{K8sTypes}.

(** The object a call writes. *)
Definition status_write (e : event) : option Machine :=
  match ev_call e with UpdateMachineStatus m => Some m | _ => None end.
Definition node_write (e : event) : option (Node * Node) :=
  match ev_call e with PatchNode orig n => Some (orig, n) | _ => None end.
Definition machine_write (e : event) : option (Machine * Machine) :=
  match ev_call e with PatchMachine orig m => Some (orig, m) | _ => None end.
Definition evicted (e : event) : option Pod :=
  match ev_call e with CreateEviction p => Some p | _ => None end.
Definition http_sent (e : event) : option HTTPRequest :=
  match ev_call e with HTTPDo req => Some req | _ => None end.

(** What a read returned. *)
Definition machine_got (e : event) : option Machine :=
  match e with
  | Ev c res =>
      match c as c return resp c → option Machine with
      | GetMachine _ => λ res, match res with Ok m => Some m | Err _ => None end
      | _ => λ _, None
      end res
  end.
Definition machine_read (name : string) (m : Machine) : event := Ev (GetMachine name) (Ok m).
Definition machine_patched (orig sent m : Machine) : event :=
  Ev (PatchMachine orig sent) (Ok m).
Definition pod_got (ns name : string) (got : result error Pod) : event := Ev (GetPod ns name) got.
Definition pod_read (ns name : string) (p : Pod) : event := Ev (GetPod ns name) (Ok p).
Definition pool_read (rd : reader) (name : string) (p : NodePool) : event := Ev (GetPool rd name) (Ok p).
Definition members_read (rd : reader) (sel : Selector) (ms : list Machine) : event :=
  Ev (ListMachinesMatching rd sel) (Ok ms).
Definition pool_patched (orig sent p : NodePool) : event := Ev (PatchPoolStatus orig sent) (Ok p).
Definition clock_read (now : Time) : event := Ev ClockNow now.
Definition pools_read (pools : list NodePool) : event := Ev ListPools (Ok pools).
Definition node_read (name : string) (res : result error Node) : event := Ev (GetNode name) res.
Definition pods_read (rd : reader) (name : string) (pods : list Pod) : event :=
  Ev (ListPodsOnNode rd name) (Ok pods).

(** The [i]-th event of a run, through an observation. *)
Definition at_ {A} (obs : event → option A) (t : trace) (i : nat) : option A :=
  t !! i ≫= obs.

Lemma at_Some {A} (obs : event → option A) t i x :
  at_ obs t i = Some x → ∃ e, t !! i = Some e ∧ obs e = Some x.
Proof. intros (e & He & Hx)%bind_Some. by exists e. Qed.

Lemma status_write_Some e m :
  status_write e = Some m → ev_call e = UpdateMachineStatus m.
Proof. destruct e as [[] res]; unfold status_write; simpl; congruence. Qed.
Lemma node_write_Some e orig n :
  node_write e = Some (orig, n) → ev_call e = PatchNode orig n.
Proof. destruct e as [[] res]; unfold node_write; simpl; congruence. Qed.
Lemma machine_write_Some e orig m :
  machine_write e = Some (orig, m) → ev_call e = PatchMachine orig m.
Proof. destruct e as [[] res]; unfold machine_write; simpl; congruence. Qed.
Lemma evicted_Some e p : evicted e = Some p → ev_call e = CreateEviction p.
Proof. destruct e as [[] res]; unfold evicted; simpl; congruence. Qed.
Lemma http_sent_Some e req : http_sent e = Some req → ev_call e = HTTPDo req.
Proof. destruct e as [[] res]; unfold http_sent; simpl; congruence. Qed.
End observations.

(** ** ctrl.Result *)

Record ReconcileResult : Type := MkResult { Requeue : bool; RequeueAfter : Duration }.

Definition Result_ : ReconcileResult := MkResult false 0%Z.
Definition requeue_now : ReconcileResult := MkResult true 0%Z.
Definition requeue_after (d : Duration) : ReconcileResult := MkResult false d.
