(* ===== verification/Fixture.v ===== *)
(** * A concrete instance, for the witnesses

    The library parameters instantiated by small executable functions that
    satisfy [K8sLaws], and a reference cluster that answers every call from an
    in-memory store.  The theorems do not depend on this file; their witnesses
    and the example runs do. *)

From S2P Require Import Prelude GoStd Prog K8s Api Client.

Local Open Scope Z_scope.

Module Fixture.

(** ** The libraries *)

(** Quantities are integers, a selector is a set of required labels ([None] a
    malformed one), a toleration names the taint key it tolerates. *)
Record FixtureRest : Type := MkRest {
  rest_requests : gmap string Z;
  rest_nodeSelector : gmap string string;
}.

Definition types : K8sTypes := {|
  Quantity := Z;
  LabelSelector := option (gmap string string);
  Selector := gmap string string;
  Toleration := string;
  NodeSelector := option (gmap string string);
  NodeSelectorMatcher := gmap string string;
  PodSpecRest := FixtureRest;
|}.
#[export] Existing Instance types.

Definition has_labels (sel labels : gmap string string) : bool :=
  bool_decide (sel ⊆ labels).

Definition tolerates (tol : list string) (t : Taint) : bool :=
  bool_decide (Taint_Key t ∈ tol).

Definition compile (s : option (gmap string string)) : result error (gmap string string) :=
  match s with Some m => Ok m | None => Err (NewErrorf "malformed selector" []) end.

Definition same_type (ty : string) (c : Condition) : bool := bool_decide (Cond_Type c = ty).

Fixpoint find_condition (cs : list Condition) (ty : string) : option Condition :=
  match cs with
  | [] => None
  | c :: cs' => if same_type ty c then Some c else find_condition cs' ty
  end.

Definition merge_condition (old new : Condition) (now : Time) : Condition :=
  MkCondition (Cond_Type old) (Cond_Status new) (Cond_ObservedGeneration new)
    (if decide (Cond_Status old = Cond_Status new) then Cond_LastTransitionTime old else now)
    (Cond_Reason new) (Cond_Message new).

Fixpoint set_condition (cs : list Condition) (c : Condition) (now : Time) : list Condition :=
  match cs with
  | [] => [MkCondition (Cond_Type c) (Cond_Status c) (Cond_ObservedGeneration c) now
             (Cond_Reason c) (Cond_Message c)]
  | o :: cs' => if same_type (Cond_Type c) o then merge_condition o c now :: cs'
                else o :: set_condition cs' c now
  end.

Definition lib : @K8sLib types := {|
  Quantity_zero := 0 : @Quantity types;
  Quantity_Cmp := Z.compare : @Quantity types → @Quantity types → comparison;
  Quantity_Add := Z.add;
  Quantity_Sub := Z.sub;
  Quantity_Sign := Z.sgn;
  Quantity_String := (pretty : Z → string);
  LabelSelectorAsSelector := compile;
  Selector_Matches := has_labels;
  TolerationsTolerateTaint := tolerates;
  FindMatchingUntoleratedTaint := λ ts tol f,
    head (filter (λ t, f t = true ∧ tolerates tol t = false) ts);
  RequiredNodeAffinity_Match := λ (p : @Pod types) n,
    Ok (has_labels (rest_nodeSelector (Pod_Rest p)) (Labels n));
  NewNodeSelector := compile;
  NodeSelector_Match := λ s n, has_labels s (Labels n);
  PodRequests := λ p : @Pod types, rest_requests (Pod_Rest p);
  SetStatusCondition := set_condition;
  FindStatusCondition := find_condition;
|}.
#[export] Existing Instance lib.

Definition ranges : MapRange := {|
  map_range := λ A (m : gmap string A), map_to_list m;
  map_range_perm := λ A m, reflexivity _;
|}.
#[export] Existing Instance ranges.

Lemma find_set_same cs c now :
  ∃ c', find_condition (set_condition cs c now) (Cond_Type c) = Some c' ∧
    Cond_Status c' = Cond_Status c ∧ Cond_Reason c' = Cond_Reason c ∧
    Cond_Message c' = Cond_Message c.
Proof.
  induction cs as [|o cs IH]; simpl.
  - eexists. unfold same_type. simpl. by rewrite bool_decide_true.
  - destruct (same_type (Cond_Type c) o) eqn:E; simpl.
    + unfold same_type in *. bool_simpl. simpl. rewrite E, bool_decide_true by done. by eexists.
    + by rewrite E.
Qed.

Lemma find_set_other cs c now ty :
  ty ≠ Cond_Type c → find_condition (set_condition cs c now) ty = find_condition cs ty.
Proof.
  intros Hne. induction cs as [|o cs IH]; simpl.
  - unfold same_type. simpl. by rewrite bool_decide_false.
  - destruct (same_type (Cond_Type c) o) eqn:E; simpl.
    + unfold same_type in *. bool_simpl. simpl. by rewrite !bool_decide_false by congruence.
    + by rewrite IH.
Qed.

Lemma untolerated_None ts tol f :
  head (filter (λ t, f t = true ∧ tolerates tol t = false) ts) = None ↔
  ∀ t, t ∈ ts → f t = true → tolerates tol t = true.
Proof.
  rewrite head_None. split.
  - intros Hn t Ht Hf. destruct (tolerates tol t) eqn:E; [done|].
    by destruct (filter_nil_not_elem_of _ _ t Hn (conj Hf E)).
  - intros Hall. destruct (filter _ ts) as [|t l] eqn:E; [done|].
    assert (t ∈ filter (λ t, f t = true ∧ tolerates tol t = false) ts) as Ht
      by (rewrite E; left).
    apply list_elem_of_filter in Ht as [[Hf Hn] Ht]. by rewrite (Hall _ Ht Hf) in Hn.
Qed.

#[export] Instance laws : @K8sLaws types lib.
Proof.
  split.
  - intros q. apply Z.compare_refl.
  - intros q r. apply Z.compare_antisym.
  - intros q r s. cbn. rewrite !Z.compare_le_iff. apply Z.le_trans.
  - intros q. cbn. rewrite Z.compare_lt_iff. by destruct q.
  - intros q r. cbn in *. rewrite !Z.compare_le_iff. apply Z.le_sub_nonneg.
  - intros ts tol f. apply untolerated_None.
  - intros ts tol f t Ht. apply head_Some_elem_of, list_elem_of_filter in Ht as [[??]?]. done.
  - intros. apply find_set_same.
  - intros. by apply find_set_other.
Qed.

(** ** A reference cluster

    Objects by name in lists, one instant for every clock read, every write
    accepted.  Evicting a pod removes it. *)

Record world : Type := MkWorld {
  w_machines : list Machine;
  w_pools : list NodePool;
  w_nodes : list Node;
  w_pods : list Pod;
  w_now : Time;
  w_http : result error HTTPResponse;
  w_procstat : result error string;
}.

Definition not_found {A} : result error A := Err (MkError ReasonNotFound "not found").

Definition by_name {A} (meta : A → ObjectMeta) (n : string) (l : list A) : result error A :=
  match filter (λ o, Name (meta o) = n) l with o :: _ => Ok o | [] => not_found end.

Definition put {A} (meta : A → ObjectMeta) (x : A) (l : list A) : list A :=
  (λ o, if decide (Name (meta o) = Name (meta x)) then x else o) <$> l.

Definition set_machine (m : Machine) (w : world) : world :=
  MkWorld (put Machine_ObjectMeta m (w_machines w)) (w_pools w) (w_nodes w) (w_pods w) (w_now w)
    (w_http w) (w_procstat w).
Definition set_pool (p : NodePool) (w : world) : world :=
  MkWorld (w_machines w) (put Pool_ObjectMeta p (w_pools w)) (w_nodes w) (w_pods w) (w_now w)
    (w_http w) (w_procstat w).
Definition set_node (n : Node) (w : world) : world :=
  MkWorld (w_machines w) (w_pools w) (put Node_ObjectMeta n (w_nodes w)) (w_pods w) (w_now w)
    (w_http w) (w_procstat w).
Definition set_pods (ps : list Pod) (w : world) : world :=
  MkWorld (w_machines w) (w_pools w) (w_nodes w) ps (w_now w) (w_http w) (w_procstat w).
Definition set_now (t : Time) (w : world) : world :=
  MkWorld (w_machines w) (w_pools w) (w_nodes w) (w_pods w) t (w_http w) (w_procstat w).

Definition serve (c : call) : world → resp c * world :=
  match c as c return world → resp c * world with
  | GetMachine n => λ w, (by_name Machine_ObjectMeta n (w_machines w), w)
  | GetNode n => λ w, (by_name Node_ObjectMeta n (w_nodes w), w)
  | GetPod ns n => λ w,
      (by_name Pod_ObjectMeta n (filter (λ p : Pod, Namespace p = ns) (w_pods w)), w)
  | GetPool _ n => λ w, (by_name Pool_ObjectMeta n (w_pools w), w)
  | GetPVC _ _ => λ w, (not_found, w)
  | GetPV _ => λ w, (not_found, w)
  | ListPools => λ w, (Ok (w_pools w), w)
  | ListMachines => λ w, (Ok (w_machines w), w)
  | ListMachinesOnNode n => λ w,
      (Ok (filter (λ m : Machine, NodeName (Spec m) = n) (w_machines w)), w)
  | ListMachinesMatching _ sel => λ w,
      (Ok (filter (λ m : Machine, has_labels sel (Labels m) = true) (w_machines w)), w)
  | ListPods => λ w, (Ok (w_pods w), w)
  | ListPodsOnNode _ n => λ w, (Ok (filter (λ p : Pod, Pod_NodeName p = n) (w_pods w)), w)
  | UpdateMachineStatus m => λ w, (Ok m, set_machine m w)
  | PatchMachineStatus _ m => λ w, (Ok m, set_machine m w)
  | PatchMachine _ m => λ w, (Ok m, set_machine m w)
  | PatchNode _ n => λ w, (Ok n, set_node n w)
  | UpdatePoolStatus p => λ w, (Ok p, set_pool p w)
  | PatchPoolStatus _ p => λ w, (Ok p, set_pool p w)
  | CreateEviction p => λ w,
      (Ok tt, set_pods (filter (λ q : Pod, (Namespace q, Name q) ≠ (Namespace p, Name p))
                 (w_pods w)) w)
  | ClockNow => λ w, (w_now w, w)
  | WallNow => λ w, (w_now w, w)
  | RecordEvent _ _ _ _ => λ w, (tt, w)
  | CounterInc _ _ => λ w, (tt, w)
  | HistogramObserve _ _ => λ w, (tt, w)
  | HTTPNewRequest _ _ => λ w, (Ok tt, w)
  | HTTPDo _ => λ w, (w_http w, w)
  | HostPowerOff => λ w, (Ok tt, w)
  | ReadProcStat => λ w, (w_procstat w, w)
  end.

(** ** Objects *)

Definition meta (name : string) (labels annotations : gmap string string) : ObjectMeta :=
  MkMeta name "" labels annotations 1 1 None [].

Definition status (s : MachineState) (t : option Time) : MachineStatus :=
  MkMachineStatus s t t None t None [].

Definition edge_labels : gmap string string := {["onp.io/pool" := "edge"]}.

(** A Machine [name] of the pool [edge] over the Node [name], in state [s] with
    every start time at [t]. *)
Definition machine (name : string) (s : MachineState) (t : option Time)
    (annotations : gmap string string) : Machine :=
  MkMachine (meta name edge_labels annotations)
    (MkMachineSpec name {["cpu" := 8000]} ∅
       (MkPowerSpec "wol" (Some (MkWoLConfig "aa:bb:cc:dd:ee:ff" ""))) None)
    (status s t).

Definition node (name : string) (unschedulable ready : bool) (annotations : gmap string string)
    : Node :=
  MkNode (meta name ∅ annotations) unschedulable []
    [MkNodeCondition "Ready" (if ready then ConditionTrue else ConditionFalse) 50] {["cpu" := 8000]}.

Definition pool (min : Z) (max : option Z) : NodePool :=
  MkPool (meta "edge" ∅ ∅)
    (MkPoolSpec min max (Some edge_labels) (MkTemplate edge_labels [])
       (MkDisruption "WhenEmpty" (Some Minute) None) (MkCooldown None None) (MkDrain None false))
    (MkPoolStatus 0 0 None None []).

Definition pod (name nodeName : string) (phase : PodPhase) (annotations : gmap string string)
    : Pod :=
  MkPod (MkMeta name "default" ∅ annotations 1 1 None ["ReplicaSet"]) nodeName [] []
    (MkRest {["cpu" := 1000]} ∅) phase [].

Definition accepted : result error HTTPResponse := Ok (MkHTTPResponse 204 "204 No Content" "").

End Fixture.
