(* ===== verification/DeepCopy.v ===== *)
(** * api/v1alpha1/zz_generated.deepcopy.go: deep copies

    The API objects as they lie in memory: structs with pointers, maps and slices
    ([PMachine] and the like, next to the values of [Api]), and the generated
    [DeepCopyInto], [DeepCopy] and [DeepCopyObject] of each.  The copy functions of
    the Kubernetes types are parameters ([KubeCopies]): all that is known of them
    is that they deep-copy ([KubeCopyLaws]).

    The reconcilers rely on the copy being independent: they take it as the base
    of a patch and then change the original in place.  [Patching] models that
    code and shows that the patch is computed from the object as it was read and
    the object as changed, which is how the other files model a patch. *)

From S2P Require Import Prelude GoStd K8s Api Heap Fixture.

Local Open Scope Z_scope.

(** ** Objects in memory *)

Record PPowerSpec : Type := MkPPower { p_Power_Provider : string; p_WoL : ptr }.

Record PMachineStatus : Type := MkPMachineStatus {
  p_State : MachineState;
  p_BootStartTime : ptr;
  p_DrainStartTime : ptr;
  p_EmptySince : ptr;
  p_ShutdownStartTime : ptr;
  p_NotReadySince : ptr;
  p_Conditions : ptr;
}.

Record PMachineSpec : Type := MkPMachineSpec {
  p_NodeName : string;
  p_Capacity : ptr;
  p_Labels : ptr;
  p_Power : PPowerSpec;
  p_Shutdown : ptr;
}.

Record PTemplate : Type := MkPTemplate { p_Template_Labels : ptr; p_Template_Taints : ptr }.
Record PDisruption : Type := MkPDisruption {
  p_ConsolidationPolicy : string;
  p_ConsolidateAfter : ptr;
  p_MaxConcurrent : ptr;
}.
Record PCooldown : Type := MkPCooldown { p_ScaleUp : ptr; p_ScaleDown : ptr }.
Record PDrain : Type := MkPDrain { p_TimeoutSeconds : ptr; p_Force : bool }.
Record PPoolStatus : Type := MkPPoolStatus {
  p_TotalMachines : Z;
  p_ReadyMachines : Z;
  p_LastScaleUpTime : ptr;
  p_LastScaleDownTime : ptr;
  p_Pool_Conditions : ptr;
}.

(** [metav1.TypeMeta] *)
Record TypeMeta : Type := MkTypeMeta { Kind : string; APIVersion : string }.

(** The in-memory types of Kubernetes the API objects embed, and what their cells
    hold.  [PMetaRest] is what [metav1.ObjectMeta] has besides the fields below. *)
Class KubeMemory : Type := {
  PQuantity : Type;
  PTaint : Type;
  PLabelSelector : Type;
  PMetaRest : Type;
  PListMeta : Type;
  KubeCell : Type;
}.

Section objects.
Context {KM : KubeMemory}.

Record PObjectMeta : Type := MkPMeta {
  p_Name : string;
  p_Namespace : string;
  p_Meta_Labels : ptr;
  p_Annotations : ptr;
  p_Generation : Z;
  p_ResourceVersion : Z;
  p_DeletionTimestamp : ptr;
  p_rest : PMetaRest;
}.

Record PMachine : Type := MkPMachine {
  p_TypeMeta : TypeMeta;
  p_ObjectMeta : PObjectMeta;
  p_Spec : PMachineSpec;
  p_Status : PMachineStatus;
}.

Record PPoolSpec : Type := MkPPoolSpec {
  p_MinNodes : Z;
  p_MaxNodes : ptr;
  p_MachineSelector : PLabelSelector;
  p_Template : PTemplate;
  p_Disruption : PDisruption;
  p_Cooldown : PCooldown;
  p_Drain : PDrain;
}.

Record PPool : Type := MkPPool {
  p_Pool_TypeMeta : TypeMeta;
  p_Pool_ObjectMeta : PObjectMeta;
  p_Pool_Spec : PPoolSpec;
  p_Pool_Status : PPoolStatus;
}.

(** [MachineList] and [NodePoolList]. *)
Record PObjectList : Type := MkPList {
  p_List_TypeMeta : TypeMeta;
  p_ListMeta : PListMeta;
  p_Items : ptr;
}.
End objects.

(** The types of cells. *)
Inductive ty : Type :=
| TTime | TDuration | TInt32 | TStringMap | TResourceList | TConditions | TTaints
| TWoLConfig | TShutdownSpec | TPowerSpec | TMachineSpec | TMachineStatus | TMachine
| TMachines | TMachineList
| TTemplate | TDisruption | TCooldown | TDrain | TPoolSpec | TPoolStatus | TPool
| TPools | TPoolList
| TKube.

#[global] Instance ty_eq_dec : EqDecision ty.
Proof. solve_decision. Defined.

Definition tyD {KM : KubeMemory} (t : ty) : Type :=
  match t with
  | TTime => Time
  | TDuration => Duration
  | TInt32 => Z
  | TStringMap => gmap string string
  | TResourceList => gmap string PQuantity
  | TConditions => list Condition
  | TTaints => list PTaint
  | TWoLConfig => WoLConfig
  | TShutdownSpec => ShutdownSpec
  | TPowerSpec => PPowerSpec
  | TMachineSpec => PMachineSpec
  | TMachineStatus => PMachineStatus
  | TMachine => PMachine
  | TMachines => list PMachine
  | TMachineList => PObjectList
  | TTemplate => PTemplate
  | TDisruption => PDisruption
  | TCooldown => PCooldown
  | TDrain => PDrain
  | TPoolSpec => PPoolSpec
  | TPoolStatus => PPoolStatus
  | TPool => PPool
  | TPools => list PPool
  | TPoolList => PObjectList
  | TKube => KubeCell
  end.

Abbreviation heap := (gmap loc (cell tyD)).

Notation "'let*' x ':=' m 'in' k" := (mbind_ tyD m (λ x, k))
  (at level 10, x binder, m at level 100, k at level 200).

(** The copy functions of [k8s.io]. *)
Class KubeCopies `{KM : KubeMemory} : Type := {
  Time_DeepCopy : ptr → M tyD ptr;
  Condition_DeepCopyInto : Condition → M tyD Condition;
  Quantity_DeepCopy : PQuantity → M tyD PQuantity;
  Taint_DeepCopyInto : PTaint → M tyD PTaint;
  LabelSelector_DeepCopyInto : PLabelSelector → M tyD PLabelSelector;
  ObjectMeta_DeepCopyInto : PObjectMeta → M tyD PObjectMeta;
  ListMeta_DeepCopyInto : PListMeta → M tyD PListMeta;
}.

(** ** The generated functions

    [DeepCopyInto(out)] starts from the shallow copy of the struct and gives every
    field that holds memory a copy of its own; it is the function from the struct
    to the struct written through [out].  [DeepCopy] stores that in a new cell. *)
Section generated.
Context `{KC : KubeCopies} `{!MapRange}.

Definition DeepCopy_new (t : ty) (into : tyD t → M tyD (tyD t)) (in_ : ptr) : M tyD ptr :=
  copy_ptr tyD t into in_.

(** [if in.X != nil] a copy by [metav1.Time.DeepCopy]. *)
Definition copy_time (in_ : ptr) : M tyD ptr :=
  match in_ with None => ret tyD None | Some l => Time_DeepCopy (Some l) end.

(** [*out = new(T)], [**out = **in] *)
Definition copy_value (t : ty) (in_ : ptr) : M tyD ptr := copy_ptr tyD t (ret tyD) in_.

(** [for key, val := range in { out[key] = val }] into a new map. *)
Definition copy_string_map (in_ : ptr) : M tyD ptr :=
  copy_ptr tyD TStringMap (λ m, ret tyD (overlay ∅ m)) in_.

(** [for key, val := range in { out[key] = val.DeepCopy() }] *)
Fixpoint copy_entries (entries : list (string * PQuantity)) (out : gmap string PQuantity)
    : M tyD (gmap string PQuantity) :=
  match entries with
  | [] => ret tyD out
  | (key, val) :: rest =>
      let* val' := Quantity_DeepCopy val in copy_entries rest (<[key := val']> out)
  end.
Definition copy_resource_list (in_ : ptr) : M tyD ptr :=
  copy_ptr tyD TResourceList (λ m, copy_entries (map_range m) ∅) in_.

Definition CooldownSpec_DeepCopyInto (in_ : PCooldown) : M tyD PCooldown :=
  let* up := copy_value TDuration (p_ScaleUp in_) in
  let* down := copy_value TDuration (p_ScaleDown in_) in
  ret tyD (MkPCooldown up down).
Definition CooldownSpec_DeepCopy : ptr → M tyD ptr := DeepCopy_new TCooldown CooldownSpec_DeepCopyInto.

Definition DisruptionSpec_DeepCopyInto (in_ : PDisruption) : M tyD PDisruption :=
  let* after := copy_value TDuration (p_ConsolidateAfter in_) in
  let* max := copy_value TInt32 (p_MaxConcurrent in_) in
  ret tyD (MkPDisruption (p_ConsolidationPolicy in_) after max).
Definition DisruptionSpec_DeepCopy : ptr → M tyD ptr :=
  DeepCopy_new TDisruption DisruptionSpec_DeepCopyInto.

Definition DrainSpec_DeepCopyInto (in_ : PDrain) : M tyD PDrain :=
  let* timeout := copy_value TInt32 (p_TimeoutSeconds in_) in
  ret tyD (MkPDrain timeout (p_Force in_)).
Definition DrainSpec_DeepCopy : ptr → M tyD ptr := DeepCopy_new TDrain DrainSpec_DeepCopyInto.

Definition WoLConfig_DeepCopyInto (in_ : WoLConfig) : M tyD WoLConfig := ret tyD in_.
Definition WoLConfig_DeepCopy : ptr → M tyD ptr := DeepCopy_new TWoLConfig WoLConfig_DeepCopyInto.

Definition ShutdownSpec_DeepCopyInto (in_ : ShutdownSpec) : M tyD ShutdownSpec := ret tyD in_.
Definition ShutdownSpec_DeepCopy : ptr → M tyD ptr :=
  DeepCopy_new TShutdownSpec ShutdownSpec_DeepCopyInto.

Definition PowerSpec_DeepCopyInto (in_ : PPowerSpec) : M tyD PPowerSpec :=
  let* wol := copy_value TWoLConfig (p_WoL in_) in
  ret tyD (MkPPower (p_Power_Provider in_) wol).
Definition PowerSpec_DeepCopy : ptr → M tyD ptr := DeepCopy_new TPowerSpec PowerSpec_DeepCopyInto.

Definition MachineSpec_DeepCopyInto (in_ : PMachineSpec) : M tyD PMachineSpec :=
  let* capacity := copy_resource_list (p_Capacity in_) in
  let* labels := copy_string_map (p_Labels in_) in
  let* power := PowerSpec_DeepCopyInto (p_Power in_) in
  let* shutdown := copy_value TShutdownSpec (p_Shutdown in_) in
  ret tyD (MkPMachineSpec (p_NodeName in_) capacity labels power shutdown).
Definition MachineSpec_DeepCopy : ptr → M tyD ptr := DeepCopy_new TMachineSpec MachineSpec_DeepCopyInto.

Definition MachineStatus_DeepCopyInto (in_ : PMachineStatus) : M tyD PMachineStatus :=
  let* boot := copy_time (p_BootStartTime in_) in
  let* drain := copy_time (p_DrainStartTime in_) in
  let* empty := copy_time (p_EmptySince in_) in
  let* shutdown := copy_time (p_ShutdownStartTime in_) in
  let* notReady := copy_time (p_NotReadySince in_) in
  let* conditions := copy_ptr tyD TConditions (copy_all tyD Condition_DeepCopyInto) (p_Conditions in_) in
  ret tyD (MkPMachineStatus (p_State in_) boot drain empty shutdown notReady conditions).
Definition MachineStatus_DeepCopy : ptr → M tyD ptr :=
  DeepCopy_new TMachineStatus MachineStatus_DeepCopyInto.

Definition Machine_DeepCopyInto (in_ : PMachine) : M tyD PMachine :=
  let* meta := ObjectMeta_DeepCopyInto (p_ObjectMeta in_) in
  let* spec := MachineSpec_DeepCopyInto (p_Spec in_) in
  let* status := MachineStatus_DeepCopyInto (p_Status in_) in
  ret tyD (MkPMachine (p_TypeMeta in_) meta spec status).
Definition Machine_DeepCopy : ptr → M tyD ptr := DeepCopy_new TMachine Machine_DeepCopyInto.

Definition MachineList_DeepCopyInto (in_ : PObjectList) : M tyD PObjectList :=
  let* meta := ListMeta_DeepCopyInto (p_ListMeta in_) in
  let* items := copy_ptr tyD TMachines (copy_all tyD Machine_DeepCopyInto) (p_Items in_) in
  ret tyD (MkPList (p_List_TypeMeta in_) meta items).
Definition MachineList_DeepCopy : ptr → M tyD ptr := DeepCopy_new TMachineList MachineList_DeepCopyInto.

Definition NodePoolTemplate_DeepCopyInto (in_ : PTemplate) : M tyD PTemplate :=
  let* labels := copy_string_map (p_Template_Labels in_) in
  let* taints := copy_ptr tyD TTaints (copy_all tyD Taint_DeepCopyInto) (p_Template_Taints in_) in
  ret tyD (MkPTemplate labels taints).
Definition NodePoolTemplate_DeepCopy : ptr → M tyD ptr :=
  DeepCopy_new TTemplate NodePoolTemplate_DeepCopyInto.

Definition NodePoolSpec_DeepCopyInto (in_ : PPoolSpec) : M tyD PPoolSpec :=
  let* max := copy_value TInt32 (p_MaxNodes in_) in
  let* selector := LabelSelector_DeepCopyInto (p_MachineSelector in_) in
  let* template := NodePoolTemplate_DeepCopyInto (p_Template in_) in
  let* disruption := DisruptionSpec_DeepCopyInto (p_Disruption in_) in
  let* cooldown := CooldownSpec_DeepCopyInto (p_Cooldown in_) in
  let* drain := DrainSpec_DeepCopyInto (p_Drain in_) in
  ret tyD (MkPPoolSpec (p_MinNodes in_) max selector template disruption cooldown drain).
Definition NodePoolSpec_DeepCopy : ptr → M tyD ptr := DeepCopy_new TPoolSpec NodePoolSpec_DeepCopyInto.

Definition NodePoolStatus_DeepCopyInto (in_ : PPoolStatus) : M tyD PPoolStatus :=
  let* up := copy_time (p_LastScaleUpTime in_) in
  let* down := copy_time (p_LastScaleDownTime in_) in
  let* conditions := copy_ptr tyD TConditions (copy_all tyD Condition_DeepCopyInto) (p_Pool_Conditions in_) in
  ret tyD (MkPPoolStatus (p_TotalMachines in_) (p_ReadyMachines in_) up down conditions).
Definition NodePoolStatus_DeepCopy : ptr → M tyD ptr :=
  DeepCopy_new TPoolStatus NodePoolStatus_DeepCopyInto.

Definition NodePool_DeepCopyInto (in_ : PPool) : M tyD PPool :=
  let* meta := ObjectMeta_DeepCopyInto (p_Pool_ObjectMeta in_) in
  let* spec := NodePoolSpec_DeepCopyInto (p_Pool_Spec in_) in
  let* status := NodePoolStatus_DeepCopyInto (p_Pool_Status in_) in
  ret tyD (MkPPool (p_Pool_TypeMeta in_) meta spec status).
Definition NodePool_DeepCopy : ptr → M tyD ptr := DeepCopy_new TPool NodePool_DeepCopyInto.

Definition NodePoolList_DeepCopyInto (in_ : PObjectList) : M tyD PObjectList :=
  let* meta := ListMeta_DeepCopyInto (p_ListMeta in_) in
  let* items := copy_ptr tyD TPools (copy_all tyD NodePool_DeepCopyInto) (p_Items in_) in
  ret tyD (MkPList (p_List_TypeMeta in_) meta items).
Definition NodePoolList_DeepCopy : ptr → M tyD ptr := DeepCopy_new TPoolList NodePoolList_DeepCopyInto.

(** [DeepCopyObject]: a [runtime.Object] interface is nil or a typed pointer. *)
Definition as_object (t : ty) (copy : ptr → M tyD ptr) (in_ : ptr) : M tyD (option (ty * loc)) :=
  let* c := copy in_ in
  match c with Some l => ret tyD (Some (t, l)) | None => ret tyD None end.
Definition Machine_DeepCopyObject := as_object TMachine Machine_DeepCopy.
Definition MachineList_DeepCopyObject := as_object TMachineList MachineList_DeepCopy.
Definition NodePool_DeepCopyObject := as_object TPool NodePool_DeepCopy.
Definition NodePoolList_DeepCopyObject := as_object TPoolList NodePoolList_DeepCopy.
End generated.

(** ** What an object in memory stands for *)

(** The representation of the Kubernetes types; nothing is fixed about it. *)
Class KubeReps `{KM : KubeMemory} `{K8sTypes} : Type := {
  ListMeta : Type;
  rep_quantity : PQuantity → Quantity → heap → Prop;
  rep_taint : PTaint → Taint → heap → Prop;
  rep_selector : PLabelSelector → LabelSelector → heap → Prop;
  rep_owners : PMetaRest → list string → heap → Prop;
  rep_list_meta : PListMeta → ListMeta → heap → Prop;
}.

Section reps.
Context `{KR : KubeReps}.

Definition rep_time : ptr → option Time → heap → Prop := rep_ptr tyD TTime (rep_val tyD).
Definition rep_string_map : ptr → gmap string string → heap → Prop :=
  rep_nil tyD TStringMap (rep_val tyD) ∅.
Definition rep_conditions : ptr → list Condition → heap → Prop :=
  rep_nil tyD TConditions (rep_list tyD (rep_val tyD)) [].

Definition rep_entries (x : gmap string PQuantity) (v : ResourceList) (h : heap) : Prop :=
  ∀ k, option_Forall2 (λ q r, rep_quantity q r h) (x !! k) (v !! k).
Definition rep_resource_list : ptr → ResourceList → heap → Prop :=
  rep_nil tyD TResourceList rep_entries ∅.

Definition rep_meta (x : PObjectMeta) (v : ObjectMeta) (h : heap) : Prop :=
  p_Name x = Name v ∧ p_Namespace x = Namespace v ∧
  rep_string_map (p_Meta_Labels x) (Labels v) h ∧
  rep_string_map (p_Annotations x) (Annotations v) h ∧
  p_Generation x = Generation v ∧ p_ResourceVersion x = ResourceVersion v ∧
  rep_time (p_DeletionTimestamp x) (DeletionTimestamp v) h ∧
  rep_owners (p_rest x) (OwnerKinds v) h.

Definition rep_power (x : PPowerSpec) (v : PowerSpec) (h : heap) : Prop :=
  p_Power_Provider x = Power_Provider v ∧
  rep_ptr tyD TWoLConfig (rep_val tyD) (p_WoL x) (Power_WoL v) h.

Definition rep_spec (x : PMachineSpec) (v : MachineSpec) (h : heap) : Prop :=
  p_NodeName x = NodeName v ∧ rep_resource_list (p_Capacity x) (Capacity v) h ∧
  rep_string_map (p_Labels x) (Spec_Labels v) h ∧ rep_power (p_Power x) (Power v) h ∧
  rep_ptr tyD TShutdownSpec (rep_val tyD) (p_Shutdown x) (Shutdown v) h.

Definition rep_status (x : PMachineStatus) (v : MachineStatus) (h : heap) : Prop :=
  p_State x = State v ∧ rep_time (p_BootStartTime x) (BootStartTime v) h ∧
  rep_time (p_DrainStartTime x) (DrainStartTime v) h ∧
  rep_time (p_EmptySince x) (EmptySince v) h ∧
  rep_time (p_ShutdownStartTime x) (ShutdownStartTime v) h ∧
  rep_time (p_NotReadySince x) (NotReadySince v) h ∧
  rep_conditions (p_Conditions x) (Conditions v) h.

Definition rep_machine (x : PMachine) (v : TypeMeta * Machine) (h : heap) : Prop :=
  p_TypeMeta x = v.1 ∧ rep_meta (p_ObjectMeta x) (Machine_ObjectMeta v.2) h ∧
  rep_spec (p_Spec x) (Spec v.2) h ∧ rep_status (p_Status x) (Status v.2) h.

Definition rep_template (x : PTemplate) (v : NodePoolTemplate) (h : heap) : Prop :=
  rep_string_map (p_Template_Labels x) (Template_Labels v) h ∧
  rep_nil tyD TTaints (rep_list tyD rep_taint) [] (p_Template_Taints x) (Template_Taints v) h.
Definition rep_disruption (x : PDisruption) (v : DisruptionSpec) (h : heap) : Prop :=
  p_ConsolidationPolicy x = ConsolidationPolicy v ∧
  rep_ptr tyD TDuration (rep_val tyD) (p_ConsolidateAfter x) (ConsolidateAfter v) h ∧
  rep_ptr tyD TInt32 (rep_val tyD) (p_MaxConcurrent x) (MaxConcurrent v) h.
Definition rep_cooldown (x : PCooldown) (v : CooldownSpec) (h : heap) : Prop :=
  rep_ptr tyD TDuration (rep_val tyD) (p_ScaleUp x) (Cooldown_ScaleUp v) h ∧
  rep_ptr tyD TDuration (rep_val tyD) (p_ScaleDown x) (Cooldown_ScaleDown v) h.
Definition rep_drain (x : PDrain) (v : DrainSpec) (h : heap) : Prop :=
  rep_ptr tyD TInt32 (rep_val tyD) (p_TimeoutSeconds x) (TimeoutSeconds v) h ∧ p_Force x = Force v.

Definition rep_pool_spec (x : PPoolSpec) (v : NodePoolSpec) (h : heap) : Prop :=
  p_MinNodes x = MinNodes v ∧ rep_ptr tyD TInt32 (rep_val tyD) (p_MaxNodes x) (MaxNodes v) h ∧
  rep_selector (p_MachineSelector x) (MachineSelector v) h ∧
  rep_template (p_Template x) (Template v) h ∧ rep_disruption (p_Disruption x) (Disruption v) h ∧
  rep_cooldown (p_Cooldown x) (Cooldown v) h ∧ rep_drain (p_Drain x) (Drain v) h.

Definition rep_pool_status (x : PPoolStatus) (v : NodePoolStatus) (h : heap) : Prop :=
  p_TotalMachines x = TotalMachines v ∧ p_ReadyMachines x = ReadyMachines v ∧
  rep_time (p_LastScaleUpTime x) (LastScaleUpTime v) h ∧
  rep_time (p_LastScaleDownTime x) (LastScaleDownTime v) h ∧
  rep_conditions (p_Pool_Conditions x) (Pool_Conditions v) h.

Definition rep_pool (x : PPool) (v : TypeMeta * NodePool) (h : heap) : Prop :=
  p_Pool_TypeMeta x = v.1 ∧ rep_meta (p_Pool_ObjectMeta x) (Pool_ObjectMeta v.2) h ∧
  rep_pool_spec (p_Pool_Spec x) (Pool_Spec v.2) h ∧ rep_pool_status (p_Pool_Status x) (Pool_Status v.2) h.

(** A list: its metadata and its items. *)
Definition rep_object_list (t : ty) {V} (R : tyD t → list V → heap → Prop) (x : PObjectList)
    (v : TypeMeta * ListMeta * list V) (h : heap) : Prop :=
  p_List_TypeMeta x = v.1.1 ∧ rep_list_meta (p_ListMeta x) v.1.2 h ∧
  rep_nil tyD t R [] (p_Items x) v.2 h.
Definition rep_machine_list := rep_object_list TMachines (rep_list tyD rep_machine).
Definition rep_pool_list := rep_object_list TPools (rep_list tyD rep_pool).
End reps.

(** What a value of a Kubernetes type stands for is held in cells of its own. *)
Class KubeOwn {KM : KubeMemory} {T V} (R : T → V → heap → Prop) : Prop :=
  kube_own x v h h' :
    (∀ l c, points tyD l TKube c h → points tyD l TKube c h') → R x v h → R x v h'.

#[global] Instance kube_own_mono {KM : KubeMemory} {T V} (R : T → V → heap → Prop) :
  KubeOwn R → RepMono R.
Proof. intros HR x v h h' Hs. apply HR. intros l c. by apply points_mono. Qed.

(** Every function of [k8s.io] deep-copies its type. *)
Class KubeCopyLaws `{KR : KubeReps} `{!KubeCopies} : Prop := {
  quantity_own :: KubeOwn rep_quantity;
  taint_own :: KubeOwn rep_taint;
  selector_own :: KubeOwn rep_selector;
  owners_own :: KubeOwn rep_owners;
  list_meta_own :: KubeOwn rep_list_meta;
  time_copies :: Copies rep_time Time_DeepCopy;
  condition_copies :: Copies (rep_val tyD) Condition_DeepCopyInto;
  quantity_copies :: Copies rep_quantity Quantity_DeepCopy;
  taint_copies :: Copies rep_taint Taint_DeepCopyInto;
  selector_copies :: Copies rep_selector LabelSelector_DeepCopyInto;
  meta_copies :: Copies rep_meta ObjectMeta_DeepCopyInto;
  list_meta_copies :: Copies rep_list_meta ListMeta_DeepCopyInto;
}.

(** ** The copies are deep *)

(** A struct is copied field by field: [copy_fields] runs the copies in order,
    carrying what is known of the fields already copied along. *)
Ltac lift_reps Hs :=
  repeat match type of Hs with
  | ?n ⊆ ?n' =>
      match goal with
      | H : ?R ?x ?v n |- _ => apply (rep_mono (R:=R) x v n n' Hs) in H
      end
  end.
Ltac copy_field :=
  apply awp_bind;
  match goal with
  | H : ?R ?x ?v ?h |- awp _ ?h ?n (?f ?x) _ =>
      eapply awp_mono; [|exact (copies (R:=R) (copy:=f) h n x v H)];
      let Hs := fresh in intros ? ? Hs ? _; cbv beta in *; lift_reps Hs
  end.
Ltac copy_fields :=
  let H := fresh in
  intros ? ? ? ? H; hnf in H; split_all; repeat copy_field; apply awp_ret; hnf; split_and!; cbn; done.
Ltac mono_fields :=
  let H := fresh in
  intros ? ? ? ? Hs H; hnf in H |- *; split_all; done || by apply (rep_mono _ _ _ _ Hs).

Section laws.
Context `{KCL : KubeCopyLaws} `{!MapRange}.

#[global] Instance rep_time_mono : RepMono rep_time.
Proof. apply _. Qed.
#[global] Instance rep_string_map_mono : RepMono rep_string_map.
Proof. apply _. Qed.
#[global] Instance rep_conditions_mono : RepMono rep_conditions.
Proof. apply _. Qed.
#[global] Instance rep_entries_mono : RepMono rep_entries.
Proof.
  intros x v h h' Hs Hx k. specialize (Hx k). destruct Hx; constructor. by apply (rep_mono _ _ _ _ Hs).
Qed.
#[global] Instance rep_resource_list_mono : RepMono rep_resource_list.
Proof. apply _. Qed.
#[global] Instance rep_meta_mono : RepMono rep_meta.
Proof. mono_fields. Qed.
#[global] Instance rep_power_mono : RepMono rep_power.
Proof. mono_fields. Qed.
#[global] Instance rep_spec_mono : RepMono rep_spec.
Proof. mono_fields. Qed.
#[global] Instance rep_status_mono : RepMono rep_status.
Proof. mono_fields. Qed.
#[global] Instance rep_machine_mono : RepMono rep_machine.
Proof. mono_fields. Qed.
#[global] Instance rep_template_mono : RepMono rep_template.
Proof. mono_fields. Qed.
#[global] Instance rep_disruption_mono : RepMono rep_disruption.
Proof. mono_fields. Qed.
#[global] Instance rep_cooldown_mono : RepMono rep_cooldown.
Proof. mono_fields. Qed.
#[global] Instance rep_drain_mono : RepMono rep_drain.
Proof. mono_fields. Qed.
#[global] Instance rep_pool_spec_mono : RepMono rep_pool_spec.
Proof. mono_fields. Qed.
#[global] Instance rep_pool_status_mono : RepMono rep_pool_status.
Proof. mono_fields. Qed.
#[global] Instance rep_pool_mono : RepMono rep_pool.
Proof. mono_fields. Qed.
#[global] Instance rep_object_list_mono t {V} (R : tyD t → list V → heap → Prop) :
  RepMono R → RepMono (rep_object_list t R).
Proof. intros HR. mono_fields. Qed.

#[global] Instance copy_value_copies t : Copies (rep_ptr tyD t (rep_val tyD)) (copy_value t).
Proof. apply _. Qed.
#[global] Instance copy_time_copies : Copies rep_time copy_time.
Proof.
  intros h n [l|] o Ho; [exact (copies (copy:=Time_DeepCopy) h n (Some l) o Ho)|]. destruct o; [done|]. by apply awp_ret.
Qed.
#[global] Instance copy_string_map_copies : Copies rep_string_map copy_string_map.
Proof.
  apply copy_nil_copies; [apply _|]. intros h n x v ->. apply awp_ret. hnf.
  by rewrite overlay_union, (right_id_L ∅ (∪)).
Qed.
#[global] Instance copy_conditions_copies :
  Copies rep_conditions (copy_ptr tyD TConditions (copy_all tyD Condition_DeepCopyInto)).
Proof. apply _. Qed.

(** The loop over a resource list. *)
Lemma copy_entries_copies h n entries (v : ResourceList) out :
  NoDup entries.*1 →
  (∀ k q, (k, q) ∈ entries → ∃ r, v !! k = Some r ∧ rep_quantity q r h) →
  awp tyD h n (copy_entries entries out) (λ out' n',
    (∀ k, k ∉ entries.*1 → out' !! k = out !! k) ∧
    ∀ k, k ∈ entries.*1 → ∃ q' r, out' !! k = Some q' ∧ v !! k = Some r ∧ rep_quantity q' r n').
Proof.
  revert n out. induction entries as [|[k q] entries IH]; intros n out Hnd He; simpl.
  { apply awp_ret. split; [done|]. by intros k ?%elem_of_nil. }
  apply NoDup_cons in Hnd as [Hk Hnd]. destruct (He k q) as (r & Hr & Hq); [left|].
  apply awp_bind. eapply awp_mono; [|exact (copies h n q r Hq)]. intros q' n1 _ Hq' _.
  eapply awp_mono; [|apply (IH n1 (<[k:=q']> out) Hnd)]; [|intros; apply He; by right].
  intros out' n2 Hs [Hold Hnew]. split.
  - intros k' [Hne ?]%not_elem_of_cons. by rewrite Hold, lookup_insert_ne.
  - intros k' [->|?]%elem_of_cons; [|by apply Hnew]. exists q', r. cbn.
    rewrite Hold, lookup_insert_eq by done. split_and!; [done|done|]. by apply (rep_mono _ _ _ _ Hs).
Qed.

#[global] Instance copy_resource_list_copies : Copies rep_resource_list copy_resource_list.
Proof.
  apply copy_nil_copies; [apply _|]. intros h n x v Hx. cbn in x.
  assert (∀ k q, (k, q) ∈ map_range x ↔ x !! k = Some q) as Hin.
  { intros k q. rewrite map_range_perm. apply elem_of_map_to_list. }
  eapply awp_mono; [|apply (copy_entries_copies h n _ v)].
  - intros out' n' _ [Hold Hnew] k. specialize (Hx k).
    destruct (x !! k) as [q|] eqn:E; inversion Hx as [? r Hq E1 E2|E1 E2]; subst.
    + destruct (Hnew k) as (q' & r' & -> & Hr' & Hq').
      { apply list_elem_of_fmap. exists (k, q). split; [done|]. by apply Hin. }
      rewrite Hr' in E2. injection E2 as ->. by constructor.
    + rewrite Hold; [rewrite lookup_empty; constructor|].
      intros ([k' q] & -> & Hq%Hin)%list_elem_of_fmap. cbn in E. congruence.
  - rewrite map_range_perm. apply NoDup_fst_map_to_list.
  - intros k q Hq%Hin. specialize (Hx k). rewrite Hq in Hx. inversion Hx; subst; eauto.
Qed.

#[global] Instance CooldownSpec_copies : Copies rep_cooldown CooldownSpec_DeepCopyInto.
Proof. copy_fields. Qed.
#[global] Instance DisruptionSpec_copies : Copies rep_disruption DisruptionSpec_DeepCopyInto.
Proof. copy_fields. Qed.
#[global] Instance DrainSpec_copies : Copies rep_drain DrainSpec_DeepCopyInto.
Proof. copy_fields. Qed.
#[global] Instance PowerSpec_copies : Copies rep_power PowerSpec_DeepCopyInto.
Proof. copy_fields. Qed.
#[global] Instance MachineSpec_copies : Copies rep_spec MachineSpec_DeepCopyInto.
Proof. copy_fields. Qed.
#[global] Instance MachineStatus_copies : Copies rep_status MachineStatus_DeepCopyInto.
Proof. copy_fields. Qed.
#[global] Instance Machine_copies : Copies rep_machine Machine_DeepCopyInto.
Proof. copy_fields. Qed.
#[global] Instance Template_copies : Copies rep_template NodePoolTemplate_DeepCopyInto.
Proof. copy_fields. Qed.
#[global] Instance NodePoolSpec_copies : Copies rep_pool_spec NodePoolSpec_DeepCopyInto.
Proof. copy_fields. Qed.
#[global] Instance NodePoolStatus_copies : Copies rep_pool_status NodePoolStatus_DeepCopyInto.
Proof. copy_fields. Qed.
#[global] Instance NodePool_copies : Copies rep_pool NodePool_DeepCopyInto.
Proof. copy_fields. Qed.
#[global] Instance MachineList_copies : Copies rep_machine_list MachineList_DeepCopyInto.
Proof. copy_fields. Qed.
#[global] Instance NodePoolList_copies : Copies rep_pool_list NodePoolList_DeepCopyInto.
Proof. copy_fields. Qed.

(** The object a pointer points to. *)
Definition stands (t : ty) {V} (R : tyD t → V → heap → Prop) (p : ptr) (v : V) (h : heap) : Prop :=
  rep_ptr tyD t R p (Some v) h.

(** [copy], given a pointer that stands for [v], returns a pointer into memory
    of its own that stands for [v], and leaves the memory it was given alone. *)
Definition deep_copies (t : ty) {V} (R : tyD t → V → heap → Prop) (copy : ptr → M tyD ptr) : Prop :=
  ∀ h p v, stands t R p v h →
    ∃ q n, copy p h = Some (q, h ∪ n) ∧ n ##ₘ h ∧ stands t R q v n.

Lemma DeepCopy_new_deep t {V} (R : tyD t → V → heap → Prop) into :
  RepMono R → Copies R into → deep_copies t R (DeepCopy_new t into).
Proof.
  intros HR Hc h p v Hp.
  destruct (copies (copy:=copy_ptr tyD t into) h ∅ p (Some v) Hp) as (q & n & E & Hd & _ & Hq).
  { apply map_disjoint_empty_l. }
  rewrite (right_id_L ∅ (∪)) in E. by exists q, n.
Qed.

(** [DeepCopyObject] returns the pointer of [DeepCopy] under its type, and the nil
    interface for a nil pointer. *)
Definition copies_object (t : ty) {V} (R : tyD t → V → heap → Prop)
    (copy : ptr → M tyD (option (ty * loc))) : Prop :=
  ∀ h, copy None h = Some (None, h) ∧
  ∀ p v, stands t R p v h →
    ∃ l n, copy p h = Some (Some (t, l), h ∪ n) ∧ n ##ₘ h ∧ stands t R (Some l) v n.

Lemma as_object_deep t {V} (R : tyD t → V → heap → Prop) into :
  RepMono R → Copies R into → copies_object t R (as_object t (DeepCopy_new t into)).
Proof.
  intros HR Hc h. split; [done|]. intros p v Hp.
  destruct (DeepCopy_new_deep t R into HR Hc h p v Hp) as (q & n & E & Hd & Hq).
  unfold as_object, mbind_. rewrite E. destruct q as [l|]; [|done]. by exists l, n.
Qed.

#[global] Instance WoLConfig_copies : Copies (rep_val tyD) WoLConfig_DeepCopyInto.
Proof. apply ret_copies. Qed.
#[global] Instance ShutdownSpec_copies : Copies (rep_val tyD) ShutdownSpec_DeepCopyInto.
Proof. apply ret_copies. Qed.

(** C18.  Deep copies are deep, and never panic: for every API type, on every
    well-typed value in memory, the generated [DeepCopy] returns a pointer to an
    object that stands for the same value and lies entirely in newly allocated
    memory; no cell of the original is shared or changed.  [DeepCopyObject] returns
    that pointer, and nil for nil. *)
Theorem deep_copies_are_independent :
  (deep_copies TMachine rep_machine Machine_DeepCopy ∧
   deep_copies TMachineList rep_machine_list MachineList_DeepCopy ∧
   deep_copies TMachineSpec rep_spec MachineSpec_DeepCopy ∧
   deep_copies TMachineStatus rep_status MachineStatus_DeepCopy ∧
   deep_copies TPowerSpec rep_power PowerSpec_DeepCopy ∧
   deep_copies TWoLConfig (rep_val tyD) WoLConfig_DeepCopy ∧
   deep_copies TShutdownSpec (rep_val tyD) ShutdownSpec_DeepCopy) ∧
  (deep_copies TPool rep_pool NodePool_DeepCopy ∧
   deep_copies TPoolList rep_pool_list NodePoolList_DeepCopy ∧
   deep_copies TPoolSpec rep_pool_spec NodePoolSpec_DeepCopy ∧
   deep_copies TPoolStatus rep_pool_status NodePoolStatus_DeepCopy ∧
   deep_copies TTemplate rep_template NodePoolTemplate_DeepCopy ∧
   deep_copies TDisruption rep_disruption DisruptionSpec_DeepCopy ∧
   deep_copies TCooldown rep_cooldown CooldownSpec_DeepCopy ∧
   deep_copies TDrain rep_drain DrainSpec_DeepCopy) ∧
  (copies_object TMachine rep_machine Machine_DeepCopyObject ∧
   copies_object TMachineList rep_machine_list MachineList_DeepCopyObject ∧
   copies_object TPool rep_pool NodePool_DeepCopyObject ∧
   copies_object TPoolList rep_pool_list NodePoolList_DeepCopyObject).
Proof. split_and!; first [apply DeepCopy_new_deep | apply as_object_deep]; apply _. Qed.
End laws.

(** ** A concrete memory

    Owner references lie in a cell of their own behind a slice; the other
    Kubernetes types are plain values. *)
Module KubeFixture.
Import Fixture.

Definition memory : KubeMemory := {|
  PQuantity := Z;
  PTaint := Taint;
  PLabelSelector := option (gmap string string);
  PMetaRest := ptr;
  PListMeta := string;
  KubeCell := list string;
|}.
#[export] Existing Instance memory.

Definition copy_meta (x : @PObjectMeta memory) : M tyD (@PObjectMeta memory) :=
  let* labels := copy_string_map (p_Meta_Labels x) in
  let* annotations := copy_string_map (p_Annotations x) in
  let* deletion := copy_value TTime (p_DeletionTimestamp x) in
  let* owners := copy_value TKube (p_rest x : ptr) in
  ret tyD (@MkPMeta memory (p_Name x) (p_Namespace x) labels annotations (p_Generation x)
    (p_ResourceVersion x) deletion owners).

Definition copiers : KubeCopies := {|
  Time_DeepCopy := copy_value TTime;
  Condition_DeepCopyInto := ret tyD;
  Quantity_DeepCopy := ret tyD;
  Taint_DeepCopyInto := ret tyD;
  LabelSelector_DeepCopyInto := ret tyD;
  ObjectMeta_DeepCopyInto := copy_meta;
  ListMeta_DeepCopyInto := ret tyD;
|}.
#[export] Existing Instance copiers.

Definition represents : KubeReps := {|
  ListMeta := string;
  rep_quantity := rep_val tyD : @PQuantity memory → @Quantity types → heap → Prop;
  rep_taint := rep_val tyD : @PTaint memory → Taint → heap → Prop;
  rep_selector := rep_val tyD : @PLabelSelector memory → @LabelSelector types → heap → Prop;
  rep_owners := rep_nil tyD TKube (rep_val tyD) [] : @PMetaRest memory → list string → heap → Prop;
  rep_list_meta := rep_val tyD : @PListMeta memory → string → heap → Prop;
|}.
#[export] Existing Instance represents.

#[export] Instance val_own {A} : KubeOwn (@rep_val _ tyD A).
Proof. by intros ?????. Qed.
#[export] Instance owners_cell_own : KubeOwn rep_owners.
Proof. intros [l|] v h h' Hk; [|done]. intros (c & Hl & Hc). exists c. split; [by apply Hk|done]. Qed.
#[export] Instance owners_cell_copies :
  Copies (rep_owners : ptr → list string → heap → Prop) (copy_value TKube).
Proof. exact (copy_nil_copies tyD TKube (rep_val tyD) [] (ret tyD) _ _). Qed.
#[export] Instance copy_meta_copies : Copies rep_meta copy_meta.
Proof. copy_fields. Qed.
#[export] Instance copy_laws : KubeCopyLaws.
Proof. split; apply _. Qed.

(** A Machine whose start times share one cell. *)
Definition machine_type : TypeMeta := MkTypeMeta "Machine" "onp.io/v1alpha1".
Definition m1 : PMachine :=
  MkPMachine machine_type
    (@MkPMeta memory "m1" "" (Some 2) None 1 1 None None)%positive
    (MkPMachineSpec "m1" (Some 3) None (MkPPower "wol" (Some 4)) None)%positive
    (MkPMachineStatus Ready (Some 5) (Some 5) None (Some 5) None None)%positive.
Definition m1_heap : heap :=
  {[1%positive := Cell tyD TMachine m1;
    2%positive := Cell tyD TStringMap edge_labels;
    3%positive := Cell tyD TResourceList ({["cpu" := 8000]} : gmap string Z);
    4%positive := Cell tyD TWoLConfig (MkWoLConfig "aa:bb:cc:dd:ee:ff" "");
    5%positive := Cell tyD TTime 100]}.

Lemma m1_rep : rep_machine m1 (machine_type, machine "m1" Ready (Some 100) ∅) m1_heap.
Proof.
  repeat match goal with
  | |- ?R ?x ?v ?h => hnf
  | |- _ ∧ _ => split
  | |- ∃ _, points _ _ _ _ _ ∧ _ => eexists; split; [reflexivity|]
  end; done.
Qed.
End KubeFixture.
Import Fixture KubeFixture.

(** The theorem at a Machine in memory. *)
Lemma deep_copies_are_independent_witness :
  ∃ q n, Machine_DeepCopy (Some 1%positive) m1_heap = Some (q, m1_heap ∪ n) ∧
    n ##ₘ m1_heap ∧
    stands TMachine rep_machine q
      (machine_type, machine "m1" Ready (Some 100) ∅) n.
Proof.
  apply deep_copies_are_independent. exists m1. split; [reflexivity|].
  exact m1_rep.
Defined.
