(* ===== verification/Patching.v ===== *)
(** * Patches computed in place

    The reconcilers change an object the same way everywhere: they deep-copy it,
    change the original through its pointer and send the difference of the two
    as a merge patch ([client.MergeFrom]).  Here that code runs on the explicit
    memory of [Heap] and [DeepCopy], nil annotation maps and all, each function
    returning the base of the patch it sends ([None] where it sends none).

    The theorem justifies how the other files model it: as a patch from the value
    that was read to the value with the change applied. *)

From S2P Require Import Prelude GoStd K8s Api Heap Fixture DeepCopy.

Local Open Scope Z_scope.

(** ** Assignments to fields *)
Section fields.
Context {KM : KubeMemory}.

Definition put_Annotations (a : ptr) (x : PMachine) : PMachine :=
  let o := p_ObjectMeta x in
  MkPMachine (p_TypeMeta x)
    (MkPMeta (p_Name o) (p_Namespace o) (p_Meta_Labels o) a (p_Generation o)
       (p_ResourceVersion o) (p_DeletionTimestamp o) (p_rest o))
    (p_Spec x) (p_Status x).

Definition put_EmptySince (t : ptr) (x : PMachine) : PMachine :=
  let st := p_Status x in
  MkPMachine (p_TypeMeta x) (p_ObjectMeta x) (p_Spec x)
    (MkPMachineStatus (p_State st) (p_BootStartTime st) (p_DrainStartTime st) t
       (p_ShutdownStartTime st) (p_NotReadySince st) (p_Conditions st)).

Definition put_NotReadySince (t : ptr) (x : PMachine) : PMachine :=
  let st := p_Status x in
  MkPMachine (p_TypeMeta x) (p_ObjectMeta x) (p_Spec x)
    (MkPMachineStatus (p_State st) (p_BootStartTime st) (p_DrainStartTime st) (p_EmptySince st)
       (p_ShutdownStartTime st) t (p_Conditions st)).

Definition put_LastScaleUpTime (t : ptr) (x : PPool) : PPool :=
  let st := p_Pool_Status x in
  MkPPool (p_Pool_TypeMeta x) (p_Pool_ObjectMeta x) (p_Pool_Spec x)
    (MkPPoolStatus (p_TotalMachines st) (p_ReadyMachines st) t (p_LastScaleDownTime st)
       (p_Pool_Conditions st)).

Definition put_LastScaleDownTime (t : ptr) (x : PPool) : PPool :=
  let st := p_Pool_Status x in
  MkPPool (p_Pool_TypeMeta x) (p_Pool_ObjectMeta x) (p_Pool_Spec x)
    (MkPPoolStatus (p_TotalMachines st) (p_ReadyMachines st) (p_LastScaleUpTime st) t
       (p_Pool_Conditions st)).
End fields.

(** ** The functions, on memory *)
Section edits.
Context `{KC : KubeCopies} `{!MapRange}.

(** [delete] and indexing of a nil map are allowed and find nothing. *)
Definition read_map (p : ptr) : M tyD (gmap string string) :=
  match p with None => ret tyD ∅ | Some a => read tyD TStringMap a end.

(** [m.Annotations] made non-nil. *)
Definition ensure_Annotations (m : loc) : M tyD loc :=
  let* x := read tyD TMachine m in
  match p_Annotations (p_ObjectMeta x) with
  | Some a => ret tyD a
  | None =>
      let* a := alloc tyD TStringMap ∅ in
      let* _ := write tyD TMachine m (put_Annotations (Some a) x) in
      ret tyD a
  end.

Definition annotate_in_place (k v : string) (m : loc) : M tyD (option ptr) :=
  let* base := Machine_DeepCopy (Some m) in
  let* a := ensure_Annotations m in
  let* am := read tyD TStringMap a in
  let* _ := write tyD TStringMap a (<[k := v]> am) in
  ret tyD (Some base).

Definition unannotate_in_place (k : string) (m : loc) : M tyD (option ptr) :=
  let* x := read tyD TMachine m in
  let* am := read_map (p_Annotations (p_ObjectMeta x)) in
  match am !! k, p_Annotations (p_ObjectMeta x) with
  | Some _, Some a =>
      let* base := Machine_DeepCopy (Some m) in
      let* am := read tyD TStringMap a in
      let* _ := write tyD TStringMap a (delete k am) in
      ret tyD (Some base)
  | _, _ => ret tyD None
  end.

(** [now := metav1.NewTime(...)], [obj.Status.<field> = &now] *)
Definition stamp_in_place (t : ty) (copy : ptr → M tyD ptr) (put : ptr → tyD t → tyD t)
    (now : Time) (o : loc) : M tyD (option ptr) :=
  let* base := copy (Some o) in
  let* stamp := alloc tyD TTime now in
  let* x := read tyD t o in
  let* _ := write tyD t o (put (Some stamp) x) in
  ret tyD (Some base).

(** [if m.Status.<field> == nil { return nil }], otherwise the field becomes nil. *)
Definition clear_in_place (field : PMachine → ptr) (put : ptr → PMachine → PMachine) (m : loc)
    : M tyD (option ptr) :=
  let* x := read tyD TMachine m in
  match field x with
  | None => ret tyD None
  | Some _ =>
      let* base := Machine_DeepCopy (Some m) in
      let* x := read tyD TMachine m in
      let* _ := write tyD TMachine m (put None x) in
      ret tyD (Some base)
  end.

Definition mem_requestWake : loc → M tyD (option ptr) :=
  annotate_in_place AnnotationWakeNow AnnotationWakeNowValue.
Definition mem_requestDrain : loc → M tyD (option ptr) :=
  annotate_in_place AnnotationDrainNow AnnotationDrainNowValue.
Definition mem_removeWakeAnnotation : loc → M tyD (option ptr) :=
  unannotate_in_place AnnotationWakeNow.
Definition mem_removeDrainAnnotation : loc → M tyD (option ptr) :=
  unannotate_in_place AnnotationDrainNow.
Definition mem_stampEmptySince : Time → loc → M tyD (option ptr) :=
  stamp_in_place TMachine Machine_DeepCopy put_EmptySince.
Definition mem_stampNotReadySince : Time → loc → M tyD (option ptr) :=
  stamp_in_place TMachine Machine_DeepCopy put_NotReadySince.
Definition mem_clearEmptySince : loc → M tyD (option ptr) :=
  clear_in_place (λ x, p_EmptySince (p_Status x)) put_EmptySince.
Definition mem_clearNotReadySince : loc → M tyD (option ptr) :=
  clear_in_place (λ x, p_NotReadySince (p_Status x)) put_NotReadySince.
Definition mem_stampScaleUp : Time → loc → M tyD (option ptr) :=
  stamp_in_place TPool NodePool_DeepCopy put_LastScaleUpTime.
Definition mem_stampScaleDown : Time → loc → M tyD (option ptr) :=
  stamp_in_place TPool NodePool_DeepCopy put_LastScaleDownTime.
End edits.

(** ** What a write leaves alone *)
Section frame.
Context `{KCL : KubeCopyLaws}.

(** Every cell of [h] but Machines, NodePools and the map [X] is as it was. *)
Definition keeps (X : ptr) (h h' : heap) : Prop :=
  ∀ l t c, t ≠ TMachine → t ≠ TPool → (t = TStringMap → X ≠ Some l) →
    points tyD l t c h → points tyD l t c h'.

Lemma keeps_mono X h h' : h ⊆ h' → keeps X h h'.
Proof. intros Hs l t c _ _ _. by apply points_mono. Qed.

Lemma keeps_insert X h h' l c :
  keeps X h h' →
  (∀ t c', points tyD l t c' h → t = TMachine ∨ t = TPool ∨ (t = TStringMap ∧ X = Some l)) →
  keeps X h (<[l := c]> h').
Proof.
  intros Hk Hl l' t c' HM HP HX Hp. destruct (decide (l' = l)) as [->|Hne].
  - destruct (Hl _ _ Hp) as [?|[?|[? ?]]]; [done|done|]. by destruct HX.
  - unfold points. rewrite lookup_insert_ne by done. by apply Hk.
Qed.

(** [x] stands for the same value after a write that [keeps] the rest. *)
Class Kept {T V} (X : ptr) (R : T → V → heap → Prop) (x : T) : Prop :=
  kept v h h' : keeps X h h' → R x v h → R x v h'.

(** A map that is not [X]. *)
Class Apart (X p : ptr) : Prop := apart : p = None ∨ p ≠ X.
#[global] Instance apart_nil p : Apart None p.
Proof. destruct p; [right|left]; done. Qed.

#[global] Instance kube_kept {T V} X (R : T → V → heap → Prop) x : KubeOwn R → Kept X R x.
Proof. intros HR v h h' Hk. apply HR. intros l c. by apply Hk. Qed.

(** A type no write here changes. *)
Class Stable (t : ty) : Prop :=
  stable : t ≠ TMachine ∧ t ≠ TPool ∧ t ≠ TStringMap.
#[local] Hint Extern 0 (Stable _) => by split_and! : typeclass_instances.

Lemma stable_points X l t c h h' :
  Stable t → keeps X h h' → points tyD l t c h → points tyD l t c h'.
Proof. intros (? & ? & ?) Hk. by apply Hk. Qed.

#[global] Instance val_kept {A} X x : Kept X (@rep_val _ tyD A) x.
Proof. by intros ????. Qed.
#[global] Instance list_kept {T V} X (R : T → V → heap → Prop) xs :
  (∀ x, Kept X R x) → Kept X (rep_list tyD R) xs.
Proof. intros HR vs h h' Hk Hf. eapply Forall2_impl; [exact Hf|]. intros x v. by apply (HR x). Qed.
#[global] Instance ptr_kept t {V} X (R : tyD t → V → heap → Prop) p :
  Stable t → (∀ x, Kept X R x) → Kept X (rep_ptr tyD t R) p.
Proof.
  intros Ht HR o h h' Hk. destruct p as [l|], o; simpl; try done. intros (x & Hl & Hx). exists x.
  split; [by apply (stable_points X _ _ _ h)|by apply (HR x v h)].
Qed.
#[global] Instance nil_kept t {V} X (R : tyD t → V → heap → Prop) zero p :
  Stable t → (∀ x, Kept X R x) → Kept X (rep_nil tyD t R zero) p.
Proof.
  intros Ht HR v h h' Hk. destruct p as [l|]; simpl; [|done]. intros (x & Hl & Hx). exists x.
  split; [by apply (stable_points X _ _ _ h)|by apply (HR x v h)].
Qed.
#[global] Instance map_kept X p : Apart X p → Kept X rep_string_map p.
Proof.
  intros Hp v h h' Hk. destruct p as [l|]; simpl; [|done]. intros (x & Hl & Hx). exists x.
  split; [|done]. apply Hk; [done..| |done]. intros _ ->. by destruct Hp.
Qed.
#[global] Instance entries_kept X x : Kept X rep_entries x.
Proof.
  intros v h h' Hk Hx k. specialize (Hx k). destruct Hx as [q r Hq|]; constructor.
  exact (kept (R:=rep_quantity) r h h' Hk Hq).
Qed.

(** A struct is kept when its fields are. *)
Ltac kept_fields :=
  let H := fresh in
  intros ? ? ? ? H; hnf in H |- *; split_all; done || (eapply kept; eassumption).

#[global] Instance power_kept X x : Kept X rep_power x.
Proof. kept_fields. Qed.
#[global] Instance spec_kept X x : Apart X (p_Labels x) → Kept X rep_spec x.
Proof. intros HX. kept_fields. Qed.
#[global] Instance status_kept X x : Kept X rep_status x.
Proof. kept_fields. Qed.
#[global] Instance meta_kept X x :
  Apart X (p_Meta_Labels x) → Apart X (p_Annotations x) → Kept X rep_meta x.
Proof. intros HL HA. kept_fields. Qed.
#[global] Instance template_kept x : Kept None rep_template x.
Proof. kept_fields. Qed.
#[global] Instance disruption_kept X x : Kept X rep_disruption x.
Proof. kept_fields. Qed.
#[global] Instance cooldown_kept X x : Kept X rep_cooldown x.
Proof. kept_fields. Qed.
#[global] Instance drain_kept X x : Kept X rep_drain x.
Proof. kept_fields. Qed.
#[global] Instance pool_spec_kept x : Kept None rep_pool_spec x.
Proof. kept_fields. Qed.
#[global] Instance pool_status_kept X x : Kept X rep_pool_status x.
Proof. kept_fields. Qed.
#[global] Instance machine_kept x : Kept None rep_machine x.
Proof. kept_fields. Qed.
#[global] Instance pool_kept x : Kept None rep_pool x.
Proof. kept_fields. Qed.

(** Assigning a field. *)
Lemma put_Annotations_rep X a (x : PMachine) tm (m : Machine) am h h' :
  rep_machine x (tm, m) h → keeps X h h' →
  Apart X (p_Meta_Labels (p_ObjectMeta x)) → Apart X (p_Labels (p_Spec x)) →
  rep_string_map a am h' →
  rep_machine (put_Annotations a x) (tm, with_Meta (set_Annotations am) m) h'.
Proof.
  intros (Ht & (?&?&?&_&?&?&?&?) & Hs & Hst) Hk HL HS Ha. hnf. split_and!; cbn; [done| | |].
  - split_and!; cbn; done || (eapply kept; eassumption).
  - eapply kept; eassumption.
  - eapply kept; eassumption.
Qed.

Definition putter {T V} (R : T → V → heap → Prop) (put : ptr → T → T) (set : option Time → V → V) : Prop :=
  ∀ p o x v h, rep_time p o h → R x v h → R (put p x) (set o v) h.

Lemma put_EmptySince_rep :
  putter rep_machine put_EmptySince (λ o v, (v.1, set_EmptySince o v.2)).
Proof. intros p o x v h Hp (? & ? & ? & Hst). hnf in Hst. split_all. split_and!; done. Qed.
Lemma put_NotReadySince_rep :
  putter rep_machine put_NotReadySince (λ o v, (v.1, set_NotReadySince o v.2)).
Proof. intros p o x v h Hp (? & ? & ? & Hst). hnf in Hst. split_all. split_and!; done. Qed.
Lemma put_LastScaleUpTime_rep :
  putter rep_pool put_LastScaleUpTime (λ o v, (v.1, set_LastScaleUpTime o v.2)).
Proof. intros p o x v h Hp (? & ? & ? & Hst). hnf in Hst. split_all. split_and!; done. Qed.
Lemma put_LastScaleDownTime_rep :
  putter rep_pool put_LastScaleDownTime (λ o v, (v.1, set_LastScaleDownTime o v.2)).
Proof. intros p o x v h Hp (? & ? & ? & Hst). hnf in Hst. split_all. split_and!; done. Qed.
End frame.
#[global] Hint Extern 0 (Stable _) => by split_and! : typeclass_instances.

(** ** The functions send the patch they mean *)
Section patches.
Context `{KCL : KubeCopyLaws} `{!MapRange}.

Lemma run_bind {A B} (m : M tyD A) (f : A → M tyD B) h a h' :
  m h = Some (a, h') → mbind_ tyD m f h = f a h'.
Proof. unfold mbind_. by intros ->. Qed.
Lemma run_alloc t (c : tyD t) h :
  ∃ l, h !! l = None ∧ alloc tyD t c h = Some (l, <[l := Cell tyD t c]> h).
Proof. exists (fresh (dom h)). split; [|done]. apply not_elem_of_dom, is_fresh. Qed.
Lemma run_write t l (c : tyD t) t' c' h :
  points tyD l t' c' h → write tyD t l c h = Some (tt, <[l := Cell tyD t c]> h).
Proof. unfold write. by intros ->. Qed.

(** Run the next statement. *)
Ltac run E := rewrite (run_bind _ _ _ _ _ E).

(** [op] on the object at [o], which is well formed by [ok]: where [edit] changes
    the object, [op] returns the base of a patch that stands for the object as
    read, while [o] itself stands for the object as changed; where it does not,
    nothing is sent and no memory changes.  Besides [o] and the map it [touches],
    no cell is written. *)
Definition patches (t : ty) {V} (R : tyD t → V → heap → Prop) (op : loc → M tyD (option ptr))
    (touches : tyD t → ptr) (ok : tyD t → Prop) (edit : V → option V) : Prop :=
  ∀ h o x v, points tyD o t x h → R x v h → ok x →
    ∃ r h', op o h = Some (r, h') ∧
      (∀ l, is_Some (h !! l) → l ≠ o → touches x ≠ Some l → h' !! l = h !! l) ∧
      match edit v with
      | None => r = None ∧ h' = h
      | Some v' => ∃ base, r = Some base ∧ stands t R base v h' ∧ stands t R (Some o) v' h'
      end.

(** A Machine's annotation map is not also one of its label maps. *)
Definition unshared (x : PMachine) : Prop :=
  Apart (p_Annotations (p_ObjectMeta x)) (p_Meta_Labels (p_ObjectMeta x)) ∧
  Apart (p_Annotations (p_ObjectMeta x)) (p_Labels (p_Spec x)).

(** Facts about the memory after the copy [n] was added to [h]. *)
Lemma copied_None (h n : heap) l : n ##ₘ h → is_Some (h !! l) → n !! l = None.
Proof. intros Hd [c Hl]. by eapply map_disjoint_Some_r. Qed.
Lemma fresh_old (h n : heap) l : (h ∪ n) !! l = None → h !! l = None ∧ n !! l = None.
Proof. by intros ?%lookup_union_None. Qed.
Lemma unchanged_union (h n : heap) l : is_Some (h !! l) → (h ∪ n) !! l = h !! l.
Proof. intros [c Hc]. rewrite Hc. by apply lookup_union_Some_l. Qed.

Lemma stands_mono t {V} (R : tyD t → V → heap → Prop) p v n h :
  RepMono R → stands t R p v n → n ⊆ h → stands t R p v h.
Proof. intros HR Hp Hs. exact (rep_mono (R:=rep_ptr tyD t R) p (Some v) n h Hs Hp). Qed.

Lemma machine_copy_deep : deep_copies TMachine rep_machine Machine_DeepCopy.
Proof. apply DeepCopy_new_deep; apply _. Qed.
Lemma pool_copy_deep : deep_copies TPool rep_pool NodePool_DeepCopy.
Proof. apply DeepCopy_new_deep; apply _. Qed.

Lemma stamp_patches t {V} (R : tyD t → V → heap → Prop) copy put set now :
  t = TMachine ∨ t = TPool → deep_copies t R copy → RepMono R → (∀ x, Kept None R x) →
  putter R put set →
  patches t R (stamp_in_place t copy put now) (λ _, None) (λ _, True) (λ v, Some (set (Some now) v)).
Proof.
  intros Ht Hc HM HK Hput h o x v Ho Hx _. unfold stamp_in_place.
  destruct (Hc h (Some o) v) as (base & n & E & Hd & Hb); [by exists x|]. run E.
  destruct (run_alloc TTime now (h ∪ n)) as (s & Hs & Es). run Es.
  apply fresh_old in Hs as [Hsh Hsn].
  assert (o ≠ s) as Hos by (intros ->; unfold points in Ho; congruence).
  assert (points tyD o t x (<[s := Cell tyD TTime now]> (h ∪ n))) as Ho'.
  { unfold points. rewrite lookup_insert_ne by done. rewrite unchanged_union; [done|by eexists]. }
  run (read_points _ _ _ _ _ Ho'). run (run_write t o (put (Some s) x) _ _ _ Ho').
  eexists _, _. split; [done|]. split.
  { intros l Hl Hne _. assert (l ≠ s) by (intros ->; destruct Hl; congruence).
    rewrite !lookup_insert_ne by done. by apply unchanged_union. }
  exists base. split; [done|]. split.
  - apply (stands_mono t R base v n _ _ Hb). apply insert_subseteq_r.
    { by apply (copied_None h); [|eexists]. }
    apply insert_subseteq_r; [done|]. by apply map_union_subseteq_r.
  - exists (put (Some s) x). split; [apply points_new|]. apply Hput.
    + exists now. split; [|done]. unfold points. rewrite lookup_insert_ne by done. apply points_new.
    + eapply (HK x); [|exact Hx]. apply keeps_insert.
      * apply keeps_insert; [apply keeps_mono, map_union_subseteq_l|]. intros t' c'. unfold points. congruence.
      * intros t' c' Hp. unfold points in Ho, Hp. rewrite Ho in Hp.
        injection Hp as -> _. naive_solver.
Qed.

Lemma clear_patches field put set get :
  putter rep_machine put set →
  (∀ x v h, rep_machine x v h → rep_time (field x) (get v) h) →
  patches TMachine rep_machine (clear_in_place field put) (λ _, None) (λ _, True)
    (λ v, match get v with None => None | Some _ => Some (set None v) end).
Proof.
  intros Hput Hf h o x v Ho Hx _. unfold clear_in_place. run (read_points _ _ _ _ _ Ho).
  specialize (Hf _ _ _ Hx). destruct (field x) as [s|], (get v) as [tm|]; try done; cbv beta iota.
  2:{ by eexists _, _. }
  destruct (machine_copy_deep h (Some o) v)
    as (base & n & E & Hd & Hb); [by exists x|]. run E.
  assert (points tyD o TMachine x (h ∪ n)) as Ho'.
  { unfold points. rewrite unchanged_union; [done|by eexists]. }
  run (read_points _ _ _ _ _ Ho'). run (run_write TMachine o (put None x) _ _ _ Ho').
  eexists _, _. split; [done|]. split.
  { intros l Hl Hne _. rewrite lookup_insert_ne by done. by apply unchanged_union. }
  exists base. split; [done|]. split.
  - apply (stands_mono TMachine _ base v n _ _ Hb). apply insert_subseteq_r.
    { by apply (copied_None h); [|eexists]. }
    by apply map_union_subseteq_r.
  - exists (put None x). split; [apply points_new|]. apply Hput; [done|].
    eapply (kept (X:=None)); [|exact Hx]. apply keeps_insert.
    + apply keeps_mono, map_union_subseteq_l.
    + intros t' c' Hp. unfold points in Ho, Hp. rewrite Ho in Hp. injection Hp as <- _. by left.
Qed.

(** The cells of two types are different cells. *)
Lemma points_ne l l' t t' c c' h :
  points tyD l t c h → points tyD l' t' c' h → t ≠ t' → l ≠ l'.
Proof. unfold points. intros Hl Hl' Hne ->. rewrite Hl in Hl'. by injection Hl' as -> _. Qed.
Lemma points_union l t c (h n : heap) : points tyD l t c h → points tyD l t c (h ∪ n).
Proof. apply points_mono, map_union_subseteq_l. Qed.
Lemma put_Annotations_same (x : PMachine) : put_Annotations (p_Annotations (p_ObjectMeta x)) x = x.
Proof. by destruct x as [? [] ? ?]. Qed.

Lemma annotations_rep (x : PMachine) w h :
  rep_machine x w h → rep_string_map (p_Annotations (p_ObjectMeta x)) (Annotations w.2) h.
Proof. by intros (_ & (_ & _ & _ & ? & _) & _). Qed.

(** The Machine after its annotation map was written through the pointer. *)
Lemma map_written h n o x w a am am' :
  points tyD o TMachine x h → rep_machine x w h → unshared x →
  p_Annotations (p_ObjectMeta x) = Some a → points tyD a TStringMap am h → n ##ₘ h →
  let h' := <[a := Cell tyD TStringMap am']> (h ∪ n) in
  n ⊆ h' ∧ stands TMachine rep_machine (Some o) (w.1, with_Meta (set_Annotations am') w.2) h' ∧
  ∀ l, is_Some (h !! l) → Some a ≠ Some l → h' !! l = h !! l.
Proof.
  intros Ho Hx [HL HS] HA Ha Hd h'. rewrite HA in HL, HS. split_and!.
  - apply insert_subseteq_r; [by apply (copied_None h); [|eexists]|]. by apply map_union_subseteq_r.
  - exists x. split.
    { unfold points, h'. rewrite lookup_insert_ne; [by apply points_union|].
      eapply points_ne; [exact Ha|exact Ho|done]. }
    rewrite <-(put_Annotations_same x), HA.
    apply (put_Annotations_rep (Some a) _ _ _ _ _ h); [by destruct w| |done..|].
    + apply keeps_insert; [apply keeps_mono, map_union_subseteq_l|].
      intros t c Hc. right; right. split; [|done]. unfold points in Ha, Hc.
      rewrite Ha in Hc. by injection Hc as <- _.
    + exists am'. split; [apply points_new|done].
  - intros l Hl Hne. unfold h'. rewrite lookup_insert_ne by congruence. by apply unchanged_union.
Qed.

Lemma run_ensure o x h :
  points tyD o TMachine x h →
  ∃ a h', ensure_Annotations o h = Some (a, h') ∧
    match p_Annotations (p_ObjectMeta x) with
    | Some a' => a = a' ∧ h' = h
    | None => h !! a = None ∧ a ≠ o ∧
        h' = <[o := Cell tyD TMachine (put_Annotations (Some a) x)]> (<[a := Cell tyD TStringMap ∅]> h)
    end.
Proof.
  intros Ho. unfold ensure_Annotations. run (read_points _ _ _ _ _ Ho).
  destruct (p_Annotations (p_ObjectMeta x)) as [a|]; [by eexists _, _|].
  destruct (run_alloc TStringMap ∅ h) as (a & Ha & Ea). run Ea.
  assert (a ≠ o) as Hne by (intros ->; unfold points in Ho; congruence).
  assert (points tyD o TMachine x (<[a := Cell tyD TStringMap ∅]> h)) as Ho'.
  { unfold points. by rewrite lookup_insert_ne. }
  run (run_write TMachine o (put_Annotations (Some a) x) _ _ _ Ho'). by eexists _, _.
Qed.

(** The Machine that had no annotations, after its new map was written. *)
Lemma map_made h n o x w a am :
  points tyD o TMachine x h → rep_machine x w h → p_Annotations (p_ObjectMeta x) = None →
  h !! a = None → n !! a = None → a ≠ o → n ##ₘ h →
  let h' := <[a := Cell tyD TStringMap am]> (<[o := Cell tyD TMachine (put_Annotations (Some a) x)]>
              (<[a := Cell tyD TStringMap ∅]> (h ∪ n))) in
  n ⊆ h' ∧ stands TMachine rep_machine (Some o) (w.1, with_Meta (set_Annotations am) w.2) h' ∧
  ∀ l, is_Some (h !! l) → l ≠ o → h' !! l = h !! l.
Proof.
  intros Ho Hx HA Hah Han Hne Hd h'. split_and!.
  - do 3 (apply insert_subseteq_r; [done || by apply (copied_None h); [|eexists]|]).
    by apply map_union_subseteq_r.
  - exists (put_Annotations (Some a) x). split.
    { unfold points, h'. rewrite lookup_insert_ne by done. apply points_new. }
    apply (put_Annotations_rep None _ _ _ _ _ h); [by destruct w| |apply _..|].
    + unfold h'. do 3 (apply keeps_insert;
        [|intros t c Hc; unfold points in Ho, Hc; rewrite ?Ho, ?Hah in Hc;
         done || (injection Hc as <- _; by left)]).
      apply keeps_mono, map_union_subseteq_l.
    + exists am. split; [apply points_new|done].
  - intros l Hl Hlo. assert (a ≠ l) by (intros ->; destruct Hl; congruence).
    unfold h'. rewrite !lookup_insert_ne by done. by apply unchanged_union.
Qed.

Lemma annotate_patches k v :
  patches TMachine rep_machine (annotate_in_place k v) (λ x, p_Annotations (p_ObjectMeta x)) unshared
    (λ w, Some (w.1, with_Meta (annotate k v) w.2)).
Proof.
  intros h o x w Ho Hx Hu. unfold annotate_in_place.
  destruct (machine_copy_deep h (Some o) w)
    as (base & n & E & Hd & Hb); [by exists x|]. run E.
  pose proof (points_union _ _ _ _ n Ho) as Ho'. pose proof (annotations_rep _ _ _ Hx) as Ha.
  destruct (run_ensure _ _ _ Ho') as (a & h1 & Ea & Hcase). run Ea.
  destruct (p_Annotations (p_ObjectMeta x)) as [a'|] eqn:HA; simpl in Ha.
  - destruct Hcase as [-> ->], Ha as (am & Ha & HaV). hnf in HaV.
    pose proof (points_union _ _ _ _ n Ha) as Ha'.
    run (read_points _ _ _ _ _ Ha'). run (run_write TStringMap a' (<[k:=v]> am) _ _ _ Ha').
    destruct (map_written h n o x w a' am (<[k:=v]> am)) as (Hn & Hs & Hl); [done..|].
    eexists _, _. split; [done|]. split; [auto|]. exists base.
    split_and!; [done|by apply (stands_mono TMachine _ base w n _ _ Hb)|].
    unfold with_Meta, annotate in *. by rewrite <-HaV.
  - destruct Hcase as (Hah & Hne & ->). apply fresh_old in Hah as [Hah Han].
    assert (points tyD a TStringMap ∅ (<[o := Cell tyD TMachine (put_Annotations (Some a) x)]>
              (<[a := Cell tyD TStringMap ∅]> (h ∪ n)))) as Ha'.
    { unfold points. rewrite lookup_insert_ne by done. apply points_new. }
    run (read_points _ _ _ _ _ Ha'). run (run_write TStringMap a (<[k:=v]> ∅) _ _ _ Ha').
    destruct (map_made h n o x w a (<[k:=v]> ∅)) as (Hn & Hs & Hl); [done..|].
    eexists _, _. split; [done|]. split; [auto|]. exists base.
    split_and!; [done|by apply (stands_mono TMachine _ base w n _ _ Hb)|].
    unfold with_Meta, annotate in *. by rewrite Ha.
Qed.

Lemma unannotate_patches k :
  patches TMachine rep_machine (unannotate_in_place k) (λ x, p_Annotations (p_ObjectMeta x)) unshared
    (λ w, match Annotations w.2 !! k with
          | None => None
          | Some _ => Some (w.1, with_Meta (unannotate k) w.2)
          end).
Proof.
  intros h o x w Ho Hx Hu. unfold unannotate_in_place. run (read_points _ _ _ _ _ Ho).
  pose proof (annotations_rep _ _ _ Hx) as Ha.
  destruct (p_Annotations (p_ObjectMeta x)) as [a|] eqn:HA; simpl in Ha.
  2:{ rewrite Ha, lookup_empty. by eexists _, _. }
  destruct Ha as (am & Ha & HaV). hnf in HaV. rewrite <-HaV. unfold read_map. run (read_points _ _ _ _ _ Ha).
  destruct (am !! k) as [old|] eqn:Ek; [|by eexists _, _].
  destruct (machine_copy_deep h (Some o) w)
    as (base & n & E & Hd & Hb); [by exists x|]. run E.
  pose proof (points_union _ _ _ _ n Ha) as Ha'.
  run (read_points _ _ _ _ _ Ha'). run (run_write TStringMap a (delete k am) _ _ _ Ha').
  destruct (map_written h n o x w a am (delete k am)) as (Hn & Hs & Hl); [done..|].
  eexists _, _. split; [done|]. split; [auto|]. exists base.
  split_and!; [done|by apply (stands_mono TMachine _ base w n _ _ Hb)|].
  unfold with_Meta, unannotate in *. by rewrite <-HaV.
Qed.

(** C17.  Patches mean what they say.  Each of the ten functions that patch a
    Machine or NodePool in place never panics (a nil annotation map included) and,
    when it sends a patch, sends the difference between the object exactly as it
    was read and the object with that one change: the base of the patch does not
    see the write made through the original's pointer, and nothing but the object
    itself (and its annotation map) is written.  The removals and clears of what is
    not there send nothing. *)
Theorem patches_are_from_what_was_read :
  ∀ now,
  let annotations (x : PMachine) := p_Annotations (p_ObjectMeta x) in
  let annotates op k v := patches TMachine rep_machine op annotations unshared
    (λ w, Some (w.1, with_Meta (annotate k v) w.2)) in
  let removes op k := patches TMachine rep_machine op annotations unshared
    (λ w, match Annotations w.2 !! k with
          | None => None | Some _ => Some (w.1, with_Meta (unannotate k) w.2) end) in
  let stamps t V R op set := @patches t V R op (λ _, None) (λ _, True)
    (λ w, Some (set (Some now) w)) in
  let clears op get set := patches TMachine rep_machine op (λ _, None) (λ _, True)
    (λ w : TypeMeta * Machine, match get (Status w.2) with
          | None => None | Some _ => Some (w.1, set None w.2) end) in
  annotates mem_requestWake AnnotationWakeNow AnnotationWakeNowValue ∧
  annotates mem_requestDrain AnnotationDrainNow AnnotationDrainNowValue ∧
  removes mem_removeWakeAnnotation AnnotationWakeNow ∧
  removes mem_removeDrainAnnotation AnnotationDrainNow ∧
  stamps TMachine _ rep_machine (mem_stampEmptySince now) (λ o w, (w.1, set_EmptySince o w.2)) ∧
  stamps TMachine _ rep_machine (mem_stampNotReadySince now) (λ o w, (w.1, set_NotReadySince o w.2)) ∧
  stamps TPool _ rep_pool (mem_stampScaleUp now) (λ o w, (w.1, set_LastScaleUpTime o w.2)) ∧
  stamps TPool _ rep_pool (mem_stampScaleDown now) (λ o w, (w.1, set_LastScaleDownTime o w.2)) ∧
  clears mem_clearEmptySince EmptySince set_EmptySince ∧
  clears mem_clearNotReadySince NotReadySince set_NotReadySince.
Proof.
  intros now. cbv zeta. split_and!.
  1,2: apply annotate_patches.
  1,2: apply unannotate_patches.
  - apply (stamp_patches TMachine _ _ _ _ _ (or_introl eq_refl) machine_copy_deep _ _ put_EmptySince_rep).
  - apply (stamp_patches TMachine _ _ _ _ _ (or_introl eq_refl) machine_copy_deep _ _ put_NotReadySince_rep).
  - apply (stamp_patches TPool _ _ _ _ _ (or_intror eq_refl) pool_copy_deep _ _ put_LastScaleUpTime_rep).
  - apply (stamp_patches TPool _ _ _ _ _ (or_intror eq_refl) pool_copy_deep _ _ put_LastScaleDownTime_rep).
  - apply (clear_patches _ _ _ _ put_EmptySince_rep). by intros x w h (_ & _ & _ & _ & _ & _ & ? & _).
  - apply (clear_patches _ _ _ _ put_NotReadySince_rep).
    by intros x w h (_ & _ & _ & _ & _ & _ & _ & _ & ? & _).
Qed.
End patches.

Import Fixture KubeFixture.

(** The theorem at a Machine without annotations, asked to wake. *)
Lemma patches_are_from_what_was_read_witness :
  let w := (machine_type, machine "m1" Ready (Some 100) ∅) in
  ∃ r h', mem_requestWake 1%positive m1_heap = Some (r, h') ∧
    ∃ base, r = Some base ∧ stands TMachine rep_machine base w h' ∧
      stands TMachine rep_machine (Some 1%positive)
        (w.1, with_Meta (annotate AnnotationWakeNow AnnotationWakeNowValue) w.2) h'.
Proof.
  intros w.
  destruct (proj1 (patches_are_from_what_was_read 200) m1_heap 1%positive m1 w)
    as (r & h' & E & _ & Hr).
  - reflexivity.
  - exact m1_rep.
  - split; [right|left]; done.
  - exists r, h'. split; [exact E|exact Hr].
Defined.
