(* ===== verification/Guards.v ===== *)
(** * Pod predicates and safety guards

    The predicates of [machine_controller.go] that classify a node's pods
    ([isWorkload], [keepsNodeOn], [isDrainable]) and the guards of
    [guards.go] the reconcilers consult before a power action. *)

From S2P Require Import Prelude GoStd Prog K8s Api Client.

Local Open Scope Z_scope.

Definition mirrorPodAnnotation : string := "kubernetes.io/config.mirror".
Definition NodeReadyCondition : string := "Ready".

(** The [spec.nodeName] index keys of the Machine and the Pod informers;
    [ListMachinesOnNode] and [ListPodsOnNode] are the lists by them. *)
Definition IndexMachineNodeName : string := "spec.nodeName".
Definition IndexPodNodeName : string := "spec.nodeName".

(** ** Pods *)

Section pods.
Context `{K8sTypes}.

Definition finished (pod : Pod) : bool :=
  bool_decide (Pod_Phase pod = PodSucceeded) || bool_decide (Pod_Phase pod = PodFailed).

Definition hasDoNotDisrupt (pod : Pod) : bool :=
  bool_decide (map_get (Annotations pod) AnnotationDoNotDisrupt = AnnotationDoNotDisruptValue).

Fixpoint ownedByDaemonSet (kinds : list string) : bool :=
  match kinds with
  | [] => false
  | k :: rest => if decide (k = "DaemonSet") then true else ownedByDaemonSet rest
  end.

Definition isWorkload (pod : Pod) : bool :=
  if finished pod then false
  else match Annotations pod !! mirrorPodAnnotation with
       | Some _ => false
       | None => if ownedByDaemonSet (OwnerKinds pod) then false else true
       end.

Definition isDrainable (pod : Pod) (force : bool) : bool :=
  if negb (isWorkload pod) || bool_decide (is_Some (DeletionTimestamp pod)) then false
  else if force then true
  else negb (hasDoNotDisrupt pod).

Definition keepsNodeOn (pod : Pod) : bool :=
  if isWorkload pod then true
  else negb (finished pod) && hasDoNotDisrupt pod.

(** [podsKeepingNodeOn]: the pods of the cache that keep the node on. *)
Definition podsKeepingNodeOn (nodeName : string) : prog (result error (list Pod)) :=
  if decide (nodeName = "") then ok []
  else
    let? pods := list_pods_on Cache nodeName in
    ok (filter (λ p, keepsNodeOn p = true) pods).

(** [nothingKeepsNodeOn], read through the API server. *)
Fixpoint none_keeps_on (pods : list Pod) : bool :=
  match pods with
  | [] => true
  | p :: rest => if keepsNodeOn p then false else none_keeps_on rest
  end.

Definition nothingKeepsNodeOn (rd : reader) (nodeName : string) : prog (result error bool) :=
  let? pods := wrapf "list pods on node %q: %w" [AStr nodeName] (list_pods_on rd nodeName) in
  ok (none_keeps_on pods).

Lemma none_keeps_on_spec pods :
  none_keeps_on pods = true ↔ Forall (λ p, keepsNodeOn p = false) pods.
Proof.
  induction pods as [|p pods IH]; simpl; [done|].
  destruct (keepsNodeOn p) eqn:E; split; rewrite ?Forall_cons, ?IH; naive_solver.
Qed.

Lemma ownedByDaemonSet_spec kinds : ownedByDaemonSet kinds = true ↔ "DaemonSet" ∈ kinds.
Proof.
  induction kinds as [|k kinds IH]; simpl; [by rewrite elem_of_nil|].
  rewrite elem_of_cons. case_decide; subst; naive_solver.
Qed.

Lemma isWorkload_spec pod :
  isWorkload pod = true ↔
  finished pod = false ∧ Annotations pod !! mirrorPodAnnotation = None ∧
  "DaemonSet" ∉ OwnerKinds pod.
Proof.
  unfold isWorkload. rewrite <- ownedByDaemonSet_spec.
  destruct (finished pod), (_ !! _), (ownedByDaemonSet _); naive_solver.
Qed.

(** A drain evicts only pods that keep the node on, and a finished pod keeps
    nothing on. *)
Lemma drainable_keeps_node_on pod force :
  isDrainable pod force = true → keepsNodeOn pod = true.
Proof. unfold isDrainable, keepsNodeOn. by destruct (isWorkload pod). Qed.

Lemma finished_never_keeps_on pod : finished pod = true → keepsNodeOn pod = false.
Proof. intros Hf. unfold keepsNodeOn, isWorkload. by rewrite Hf. Qed.
End pods.

(** ** guards.go *)

Section guards.
Context `{K8sTypes}.

(** The Ready condition of a Node: the first condition of that type. *)
Definition ready_condition (node : Node) : option NodeCondition :=
  head (filter (λ c, NCond_Type c = NodeReadyCondition) (Node_Conditions node)).

Definition nodeAlwaysOn (nodeName : string) : prog (result error bool) :=
  if decide (nodeName = "") then ok false
  else
    let! r := get_node nodeName in
    match r with
    | Err err =>
        if IsNotFound err then ok false
        else fail (Errorf "get node %q for always-on check: %w" [AStr nodeName] err)
    | Ok node => ok (bool_decide (map_get (Labels node) LabelAlwaysOn = LabelAlwaysOnValue))
    end.

Definition otherMachinesOnNode (m : Machine) : prog (result error (list string)) :=
  if decide (NodeName (Spec m) = "") then ok []
  else
    let? machines := wrapf "list machines on node %q: %w" [AStr (NodeName (Spec m))]
                       (list_machines_on (NodeName (Spec m))) in
    ok ((λ o : Machine, Name o) <$> filter (λ o : Machine, Name o ≠ Name m) machines).

Definition reservedNodeLabels : list string := [LabelAlwaysOn].

(** [dropReservedLabels] deletes in place: the remaining labels come back
    next to the dropped keys. *)
Definition dropReservedLabels (labels : gmap string string)
    : gmap string string * list string :=
  foldl (λ '(labels, dropped) k,
    match labels !! k with
    | Some _ => (delete k labels, dropped ++ [k])
    | None => (labels, dropped)
    end) (labels, []) reservedNodeLabels.

(** The loop over the node's conditions in [nodeWentDownSince]. *)
Fixpoint went_down_since (since : Time) (conds : list NodeCondition) : bool :=
  match conds with
  | [] => false
  | c :: rest =>
      if decide (NCond_Type c = NodeReadyCondition)
      then negb (bool_decide (NCond_Status c = ConditionTrue)) &&
           negb (Before (NCond_LastTransitionTime c) since)
      else went_down_since since rest
  end.

Definition nodeWentDownSince (nodeName : string) (since : Time) : prog (result error bool) :=
  if decide (nodeName = "") then ok true
  else
    let! r := get_node nodeName in
    match r with
    | Err err =>
        if IsNotFound err then ok true
        else fail (Errorf "get node %q for power-off check: %w" [AStr nodeName] err)
    | Ok node => ok (went_down_since since (Node_Conditions node))
    end.

Fixpoint conditions_ready (conds : list NodeCondition) : bool :=
  match conds with
  | [] => false
  | c :: rest =>
      if decide (NCond_Type c = NodeReadyCondition)
      then bool_decide (NCond_Status c = ConditionTrue)
      else conditions_ready rest
  end.

Definition nodeIsReady (nodeName : string) : prog (result error bool) :=
  if decide (nodeName = "") then ok false
  else
    let! r := get_node nodeName in
    match r with
    | Err err => if IsNotFound err then ok false else fail err
    | Ok node => ok (conditions_ready (Node_Conditions node))
    end.

(** [backingNode] of [scaleup_controller.go]: a missing Node is [None]. *)
Definition backingNode (nodeName : string) : prog (result error (option Node)) :=
  if decide (nodeName = "") then ok None
  else
    let! r := get_node nodeName in
    match r with
    | Err err =>
        if IsNotFound err then ok None
        else fail (Errorf "get node %q: %w" [AStr nodeName] err)
    | Ok node => ok (Some node)
    end.

Lemma conditions_ready_spec node :
  conditions_ready (Node_Conditions node) = true ↔
  ∃ c, ready_condition node = Some c ∧ NCond_Status c = ConditionTrue.
Proof.
  unfold ready_condition. induction (Node_Conditions node) as [|c cs IH]; simpl; [naive_solver|].
  rewrite filter_cons. case_decide; simpl; [|done].
  rewrite bool_decide_eq_true. naive_solver.
Qed.

Lemma went_down_since_spec since node :
  went_down_since since (Node_Conditions node) = true ↔
  ∃ c, ready_condition node = Some c ∧ NCond_Status c ≠ ConditionTrue ∧
       since ≤ NCond_LastTransitionTime c.
Proof.
  unfold ready_condition. induction (Node_Conditions node) as [|c cs IH]; simpl; [naive_solver|].
  rewrite filter_cons. case_decide; simpl; [|done].
  rewrite andb_true_iff, !negb_true_iff, bool_decide_eq_false. unfold Before.
  rewrite Z.ltb_ge. naive_solver.
Qed.
End guards.
