(* ===== verification/Power.v ===== *)
(** * internal/power and internal/metrics

    The power-provider interface and registry ([provider.go]), the WoL provider
    ([wolprovider.go]), the HTTP client of the wol-agent ([wol/client.go],
    [wol/wire.go]) and the counters ([metrics.go]).

    [ProviderContract] is what the reconcilers rely on: a power-on talks to the
    network and changes nothing else.  The WoL provider discharges it. *)

From S2P Require Import Prelude GoStd Prog K8s Api Client Fixture.
From Stdlib Require Import Ascii.

Local Open Scope Z_scope.

(** ** metrics.go *)

Definition ResultSuccess : string := "success".
Definition ResultError : string := "error".
Definition ReasonDrainTimeout : string := "drain_timeout".
Definition ReasonShutdownTimeout : string := "shutdown_timeout".
Definition PowerOnTotal : string := "onp_power_on_total".
Definition ScaleUpLatencySeconds : string := "onp_scale_up_latency_seconds".
Definition DrainFailureTotal : string := "onp_drain_failure_total".

Section metrics.
Context `{K8sTypes}.

Definition RecordPowerOn (provider : string) (err : option error) : prog unit :=
  counter_inc PowerOnTotal
    [provider; match err with None => ResultSuccess | Some _ => ResultError end].

Definition ObserveScaleUpLatency (d : Duration) : prog unit :=
  histogram_observe ScaleUpLatencySeconds d.

Definition RecordDrainFailure (reason : string) : prog unit :=
  counter_inc DrainFailureTotal [reason].
End metrics.

(** ** wol/wire.go and the JSON body *)

Record WakeRequest : Type := MkWakeRequest {
  Wake_MacAddress : string;
  Wake_BroadcastAddress : string;
}.

(** A string as [encoding/json] writes it: quotes, backslashes and control
    characters escaped, and [<], [>], [&] as \u escapes. *)
Definition json_escape (c : ascii) : string :=
  let n := nat_of_ascii c in
  match n with
  | 34%nat => "\" +:+ dquote
  | 92%nat => "\\"
  | 8%nat => "\b" | 12%nat => "\f" | 10%nat => "\n" | 13%nat => "\r" | 9%nat => "\t"
  | _ => if (n <? 32)%nat || (n =? 38)%nat || (n =? 60)%nat || (n =? 62)%nat
         then "\u00" +:+ String (hex_digit (n / 16)) (String (hex_digit (n mod 16)) "")
         else String c ""
  end.

Fixpoint json_body (s : string) : string :=
  match s with
  | EmptyString => ""
  | String c s' => json_escape c +:+ json_body s'
  end.

Definition json_string (s : string) : string := dquote +:+ json_body s +:+ dquote.

(** [json.Marshal(WakeRequest)]; broadcastAddress is omitempty. *)
Definition MarshalWakeRequest (r : WakeRequest) : string :=
  "{" +:+ json_string "macAddress" +:+ ":" +:+ json_string (Wake_MacAddress r) +:+
  (if decide (Wake_BroadcastAddress r = "") then ""
   else "," +:+ json_string "broadcastAddress" +:+ ":" +:+
        json_string (Wake_BroadcastAddress r)) +:+ "}".

(** ** wol/client.go *)

Definition errBodyLimit : nat := 512.

(** [wol.Client]; the underlying http.Client is the outside world. *)
Record WolClient : Type := MkWolClient { baseURL : string; token : string }.

Definition WithToken (tok : string) (c : WolClient) : WolClient :=
  MkWolClient (baseURL c) tok.

Definition is_slash (c : ascii) : bool := bool_decide (c = "/"%char).

Definition NewClient (url : string) (opts : list (WolClient → WolClient)) : WolClient :=
  foldl (λ c opt, opt c) (MkWolClient (trim_right is_slash url) "") opts.

Section client.
Context `{K8sTypes}.

Definition wake_headers (c : WolClient) : gmap string string :=
  let h := {["Content-Type" := "application/json"]} in
  if decide (token c = "") then h else <["Authorization" := "Bearer " +:+ token c]> h.

Definition wake_request (c : WolClient) (mac bcast : string) : HTTPRequest :=
  MkHTTPRequest "POST" (baseURL c +:+ "/wake") (wake_headers c)
    (MarshalWakeRequest (MkWakeRequest mac bcast)).

(** [Client.Wake].  Marshalling two strings cannot fail. *)
Definition Wake (c : WolClient) (mac bcast : string) : prog (option error) :=
  let! built := http_new_request "POST" (baseURL c +:+ "/wake") in
  match built with
  | Err e => Ret (Some (Errorf "wol: build wake request: %w" [] e))
  | Ok _ =>
  let! r := http_do (wake_request c mac bcast) in
  match r with
  | Err e => Ret (Some (Errorf "wol: POST wake: %w" [] e))
  | Ok resp =>
      if (Resp_StatusCode resp <? 200) || (300 <=? Resp_StatusCode resp) then
        Ret (Some (NewErrorf "wol: agent returned %s: %s"
          [AStr (Resp_Status resp);
           AStr (TrimSpace (String.substring 0 errBodyLimit (Resp_Body resp)))]))
      else Ret None
  end
  end.
End client.

(** ** provider.go *)

Inductive PowerState : Type := StateOn | StateOff | StateUnknown.

Record Capabilities : Type := MkCapabilities {
  CanPowerOn : bool;
  CanPowerOff : bool;
  CanQueryStatus : bool;
}.

Definition ErrUnsupported : error :=
  MkError ReasonUnknown "power: operation not supported by provider".

Section provider.
Context `{K8sTypes}.

Record PowerProvider : Type := MkProvider {
  Provider_Name : string;
  PowerOn : Machine → prog (option error);
  PowerOff : Machine → prog (option error);
  PowerStatus : Machine → prog (PowerState * option error);
  Provider_Capabilities : Capabilities;
}.

Definition NewRegistry : gmap string PowerProvider := ∅.

Definition Register (r : gmap string PowerProvider) (p : PowerProvider) : result error (gmap string PowerProvider) :=
  match r !! Provider_Name p with
  | Some _ =>
      Err (NewErrorf "power: provider %q already registered" [AStr (Provider_Name p)])
  | None => Ok (<[Provider_Name p := p]> r)
  end.

Definition Registry_Get (r : gmap string PowerProvider) (name : string) : option PowerProvider := r !! name.

(** ** wolprovider.go *)

Definition providerNameWoL : string := "wol".

Definition wolPowerOn (c : WolClient) (m : Machine) : prog (option error) :=
  match Power_WoL (Power (Spec m)) with
  | None =>
      Ret (Some (NewErrorf "power: machine %q has provider wol but no wol config"
        [AStr (Name m)]))
  | Some cfg =>
      let! err := Wake c (MacAddress cfg) (BroadcastAddress cfg) in
      match err with
      | Some e => Ret (Some (Errorf "power: wake machine %q: %w" [AStr (Name m)] e))
      | None => Ret None
      end
  end.

Definition NewWoLProvider (c : WolClient) : PowerProvider := {|
  Provider_Name := providerNameWoL;
  PowerOn := wolPowerOn c;
  PowerOff := λ _, Ret (Some ErrUnsupported);
  PowerStatus := λ _, Ret (StateUnknown, Some ErrUnsupported);
  Provider_Capabilities := MkCapabilities true false false;
|}.

(** ** The contract between a provider and the reconcilers *)

(** A network exchange. *)
Definition is_http (c : call) : Prop :=
  match c with HTTPNewRequest _ _ | HTTPDo _ => True | _ => False end.

Class ProviderContract (p : PowerProvider) : Prop :=
  power_on_network_only m : emits anything is_http (PowerOn p m).

Class RegistryContract (r : gmap string PowerProvider) : Prop :=
  registered_contract name p : r !! name = Some p → ProviderContract p.

#[global] Instance wol_contract c : ProviderContract (NewWoLProvider c).
Proof.
  intros m. unfold NewWoLProvider. cbn [PowerOn]. obeys_go ltac:(fail).
Qed.

#[global] Instance empty_registry_contract : RegistryContract NewRegistry.
Proof. intros name p. unfold NewRegistry. by rewrite lookup_empty. Qed.

Lemma Register_contract r p r' :
  RegistryContract r → ProviderContract p → Register r p = Ok r' → RegistryContract r'.
Proof.
  unfold Register. intros Hr Hp. case_match eqn:E; [done|]. intros [= <-] name q.
  rewrite lookup_insert_Some. intros [[? <-]|[? ?]]; [done|by eapply Hr].
Qed.

(** Registration is first come, first served: a registered name keeps its
    provider, and a duplicate is refused with the registry unchanged. *)
Lemma Register_spec r p :
  match Register r p with
  | Ok r' => Registry_Get r (Provider_Name p) = None ∧
             Registry_Get r' (Provider_Name p) = Some p ∧
             ∀ name, name ≠ Provider_Name p → Registry_Get r' name = Registry_Get r name
  | Err _ => is_Some (Registry_Get r (Provider_Name p))
  end.
Proof.
  unfold Register, Registry_Get.
  destruct (r !! Provider_Name p) eqn:E; [by eexists|].
  rewrite lookup_insert_eq. split_and!; [done|done|]. intros. by rewrite lookup_insert_ne.
Qed.
End provider.

(** ** The client's view of the answer *)

Section client_answer.
Context `{K8sTypes}.

(** The requests a run sent, with their answers. *)
Definition answered (e : event) : option (HTTPRequest * HTTPResponse) :=
  match e with Ev c r => match c, r with HTTPDo req, Ok resp => Some (req, resp) | _, _ => None end end.

(** C35.  The client reports success exactly when its request was sent and
    answered with a 2xx status; a transport error and any other status are
    errors. *)
Theorem Wake_succeeds_on_2xx c mac bcast t err :
  exec (Wake c mac bcast) t err →
  err = None ↔ ∃ resp, omap answered t = [(wake_request c mac bcast, resp)] ∧
    200 ≤ Resp_StatusCode resp < 300.
Proof.
  intros Hx.
  assert (wp anything (λ _ _, True) [] (Wake c mac bcast) (λ h err,
    err = None ↔ ∃ resp, omap answered (reverse h) = [(wake_request c mac bcast, resp)] ∧
      200 ≤ Resp_StatusCode resp < 300)) as Hwp; cycle 1.
  { pose proof (wp_exec_value _ _ _ _ _ _ Hwp Hx (Forall_anything _)) as Hv.
    cbn beta in Hv. by rewrite reverse_involutive in Hv. }
  unfold Wake. wp_call built; [done|]. destruct built as [u|e]; [|apply wp_ret; naive_solver].
  wp_call r; [done|]. destruct r as [resp|e]; [|apply wp_ret; naive_solver].
  destruct (_ || _) eqn:Hc; apply wp_ret; split; try done.
  - intros (resp' & [= <-] & ?). apply orb_true_iff in Hc as [Hc|Hc]; lia.
  - intros _. exists resp. apply orb_false_iff in Hc as []. split; [done|lia].
Qed.
End client_answer.


Import Fixture.

Definition sample_wake : prog (option error) :=
  Wake (NewClient "http://onp-wol-agent:9119/" [WithToken "s3cret"]) "01:23:45:67:89:ab" "".
Definition sample_answered : world := MkWorld [] [] [] [] 0 accepted (Ok "").

Lemma Wake_succeeds_on_2xx_witness :
  run_value serve sample_wake sample_answered = None ↔
  ∃ resp, omap answered (run_trace serve sample_wake sample_answered) =
      [(wake_request (NewClient "http://onp-wol-agent:9119/" [WithToken "s3cret"]) "01:23:45:67:89:ab" "", resp)] ∧
    200 ≤ Resp_StatusCode resp < 300.
Proof. exact (Wake_succeeds_on_2xx _ _ _ _ _ (run_exec serve sample_wake sample_answered)). Defined.
