(* ===== verification/Json.v ===== *)
(** * encoding/json for a WakeRequest

    The wol-agent decodes the body of /wake with [json.NewDecoder(r).Decode] into
    a [wol.WakeRequest].  The decoder is the library's byte-at-a-time scanner, a
    state machine with a stack of the objects and arrays it is in ([step]), run
    until the first value ends ([scan]); the value is then assigned to the
    struct's two string fields ([unmarshal]).  The theorem is that decoding what
    the client marshals gives the request back, whatever follows it. *)

From S2P Require Import Prelude GoStd K8s Api Client Power.
From Stdlib Require Import Ascii.

Local Open Scope Z_scope.

Abbreviation bytes := (list ascii).
Definition bytes_of (s : string) : bytes := String.list_ascii_of_string s.
Definition string_of (b : bytes) : string := String.string_of_list_ascii b.

Lemma bytes_of_app s t : bytes_of (s +:+ t) = bytes_of s ++ bytes_of t.
Proof. induction s as [|c s IH]; [done|]. simpl. f_equal. exact IH. Qed.
Lemma length_bytes_of s : length (bytes_of s) = String.length s.
Proof. induction s as [|c s IH]; [done|]. simpl. f_equal. exact IH. Qed.
Lemma string_of_bytes_of s : string_of (bytes_of s) = s.
Proof. apply String.string_of_list_ascii_of_string. Qed.

Definition code (c : ascii) : Z := Z.of_nat (nat_of_ascii c).
Definition byte (n : Z) : ascii := ascii_of_nat (Z.to_nat n).
Definition is_ascii (c : ascii) : bool := code c <? 128.

(** ** The scanner *)

Inductive parseState : Type := parseObjectKey | parseObjectValue | parseArrayValue.

(** The scanner's step functions; a literal ([true], [false], [null]) is one
    state with the bytes still expected. *)
Inductive stepState : Type :=
| stateBeginValueOrEmpty | stateBeginValue | stateBeginStringOrEmpty | stateBeginString
| stateEndValue | stateEndTop
| stateInString | stateInStringEsc | stateInStringEscU (digits : nat)
| stateNeg | state1 | state0 | stateDot | stateDot0 | stateE | stateESign | stateE0
| stateLiteral (expect : bytes).

(** What a member of the top-level object holds, as far as a string field can
    tell: null, a string with its raw bytes, or something else. *)
Inductive fieldValue : Type := FNull | FString (raw : bytes) | FOther.

(** What the top-level value is. *)
Inductive topValue : Type := TopNull | TopObject | TopOther.

Record scanner : Type := MkScanner {
  sc_step : stepState;
  sc_stack : list parseState;
  sc_lit : bytes;                        (** the string being read, reversed *)
  sc_key : bytes;                        (** the last key of the top-level object *)
  sc_fields : list (bytes * fieldValue); (** its members so far, reversed *)
  sc_top : topValue;
}.

Definition newScanner : scanner := MkScanner stateBeginValue [] [] [] [] TopOther.

Inductive opcode : Type :=
| scanContinue (s : scanner)
| scanEndContainer (s : scanner)  (** an object or array ended *)
| scanEnd (s : scanner)           (** the top-level value ended before this byte *)
| scanError.

Definition isSpace (c : ascii) : bool :=
  bool_decide (code c = 32 ∨ code c = 9 ∨ code c = 13 ∨ code c = 10).
Definition is_dec (c : ascii) : bool := (48 <=? code c) && (code c <=? 57).
Definition is_hex (c : ascii) : bool :=
  is_dec c || ((97 <=? code c) && (code c <=? 102)) || ((65 <=? code c) && (code c <=? 70)).

Definition goto (st : stepState) (s : scanner) : scanner :=
  MkScanner st (sc_stack s) (sc_lit s) (sc_key s) (sc_fields s) (sc_top s).
Definition push (p : parseState) (st : stepState) (s : scanner) : scanner :=
  MkScanner st (p :: sc_stack s) (sc_lit s) (sc_key s) (sc_fields s) (sc_top s).
Definition set_stack (ps : list parseState) (st : stepState) (s : scanner) : scanner :=
  MkScanner st ps (sc_lit s) (sc_key s) (sc_fields s) (sc_top s).
Definition set_lit (l : bytes) (s : scanner) : scanner :=
  MkScanner (sc_step s) (sc_stack s) l (sc_key s) (sc_fields s) (sc_top s).

(** A value of the kind [v] begins: the top-level value, or a member of the
    top-level object, which is recorded under its key. *)
Definition begin_value (top : topValue) (v : fieldValue) (s : scanner) : scanner :=
  match sc_stack s with
  | [] => MkScanner (sc_step s) (sc_stack s) (sc_lit s) (sc_key s) (sc_fields s) top
  | [parseObjectValue] =>
      MkScanner (sc_step s) (sc_stack s) (sc_lit s) (sc_key s) ((sc_key s, v) :: sc_fields s)
        (sc_top s)
  | _ => s
  end.

(** A string ends: the key of a member of the top-level object, or its value. *)
Definition end_string (s : scanner) : scanner :=
  let raw := rev (sc_lit s) in
  match sc_stack s with
  | [parseObjectKey] =>
      MkScanner (sc_step s) (sc_stack s) [] raw (sc_fields s) (sc_top s)
  | [parseObjectValue] =>
      MkScanner (sc_step s) (sc_stack s) [] (sc_key s) ((sc_key s, FString raw) :: sc_fields s)
        (sc_top s)
  | _ => set_lit [] s
  end.

Definition step_begin_value (s : scanner) (c : ascii) : opcode :=
  if isSpace c then scanContinue s
  else if code c =? 123 then
    scanContinue (push parseObjectKey stateBeginStringOrEmpty (begin_value TopObject FOther s))
  else if code c =? 91 then
    scanContinue (push parseArrayValue stateBeginValueOrEmpty (begin_value TopOther FOther s))
  else if code c =? 34 then scanContinue (goto stateInString s)
  else if code c =? 45 then scanContinue (goto stateNeg (begin_value TopOther FOther s))
  else if code c =? 48 then scanContinue (goto state0 (begin_value TopOther FOther s))
  else if is_dec c then scanContinue (goto state1 (begin_value TopOther FOther s))
  else if code c =? 116 then
    scanContinue (goto (stateLiteral (bytes_of "rue")) (begin_value TopOther FOther s))
  else if code c =? 102 then
    scanContinue (goto (stateLiteral (bytes_of "alse")) (begin_value TopOther FOther s))
  else if code c =? 110 then
    scanContinue (goto (stateLiteral (bytes_of "ull")) (begin_value TopNull FNull s))
  else scanError.

Definition step_begin_string (s : scanner) (c : ascii) : opcode :=
  if isSpace c then scanContinue s
  else if code c =? 34 then scanContinue (goto stateInString s)
  else scanError.

(** The byte after a value: a separator or the end of what encloses it. *)
Definition step_end_value (s : scanner) (c : ascii) : opcode :=
  match sc_stack s with
  | [] => scanEnd s
  | p :: ps =>
      if isSpace c then scanContinue (goto stateEndValue s)
      else
      let pop := scanEndContainer (set_stack ps (match ps with [] => stateEndTop | _ => stateEndValue end) s) in
      match p with
      | parseObjectKey =>
          if code c =? 58 then scanContinue (set_stack (parseObjectValue :: ps) stateBeginValue s)
          else scanError
      | parseObjectValue =>
          if code c =? 44 then scanContinue (set_stack (parseObjectKey :: ps) stateBeginString s)
          else if code c =? 125 then pop else scanError
      | parseArrayValue =>
          if code c =? 44 then scanContinue (goto stateBeginValue s)
          else if code c =? 93 then pop else scanError
      end
  end.

Definition step (s : scanner) (c : ascii) : opcode :=
  match sc_step s with
  | stateBeginValue => step_begin_value s c
  | stateBeginValueOrEmpty =>
      if isSpace c then scanContinue s
      else if code c =? 93 then step_end_value s c
      else step_begin_value s c
  | stateBeginString => step_begin_string s c
  | stateBeginStringOrEmpty =>
      if isSpace c then scanContinue s
      else if code c =? 125 then
        step_end_value (set_stack (parseObjectValue :: tail (sc_stack s)) stateEndValue s) c
      else step_begin_string s c
  | stateEndValue => step_end_value s c
  | stateEndTop => scanEnd s
  | stateInString =>
      if code c =? 34 then scanContinue (goto stateEndValue (end_string s))
      else if code c =? 92 then scanContinue (goto stateInStringEsc (set_lit (c :: sc_lit s) s))
      else if code c <? 32 then scanError
      else scanContinue (set_lit (c :: sc_lit s) s)
  | stateInStringEsc =>
      if bool_decide (c ∈ bytes_of "bfnrt\/" ++ [byte 34]) then
        scanContinue (goto stateInString (set_lit (c :: sc_lit s) s))
      else if code c =? 117 then
        scanContinue (goto (stateInStringEscU 4) (set_lit (c :: sc_lit s) s))
      else scanError
  | stateInStringEscU n =>
      if is_hex c then
        scanContinue (goto (match n with S (S n') => stateInStringEscU (S n') | _ => stateInString end)
                        (set_lit (c :: sc_lit s) s))
      else scanError
  | stateNeg =>
      if code c =? 48 then scanContinue (goto state0 s)
      else if is_dec c then scanContinue (goto state1 s) else scanError
  | state1 =>
      if is_dec c then scanContinue s
      else if code c =? 46 then scanContinue (goto stateDot s)
      else if (code c =? 101) || (code c =? 69) then scanContinue (goto stateE s)
      else step_end_value s c
  | state0 =>
      if code c =? 46 then scanContinue (goto stateDot s)
      else if (code c =? 101) || (code c =? 69) then scanContinue (goto stateE s)
      else step_end_value s c
  | stateDot => if is_dec c then scanContinue (goto stateDot0 s) else scanError
  | stateDot0 =>
      if is_dec c then scanContinue s
      else if (code c =? 101) || (code c =? 69) then scanContinue (goto stateE s)
      else step_end_value s c
  | stateE =>
      if (code c =? 43) || (code c =? 45) then scanContinue (goto stateESign s)
      else if is_dec c then scanContinue (goto stateE0 s) else scanError
  | stateESign => if is_dec c then scanContinue (goto stateE0 s) else scanError
  | stateE0 => if is_dec c then scanContinue s else step_end_value s c
  | stateLiteral [] => step_end_value s c
  | stateLiteral (e :: expect) =>
      if bool_decide (c = e) then
        scanContinue (goto (match expect with [] => stateEndValue | _ => stateLiteral expect end) s)
      else scanError
  end.

(** [Decoder.readValue] over the bytes available: the value completes, the bytes
    run out, or a byte is wrong. *)
Inductive scanned : Type :=
| Complete (s : scanner)
| Incomplete (s : scanner)
| Malformed.

Fixpoint scan (s : scanner) (buf : bytes) : scanned :=
  match buf with
  | [] => Incomplete s
  | c :: rest =>
      match step s c with
      | scanContinue s' => scan s' rest
      | scanEndContainer s' => match sc_stack s' with [] => Complete s' | _ => scan s' rest end
      | scanEnd s' => Complete s'
      | scanError => Malformed
      end
  end.

(** ** Strings *)

Definition hex_value (c : ascii) : Z :=
  if is_dec c then code c - 48 else if code c <? 97 then code c - 55 else code c - 87.
Definition hex4 (a b c d : ascii) : Z :=
  hex_value a * 4096 + hex_value b * 256 + hex_value c * 16 + hex_value d.

Definition EncodeRune (r : Z) : bytes :=
  if r <? 128 then [byte r]
  else if r <? 2048 then [byte (192 + r / 64); byte (128 + r mod 64)]
  else if r <? 65536 then
    [byte (224 + r / 4096); byte (128 + r / 64 mod 64); byte (128 + r mod 64)]
  else [byte (240 + r / 262144); byte (128 + r / 4096 mod 64); byte (128 + r / 64 mod 64);
        byte (128 + r mod 64)].

Definition RuneError : bytes := EncodeRune 65533.

Definition IsSurrogate (r : Z) : bool := (55296 <=? r) && (r <? 57344).

(** [utf16.DecodeRune]: the rune a surrogate pair stands for. *)
Definition surrogate_pair (r1 r2 : Z) : option Z :=
  if (55296 <=? r1) && (r1 <? 56320) && (56320 <=? r2) && (r2 <? 57344)
  then Some ((r1 - 55296) * 1024 + (r2 - 56320) + 65536) else None.

(** How many bytes the UTF-8 sequence at the head of [s] has; 0 when it is not
    valid. *)
Definition cont (lo hi : Z) (c : ascii) : bool := (lo <=? code c) && (code c <=? hi).
Definition rune_len (s : bytes) : nat :=
  match s with
  | [] => 0
  | a :: s =>
      if code a <? 128 then 1
      else if cont 194 223 a then
        match s with b :: _ => if cont 128 191 b then 2 else 0 | _ => 0 end
      else if cont 224 239 a then
        match s with
        | b :: c :: _ =>
            let lo := if code a =? 224 then 160 else 128 in
            let hi := if code a =? 237 then 159 else 191 in
            if cont lo hi b && cont 128 191 c then 3 else 0
        | _ => 0
        end
      else if cont 240 244 a then
        match s with
        | b :: c :: d :: _ =>
            let lo := if code a =? 240 then 144 else 128 in
            let hi := if code a =? 244 then 143 else 191 in
            if cont lo hi b && cont 128 191 c && cont 128 191 d then 4 else 0
        | _ => 0
        end
      else 0
  end.

(** The escapes of one letter. *)
Definition unescape (e : ascii) : ascii :=
  match code e with
  | 98 => byte 8 | 102 => byte 12 | 110 => byte 10 | 114 => byte 13 | 116 => byte 9
  | _ => e
  end.

(** [unquote] on the bytes between the quotes of a scanned string: escapes are
    resolved, an unpaired surrogate or an invalid UTF-8 byte becomes U+FFFD. *)
Fixpoint unquote (s : bytes) : bytes :=
  match s with
  | [] => []
  | c :: s1 =>
      if code c =? 92 then
        match s1 with
        | e :: s2 =>
            if code e =? 117 then
              match s2 with
              | h1 :: h2 :: h3 :: h4 :: s3 =>
                  let r := hex4 h1 h2 h3 h4 in
                  if IsSurrogate r then
                    match s3 with
                    | b :: u :: g1 :: g2 :: g3 :: g4 :: s4 =>
                        if (code b =? 92) && (code u =? 117) &&
                           is_hex g1 && is_hex g2 && is_hex g3 && is_hex g4
                        then match surrogate_pair r (hex4 g1 g2 g3 g4) with
                             | Some r => EncodeRune r ++ unquote s4
                             | None => RuneError ++ unquote s3
                             end
                        else RuneError ++ unquote s3
                    | _ => RuneError ++ unquote s3
                    end
                  else EncodeRune r ++ unquote s3
              | _ => []
              end
            else unescape e :: unquote s2
        | [] => []
        end
      else
        match rune_len s, s1 with
        | 1%nat, _ => c :: unquote s1
        | 2%nat, c2 :: s2 => c :: c2 :: unquote s2
        | 3%nat, c2 :: c3 :: s3 => c :: c2 :: c3 :: unquote s3
        | 4%nat, c2 :: c3 :: c4 :: s4 => c :: c2 :: c3 :: c4 :: unquote s4
        | _, _ => RuneError ++ unquote s1
        end
  end.

(** ** Into the struct *)

(** [foldName]: the case folding keys are compared by; the long s and the Kelvin
    sign are the two runes outside ASCII that fold into it. *)
Definition upper (c : ascii) : ascii :=
  if (97 <=? code c) && (code c <=? 122) then byte (code c - 32) else c.
Fixpoint foldName (s : bytes) : bytes :=
  match s with
  | [] => []
  | a :: s1 =>
      match s1 with
      | b :: s2 =>
          if (code a =? 197) && (code b =? 191) then byte 83 :: foldName s2
          else match s2 with
               | c :: s3 =>
                   if (code a =? 226) && (code b =? 132) && (code c =? 170)
                   then byte 75 :: foldName s3 else upper a :: foldName s1
               | [] => upper a :: foldName s1
               end
      | [] => [upper a]
      end
  end.

Inductive wireField : Type := FieldMac | FieldBroadcast.
Definition wire_name (f : wireField) : bytes :=
  bytes_of (match f with FieldMac => "macAddress" | FieldBroadcast => "broadcastAddress" end).

(** The field a key names: exactly, or up to case. *)
Definition field_of (key : bytes) : option wireField :=
  if bool_decide (key = wire_name FieldMac) then Some FieldMac
  else if bool_decide (key = wire_name FieldBroadcast) then Some FieldBroadcast
  else if bool_decide (foldName key = foldName (wire_name FieldMac)) then Some FieldMac
  else if bool_decide (foldName key = foldName (wire_name FieldBroadcast)) then Some FieldBroadcast
  else None.

Definition set_field (f : wireField) (v : string) (r : WakeRequest) : WakeRequest :=
  match f with
  | FieldMac => MkWakeRequest v (Wake_BroadcastAddress r)
  | FieldBroadcast => MkWakeRequest (Wake_MacAddress r) v
  end.

(** One member of the object: an unknown key is skipped, null leaves the field
    as it is, anything but a string is a type error, reported at the end. *)
Definition assign (acc : WakeRequest * bool) (kv : bytes * fieldValue) : WakeRequest * bool :=
  match field_of (unquote kv.1), kv.2 with
  | None, _ | Some _, FNull => acc
  | Some f, FString raw => (set_field f (string_of (unquote raw)) acc.1, acc.2)
  | Some _, FOther => (acc.1, true)
  end.

Definition unmarshal (s : scanner) : option WakeRequest :=
  match sc_top s with
  | TopNull => Some (MkWakeRequest "" "")
  | TopOther => None
  | TopObject =>
      let '(req, mismatch) := foldl assign (MkWakeRequest "" "", false) (rev (sc_fields s)) in
      if (mismatch : bool) then None else Some req
  end.

(** [json.NewDecoder(http.MaxBytesReader(w, body, limit)).Decode(&req)]: the
    request, or the error the handler tells apart — the limit was hit before the
    value ended — or any other error. *)
Inductive decoded : Type :=
| Decoded (req : WakeRequest)
| TooLarge
| BadJSON.

Definition finish (s : scanner) : decoded :=
  match unmarshal s with Some req => Decoded req | None => BadJSON end.

Definition Decode (limit : nat) (body : bytes) : decoded :=
  match scan newScanner (take limit body) with
  | Complete s => finish s
  | Malformed => BadJSON
  | Incomplete s =>
      if bool_decide (limit < length body)%nat then TooLarge
      else match step s (byte 32) with scanEnd s' => finish s' | _ => BadJSON end
  end.

(** ** Decoding what the client marshals *)

(** The scanner after bytes that neither end the value nor are wrong. *)
Fixpoint feed (s : scanner) (b : bytes) : option scanner :=
  match b with
  | [] => Some s
  | c :: b' => match step s c with scanContinue s' => feed s' b' | _ => None end
  end.

Lemma scan_feed s b s' rest : feed s b = Some s' → scan s (b ++ rest) = scan s' rest.
Proof.
  revert s. induction b as [|c b IH]; intros s; simpl; [by intros [= ->]|].
  destruct (step s c); [apply IH|done..].
Qed.

Lemma feed_app s b b' s' : feed s b = Some s' → feed s (b ++ b') = feed s' b'.
Proof.
  revert s. induction b as [|c b IH]; intros s; simpl; [by intros [= ->]|].
  destruct (step s c); [apply IH|done..].
Qed.

Lemma feed_escape s c :
  sc_step s = stateInString →
  feed s (bytes_of (json_escape c)) = Some (set_lit (rev (bytes_of (json_escape c)) ++ sc_lit s) s).
Proof. destruct s. cbn [sc_step]. intros ->. by destruct c as [[] [] [] [] [] [] [] []]. Qed.

(** A string is read to its closing quote, its raw bytes kept. *)
Lemma feed_body s str :
  sc_step s = stateInString →
  feed s (bytes_of (json_body str)) = Some (set_lit (rev (bytes_of (json_body str)) ++ sc_lit s) s).
Proof.
  revert s. induction str as [|c str IH]; intros s Hs; [by destruct s|].
  simpl json_body. rewrite bytes_of_app, (feed_app _ _ _ _ (feed_escape s c Hs)), IH by done.
  f_equal. destruct s; unfold set_lit; cbn. by rewrite rev_app_distr, app_assoc.
Qed.

Lemma unquote_escape c rest :
  is_ascii c = true → unquote (bytes_of (json_escape c) ++ rest) = c :: unquote rest.
Proof. by destruct c as [[] [] [] [] [] [] [] []]. Qed.

Definition all_ascii (s : string) : bool := forallb is_ascii (bytes_of s).

Lemma unquote_body s : all_ascii s = true → unquote (bytes_of (json_body s)) = bytes_of s.
Proof.
  induction s as [|c s IH]; [done|]. unfold all_ascii. simpl. rewrite andb_true_iff. intros [Hc Hs].
  by rewrite bytes_of_app, unquote_escape, IH.
Qed.

(** The scanner once the opening brace, a key and the opening quote of its value
    are read, [fields] being the members before. *)
Definition in_value (key : string) (fields : list (bytes * fieldValue)) : scanner :=
  MkScanner stateInString [parseObjectValue] [] (bytes_of key) fields TopObject.

Lemma feed_member key str fields :
  feed (in_value key fields) (bytes_of (json_body str +:+ dquote)) =
    Some (MkScanner stateEndValue [parseObjectValue] [] (bytes_of key)
            ((bytes_of key, FString (bytes_of (json_body str))) :: fields) TopObject).
Proof.
  rewrite bytes_of_app. erewrite feed_app by (by apply feed_body).
  unfold set_lit. cbn. by rewrite app_nil_r, rev_involutive.
Qed.

(** The object up to the closing brace. *)
Definition marshal_open (r : WakeRequest) : string :=
  ("{" +:+ json_string "macAddress" +:+ ":" +:+ dquote) +:+
  (json_body (Wake_MacAddress r) +:+ dquote) +:+
  (if decide (Wake_BroadcastAddress r = "") then ""
   else ("," +:+ json_string "broadcastAddress" +:+ ":" +:+ dquote) +:+
        (json_body (Wake_BroadcastAddress r) +:+ dquote)).

Lemma marshal_split r : MarshalWakeRequest r = marshal_open r +:+ "}".
Proof.
  unfold MarshalWakeRequest, marshal_open, json_string. rewrite !append_assoc.
  case_decide; by rewrite ?append_assoc.
Qed.

Definition wire_fields (r : WakeRequest) : list (bytes * fieldValue) :=
  (wire_name FieldMac, FString (bytes_of (json_body (Wake_MacAddress r)))) ::
  (if decide (Wake_BroadcastAddress r = "") then []
   else [(wire_name FieldBroadcast, FString (bytes_of (json_body (Wake_BroadcastAddress r))))]).

(** The fixed stretches of the object. *)
Lemma scan_close key fields rest :
  scan (MkScanner stateEndValue [parseObjectValue] [] key fields TopObject) (bytes_of "}" ++ rest) =
    Complete (MkScanner stateEndTop [] [] key fields TopObject).
Proof. reflexivity. Qed.

Lemma feed_first :
  feed newScanner (bytes_of ("{" +:+ json_string "macAddress" +:+ ":" +:+ dquote)) =
    Some (in_value "macAddress" []).
Proof. vm_compute. reflexivity. Qed.

Lemma feed_second key fields :
  feed (MkScanner stateEndValue [parseObjectValue] [] key fields TopObject)
    (bytes_of ("," +:+ json_string "broadcastAddress" +:+ ":" +:+ dquote)) =
    Some (in_value "broadcastAddress" fields).
Proof. vm_compute. reflexivity. Qed.

Lemma feed_open r :
  ∃ key, feed newScanner (bytes_of (marshal_open r)) =
    Some (MkScanner stateEndValue [parseObjectValue] [] key (rev (wire_fields r)) TopObject).
Proof.
  unfold marshal_open, wire_fields.
  rewrite bytes_of_app, (feed_app _ _ _ _ feed_first).
  rewrite bytes_of_app, (feed_app _ _ _ _ (feed_member _ _ _)).
  case_decide; [by eexists|].
  rewrite bytes_of_app, (feed_app _ _ _ _ (feed_second _ _)), feed_member. by eexists.
Qed.

Lemma unmarshal_wire r key :
  all_ascii (Wake_MacAddress r) = true → all_ascii (Wake_BroadcastAddress r) = true →
  unmarshal (MkScanner stateEndTop [] [] key (rev (wire_fields r)) TopObject) = Some r.
Proof.
  intros Hm Hb. unfold unmarshal. cbn [sc_top sc_fields]. rewrite rev_involutive.
  destruct r as [mac bcast]. cbn in Hm, Hb |- *. unfold wire_fields. cbn [Wake_BroadcastAddress Wake_MacAddress].
  case_decide as Hd; cbn -[unquote]; unfold assign;
    replace (field_of (unquote (wire_name FieldMac))) with (Some FieldMac) by reflexivity;
    replace (field_of (unquote (wire_name FieldBroadcast))) with (Some FieldBroadcast) by reflexivity;
    cbn -[unquote]; rewrite !unquote_body, !string_of_bytes_of by done; [by subst|done].
Qed.

Lemma Decode_marshal limit (r : WakeRequest) (rest : bytes) :
  all_ascii (Wake_MacAddress r) = true → all_ascii (Wake_BroadcastAddress r) = true →
  (length (bytes_of (MarshalWakeRequest r)) ≤ limit)%nat →
  Decode limit (bytes_of (MarshalWakeRequest r) ++ rest) = Decoded r.
Proof.
  intros Hm Hb Hlen. unfold Decode. rewrite take_app_ge by done.
  rewrite marshal_split, bytes_of_app, <- app_assoc. destruct (feed_open r) as (key & Hf).
  rewrite (scan_feed _ _ _ _ Hf), scan_close. unfold finish. by rewrite unmarshal_wire.
Qed.

(** What the controller's client marshals, the agent decodes: the request
    comes back from its JSON body, whatever bytes follow it, when it is ASCII
    and within the limit on the body. *)
Theorem wire_round_trip limit (r : WakeRequest) (rest : bytes) :
  all_ascii (Wake_MacAddress r) = true → all_ascii (Wake_BroadcastAddress r) = true →
  (length (bytes_of (MarshalWakeRequest r)) ≤ limit)%nat →
  Decode limit (bytes_of (MarshalWakeRequest r) ++ rest) = Decoded r.
Proof. apply Decode_marshal. Qed.

Lemma wire_round_trip_witness :
  Decode 4096 (bytes_of (MarshalWakeRequest (MkWakeRequest "01:23:45:67:89:ab" "10.0.0.255"))) =
    Decoded (MkWakeRequest "01:23:45:67:89:ab" "10.0.0.255").
Proof.
  pose proof (wire_round_trip 4096 (MkWakeRequest "01:23:45:67:89:ab" "10.0.0.255") []
    ltac:(vm_compute; reflexivity) ltac:(vm_compute; reflexivity)
    ltac:(by apply Nat.leb_le; vm_compute)) as H.
  rewrite app_nil_r in H. exact H.
Defined.
