(* ===== verification/Wol.v ===== *)
(** * wol/magic.go: Wake-on-LAN packets

    [net.ParseMAC], [net.SplitHostPort] and [net.JoinHostPort] of the standard
    library, the magic packet ([BuildPacket]) and its transmission ([Send]) over
    the socket calls of [NetSignature]. *)

From S2P Require Import Prelude GoStd Prog K8s Api Client Power Json.
From Stdlib Require Import Ascii.

Local Open Scope Z_scope.

(** ** net.ParseMAC *)

Definition HardwareAddr : Type := list Z.

(** [xtoi2]: two hex digits, followed by [e] unless the string ends there. *)
Definition xtoi2 (s : bytes) (e : ascii) : option Z :=
  match s with
  | a :: b :: rest =>
      if match rest with c :: _ => negb (bool_decide (c = e)) | [] => false end then None
      else if is_hex a && is_hex b then Some (hex_value a * 16 + hex_value b) else None
  | _ => None
  end.

(** The loop over octets three bytes apart. *)
Fixpoint octets (sep : ascii) (n : nat) (s : bytes) : option HardwareAddr :=
  match n with
  | O => Some []
  | S n' =>
      match xtoi2 s sep with
      | None => None
      | Some o => cons o <$> octets sep n' (drop 3 s)
      end
  end.

(** The loop over pairs of octets five bytes apart. *)
Fixpoint dotted_octets (n : nat) (s : bytes) : option HardwareAddr :=
  match n with
  | O => Some []
  | S n' =>
      match xtoi2 (take 2 s) (byte 0), xtoi2 (drop 2 s) (byte 46) with
      | Some hi, Some lo => (λ hw, hi :: lo :: hw) <$> dotted_octets n' (drop 5 s)
      | _, _ => None
      end
  end.

Definition mac_size (n : nat) : bool := bool_decide (n = 6 ∨ n = 8 ∨ n = 20)%nat.

Definition parse_mac (s : bytes) : option HardwareAddr :=
  let len := length s in
  if bool_decide (len < 14)%nat then None
  else
  let sep := nth 2 s (byte 0) in
  if (code sep =? 58) || (code sep =? 45) then
    let n := ((len + 1) / 3)%nat in
    if negb (bool_decide ((len + 1) mod 3 = 0)%nat) || negb (mac_size n) then None
    else octets sep n s
  else if code (nth 4 s (byte 0)) =? 46 then
    let n := (2 * (len + 1) / 5)%nat in
    if negb (bool_decide ((len + 1) mod 5 = 0)%nat) || negb (mac_size n) then None
    else dotted_octets (n / 2) s
  else None.

Definition ParseMAC (s : string) : result error HardwareAddr :=
  match parse_mac (bytes_of s) with
  | Some hw => Ok hw
  | None => Err (NewErrorf "address %s: invalid MAC address" [AStr s])
  end.

(** ** The magic packet *)

Definition macLen : nat := 6.
Definition packetLen : nat := 6 + 16 * macLen.
Definition defaultPort : string := "9".
Definition ErrInvalidMAC : error := NewErrorf "wol: MAC address must be 6 bytes" [].

Definition BuildPacket (mac : HardwareAddr) : result error (list Z) :=
  if negb (bool_decide (length mac = macLen)) then
    Err (MkError (err_reason ErrInvalidMAC)
           (Sprintf "%w: got %d bytes" [AErr (err_msg ErrInvalidMAC); AInt (Z.of_nat (length mac))]))
  else
    let pkt := Nat.iter 6 (λ pkt, pkt ++ [255]) [] in
    Ok (Nat.iter 16 (λ pkt, pkt ++ mac) pkt).

(** ** net.SplitHostPort and net.JoinHostPort *)

Fixpoint index_byte (c : ascii) (s : bytes) : option nat :=
  match s with
  | [] => None
  | x :: s' => if bool_decide (x = c) then Some O else S <$> index_byte c s'
  end.
Fixpoint last_index_byte (c : ascii) (s : bytes) : option nat :=
  match s with
  | [] => None
  | x :: s' =>
      match last_index_byte c s' with
      | Some i => Some (S i)
      | None => if bool_decide (x = c) then Some O else None
      end
  end.
Definition has_byte (c : ascii) (s : bytes) : bool := bool_decide (is_Some (index_byte c s)).

Definition colon : ascii := byte 58.
Definition lbracket : ascii := byte 91.
Definition rbracket : ascii := byte 93.

(** The host and the port, or [None] for an address error. *)
Definition split_host_port (s : bytes) : option (bytes * bytes) :=
  match last_index_byte colon s with
  | None => None
  | Some i =>
      let stray j k := has_byte lbracket (drop j s) || has_byte rbracket (drop k s) in
      match s with
      | c :: _ =>
          if bool_decide (c = lbracket) then
            match index_byte rbracket s with
            | None => None
            | Some e =>
                if negb (bool_decide (S e = i)) then None
                else if stray 1%nat (S e) then None
                else Some (take (e - 1) (drop 1 s), drop (S i) s)
            end
          else if has_byte colon (take i s) then None
          else if stray O O then None
          else Some (take i s, drop (S i) s)
      | [] => None
      end
  end.

Definition join_host_port (host port : bytes) : bytes :=
  if has_byte colon host then lbracket :: host ++ rbracket :: colon :: port
  else host ++ colon :: port.

(** ** Send *)

(** The socket calls of the agent. *)
Inductive ncall : Type :=
| ResolveUDPAddr (address : string)
| ListenUDP
| SyscallConn
| ControlSetBroadcast
| WriteToUDP (pkt : list Z) (addr : string)
| CloseUDP.

(** A resolved address is the string it prints as; [Control] reports its own
    error, or what [setsockopt] returned inside it. *)
Definition nresp (c : ncall) : Type :=
  match c with
  | ResolveUDPAddr _ => result error string
  | ControlSetBroadcast => result error (result error unit)
  | CloseUDP => unit
  | _ => result error unit
  end.

#[global] Instance NetSignature : Signature := {| call := ncall; resp := nresp |}.

(** The address [Send] resolves: the default port is appended to an address
    without one. *)
Definition with_port (s : string) : string :=
  match split_host_port (bytes_of s) with
  | Some _ => s
  | None => string_of (join_host_port (bytes_of s) (bytes_of defaultPort))
  end.

Definition resolveBroadcast (s : string) : prog (result error string) :=
  do (ResolveUDPAddr (with_port s)).

Definition enableBroadcast : prog (result error unit) :=
  let? _ := do SyscallConn in
  let? setErr := do ControlSetBroadcast in
  Ret setErr.

Definition Send (mac : HardwareAddr) (broadcastAddr : string) : prog (result error unit) :=
  match BuildPacket mac with
  | Err err => fail err
  | Ok pkt =>
  let? addr := wrapf "wol: resolve broadcast address %q: %w" [AStr broadcastAddr]
                 (resolveBroadcast broadcastAddr) in
  let? _ := wrapf "wol: open UDP socket: %w" [] (do ListenUDP) in
  let! res :=
    (let? _ := wrapf "wol: enable SO_BROADCAST: %w" [] enableBroadcast in
     let? _ := wrapf "wol: send magic packet to %s: %w" [AStr addr] (do (WriteToUDP pkt addr)) in
     ok tt) in
  let! _ := do CloseUDP in
  Ret res
  end.

(** ** The packet *)

Lemma iter_app {A} (n : nat) (x acc : list A) :
  Nat.iter n (λ pkt, pkt ++ x) acc = acc ++ concat (replicate n x).
Proof.
  induction n as [|n IH]; simpl; [by rewrite app_nil_r|].
  rewrite IH, <- app_assoc. f_equal. clear IH.
  induction n as [|n IH]; simpl; [by rewrite app_nil_r|]. by rewrite <- app_assoc, IH.
Qed.

Lemma lookup_repeated {A} (x : list A) n k j :
  (k < n)%nat → (j < length x)%nat →
  concat (replicate n x) !! (length x * k + j)%nat = x !! j.
Proof.
  revert k. induction n as [|n IH]; intros k Hk Hj; [lia|]. simpl. destruct k as [|k].
  - rewrite Nat.mul_0_r. by apply lookup_app_l.
  - rewrite lookup_app_r by lia.
    replace (length x * S k + j - length x)%nat with (length x * k + j)%nat by lia.
    apply IH; lia.
Qed.

Lemma length_repeated {A} (x : list A) n : length (concat (replicate n x)) = (n * length x)%nat.
Proof. induction n as [|n IH]; simpl; [done|]. rewrite length_app. lia. Qed.

Lemma BuildPacket_ok mac :
  length mac = macLen → BuildPacket mac = Ok (replicate 6 255 ++ concat (replicate 16 mac)).
Proof.
  intros Hl. unfold BuildPacket. rewrite bool_decide_true by done. cbn [negb]. by rewrite iter_app.
Qed.

(** The magic packet: a MAC address of six bytes, and no other, has a
    packet; it is 102 bytes long, six 0xFF and then the address sixteen times. *)
Theorem magic_packet (mac : HardwareAddr) :
  match BuildPacket mac with
  | Ok pkt =>
      length mac = macLen ∧ length pkt = packetLen ∧
      (∀ i, (i < 6)%nat → pkt !! i = Some 255) ∧
      (∀ k j, (k < 16)%nat → (j < macLen)%nat → pkt !! (6 + macLen * k + j)%nat = mac !! j)
  | Err _ => length mac ≠ macLen
  end.
Proof.
  destruct (decide (length mac = macLen)) as [Hl|Hl]; cycle 1.
  { unfold BuildPacket. by rewrite bool_decide_false. }
  rewrite BuildPacket_ok by done. split_and!; [done| | |].
  - rewrite length_app, length_replicate, length_repeated, Hl. done.
  - intros i Hi. rewrite lookup_app_l by (by rewrite length_replicate). by apply lookup_replicate_2.
  - intros k j Hk Hj. rewrite lookup_app_r; rewrite length_replicate; [|lia].
    replace (6 + macLen * k + j - 6)%nat with (macLen * k + j)%nat by lia.
    rewrite <- Hl in Hj |- *. by apply lookup_repeated.
Qed.

(** ** Host and port *)

Lemma has_byte_spec c s : has_byte c s = true ↔ c ∈ s.
Proof.
  unfold has_byte. rewrite bool_decide_eq_true.
  induction s as [|x s IH]; simpl; [rewrite elem_of_nil; split; [intros []|]; done|].
  rewrite elem_of_cons. case_bool_decide; [naive_solver|]. rewrite fmap_is_Some, IH. naive_solver.
Qed.

Lemma has_byte_false c s : has_byte c s = false ↔ c ∉ s.
Proof. rewrite <- has_byte_spec. by destruct (has_byte c s). Qed.

Lemma index_byte_app c a b : c ∉ a → index_byte c (a ++ c :: b) = Some (length a).
Proof.
  induction a as [|x a IH]; simpl; intros Hc; [by rewrite bool_decide_true|].
  apply not_elem_of_cons in Hc as [??]. rewrite bool_decide_false by done. by rewrite IH.
Qed.

Lemma last_index_byte_none c s : c ∉ s → last_index_byte c s = None.
Proof.
  induction s as [|x s IH]; simpl; [done|]. intros Hc. apply not_elem_of_cons in Hc as [??].
  rewrite IH by done. by rewrite bool_decide_false.
Qed.

Lemma last_index_byte_app c a b : c ∉ b → last_index_byte c (a ++ c :: b) = Some (length a).
Proof.
  intros Hb. induction a as [|x a IH]; simpl; [|by rewrite IH].
  rewrite last_index_byte_none by done. by rewrite bool_decide_true.
Qed.

Lemma drop_past {A} (a b : list A) n : drop (length a + n) (a ++ b) = drop n b.
Proof. by rewrite <- drop_drop, drop_app_length. Qed.

(** No bracket in the host; no bracket or colon in the port. *)
Definition plain_host (h : bytes) : Prop := (lbracket ∉ h) ∧ (rbracket ∉ h).
Definition plain_port (p : bytes) : Prop := plain_host p ∧ (colon ∉ p).

Lemma not_in_join c (h p : bytes) :
  c ≠ colon → c ∉ h → c ∉ p → has_byte c (h ++ colon :: p) = false.
Proof.
  intros. apply has_byte_false. rewrite elem_of_app, elem_of_cons. naive_solver.
Qed.

(** Splitting what was joined gives the host and the port back, an IPv6 host
    included. *)
Lemma join_split (host port : bytes) :
  plain_host host → plain_port port →
  split_host_port (join_host_port host port) = Some (host, port).
Proof.
  intros [Hl Hr] [[Hpl Hpr] Hpc]. unfold join_host_port.
  destruct (has_byte colon host) eqn:Hc.
  - unfold split_host_port.
    replace (lbracket :: host ++ rbracket :: colon :: port)
      with ((lbracket :: host ++ [rbracket]) ++ colon :: port) by (simpl; by rewrite <- app_assoc).
    rewrite last_index_byte_app by done. cbn [app]. rewrite <- app_assoc. cbn [app].
    rewrite bool_decide_true by done.
    assert (rbracket ∉ lbracket :: host) as Hr' by (by rewrite not_elem_of_cons).
    pose proof (index_byte_app rbracket (lbracket :: host) (colon :: port) Hr') as Hi.
    cbn [app] in Hi. rewrite Hi.
    cbn [length]. rewrite length_app. cbn [length].
    rewrite bool_decide_true by lia. cbn [negb drop].
    replace (S (length host + 1)) with (length host + 2)%nat by lia.
    replace (S (length host)) with (length host + 1)%nat by lia.
    rewrite !drop_past. cbn [drop]. rewrite !drop_0, Nat.add_sub, take_app_length.
    replace (has_byte lbracket _ || has_byte rbracket _) with false; [done|].
    symmetry. apply orb_false_iff. rewrite !has_byte_false, elem_of_app, !elem_of_cons.
    naive_solver.
  - apply has_byte_false in Hc. unfold split_host_port.
    rewrite last_index_byte_app by done.
    destruct (host ++ colon :: port) as [|c s] eqn:Hs; [by destruct host|]. rewrite <- Hs.
    assert (c ≠ lbracket).
    { destruct host as [|x host]; injection Hs as <- _; [done|]. intros ->. apply Hl. left. }
    rewrite bool_decide_false by done. rewrite take_app_length.
    rewrite (proj2 (has_byte_false _ _) Hc). rewrite !drop_0, !not_in_join by done. cbn [orb].
    replace (S (length host)) with (length host + 1)%nat by lia. rewrite drop_past. cbn [drop]. by rewrite drop_0.
Qed.

(** The address that is resolved always has a port: the one given, or the
    default one after the whole of an address without a port, an IPv6 address
    included. *)
Theorem with_port_has_port s :
  plain_host (bytes_of s) →
  split_host_port (bytes_of (with_port s)) =
    Some (default (bytes_of s, bytes_of defaultPort) (split_host_port (bytes_of s))).
Proof.
  intros Hs. unfold with_port. destruct (split_host_port (bytes_of s)) as [hp|] eqn:E; [done|].
  unfold string_of. unfold bytes_of at 1. rewrite String.list_ascii_of_string_of_list_ascii.
  apply join_split; [done|]. repeat split; by_compute.
Qed.

Lemma with_port_has_port_witness :
  split_host_port (bytes_of (with_port "fe80::1")) = Some (bytes_of "fe80::1", bytes_of "9").
Proof. apply (with_port_has_port "fe80::1"). split; by_compute. Defined.

(** ** Which addresses the API admits

    The validation pattern of [WoLConfig.MacAddress]:
    [^([0-9A-Fa-f]{2}[:-]){5}[0-9A-Fa-f]{2}$]. *)
Fixpoint mac_groups (n : nat) (s : bytes) : bool :=
  match n, s with
  | O, [a; b] => is_hex a && is_hex b
  | S n', a :: b :: c :: rest =>
      is_hex a && is_hex b && ((code c =? 58) || (code c =? 45)) && mac_groups n' rest
  | _, _ => false
  end.
Definition mac_pattern (s : string) : bool := mac_groups 5 (bytes_of s).

(** Every third byte, from the third on. *)
Fixpoint separators (s : bytes) : bytes :=
  match s with a :: b :: c :: rest => c :: separators rest | _ => [] end.

Lemma mac_groups_length n s : mac_groups n s = true → length s = (3 * n + 2)%nat.
Proof.
  revert s. induction n as [|n IH]; intros [|a [|b [|c s]]]; try done. simpl.
  intros Hp. bool_simpl. rewrite (IH s) by done. lia.
Qed.

Lemma octets_S sep n s :
  octets sep (S n) s =
    match xtoi2 s sep with None => None | Some o => cons o <$> octets sep n (drop 3 s) end.
Proof. done. Qed.

Lemma octets_groups sep n s :
  mac_groups n s = true →
  (∃ hw, octets sep (S n) s = Some hw ∧ length hw = S n) ↔ Forall (eq sep) (separators s).
Proof.
  revert s. induction n as [|n IH]; intros s Hp.
  - destruct s as [|a [|b [|c s]]]; try done. cbn in Hp |- *. rewrite Hp. split; [done|].
    intros _. by eexists.
  - destruct s as [|a [|b [|c s]]]; try done. cbn [mac_groups] in Hp. bool_simpl.
    change (separators (a :: b :: c :: s)) with (c :: separators s). rewrite Forall_cons.
    rewrite (octets_S sep (S n)). cbn [xtoi2]. destruct (decide (c = sep)) as [->|Hne].
    + rewrite bool_decide_true by done. cbn [negb].
      assert (is_hex a && is_hex b = true) as -> by (apply andb_true_iff; split; done).
      replace (drop 3 (a :: b :: sep :: s)) with s by (cbn; by rewrite drop_0).
      rewrite <- (IH s) by done. clear IH. split.
      * intros (hw & Ho & Hl). destruct (octets sep (S n) s) as [hw'|]; [|done].
        cbn in Ho. injection Ho as <-. split; [done|]. exists hw'. cbn in Hl. auto with lia.
      * intros (_ & hw & -> & Hl). exists (hex_value a * 16 + hex_value b :: hw). cbn. by rewrite Hl.
    + rewrite bool_decide_false by done. cbn [negb]. split; [intros (? & ? & ?); done|].
      intros [? _]. congruence.
Qed.

Lemma parse_mac_groups s :
  mac_groups 5 s = true → parse_mac s = octets (nth 2 s (byte 0)) 6 s.
Proof.
  intros Hp. pose proof (mac_groups_length _ _ Hp) as Hl. unfold parse_mac. rewrite Hl.
  destruct s as [|a [|b [|c s]]]; try done. cbn [mac_groups] in Hp. bool_simpl. cbn [nth].
  replace ((code c =? 58) || (code c =? 45)) with true. done.
Qed.

(** C34.  Of the MAC addresses the API admits, exactly those that use one
    separator throughout can be parsed, and so woken; they have six bytes. *)
Theorem admitted_mac_is_wakeable s :
  mac_pattern s = true →
  (∃ hw, ParseMAC s = Ok hw ∧ length hw = macLen) ↔
  Forall (eq (nth 2 (bytes_of s) (byte 0))) (separators (bytes_of s)).
Proof.
  intros Hp. rewrite <- (octets_groups _ 5) by done. unfold ParseMAC. rewrite parse_mac_groups by done.
  destruct (octets _ 6 _) as [hw|]; split; intros (hw' & Hhw & ?); try done; naive_solver.
Qed.

Lemma admitted_mac_is_wakeable_witness :
  ∃ hw, ParseMAC "01:23:45:67:89:ab" = Ok hw ∧ length hw = macLen.
Proof. apply admitted_mac_is_wakeable; by_compute. Defined.

(** The exception is real: the API admits an address with mixed separators,
    and no power-on of its Machine can succeed. *)
Theorem mixed_separators_never_wake :
  mac_pattern "01:23-45:67:89:ab" = true ∧ ∃ e, ParseMAC "01:23-45:67:89:ab" = Err e.
Proof. split; [reflexivity|]. eexists. vm_compute. reflexivity. Qed.
