(* ===== verification/Agent.v ===== *)
(** * internal/agent: the wol-agent's HTTP surface

    [Handler] routes /wake, behind [requireBearer], and the two health
    endpoints; a /wake request that passes every check becomes one [Send].  The
    log lines are not modelled, nor what [http.ServeMux] answers to a path that
    is none of the three: that answer is the parameter [mux_default].

    The theorems: a magic packet leaves the agent only for an authorised,
    well-formed POST to /wake and is that request's packet; and the request the
    controller's client builds ([wol/client.go]) is one, so that an accepted
    power-on is a packet on the wire. *)

From S2P Require Import Prelude GoStd Prog K8s Api Client Power Json Wol.
From Stdlib Require Import Ascii.

Local Open Scope Z_scope.

Definition defaultBroadcast : string := "255.255.255.255".
Definition maxBodyBytes : nat := Nat.shiftl 4 10.

Record Request : Type := MkRequest {
  R_Method : string;
  R_Path : string;
  R_Header : gmap string string;
  R_Body : bytes;
}.

Record Response : Type := MkResponse {
  W_Code : Z;
  W_Header : gmap string string;
  W_Body : string;
}.

Definition Waker : Type := HardwareAddr → string → prog (result error unit).
Definition sendWaker : Waker := Send.

(** [http.Error] *)
Definition http_error (header : gmap string string) (msg : string) (status : Z) : Response :=
  MkResponse status
    (<["Content-Type" := "text/plain; charset=utf-8"]>
      (<["X-Content-Type-Options" := "nosniff"]> header))
    (msg +:+ String (ascii_of_nat 10) "").

(** The handler behind the bearer check. *)
Definition handleWake (waker : Waker) (r : Request) : prog Response :=
  if negb (bool_decide (R_Method r = "POST")) then
    Ret (http_error {["Allow" := "POST"]} "method not allowed" 405)
  else
  match Decode maxBodyBytes (R_Body r) with
  | TooLarge => Ret (http_error ∅ "request body too large" 413)
  | BadJSON => Ret (http_error ∅ "invalid JSON body" 400)
  | Decoded req =>
  let invalid := Ret (http_error ∅ "invalid macAddress: want a 6-byte (EUI-48) MAC" 400) in
  match ParseMAC (Wake_MacAddress req) with
  | Err _ => invalid
  | Ok mac =>
  if negb (bool_decide (length mac = 6%nat)) then invalid
  else
  let broadcast := if decide (Wake_BroadcastAddress req = "") then defaultBroadcast
                   else Wake_BroadcastAddress req in
  let! res := waker mac broadcast in
  match res with
  | Err _ => Ret (http_error ∅ "send failed" 502)
  | Ok _ => Ret (MkResponse 204 ∅ "")
  end
  end
  end.

Definition requireBearer (token : string) (next : Request → prog Response) (r : Request)
    : prog Response :=
  if decide (token = "") then next r
  else if decide (map_get (R_Header r) "Authorization" = "Bearer " +:+ token) then next r
  else Ret (http_error {["WWW-Authenticate" := "Bearer"]} "unauthorized" 401).

Definition health (r : Request) : prog Response :=
  if negb (bool_decide (R_Method r = "GET")) then
    Ret (http_error {["Allow" := "GET"]} "method not allowed" 405)
  else Ret (MkResponse 200 ∅ "").

Section handler.
Variable mux_default : Request → Response.

Definition Handler (waker : option Waker) (token : string) (r : Request) : prog Response :=
  let waker := default sendWaker waker in
  if decide (R_Path r = "/wake") then requireBearer token (handleWake waker) r
  else if decide (R_Path r = "/healthz" ∨ R_Path r = "/readyz") then health r
  else Ret (mux_default r).

(** ** What leaves the agent *)

Definition broadcast_of (req : WakeRequest) : string :=
  if decide (Wake_BroadcastAddress req = "") then defaultBroadcast else Wake_BroadcastAddress req.

Definition authorised (token : string) (r : Request) : Prop :=
  token = "" ∨ map_get (R_Header r) "Authorization" = "Bearer " +:+ token.

(** The request [r] asks for the packet [pkt], the run so far [h] resolved [addr]
    for it and enabled broadcasts, and no packet was sent before. *)
Record packet_ok (token : string) (r : Request) (h : trace) (pkt : list Z) (addr : string) : Prop := {
  pk_route : R_Path r = "/wake" ∧ R_Method r = "POST";
  pk_auth : authorised token r;
  pk_body : ∃ req mac, Decode maxBodyBytes (R_Body r) = Decoded req ∧
    ParseMAC (Wake_MacAddress req) = Ok mac ∧ BuildPacket mac = Ok pkt ∧
    Ev (ResolveUDPAddr (with_port (broadcast_of req))) (Ok addr) ∈ h;
  pk_broadcast : Ev ControlSetBroadcast (Ok (Ok tt)) ∈ h;
  pk_first : none_of (λ c, match c with WriteToUDP _ _ => True | _ => False end) h;
}.

Definition packet_sent (e : event) : option (list Z * string) :=
  match ev_call e with WriteToUDP pkt addr => Some (pkt, addr) | _ => None end.

Lemma packet_sent_Some e pkt addr :
  packet_sent e = Some (pkt, addr) → ev_call e = WriteToUDP pkt addr.
Proof. destruct e as [[] res]; unfold packet_sent; simpl; congruence. Qed.

(** A packet the network took. *)
Definition delivered (e : event) : bool :=
  match e with Ev c r => match c, r with WriteToUDP _ _, Ok _ => true | _, _ => false end end.

(** A packet of [Send] is the address's, goes where the broadcast address
    resolved to, with broadcasts enabled, and is the only one. *)
Lemma Send_gate (P : trace → list Z → string → Prop) mac b :
  (∀ pkt addr h, BuildPacket mac = Ok pkt →
    h = [Ev ControlSetBroadcast (Ok (Ok tt)); Ev SyscallConn (Ok tt); Ev ListenUDP (Ok tt);
         Ev (ResolveUDPAddr (with_port b)) (Ok addr)] → P h pkt addr) →
  wp anything (λ h c, match c with WriteToUDP pkt addr => P h pkt addr | _ => True end) []
    (Send mac b) (λ h res, match res with
      | Ok _ => ∃ pkt addr, BuildPacket mac = Ok pkt ∧
          reverse h = [Ev (ResolveUDPAddr (with_port b)) (Ok addr); Ev ListenUDP (Ok tt);
            Ev SyscallConn (Ok tt); Ev ControlSetBroadcast (Ok (Ok tt));
            Ev (WriteToUDP pkt addr) (Ok tt); Ev CloseUDP tt]
      | Err _ => Forall (λ e, delivered e = false) h
      end).
Proof.
  intros HP. unfold Send, resolveBroadcast, enableBroadcast.
  destruct (BuildPacket mac) as [pkt|e] eqn:Hp; [|by repeat constructor].
  wp_call res; [done|]. destruct res as [addr|e]; [|by repeat constructor].
  wp_call res; [done|]. destruct res as [[]|e]; [|by repeat constructor].
  wp_call res; [done|]. destruct res as [[]|e]; [|by repeat constructor].
  wp_call res; [done|]. destruct res as [[[]|e]|e]; [|by repeat constructor..].
  apply wp_ret. wp_call res; [by apply HP|]. destruct res as [[]|e]; [|by repeat constructor].
  apply wp_ret. apply wp_bind. wp_call u; [done|]. apply wp_ret. destruct u. by exists pkt, addr.
Qed.

(** The runs of [Send]: the packet went out, or nothing did. *)
Lemma Send_runs mac b t res :
  exec (Send mac b) t res →
  match res with
  | Ok _ => ∃ pkt addr, BuildPacket mac = Ok pkt ∧
      t = [Ev (ResolveUDPAddr (with_port b)) (Ok addr); Ev ListenUDP (Ok tt);
           Ev SyscallConn (Ok tt); Ev ControlSetBroadcast (Ok (Ok tt));
           Ev (WriteToUDP pkt addr) (Ok tt); Ev CloseUDP tt]
  | Err _ => Forall (λ e, delivered e = false) t
  end.
Proof.
  intros Hx. pose proof (wp_exec_value _ _ _ _ _ _
    (Send_gate (λ _ _ _, True) mac b ltac:(done)) Hx (Forall_anything _)) as Hw.
  cbn beta in Hw. rewrite reverse_involutive in Hw. destruct res; [done|].
  rewrite Forall_forall in Hw |- *. intros e' He'. by apply Hw, elem_of_reverse.
Qed.

Lemma packet_ok_reverse token r h pkt addr :
  packet_ok token r (reverse h) pkt addr → packet_ok token r h pkt addr.
Proof.
  intros [? ? (req & mac & ? & ? & ? & Hres) Hb Hn]. split; [done|done| | |].
  - exists req, mac. split_and!; [done..|]. by apply elem_of_reverse.
  - by apply elem_of_reverse.
  - unfold none_of in *. rewrite Forall_forall in Hn |- *. intros e He. by apply Hn, elem_of_reverse.
Qed.

(** C33.  A magic packet leaves the agent only for an authorised POST to /wake
    whose body names a six-byte MAC address; it is that address's packet, sent
    to the broadcast address of the body (or the default) with broadcasts
    enabled, and it is the only one. *)
Theorem packets_are_authorised token r t resp i e pkt addr :
  exec (Handler None token r) t resp → t !! i = Some e → packet_sent e = Some (pkt, addr) →
  packet_ok token r (take i t) pkt addr.
Proof.
  intros Hx He Hp%packet_sent_Some.
  assert (wp anything (λ h c, match c with
    | WriteToUDP pkt addr => packet_ok token r h pkt addr | _ => True end) []
    (Handler None token r) (λ _ _, True)) as Hwp; cycle 1.
  { pose proof (wp_exec_at _ _ _ _ _ _ _ _ Hwp Hx (Forall_anything _) He) as Hg.
    rewrite Hp in Hg. by apply packet_ok_reverse. }
  unfold Handler. destruct (decide (R_Path r = "/wake")) as [Hpath|]; [|unfold health; by repeat case_match].
  assert (authorised token r → wp anything (λ h c, match c with
    | WriteToUDP pkt addr => packet_ok token r h pkt addr | _ => True end) []
    (handleWake sendWaker r) (λ _ _, True)) as Hwake; cycle 1.
  { unfold requireBearer. repeat case_decide; [apply Hwake; by left|apply Hwake; by right|done]. }
  intros Hauth. unfold handleWake. case_bool_decide; [|done]. cbn [negb].
  destruct (Decode _ _) as [req| |] eqn:Hd; [|done..].
  destruct (ParseMAC _) as [mac|] eqn:Hm; [|done]. case_bool_decide; [|done]. cbn [negb].
  apply wp_bind. eapply wp_conseq; [|apply Send_gate]; [by intros h [] _|].
  intros pkt' addr' h Hb ->. split; [done|done| |left|].
  - exists req, mac. split_and!; [done..|]. set_solver.
  - repeat (apply Forall_cons_2; [exact id|]). apply Forall_nil_2.
Qed.
End handler.

(** ** From the controller to the wire *)

(** A request of the client as the agent receives it, the client's base URL
    being the agent's root. *)
Definition at_agent (r : HTTPRequest) : Request :=
  MkRequest (Req_Method r) "/wake" (Req_Headers r) (bytes_of (Req_Body r)).

Lemma mac_groups_ascii n s : mac_groups n s = true → forallb is_ascii s = true.
Proof.
  assert (∀ c, is_hex c = true → is_ascii c = true) as Hhex
    by (by intros [[] [] [] [] [] [] [] []]).
  assert (∀ c, (code c =? 58) || (code c =? 45) = true → is_ascii c = true) as Hsep
    by (by intros [[] [] [] [] [] [] [] []]).
  revert s. induction n as [|n IH]; intros [|a [|b [|c s]]]; try done; cbn [mac_groups forallb];
    intros Hp; try done; bool_simpl; rewrite ?andb_true_iff; split_and!; auto.
Qed.

Lemma json_body_length s : (length (bytes_of (json_body s)) ≤ 6 * String.length s)%nat.
Proof.
  induction s as [|c s IH]; [done|]. simpl json_body. rewrite bytes_of_app, length_app.
  assert (length (bytes_of (json_escape c)) ≤ 6)%nat
    by (apply Nat.leb_le; by destruct c as [[] [] [] [] [] [] [] []]).
  cbn [String.length]. lia.
Qed.

Lemma marshal_length r :
  (length (bytes_of (MarshalWakeRequest r)) ≤
     44 + 6 * String.length (Wake_MacAddress r) + 6 * String.length (Wake_BroadcastAddress r))%nat.
Proof.
  rewrite marshal_split. unfold marshal_open. rewrite !bytes_of_app, !length_app.
  pose proof (json_body_length (Wake_MacAddress r)). pose proof (json_body_length (Wake_BroadcastAddress r)).
  case_decide; rewrite ?bytes_of_app, ?length_app;
    change (length (bytes_of dquote)) with 1%nat;
    change (length (bytes_of "{")) with 1%nat; change (length (bytes_of ":")) with 1%nat;
    change (length (bytes_of ",")) with 1%nat; change (length (bytes_of "}")) with 1%nat;
    change (length (bytes_of (json_string "macAddress"))) with 12%nat;
    change (length (bytes_of (json_string "broadcastAddress"))) with 18%nat;
    change (length (bytes_of "")) with 0%nat; lia.
Qed.

Lemma wake_request_authorised c mac bcast :
  authorised (token c) (at_agent (wake_request c mac bcast)).
Proof.
  unfold authorised, at_agent, wake_request, wake_headers. cbn.
  case_decide; [by left|right]. unfold map_get. by rewrite lookup_insert_eq.
Qed.

Lemma parsed_length mac hw : mac_pattern mac = true → ParseMAC mac = Ok hw → length hw = macLen.
Proof.
  intros Hp. unfold ParseMAC. rewrite parse_mac_groups by done.
  assert (∀ sep n s hw, octets sep n s = Some hw → length hw = n) as Hlen; cycle 1.
  { destruct (octets _ 6 _) as [hw'|] eqn:Ho; [|done]. intros [= <-]. by apply Hlen in Ho. }
  clear. intros sep. induction n as [|n IH]; intros s hw; [by intros [= <-]|].
  rewrite octets_S. destruct (xtoi2 s sep); [|done].
  destruct (octets sep n (drop 3 s)) as [hw'|] eqn:Ho; [|done]. intros [= <-].
  cbn. by rewrite (IH _ _ Ho).
Qed.

Lemma requireBearer_passes tok next r :
  authorised tok r → requireBearer tok next r = next r.
Proof. intros [->|Hr]; unfold requireBearer; repeat case_decide; done. Qed.

(** The request decodes at the agent. *)
Lemma wake_request_decodes c mac bcast :
  mac_pattern mac = true → all_ascii bcast = true → (String.length bcast ≤ 600)%nat →
  Decode maxBodyBytes (R_Body (at_agent (wake_request c mac bcast))) =
    Decoded (MkWakeRequest mac bcast).
Proof.
  intros Hp Ha Hl. unfold at_agent, wake_request. cbn [R_Body Req_Body].
  rewrite <- (app_nil_r (bytes_of _)). apply Decode_marshal; cbn [Wake_MacAddress Wake_BroadcastAddress].
  - by eapply mac_groups_ascii.
  - done.
  - pose proof (marshal_length (MkWakeRequest mac bcast)) as Hm. cbn in Hm.
    pose proof (mac_groups_length _ _ Hp) as H17. rewrite length_bytes_of in H17. change maxBodyBytes with 4096%nat. lia.
Qed.

(** What the agent makes of the client's request. *)
Lemma wake_request_served dflt c mac bcast hw t resp :
  mac_pattern mac = true → ParseMAC mac = Ok hw →
  all_ascii bcast = true → (String.length bcast ≤ 600)%nat →
  exec (Handler dflt None (token c) (at_agent (wake_request c mac bcast))) t resp →
  (W_Code resp = 204 ∧ ∃ pkt addr, BuildPacket hw = Ok pkt ∧
     t = [Ev (ResolveUDPAddr (with_port (broadcast_of (MkWakeRequest mac bcast)))) (Ok addr);
          Ev ListenUDP (Ok tt); Ev SyscallConn (Ok tt); Ev ControlSetBroadcast (Ok (Ok tt));
          Ev (WriteToUDP pkt addr) (Ok tt); Ev CloseUDP tt]) ∨
  (W_Code resp = 502 ∧ Forall (λ e, delivered e = false) t).
Proof.
  intros Hp Hm Ha Hl Hx. revert Hx. unfold Handler. rewrite decide_True by done.
  rewrite requireBearer_passes by apply wake_request_authorised.
  unfold handleWake. rewrite bool_decide_true by done. cbn [negb].
  rewrite wake_request_decodes by done. cbn [Wake_MacAddress]. rewrite Hm.
  rewrite bool_decide_true by (by eapply parsed_length). cbn [negb].
  intros (t1 & t2 & res & -> & Hs & Hr)%exec_bind_inv.
  apply Send_runs in Hs.
  destruct res as [[]|e]; apply exec_ret_inv in Hr as [-> ->]; rewrite app_nil_r; [by left|by right].
Qed.


(** The run of an agent whose network takes the packet. *)
Definition open_network (c : ncall) (w : unit) : nresp c * unit :=
  (match c return nresp c with
   | ResolveUDPAddr a => Ok a
   | ControlSetBroadcast => Ok (Ok tt)
   | CloseUDP => tt
   | ListenUDP | SyscallConn | WriteToUDP _ _ => Ok tt
   end, tt).

Definition agent_client : WolClient := NewClient "http://onp-wol-agent:9119/" [WithToken "s3cret"].
Definition sample_request : Request := at_agent (wake_request agent_client "01:23:45:67:89:ab" "").
Definition sample_agent : prog Response :=
  Handler (λ _, MkResponse 404 ∅ "") None "s3cret" sample_request.
Definition sample_run : trace := run_trace open_network sample_agent tt.
Definition sample_response : Response := run_value open_network sample_agent tt.

Lemma sample_exec :
  exec (Handler (λ _, MkResponse 404 ∅ "") None "s3cret" sample_request) sample_run sample_response.
Proof. exact (run_exec (S:=NetSignature) open_network sample_agent tt). Qed.


Lemma packets_are_authorised_witness :
  ∃ pkt addr, packet_ok "s3cret" sample_request (take 4 sample_run) pkt addr.
Proof.
  do 2 eexists.
  refine (packets_are_authorised (λ _, MkResponse 404 ∅ "") "s3cret" sample_request sample_run
    sample_response 4 _ _ _ sample_exec _ _);
    [vm_compute; reflexivity|reflexivity].
Defined.
