(* ===== verification/Pools.v ===== *)
(** * Pool membership and pool policy

    Which NodePools select a Machine ([matchingPools], [poolForMachine]), the
    drain policy a Machine gets from them ([drainPolicy]) and the mappers of
    [mapping.go] from watch events to the Machines to reconcile. *)

From S2P Require Import Prelude GoStd Prog K8s Api Client.

Local Open Scope Z_scope.

(** [defaultDrainTimeout] *)
Definition defaultDrainTimeout : Duration := 300 * Second.

Section pools.
Context `{KL : K8sLib}.

(** The selector test of every loop over pools: a malformed selector selects
    nothing. *)
Definition pool_selects (pool : NodePool) (labels : gmap string string) : bool :=
  match LabelSelectorAsSelector (MachineSelector (Pool_Spec pool)) with
  | Err _ => false
  | Ok sel => Selector_Matches sel labels
  end.

Definition pool_name_lt (a b : NodePool) : bool := str_lt (Name a) (Name b).

Definition matchingPools (m : Machine) : prog (result error (list NodePool)) :=
  let? pools := wrapf "list nodepools for machine %q: %w" [AStr (Name m)] list_pools in
  ok (sort_by pool_name_lt (filter (λ p, pool_selects p (Labels m) = true) pools)).

Definition poolNames (pools : list NodePool) : string :=
  Join (sort_by str_lt ((λ p : NodePool, Name p) <$> pools)) ", ".

(** [(pool, conflict)]: one match is the pool, several are a conflict. *)
Definition poolForMachine (m : Machine)
    : prog (result error (option NodePool * list NodePool)) :=
  let? pools := matchingPools m in
  match pools with
  | [] => ok (None, [])
  | [p] => ok (Some p, [])
  | _ => ok (None, pools)
  end.

Definition poolDrainPolicy (pool : option NodePool) : Duration * bool :=
  match pool with
  | None => (defaultDrainTimeout, false)
  | Some p =>
      let d := Drain (Pool_Spec p) in
      (match TimeoutSeconds d with
       | None => defaultDrainTimeout
       | Some n => dur_mul n Second
       end, Force d)
  end.

(** [conservativeDrainTimeout(pools)] with [pools = p0 :: rest]; the source
    indexes [pools[0]] and is called with a non-empty conflict only. *)
Definition conservativeDrainTimeout (p0 : NodePool) (rest : list NodePool) : Duration :=
  foldl (λ shortest p,
    let t := (poolDrainPolicy (Some p)).1 in
    if t <? shortest then t else shortest) (poolDrainPolicy (Some p0)).1 rest.

Definition drainPolicy (m : Machine) : prog (result error (Duration * bool)) :=
  let? '(pool, conflict) := poolForMachine m in
  match conflict with
  | p0 :: rest => ok (conservativeDrainTimeout p0 rest, false)
  | [] => ok (poolDrainPolicy pool)
  end.

(** *** Facts *)

#[global] Instance pool_name_lt_weak : WeakOrder pool_name_lt.
Proof.
  split; unfold pool_name_lt; intros *; [apply less_asym|apply less_negtrans].
Qed.

(** The shortest budget: one of the pools' and no longer than any of them. *)
Lemma conservativeDrainTimeout_min p0 rest :
  (∃ p, p ∈ p0 :: rest ∧ conservativeDrainTimeout p0 rest = (poolDrainPolicy (Some p)).1) ∧
  ∀ p, p ∈ p0 :: rest → conservativeDrainTimeout p0 rest ≤ (poolDrainPolicy (Some p)).1.
Proof.
  unfold conservativeDrainTimeout. revert p0.
  induction rest as [|q rest IH]; intros p0; simpl.
  { split; [by exists p0; rewrite list_elem_of_singleton|].
    intros p ->%list_elem_of_singleton. done. }
  destruct (_ <? _) eqn:Hlt; bool_simpl.
  - destruct (IH q) as [(p & Hp & Heq) Hmin]. split.
    + exists p. split; [by right|done].
    + intros r [->|Hr]%elem_of_cons; [|by apply Hmin].
      specialize (Hmin q ltac:(left)). simpl in *. lia.
  - destruct (IH p0) as [(p & Hp & Heq) Hmin]. split.
    + exists p. apply elem_of_cons in Hp as [->|Hp]; split; try done; [left|by do 2 right].
    + intros r [->|[->|Hr]%elem_of_cons]%elem_of_cons.
      * apply Hmin. left.
      * specialize (Hmin p0 ltac:(left)). simpl in *. lia.
      * apply Hmin. by right.
Qed.

(** A pool's timeout never overflows: an int32 number of seconds is well
    inside the int64 nanoseconds of a Duration. *)
Lemma poolDrainPolicy_exact p n :
  TimeoutSeconds (Drain (Pool_Spec p)) = Some n → in_int32 n →
  (poolDrainPolicy (Some p)).1 = n * Second.
Proof.
  intros Hn Hr. simpl. rewrite Hn. apply wrap64_id.
  unfold in_int32, in_int64, int32_min, int32_max, int64_min, int64_max, Second in *. lia.
Qed.
End pools.

(** ** mapping.go *)

Section mapping.
Context `{KL : K8sLib}.

(** A [reconcile.Request] is the name to reconcile. *)
Definition machineRequests (machines : list Machine) : list string :=
  (λ m : Machine, Name m) <$> machines.

Definition requestsForMachinesOnNode (nodeName : string) : prog (list string) :=
  if decide (nodeName = "") then Ret []
  else
    let! r := list_machines_on nodeName in
    match r with
    | Err _ => Ret []
    | Ok machines => Ret (machineRequests machines)
    end.

Definition requestsForPoolMembers (pool : NodePool) : prog (list string) :=
  match LabelSelectorAsSelector (MachineSelector (Pool_Spec pool)) with
  | Err _ => Ret []
  | Ok selector =>
      let! r := list_machines_matching Cache selector in
      match r with
      | Err _ => Ret []
      | Ok machines => Ret (machineRequests machines)
      end
  end.
End mapping.
