(* ===== verification/Fit.v ===== *)
(** * internal/scheduler/fit.go: could this pod run on that node?

    The predicates in their order, and the theorem that [Fit] decides exactly
    the four hard rules plus the caller's, whatever order the request map is
    walked in. *)

From S2P Require Import Prelude GoStd Prog K8s Api Client Fixture.

Local Open Scope Z_scope.

Definition TaintNodeUnschedulable : string := "node.kubernetes.io/unschedulable".

(** [scheduler.Result] *)
Record FitResult : Type := MkFit { Fits : bool; Fit_Reason : string }.

Definition TaintEffect_string (e : TaintEffect) : string :=
  match e with
  | NoSchedule => "NoSchedule"
  | PreferNoSchedule => "PreferNoSchedule"
  | NoExecute => "NoExecute"
  end.

Section fit.
Context `{KL : K8sLib} `{!MapRange}.
Implicit Types pod : Pod.
Implicit Types node : Node.

(** A rule: the empty string, or why not. *)
Definition Predicate : Type := Pod → Node → string.

Definition schedulable : Predicate := λ pod node,
  if negb (Unschedulable node) then ""
  else if TolerationsTolerateTaint (Pod_Tolerations pod)
            (MkTaint TaintNodeUnschedulable "" NoSchedule None)
  then "" else "node is cordoned".

Definition matchesNodeAffinity : Predicate := λ pod node,
  match RequiredNodeAffinity_Match pod node with
  | Ok true => ""
  | _ => "node selector / required affinity not satisfied"
  end.

Definition isHardTaint (t : Taint) : bool :=
  bool_decide (Taint_Effect t = NoSchedule) || bool_decide (Taint_Effect t = NoExecute).

Definition toleratesHardTaints : Predicate := λ pod node,
  match FindMatchingUntoleratedTaint (Taints node) (Pod_Tolerations pod) isHardTaint with
  | Some taint => Sprintf "untolerated taint {key=%s effect=%s}"
                    [AStr (Taint_Key taint); AStr (TaintEffect_string (Taint_Effect taint))]
  | None => ""
  end.

(** Reading a missing resource yields the zero quantity. *)
Definition resource_get (l : ResourceList) (name : string) : Quantity :=
  default Quantity_zero (l !! name).

(** The loop of [fitsResources] over the requests. *)
Fixpoint fits_entries (requests : list (string * Quantity)) (allocatable : ResourceList) : string :=
  match requests with
  | [] => ""
  | (name, req) :: rest =>
      let avail := resource_get allocatable name in
      if Cmp_gt req avail then
        Sprintf "insufficient %s: requests %s > allocatable %s"
          [AStr name; AStr (Quantity_String req); AStr (Quantity_String avail)]
      else fits_entries rest allocatable
  end.

Definition fitsResources (requests allocatable : ResourceList) : string :=
  fits_entries (map_range requests) allocatable.

Definition fitsRequests : Predicate := λ pod node,
  fitsResources (PodRequests pod) (Allocatable node).

Definition defaultPredicates : list Predicate :=
  [schedulable; matchesNodeAffinity; toleratesHardTaints; fitsRequests].

(** The first failing predicate's reason. *)
Fixpoint first_reason (ps : list Predicate) pod node : string :=
  match ps with
  | [] => ""
  | p :: rest =>
      let reason := p pod node in
      if decide (reason = "") then first_reason rest pod node else reason
  end.

Definition Fit pod node (extra : list Predicate) : FitResult :=
  let reason := first_reason (defaultPredicates ++ extra) pod node in
  if decide (reason = "") then MkFit true "" else MkFit false reason.

Fixpoint all_volumes_match (required : list NodeSelector) node : bool :=
  match required with
  | [] => true
  | ns :: rest =>
      match NewNodeSelector ns with
      | Err _ => false
      | Ok selector => if NodeSelector_Match selector node then all_volumes_match rest node else false
      end
  end.

Definition VolumeNodeAffinity (required : list NodeSelector) : Predicate := λ _ node,
  if all_volumes_match required node then "" else "volume node affinity conflict".

(** ** What [Fit] decides *)

(** Every requested resource is available. *)
Definition enough (requests allocatable : ResourceList) : Prop :=
  ∀ name req, requests !! name = Some req → Quantity_Cmp req (resource_get allocatable name) ≠ Gt.

(** The hard rules, as kube-scheduler states them. *)
Record admits pod node : Prop := {
  admits_schedulable : Unschedulable node = true →
    TolerationsTolerateTaint (Pod_Tolerations pod)
      (MkTaint TaintNodeUnschedulable "" NoSchedule None) = true;
  admits_affinity : RequiredNodeAffinity_Match pod node = Ok true;
  admits_taints : ∀ t, t ∈ Taints node → Taint_Effect t ≠ PreferNoSchedule →
    TolerationsTolerateTaint (Pod_Tolerations pod) t = true;
  admits_requests : enough (PodRequests pod) (Allocatable node);
}.

(** Every volume of the list can be reached from the node. *)
Definition reachable (required : list NodeSelector) node : Prop :=
  ∀ ns, ns ∈ required → ∃ sel, NewNodeSelector ns = Ok sel ∧ NodeSelector_Match sel node = true.

Lemma isHardTaint_spec t : isHardTaint t = true ↔ Taint_Effect t ≠ PreferNoSchedule.
Proof. unfold isHardTaint. by destruct (Taint_Effect t). Qed.

Lemma schedulable_spec pod node :
  schedulable pod node = "" ↔
  (Unschedulable node = true → TolerationsTolerateTaint (Pod_Tolerations pod)
     (MkTaint TaintNodeUnschedulable "" NoSchedule None) = true).
Proof. unfold schedulable. destruct (Unschedulable node), (TolerationsTolerateTaint _ _); naive_solver. Qed.

Lemma matchesNodeAffinity_spec pod node :
  matchesNodeAffinity pod node = "" ↔ RequiredNodeAffinity_Match pod node = Ok true.
Proof. unfold matchesNodeAffinity. destruct (RequiredNodeAffinity_Match _ _) as [[]|]; naive_solver. Qed.

Lemma toleratesHardTaints_spec `{!K8sLaws} pod node :
  toleratesHardTaints pod node = "" ↔
  ∀ t, t ∈ Taints node → Taint_Effect t ≠ PreferNoSchedule →
    TolerationsTolerateTaint (Pod_Tolerations pod) t = true.
Proof.
  unfold toleratesHardTaints. setoid_rewrite <- isHardTaint_spec.
  rewrite <- Find_untolerated_None. by destruct (FindMatchingUntoleratedTaint _ _ _).
Qed.

Lemma fits_entries_spec requests allocatable :
  fits_entries requests allocatable = "" ↔
  ∀ name req, (name, req) ∈ requests → Quantity_Cmp req (resource_get allocatable name) ≠ Gt.
Proof.
  induction requests as [|[n q] rest IH]; simpl; [set_solver|].
  unfold Cmp_gt. setoid_rewrite elem_of_cons.
  destruct (Quantity_Cmp q (resource_get allocatable n)) eqn:E; [| |split; [done|naive_solver]].
  all: rewrite IH; split; [|naive_solver]; intros Hr name req [[= -> ->]|]; [by rewrite E|auto].
Qed.

Lemma fitsResources_spec requests allocatable :
  fitsResources requests allocatable = "" ↔ enough requests allocatable.
Proof.
  unfold fitsResources, enough. rewrite fits_entries_spec.
  setoid_rewrite map_range_perm. by setoid_rewrite elem_of_map_to_list.
Qed.

Lemma VolumeNodeAffinity_spec required pod node :
  VolumeNodeAffinity required pod node = "" ↔ reachable required node.
Proof.
  unfold VolumeNodeAffinity, reachable. induction required as [|ns rest IH]; simpl; [set_solver|].
  setoid_rewrite elem_of_cons.
  destruct (NewNodeSelector ns) as [sel|e] eqn:E; cycle 1.
  { split; [done|]. intros Hr. destruct (Hr ns) as (? & ? & ?); [by left|congruence]. }
  destruct (NodeSelector_Match sel node) eqn:Em.
  - rewrite IH. split; [|auto]. intros Hr ns' [->|]; eauto.
  - split; [done|]. intros Hr. destruct (Hr ns) as (? & ? & ?); [by left|congruence].
Qed.

Lemma first_reason_spec ps pod node :
  first_reason ps pod node = "" ↔ Forall (λ p : Predicate, p pod node = "") ps.
Proof.
  induction ps as [|p ps IH]; simpl; [done|]. rewrite Forall_cons.
  case_decide; rewrite ?IH; naive_solver.
Qed.

(** C23.  [Fit] says yes exactly when the pod meets the cordon, affinity, taint
    and resource rules and every predicate the caller added. *)
Theorem Fit_decides `{!K8sLaws} pod node extra :
  Fits (Fit pod node extra) = true ↔
  admits pod node ∧ Forall (λ p : Predicate, p pod node = "") extra.
Proof.
  unfold Fit. case_decide as Hr; simpl.
  - apply first_reason_spec in Hr. unfold defaultPredicates in Hr. simpl in Hr.
    rewrite !Forall_cons, schedulable_spec, matchesNodeAffinity_spec, toleratesHardTaints_spec in Hr.
    unfold fitsRequests in Hr. rewrite fitsResources_spec in Hr.
    split; [|done]. intros _. destruct Hr as (? & ? & ? & ? & ?). by split.
  - split; [done|]. intros [[? ? ? ?] ?]. destruct Hr. apply first_reason_spec. unfold defaultPredicates.
    simpl. rewrite !Forall_cons, schedulable_spec, matchesNodeAffinity_spec, toleratesHardTaints_spec.
    unfold fitsRequests. by rewrite fitsResources_spec.
Qed.

(** A refusal always says why. *)
Lemma Fit_refusal_has_reason pod node extra :
  Fits (Fit pod node extra) = false ↔ Fit_Reason (Fit pod node extra) ≠ "".
Proof. unfold Fit. case_decide; naive_solver. Qed.
End fit.

(** ** Witnesses *)

Import Fixture.

(** A pod of 1 cpu and an 8-cpu node. *)
Lemma Fit_decides_witness :
  admits (pod "web" "" PodPending ∅) (node "w1" false true ∅) ∧
  Forall (λ p : Predicate, p (pod "web" "" PodPending ∅) (node "w1" false true ∅) = "")
    [VolumeNodeAffinity []].
Proof.
  apply (Fit_decides (pod "web" "" PodPending ∅) (node "w1" false true ∅)
    [VolumeNodeAffinity []]).
  vm_compute. reflexivity.
Defined.
