(* ===== verification/NodeOps.v ===== *)
(** * What the controller writes to a Node

    Template labels and taints ([mergeTaint], [applyNodeTemplate]), the cordon
    and its marker ([setCordon], [uncordonIfONPCordoned],
    [dropStaleCordonMarker]) and the capacity comparison ([capacityDrift]) of
    [machine_controller.go]. *)

From S2P Require Import Prelude GoStd Prog K8s Api Client Fixture Guards Pools.

Local Open Scope Z_scope.

Definition reasonPoolConflict : string := "PoolConflict".
Definition reasonReservedLabel : string := "ReservedLabel".

(** ** Taints *)

Definition set_TaintValue (v : string) (t : Taint) : Taint :=
  MkTaint (Taint_Key t) v (Taint_Effect t) (Taint_TimeAdded t).

Fixpoint mergeTaint (taints : list Taint) (t : Taint) : list Taint * bool :=
  match taints with
  | [] => ([t], true)
  | x :: rest =>
      if negb (bool_decide (Taint_Key x = Taint_Key t)) ||
         negb (bool_decide (Taint_Effect x = Taint_Effect t))
      then let '(rest', merged) := mergeTaint rest t in (x :: rest', merged)
      else if decide (Taint_Value x = Taint_Value t) then (taints, false)
      else (set_TaintValue (Taint_Value t) x :: rest, true)
  end.

(** What identifies a taint: key and effect. *)
Definition taint_id (t : Taint) : string * TaintEffect := (Taint_Key t, Taint_Effect t).

(** [for _, t := range desired { taints, merged = mergeTaint(taints, t); changed ||= merged }] *)
Definition mergeTaints (taints desired : list Taint) (changed : bool) : list Taint * bool :=
  foldl (λ '(taints, changed) t,
    let '(taints', merged) := mergeTaint taints t in (taints', changed || merged))
    (taints, changed) desired.

(** What one merge does: it keeps the order and the identities of the taints,
    adds the wanted one at the end when its identity is new, gives it the wanted
    value, and leaves every other taint alone. *)
Lemma mergeTaint_ids ts t :
  taint_id <$> (mergeTaint ts t).1 =
    (taint_id <$> ts) ++ (if decide (taint_id t ∈ taint_id <$> ts) then [] else [taint_id t]).
Proof.
  induction ts as [|x ts IH]; [done|]. cbn [mergeTaint].
  destruct (decide (taint_id x = taint_id t)) as [Heq|Hne].
  - assert (taint_id t ∈ taint_id <$> x :: ts) as Hin by (rewrite fmap_cons, Heq; left).
    rewrite (decide_True _ _ Hin), app_nil_r. injection Heq as Hk He.
    rewrite !bool_decide_true by done. cbn [negb orb]. clear IH. by case_decide.
  - replace (_ || _) with true; cycle 1.
    { symmetry. rewrite orb_true_iff, !negb_true_iff, !bool_decide_eq_false. unfold taint_id in Hne.
      destruct (decide (Taint_Key x = Taint_Key t)); [right|by left]. congruence. }
    destruct (mergeTaint ts t) as [rest' b]. cbn in IH |- *. rewrite IH. f_equal.
    destruct (decide (taint_id t ∈ taint_id <$> ts)) as [Hi|Hi],
      (decide (taint_id t ∈ taint_id x :: (taint_id <$> ts))) as [Hj|Hj];
      rewrite elem_of_cons in Hj; naive_solver.
Qed.

Lemma mergeTaint_other ts t x :
  taint_id x ≠ taint_id t → x ∈ (mergeTaint ts t).1 ↔ x ∈ ts.
Proof.
  intros Hx. induction ts as [|y ts IH]; cbn [mergeTaint].
  { cbn. rewrite list_elem_of_singleton, elem_of_nil. naive_solver. }
  destruct (_ || _) eqn:E; [destruct (mergeTaint ts t); cbn in *; set_solver|]. bool_simpl.
  case_decide; [done|]. cbn. rewrite !elem_of_cons. split; intros [->|]; try naive_solver; left.
  - destruct Hx. unfold taint_id. cbn. congruence.
  - destruct Hx. unfold taint_id. congruence.
Qed.

Lemma mergeTaint_value ts t :
  ∃ x, x ∈ (mergeTaint ts t).1 ∧ taint_id x = taint_id t ∧ Taint_Value x = Taint_Value t.
Proof.
  induction ts as [|y ts IH]; cbn [mergeTaint]; [exists t; cbn; by rewrite list_elem_of_singleton|].
  destruct (_ || _) eqn:E; [|].
  { destruct (mergeTaint ts t); cbn in *. destruct IH as (x & ? & ?). exists x.
    split; [by right|done]. }
  bool_simpl.
  case_decide; eexists; (split; [left|]); unfold taint_id; cbn; split; congruence.
Qed.

Lemma mergeTaint_unchanged ts t : (mergeTaint ts t).2 = false → (mergeTaint ts t).1 = ts.
Proof.
  induction ts as [|y ts IH]; cbn [mergeTaint]; [done|].
  destruct (_ || _); [destruct (mergeTaint ts t); cbn in *; intros; f_equal; auto|].
  by case_decide.
Qed.

(** With identities unique — the API server enforces it — a taint with the
    wanted identity and value leaves nothing to merge. *)
Lemma mergeTaint_present ts t x :
  NoDup (taint_id <$> ts) → x ∈ ts → taint_id x = taint_id t → Taint_Value x = Taint_Value t →
  mergeTaint ts t = (ts, false).
Proof.
  intros Hnd Hx Hid Hv. induction ts as [|y ts IH]; [by apply elem_of_nil in Hx|].
  cbn [mergeTaint]. apply NoDup_cons in Hnd as [Hy Hnd].
  apply elem_of_cons in Hx as [<-|Hx].
  - injection Hid as -> ->. rewrite !bool_decide_true by done. cbn. by rewrite decide_True.
  - destruct (_ || _) eqn:E; [by rewrite IH|]. bool_simpl. destruct Hy.
    replace (taint_id y) with (taint_id x); [by apply list_elem_of_fmap_2|].
    rewrite Hid. unfold taint_id. congruence.
Qed.

(** ** Nodes *)

Section node_ops.
Context `{KL : K8sLib} `{!MapRange}.

Definition with_NodeMeta (f : ObjectMeta → ObjectMeta) (n : Node) : Node :=
  MkNode (f (Node_ObjectMeta n)) (Unschedulable n) (Taints n) (Node_Conditions n) (Allocatable n).
Definition set_Unschedulable (b : bool) (n : Node) : Node :=
  MkNode (Node_ObjectMeta n) b (Taints n) (Node_Conditions n) (Allocatable n).
Definition set_Taints (ts : list Taint) (n : Node) : Node :=
  MkNode (Node_ObjectMeta n) (Unschedulable n) ts (Node_Conditions n) (Allocatable n).

(** The label loop of [applyNodeTemplate]: a label is written when the node's
    value differs, a missing one reading as the empty string. *)
Definition mergeLabels (labels : gmap string string) (desired : list (string * string))
    (changed : bool) : gmap string string * bool :=
  foldl (λ '(labels, changed) kv,
    if decide (map_get labels kv.1 = kv.2) then (labels, changed)
    else (<[kv.1 := kv.2]> labels, true)) (labels, changed) desired.

(** The labels a Machine asks for: the pool template's overlaid by its own. *)
Definition desiredLabels (m : Machine) (pool : option NodePool) : gmap string string :=
  let base := match pool with
              | Some p => overlay ∅ (Template_Labels (Template (Pool_Spec p)))
              | None => ∅
              end in
  overlay base (Spec_Labels (Spec m)).

Definition desiredTaints (pool : option NodePool) : list Taint :=
  match pool with Some p => Template_Taints (Template (Pool_Spec p)) | None => [] end.

(** The node after the merge, and whether anything changed. *)
Definition templated (node : Node) (labels : gmap string string) (taints : list Taint)
    : Node * bool :=
  let '(labels', changed) := mergeLabels (Labels node) (map_range labels) false in
  let '(taints', changed) := mergeTaints (Taints node) taints changed in
  (set_Taints taints' (with_NodeMeta (set_Labels labels') node), changed).

Definition applyNodeTemplate (m : Machine) : prog (result error unit) :=
  let nodeName := NodeName (Spec m) in
  if decide (nodeName = "") then ok tt
  else
  let? '(pool, conflict) := poolForMachine m in
  let! _ :=
    match conflict with
    | [] => Ret tt
    | _ => emit (OnMachine (Name m)) EventTypeWarning reasonPoolConflict
        (Sprintf "Machine %q matches %d NodePools (%s); applying only its own labels, no pool template, until the overlap is resolved"
           [AStr (Name m); AInt (Z.of_nat (length conflict)); AStr (poolNames conflict)])
    end in
  let '(desired, dropped) := dropReservedLabels (desiredLabels m pool) in
  let! _ :=
    match dropped with
    | [] => Ret tt
    | _ => emit (OnMachine (Name m)) EventTypeWarning reasonReservedLabel
        (Sprintf "not applying label(s) %s to Node %q: reserved for operators, ONP never writes them"
           [AStr (Join dropped ", "); AStr nodeName])
    end in
  let taints := desiredTaints pool in
  if decide (desired = ∅ ∧ taints = []) then ok tt
  else
  let! r := get_node nodeName in
  match r with
  | Err err =>
      if IsNotFound err then ok tt
      else fail (Errorf "get node %q to apply template: %w" [AStr nodeName] err)
  | Ok node =>
      let '(node', changed) := templated node desired taints in
      if negb changed then ok tt
      else
        let? _ := wrapf "apply template to node %q: %w" [AStr nodeName]
                    (patch_node node node') in
        ok tt
  end.

(** ** capacityDrift *)

Definition drift_entry (allocatable : ResourceList) (kv : string * Quantity) : list string :=
  match allocatable !! kv.1 with
  | None => [Sprintf "%s declared %s, Node reports none" [AStr kv.1; AStr (Quantity_String kv.2)]]
  | Some actual =>
      match Quantity_Cmp kv.2 actual with
      | Eq => []
      | _ => [Sprintf "%s declared %s, Node reports %s"
               [AStr kv.1; AStr (Quantity_String kv.2); AStr (Quantity_String actual)]]
      end
  end.

Definition drift_summary (capacity allocatable : ResourceList) : string :=
  Join (sort_by str_lt (mjoin (drift_entry allocatable <$> map_range capacity))) "; ".

Definition capacityDrift (m : Machine) : prog (result error string) :=
  if decide (Capacity (Spec m) = ∅ ∨ NodeName (Spec m) = "") then ok ""
  else
  let! r := get_node (NodeName (Spec m)) in
  match r with
  | Err err =>
      if IsNotFound err then ok ""
      else fail (Errorf "get node %q for capacity drift: %w" [AStr (NodeName (Spec m))] err)
  | Ok node => ok (drift_summary (Capacity (Spec m)) (Allocatable node))
  end.

(** ** Cordon *)

Definition cordon_marked (n : Node) : bool :=
  bool_decide (is_Some (Annotations n !! AnnotationCordonedByONP)).

Definition cordoned (n : Node) : Node :=
  with_NodeMeta (annotate AnnotationCordonedByONP "true") (set_Unschedulable true n).
Definition uncordoned (n : Node) : Node :=
  with_NodeMeta (unannotate AnnotationCordonedByONP) (set_Unschedulable false n).

Definition setCordon (nodeName : string) (unschedulable : bool) : prog (result error bool) :=
  if decide (nodeName = "") then ok false
  else
  let! r := get_node nodeName in
  match r with
  | Err err =>
      if IsNotFound err then ok false
      else fail (Errorf "get node %q to cordon: %w" [AStr nodeName] err)
  | Ok node =>
      if unschedulable then
        if Unschedulable node then ok false
        else
          let? _ := wrapf "cordon node %q: %w" [AStr nodeName]
                      (patch_node node (cordoned node)) in
          ok true
      else
        if negb (Unschedulable node) && negb (cordon_marked node) then ok false
        else
          let? _ := wrapf "uncordon node %q: %w" [AStr nodeName]
                      (patch_node node (uncordoned node)) in
          ok true
  end.

Definition dropStaleCordonMarker (nodeName : string) : prog (result error unit) :=
  let? node := backingNode nodeName in
  match node with
  | None => ok tt
  | Some node =>
      if Unschedulable node then ok tt
      else if negb (cordon_marked node) then ok tt
      else
        let? _ := wrapf "drop stale cordon marker from node %q: %w" [AStr nodeName]
                    (patch_node node (with_NodeMeta (unannotate AnnotationCordonedByONP) node)) in
        ok tt
  end.

Definition uncordonIfONPCordoned (nodeName : string) : prog (result error bool) :=
  if decide (nodeName = "") then ok false
  else
  let! r := get_node nodeName in
  match r with
  | Err err =>
      if IsNotFound err then ok false
      else fail (Errorf "get node %q to uncordon: %w" [AStr nodeName] err)
  | Ok node =>
      if negb (cordon_marked node) then ok false
      else
        let? _ := setCordon nodeName false in
        ok true
  end.
End node_ops.

(** ** Facts about the template *)

Section template.
Context `{KL : K8sLib} `{!MapRange}.
Implicit Types node : Node.
Implicit Types labels : gmap string string.

Lemma mergeTaints_cons ts t d ch :
  mergeTaints ts (t :: d) ch = mergeTaints (mergeTaint ts t).1 d (ch || (mergeTaint ts t).2).
Proof. unfold mergeTaints. simpl. by destruct (mergeTaint ts t). Qed.

Lemma mergeTaint_nodup ts t :
  NoDup (taint_id <$> ts) → NoDup (taint_id <$> (mergeTaint ts t).1).
Proof.
  intros Hnd. rewrite mergeTaint_ids. case_decide as Hin; [by rewrite app_nil_r|].
  apply NoDup_app. split_and!; [done| |apply NoDup_singleton].
  intros i Hi ->%list_elem_of_singleton. done.
Qed.

Lemma mergeTaints_nodup ts d ch :
  NoDup (taint_id <$> ts) → NoDup (taint_id <$> (mergeTaints ts d ch).1).
Proof.
  revert ts ch. induction d as [|t d IH]; intros ts ch Hnd; [done|].
  rewrite mergeTaints_cons. by apply IH, mergeTaint_nodup.
Qed.

Lemma mergeTaints_other ts d ch x :
  taint_id x ∉ taint_id <$> d → x ∈ (mergeTaints ts d ch).1 ↔ x ∈ ts.
Proof.
  revert ts ch. induction d as [|t d IH]; intros ts ch Hx; [done|].
  rewrite fmap_cons, not_elem_of_cons in Hx. destruct Hx.
  rewrite mergeTaints_cons, IH by done. by apply mergeTaint_other.
Qed.

Lemma mergeTaints_value ts d ch t :
  NoDup (taint_id <$> d) → t ∈ d →
  ∃ x, x ∈ (mergeTaints ts d ch).1 ∧ taint_id x = taint_id t ∧ Taint_Value x = Taint_Value t.
Proof.
  revert ts ch. induction d as [|t' d IH]; intros ts ch Hnd Ht; [by apply elem_of_nil in Ht|].
  rewrite fmap_cons, NoDup_cons in Hnd. destruct Hnd as [Hid Hnd]. rewrite mergeTaints_cons.
  apply elem_of_cons in Ht as [->|Ht]; [|by apply IH].
  destruct (mergeTaint_value ts t') as (x & Hx & Hxid & Hv). exists x.
  split; [|done]. by apply mergeTaints_other; [rewrite Hxid|].
Qed.

Lemma mergeTaints_present ts d ch :
  NoDup (taint_id <$> ts) →
  (∀ t, t ∈ d → ∃ x, x ∈ ts ∧ taint_id x = taint_id t ∧ Taint_Value x = Taint_Value t) →
  mergeTaints ts d ch = (ts, ch).
Proof.
  revert ch. induction d as [|t d IH]; intros ch Hnd Hd; [done|]. rewrite mergeTaints_cons.
  destruct (Hd t ltac:(left)) as (x & ? & ? & ?). rewrite (mergeTaint_present ts t x) by done.
  simpl. rewrite orb_false_r. apply IH; [done|]. intros; apply Hd; by right.
Qed.

Lemma mergeLabels_cons ls kv d ch :
  mergeLabels ls (kv :: d) ch =
    (if decide (map_get ls kv.1 = kv.2) then mergeLabels ls d ch
     else mergeLabels (<[kv.1 := kv.2]> ls) d true).
Proof. unfold mergeLabels. simpl. by case_decide. Qed.

Lemma mergeLabels_lookup ls d ch k :
  NoDup d.*1 →
  (mergeLabels ls d ch).1 !! k =
    match (list_to_map d : gmap string string) !! k with
    | Some v => if decide (map_get ls k = v) then ls !! k else Some v
    | None => ls !! k
    end.
Proof.
  revert ls ch. induction d as [|[k' v] d IH]; intros ls ch Hnd; [simpl; by rewrite lookup_empty|].
  apply NoDup_cons in Hnd as [Hk Hnd]. rewrite mergeLabels_cons. simpl in *.
  destruct (decide (k = k')) as [->|Hne].
  - rewrite lookup_insert_eq. apply not_elem_of_list_to_map_1 in Hk.
    case_decide; rewrite IH, Hk by done; [done|]. by rewrite lookup_insert_eq.
  - rewrite lookup_insert_ne by done. case_decide; rewrite IH by done; [done|].
    unfold map_get. by rewrite !lookup_insert_ne by done.
Qed.

Lemma mergeLabels_present ls d ch :
  (∀ kv, kv ∈ d → map_get ls kv.1 = kv.2) → mergeLabels ls d ch = (ls, ch).
Proof.
  induction d as [|kv d IH]; intros Hd; [done|]. rewrite mergeLabels_cons.
  rewrite decide_True by (apply Hd; left). apply IH. intros; apply Hd; by right.
Qed.

Lemma map_range_fst_nodup (m : gmap string string) : NoDup (map_range m).*1.
Proof. rewrite map_range_perm. apply NoDup_fst_map_to_list. Qed.

Lemma map_range_to_map (m : gmap string string) :
  (list_to_map (map_range m) : gmap string string) = m.
Proof.
  rewrite (list_to_map_proper _ (map_to_list m));
    [apply list_to_map_to_list|apply map_range_fst_nodup|apply map_range_perm].
Qed.

Lemma templated_fields node labels taints :
  (templated node labels taints).1 =
    set_Taints (mergeTaints (Taints node) taints (mergeLabels (Labels node) (map_range labels) false).2).1
      (with_NodeMeta (set_Labels (mergeLabels (Labels node) (map_range labels) false).1) node).
Proof. unfold templated. destruct (mergeLabels _ _ _). simpl. by destruct (mergeTaints _ _ _). Qed.

(** The labels after a merge, whatever order the map was walked in. *)
Lemma templated_labels node labels taints k :
  Labels (templated node labels taints).1 !! k =
    match labels !! k with
    | Some v => if decide (map_get (Labels node) k = v) then Labels node !! k else Some v
    | None => Labels node !! k
    end.
Proof.
  rewrite templated_fields. cbn. rewrite mergeLabels_lookup by apply map_range_fst_nodup.
  by rewrite map_range_to_map.
Qed.

Lemma templated_get node labels taints k v :
  labels !! k = Some v → map_get (Labels (templated node labels taints).1) k = v.
Proof.
  intros Hk. unfold map_get. rewrite templated_labels, Hk. case_decide as Hd; [exact Hd|done].
Qed.

(** Applying a template is idempotent: the node it produces needs no further
    change, whatever order the label maps are walked in. *)
Lemma template_converges node labels taints :
  NoDup (taint_id <$> Taints node) → NoDup (taint_id <$> taints) →
  templated (templated node labels taints).1 labels taints =
    ((templated node labels taints).1, false).
Proof.
  intros Hn Ht. set (node' := (templated node labels taints).1).
  assert (Taints node' = (mergeTaints (Taints node) taints
    (mergeLabels (Labels node) (map_range labels) false).2).1) as Htaints.
  { unfold node'. by rewrite templated_fields. }
  unfold templated. rewrite mergeLabels_present.
  - rewrite mergeTaints_present; rewrite Htaints.
    + rewrite <- Htaints. by destruct node' as [[] ????].
    + by apply mergeTaints_nodup.
    + intros t Hin. by apply mergeTaints_value.
  - intros [k v] Hkv. rewrite map_range_perm in Hkv. apply elem_of_map_to_list in Hkv.
    by apply templated_get.
Qed.

End template.

(** ** Witnesses *)

Section witnesses.
Import Fixture.

Definition dedicated : Taint := MkTaint "dedicated" "edge" NoSchedule None.

End witnesses.
