(* ===== verification/MachineController.v ===== *)
(** * internal/controller/machine_controller.go: the Machine reconciler

    One definition per handler, each the whole handler: every call in the
    source's order, with its guards and early returns.  A handler that mutates
    the Machine through its pointer returns the mutated Machine; after a
    successful write it is the object the server answered with. *)

From S2P Require Import Prelude GoStd Prog K8s Api Client Guards Power Pools NodeOps.

Local Open Scope Z_scope.

Definition bootPollInterval : Duration := 15 * Second.
Definition shutdownPollInterval : Duration := 15 * Second.
Definition drainPollInterval : Duration := 10 * Second.
Definition duplicateNodeRecheck : Duration := Minute.

Definition reasonWaking : string := "Waking".
Definition reasonPowerOnFailed : string := "PowerOnFailed".
Definition reasonReady : string := "Ready".
Definition reasonBootTimeout : string := "BootTimeout".
Definition reasonUnknownProvider : string := "UnknownProvider".
Definition reasonCannotPowerOn : string := "CannotPowerOn".
Definition reasonPoweredOff : string := "PoweredOff".
Definition reasonDraining : string := "Draining".
Definition reasonDrainSucceeded : string := "DrainSucceeded".
Definition reasonDrainTimeout : string := "DrainTimeout".
Definition reasonUncordoned : string := "Uncordoned".
Definition reasonShutdownTimeout : string := "ShutdownTimeout".
Definition reasonNodeLost : string := "NodeLost".
Definition reasonCapacityDrift : string := "CapacityDrift".
Definition reasonDrainRefused : string := "DrainRefused".
Definition reasonDuplicateNode : string := "DuplicateNode".
Definition reasonTemplateRejected : string := "TemplateRejected".
Definition reasonAdopted : string := "Adopted".

Section annotations.
Context `{K8sTypes}.

Definition wakeRequested (m : Machine) : bool :=
  bool_decide (map_get (Annotations m) AnnotationWakeNow = AnnotationWakeNowValue).

Definition drainRequested (m : Machine) : bool :=
  bool_decide (map_get (Annotations m) AnnotationDrainNow = AnnotationDrainNowValue).

Definition removeWakeAnnotation (m : Machine) : prog (result error Machine) :=
  match Annotations m !! AnnotationWakeNow with
  | None => ok m
  | Some _ =>
      wrapf "remove wake-now annotation from machine %q: %w" [AStr (Name m)]
        (patch_machine m (with_Meta (unannotate AnnotationWakeNow) m))
  end.

Definition removeDrainAnnotation (m : Machine) : prog (result error Machine) :=
  match Annotations m !! AnnotationDrainNow with
  | None => ok m
  | Some _ =>
      wrapf "remove drain-now annotation from machine %q: %w" [AStr (Name m)]
        (patch_machine m (with_Meta (unannotate AnnotationDrainNow) m))
  end.
End annotations.

Record MachineReconciler `{K8sTypes} : Type := MkMachineReconciler {
  Reg : gmap string PowerProvider;
  BootTimeout : Duration;
  ShutdownTimeout : Duration;
  NodeLossGracePeriod : Duration;
  (** the injected eviction; [None] is nil, the Eviction subresource *)
  Evict : option (Pod → prog (result error unit));
}.

Section reconciler.
Context `{KL : K8sLib} `{!MapRange}.
Variable r : MachineReconciler.
Implicit Types m : Machine.

Definition event_on m (ty : EventType) (reason message : string) : prog unit :=
  emit (OnMachine (Name m)) ty reason message.

(** [setCondition]: the library stamps the transition time from the wall
    clock. *)
Definition setCondition m (ty : string) (st : ConditionStatus) (reason message : string)
    : prog Machine :=
  let! now := wall_now in
  Ret (set_Conditions
    (SetStatusCondition (Conditions (Status m))
       (MkCondition ty st (Generation m) zeroTime reason message) now) m).

(** *** Timers *)

Definition bootTimedOut m : prog bool :=
  match BootStartTime (Status m) with
  | None => Ret false
  | Some t => let! d := clock_since t in Ret (BootTimeout r <=? d)
  end.

Definition drainTimedOut m (timeout : Duration) : prog bool :=
  match DrainStartTime (Status m) with
  | None => Ret false
  | Some t => let! d := clock_since t in Ret (timeout <? d)
  end.

Definition shutdownTimedOut m : prog bool :=
  match ShutdownStartTime (Status m) with
  | None => Ret false
  | Some t => let! d := clock_since t in Ret (ShutdownTimeout r <? d)
  end.

(** The remaining budget capped by the poll interval. *)
Definition remaining_or_poll (budget elapsed poll : Duration) : Duration :=
  let remaining := dur_sub budget elapsed in
  if remaining <? poll then (if remaining <? 0 then 0 else remaining) else poll.

Definition requeueForBoot m : prog Duration :=
  match BootStartTime (Status m) with
  | None => Ret bootPollInterval
  | Some t =>
      let! d := clock_since t in
      Ret (remaining_or_poll (BootTimeout r) d bootPollInterval)
  end.

Definition requeueForShutdown m : prog Duration :=
  match ShutdownStartTime (Status m) with
  | None => Ret shutdownPollInterval
  | Some t =>
      let! d := clock_since t in
      Ret (remaining_or_poll (ShutdownTimeout r) d shutdownPollInterval)
  end.

(** *** Status patches *)

Definition stampNotReadySince m : prog (result error Machine) :=
  let! now := clock_now in
  wrapf "stamp notReadySince on machine %q: %w" [AStr (Name m)]
    (patch_status m (set_NotReadySince (Some now) m)).

Definition clearNotReadySince m : prog (result error Machine) :=
  match NotReadySince (Status m) with
  | None => ok m
  | Some _ =>
      wrapf "clear notReadySince on machine %q: %w" [AStr (Name m)]
        (patch_status m (set_NotReadySince None m))
  end.

(** *** Off and Booting *)

Definition initialize m : prog (result error ReconcileResult) :=
  let? _ := wrapf "initialize machine %q to Off: %w" [AStr (Name m)]
              (update_status (set_State Off m)) in
  ok requeue_now.

Definition failBoot m (reason message : string) : prog (result error ReconcileResult) :=
  let m := set_State Failed m in
  let! m := setCondition m ConditionReady ConditionFalse reason message in
  let? m := wrapf "fail machine %q: %w" [AStr (Name m)] (update_status m) in
  let! _ := event_on m EventTypeWarning reason message in
  let? _ := removeWakeAnnotation m in
  ok Result_.

Definition promoteToReady m : prog (result error ReconcileResult) :=
  let nodeName := NodeName (Spec m) in
  let? uncordoned := uncordonIfONPCordoned nodeName in
  let! applied := applyNodeTemplate m in
  match applied with
  | Err err =>
      if IsInvalid err then
        failBoot m reasonTemplateRejected
          (Sprintf "Node %q rejected the template: %v" [AStr nodeName; AErr (err_msg err)])
      else
        let! timedOut := bootTimedOut m in
        if timedOut then
          failBoot m reasonBootTimeout
            (Sprintf "Node %q is Ready but the template could not be applied within %s: %v"
               [AStr nodeName; ADur (BootTimeout r); AErr (err_msg err)])
        else fail err
  | Ok _ =>
  let? drift := capacityDrift m in
  let! _ :=
    match BootStartTime (Status m) with
    | Some t => let! d := clock_since t in ObserveScaleUpLatency d
    | None => Ret tt
    end in
  let m := set_BootStartTime None (set_State Ready m) in
  let! m := setCondition m ConditionReady ConditionTrue reasonReady "backing Node is Ready" in
  let? m := wrapf "move machine %q to Ready: %w" [AStr (Name m)] (update_status m) in
  let! _ := event_on m EventTypeNormal reasonReady
              (Sprintf "Node %q is Ready" [AStr (NodeName (Spec m))]) in
  let! _ :=
    if (uncordoned : bool) then
      event_on m EventTypeNormal reasonUncordoned
        (Sprintf "uncordoned Node %q on wake (it was cordoned by a prior scale-down)"
           [AStr (NodeName (Spec m))])
    else Ret tt in
  let! _ :=
    if decide (drift = "") then Ret tt
    else event_on m EventTypeWarning reasonCapacityDrift
      (Sprintf "declared spec.capacity differs from Node %q allocatable: %s (fit uses the smaller of the two; reconcile this by hand)"
         [AStr (NodeName (Spec m)); AStr drift]) in
  let? _ := removeWakeAnnotation m in
  ok Result_
  end.

Definition reconcileOff m : prog (result error ReconcileResult) :=
  let? m := removeDrainAnnotation m in
  let nodeName := NodeName (Spec m) in
  let provName := Power_Provider (Power (Spec m)) in
  let? ready := wrapf "check node %q readiness: %w" [AStr nodeName] (nodeIsReady nodeName) in
  if (ready : bool) then
    let! _ := event_on m EventTypeNormal reasonAdopted
      (Sprintf "Node %q is already Ready; adopting it without a power-on" [AStr nodeName]) in
    promoteToReady m
  else if negb (wakeRequested m) then ok Result_
  else
  match Registry_Get (Reg r) provName with
  | None =>
      let! _ := event_on m EventTypeWarning reasonUnknownProvider
        (Sprintf "no power provider registered for %q" [AStr provName]) in
      ok Result_
  | Some provider =>
  if negb (CanPowerOn (Provider_Capabilities provider)) then
    let! _ := event_on m EventTypeWarning reasonCannotPowerOn
      (Sprintf "provider %q cannot power on" [AStr provName]) in
    ok Result_
  else
  let! err := PowerOn provider m in
  match err with
  | Some e =>
      let! _ := RecordPowerOn provName (Some e) in
      let! _ := event_on m EventTypeWarning reasonPowerOnFailed
        (Sprintf "power-on failed: %v" [AErr (err_msg e)]) in
      let! m := setCondition m ConditionPowerOnSucceeded ConditionFalse
                  reasonPowerOnFailed (err_msg e) in
      let? m := wrapf "update machine %q after power-on failure: %w" [AStr (Name m)]
                  (update_status m) in
      fail (Errorf "power-on machine %q: %w" [AStr (Name m)] e)
  | None =>
      let! _ := RecordPowerOn provName None in
      let! now := clock_now in
      let m := set_BootStartTime (Some now) (set_State Booting m) in
      let! m := setCondition m ConditionPowerOnSucceeded ConditionTrue reasonWaking
                  "power-on command accepted by provider" in
      let? m := wrapf "move machine %q to Booting: %w" [AStr (Name m)] (update_status m) in
      let! _ := event_on m EventTypeNormal reasonWaking
        (Sprintf "powered on via provider %q; waiting for Node %q to become Ready"
           [AStr (Power_Provider (Power (Spec m))); AStr (NodeName (Spec m))]) in
      let! d := requeueForBoot m in
      ok (requeue_after d)
  end
  end.

Definition resendPowerOn m : prog unit :=
  match BootStartTime (Status m) with
  | None => Ret tt
  | Some t =>
      let! d := clock_since t in
      if d <? bootPollInterval then Ret tt
      else
      let provName := Power_Provider (Power (Spec m)) in
      match Registry_Get (Reg r) provName with
      | None => Ret tt
      | Some provider =>
          if negb (CanPowerOn (Provider_Capabilities provider)) then Ret tt
          else
            let! err := PowerOn provider m in
            RecordPowerOn provName err
      end
  end.

Definition reconcileBooting m : prog (result error ReconcileResult) :=
  let? m := removeDrainAnnotation m in
  let nodeName := NodeName (Spec m) in
  let? ready := wrapf "check node %q readiness: %w" [AStr nodeName] (nodeIsReady nodeName) in
  if (ready : bool) then promoteToReady m
  else
  let! timedOut := bootTimedOut m in
  if timedOut then
    failBoot m reasonBootTimeout
      (Sprintf "Node %q not Ready within %s" [AStr nodeName; ADur (BootTimeout r)])
  else
  let! _ := resendPowerOn m in
  let! d := requeueForBoot m in
  ok (requeue_after d).

(** *** Ready *)

Definition startDraining m : prog (result error ReconcileResult) :=
  let nodeName := NodeName (Spec m) in
  let? alwaysOn := nodeAlwaysOn nodeName in
  if (alwaysOn : bool) then
    let! _ := event_on m EventTypeWarning reasonDrainRefused
      (Sprintf "refusing to drain Node %q: it is labeled %s=%s and must never be powered off"
         [AStr nodeName; AStr LabelAlwaysOn; AStr LabelAlwaysOnValue]) in
    let? _ := removeDrainAnnotation m in
    ok Result_
  else
  let! now := clock_now in
  let m := set_DrainStartTime (Some now) (set_State Draining m) in
  let? m := wrapf "move machine %q to Draining: %w" [AStr (Name m)] (update_status m) in
  let! _ := event_on m EventTypeNormal reasonDraining
    (Sprintf "draining Node %q before power-off" [AStr (NodeName (Spec m))]) in
  let? _ := removeDrainAnnotation m in
  ok requeue_now.

Definition reconcileReadyNodeLost m : prog (result error ReconcileResult) :=
  match NotReadySince (Status m) with
  | None =>
      let? _ := stampNotReadySince m in
      ok (requeue_after (NodeLossGracePeriod r))
  | Some t =>
      let! elapsed := clock_since t in
      if elapsed <? NodeLossGracePeriod r then
        let wait := dur_sub (NodeLossGracePeriod r) elapsed in
        ok (requeue_after (if wait <? Second then Second else wait))
      else
      let m := set_NotReadySince None (set_State Off m) in
      let! m := setCondition m ConditionReady ConditionFalse reasonNodeLost
        (Sprintf "Node %q stayed NotReady for %s without an ONP drain; assuming powered off"
           [AStr (NodeName (Spec m)); ADur (NodeLossGracePeriod r)]) in
      let? m := wrapf "move machine %q to Off after node loss: %w" [AStr (Name m)]
                  (update_status m) in
      let! _ := event_on m EventTypeWarning reasonNodeLost
        (Sprintf "Node %q lost (NotReady for %s) with no ONP drain; Machine is Off"
           [AStr (NodeName (Spec m)); ADur (NodeLossGracePeriod r)]) in
      ok Result_
  end.

Definition reconcileReady m : prog (result error ReconcileResult) :=
  let? m :=
    match Annotations m !! AnnotationWakeNow with
    | Some _ => removeWakeAnnotation m
    | None => ok m
    end in
  if drainRequested m then startDraining m
  else
  let nodeName := NodeName (Spec m) in
  let? ready := wrapf "check node %q readiness: %w" [AStr nodeName] (nodeIsReady nodeName) in
  if negb ready then reconcileReadyNodeLost m
  else
  let? _ := dropStaleCordonMarker nodeName in
  match NotReadySince (Status m) with
  | Some _ =>
      let? _ := clearNotReadySince m in
      ok Result_
  | None => ok Result_
  end.

(** *** Draining *)

(** [evictViaSubResource]: the Eviction API, which honours disruption budgets. *)
Definition evictViaSubResource (p : Pod) : prog (result error unit) := create_eviction p.

Definition evictPod (p : Pod) : prog (result error unit) :=
  match Evict r with
  | Some f => f p
  | None => evictViaSubResource p
  end.

Definition abortDrain m : prog (result error ReconcileResult) :=
  let? _ := uncordonIfONPCordoned (NodeName (Spec m)) in
  let m := set_DrainStartTime None (set_State Ready m) in
  let! m := setCondition m ConditionDrainSucceeded ConditionFalse reasonDrainRefused
    (Sprintf "Node %q is labeled %s=%s; drain stopped"
       [AStr (NodeName (Spec m)); AStr LabelAlwaysOn; AStr LabelAlwaysOnValue]) in
  let? m := wrapf "return machine %q to Ready after refused drain: %w" [AStr (Name m)]
              (update_status m) in
  let! _ := event_on m EventTypeWarning reasonDrainRefused
    (Sprintf "stopped draining Node %q: it is labeled %s=%s and must never be powered off; back to Ready"
       [AStr (NodeName (Spec m)); AStr LabelAlwaysOn; AStr LabelAlwaysOnValue]) in
  ok Result_.

(** The drain-timeout leg of [reconcileDraining]. *)
Definition failDrain m (timeout : Duration) : prog (result error ReconcileResult) :=
  let nodeName := NodeName (Spec m) in
  let? uncordoned := uncordonIfONPCordoned nodeName in
  let cordon := if (uncordoned : bool) then "uncordoned"
                else "its cordon is not ONP's and was left as is" in
  let m := set_State Failed m in
  let! m := setCondition m ConditionDrainSucceeded ConditionFalse reasonDrainTimeout
    (Sprintf "Node %q did not drain within %s; %s" [AStr nodeName; ADur timeout; AStr cordon]) in
  let? m := wrapf "fail machine %q on drain timeout: %w" [AStr (Name m)] (update_status m) in
  let! _ := event_on m EventTypeWarning reasonDrainTimeout
    (Sprintf "Node %q did not drain within %s; %s; marked Failed"
       [AStr (NodeName (Spec m)); ADur timeout; AStr cordon]) in
  let! _ := RecordDrainFailure ReasonDrainTimeout in
  ok Result_.

(** The hand-off leg: the cache says the node is empty. *)
Definition finishDrain m : prog (result error ReconcileResult) :=
  let nodeName := NodeName (Spec m) in
  let? drained := nothingKeepsNodeOn APIReader nodeName in
  if negb drained then ok (requeue_after drainPollInterval)
  else
  let! now := clock_now in
  let m := set_ShutdownStartTime (Some now) (set_State ShuttingDown m) in
  let! m := setCondition m ConditionDrainSucceeded ConditionTrue reasonDrainSucceeded
    (Sprintf "Node %q drained; powering off" [AStr nodeName]) in
  let? m := wrapf "move machine %q to ShuttingDown: %w" [AStr (Name m)] (update_status m) in
  let! _ := event_on m EventTypeNormal reasonDrainSucceeded
    (Sprintf "Node %q drained; moving to ShuttingDown" [AStr (NodeName (Spec m))]) in
  ok Result_.

(** The eviction loop: a disruption budget that says no is not an error. *)
Definition evictAll m (force : bool) (workload : list Pod) : prog (result error unit) :=
  for_each workload (λ p,
    if negb (isDrainable p force) then ok tt
    else
      let! res := evictPod p in
      match res with
      | Ok _ => ok tt
      | Err err =>
          if IsTooManyRequests err then ok tt
          else fail (Errorf "evict pod %q on node %q: %w"
                       [AStr (Name p); AStr (NodeName (Spec m))] err)
      end).

Definition reconcileDraining m : prog (result error ReconcileResult) :=
  let? m := removeDrainAnnotation m in
  let nodeName := NodeName (Spec m) in
  let? alwaysOn := nodeAlwaysOn nodeName in
  if (alwaysOn : bool) then abortDrain m
  else
  let? '(timeout, force) := drainPolicy m in
  let! timedOut := drainTimedOut m timeout in
  if timedOut then failDrain m timeout
  else
  let? cordoned := setCordon nodeName true in
  if (cordoned : bool) then ok (requeue_after drainPollInterval)
  else
  let? workload := wrapf "list workload pods on node %q: %w" [AStr nodeName]
                     (podsKeepingNodeOn nodeName) in
  match workload with
  | [] => finishDrain m
  | _ =>
      let? _ := evictAll m force workload in
      ok (requeue_after drainPollInterval)
  end.

(** *** ShuttingDown *)

Definition reconcileShuttingDown m : prog (result error ReconcileResult) :=
  let nodeName := NodeName (Spec m) in
  let issuedAt := default zeroTime (ShutdownStartTime (Status m)) in
  let? down := nodeWentDownSince nodeName issuedAt in
  if negb down then
    let! timedOut := shutdownTimedOut m in
    if timedOut then
      let m := set_ShutdownStartTime None (set_State Failed m) in
      let! m := setCondition m ConditionReady ConditionFalse reasonShutdownTimeout
        (Sprintf "Node %q not seen going NotReady within %s after power-off was issued"
           [AStr nodeName; ADur (ShutdownTimeout r)]) in
      let? m := wrapf "fail machine %q on shutdown timeout: %w" [AStr (Name m)]
                  (update_status m) in
      let! _ := event_on m EventTypeWarning reasonShutdownTimeout
        (Sprintf "Node %q did not power off within %s; marked Failed"
           [AStr (NodeName (Spec m)); ADur (ShutdownTimeout r)]) in
      let! _ := RecordDrainFailure ReasonShutdownTimeout in
      ok Result_
    else
      let! d := requeueForShutdown m in
      ok (requeue_after d)
  else
  let m := set_ShutdownStartTime None (set_State Off m) in
  let! m := setCondition m ConditionReady ConditionFalse reasonPoweredOff
    (Sprintf "Node %q is no longer Ready; power-off complete" [AStr nodeName]) in
  let? m := wrapf "move machine %q to Off: %w" [AStr (Name m)] (update_status m) in
  let! _ := event_on m EventTypeNormal reasonPoweredOff
    (Sprintf "Node %q is no longer Ready; Machine is Off" [AStr (NodeName (Spec m))]) in
  ok Result_.

(** *** Reconcile *)

Definition dispatch m : prog (result error ReconcileResult) :=
  match state m with
  | Unset => initialize m
  | Off => reconcileOff m
  | Booting => reconcileBooting m
  | Ready => reconcileReady m
  | Draining => reconcileDraining m
  | ShuttingDown => reconcileShuttingDown m
  | Failed => ok Result_
  end.

Definition Reconcile (name : string) : prog (result error ReconcileResult) :=
  let! got := get_machine name in
  match got with
  | Err err => if IsNotFound err then ok Result_ else fail err
  | Ok m =>
      let? others := otherMachinesOnNode m in
      match others with
      | _ :: _ =>
          let! _ := event_on m EventTypeWarning reasonDuplicateNode
            (Sprintf "Node %q is also claimed by Machine(s) %s; holding all power actions until only one Machine claims it"
               [AStr (NodeName (Spec m)); AStr (Join others ", ")]) in
          ok (requeue_after duplicateNodeRecheck)
      | [] => dispatch m
      end
  end.

(** [machinesForNode] *)
Definition machinesForNode (node : Node) : prog (list string) :=
  requestsForMachinesOnNode (Name node).
End reconciler.

(** The production wiring of [cmd/onp-controller]: the WoL provider and the
    Eviction subresource. *)
Definition production `{K8sTypes} (c : WolClient) (boot shutdown grace : Duration)
    : MachineReconciler :=
  {| Reg := {[providerNameWoL := NewWoLProvider c]};
     BootTimeout := boot; ShutdownTimeout := shutdown; NodeLossGracePeriod := grace;
     Evict := None |}.
