(* ===== verification/Scenarios.v ===== *)
(** * Concrete clusters

    The runs the witnesses use: a production reconciler against the reference
    cluster of [Fixture]. *)

From S2P Require Import Prelude GoStd Prog K8s Api Client Fixture Power Guards Pools NodeOps MachineController.
Export Fixture.

Local Open Scope Z_scope.

Definition onp : MachineReconciler :=
  production (NewClient "http://wol-agent:8080/" [WithToken "s3cret"])
    (5 * Minute) (2 * Minute) Minute.

Definition marked : gmap string string := {[AnnotationCordonedByONP := "true"]}.
Definition wake_now : gmap string string := {[AnnotationWakeNow := "true"]}.
Definition drain_now : gmap string string := {[AnnotationDrainNow := "true"]}.

(** One Machine [w1] of pool [edge], whose Node is [n], with [pods] on it; the
    clock is 10 s after the Machine's start times. *)
Definition cluster (s : MachineState) (annotations : gmap string string) (n : Node)
    (pods : list Pod) : world :=
  MkWorld [machine "w1" s (Some (100 * Second)) annotations] [pool 0 None] [n] pods
    (110 * Second) accepted (Ok "").

(** A run of the Machine reconciler on [w1]. *)
Definition run_w1 (w : world) : trace := run_trace serve (Reconcile onp "w1") w.

(** Draining, cordoned, no pod left. *)
Definition drained_world : world := cluster Draining ∅ (node "w1" true true marked) [].
Definition drained_run : trace := run_w1 drained_world.

(** [observe o x E]: the closed option [o] evaluates to some [x], kept abstract. *)
Ltac observe o x E :=
  let H := fresh in
  assert (bool_decide (is_Some o) = true) as H by (vm_compute; reflexivity);
  apply bool_decide_eq_true_1 in H as [x E].

(** [observe_field o E f v]: the field [f] of what [o] evaluates to is [v]. *)
Ltac observe_field o E f v :=
  let H := fresh in
  assert (f <$> o = Some v) as H by (vm_compute; reflexivity);
  rewrite E in H; injection H as H.
