(* ===== verification/MachineLifecycle.v ===== *)
(** * The lifecycle of a Machine

    The state machine the reconciler drives, as an edge relation on
    [MachineState], and the theorem that every status write of every run stays
    on it. *)

From S2P Require Import Prelude GoStd Prog K8s Api Client Guards Power Pools NodeOps MachineController Fixture Scenarios.

Local Open Scope Z_scope.

(** ** The lifecycle as an abstract state machine *)

Inductive edge : MachineState → MachineState → Prop :=
| edge_initialize : edge Unset Off
| edge_power_on : edge Off Booting
| edge_power_on_failed : edge Off Off
| edge_adopt : edge Off Ready
| edge_adopt_rejected : edge Off Failed
| edge_booted : edge Booting Ready
| edge_boot_failed : edge Booting Failed
| edge_drain : edge Ready Draining
| edge_node_lost : edge Ready Off
| edge_drained : edge Draining ShuttingDown
| edge_drain_aborted : edge Draining Ready
| edge_drain_failed : edge Draining Failed
| edge_powered_off : edge ShuttingDown Off
| edge_shutdown_failed : edge ShuttingDown Failed.

(** ** What the injected functions promise *)

Section contract.
Context `{KL : K8sLib} `{!MapRange}.

Definition evicts (p : Pod) (c : call) : Prop := c = CreateEviction p.

(** Providers only use the network; an injected eviction only evicts the pod
    it is given. *)
Class ReconcilerContract (r : MachineReconciler) : Prop := {
  contract_registry :: RegistryContract (Reg r);
  contract_evict f p : Evict r = Some f → emits anything (evicts p) (f p);
}.

#[global] Instance production_contract c boot shutdown grace :
  ReconcilerContract (production c boot shutdown grace).
Proof.
  split; [|done]. intros name p. simpl. rewrite lookup_singleton_Some.
  intros [_ <-]. apply _.
Qed.
End contract.

(** ** Shared facts about the handlers *)

Section seen.
Context `{KL : K8sLib} `{!MapRange}.
Implicit Types m : Machine.

(** The Machine as the run knows it: what it read, or what the server answered
    to a patch of it. *)
Definition seen (name : string) (h : trace) (m : Machine) : Prop :=
  machine_read name m ∈ h ∨ ∃ orig sent, machine_patched orig sent m ∈ h.

Lemma seen_mono name h h' m : h ⊆ h' → seen name h m → seen name h' m.
Proof. unfold seen. set_solver. Qed.

Lemma seen_app name t h m : seen name h m → seen name (t ++ h) m.
Proof. apply seen_mono. set_solver. Qed.

Lemma wp_removeDrain R K E h name m (Q : trace → result error Machine → Prop) :
  (∀ o m', ¬ K (PatchMachine o m')) → seen name h m →
  (∀ t m', seen name (t ++ h) m' → Q (t ++ h) (Ok m')) → (∀ t e, Q (t ++ h) (Err e)) →
  wp R (gate K E) h (removeDrainAnnotation m) Q.
Proof.
  intros HK Hm HQ HE. unfold removeDrainAnnotation.
  destruct (_ !! _); [|by apply wp_ret, (HQ [])].
  wp_call res; [by intros []%HK|]. destruct res as [m'|e]; [|by apply (HE [_])].
  apply (HQ [_]). right. do 2 eexists. left.
Qed.

End seen.

Section facts.
Context `{KL : K8sLib} `{!MapRange}.
Variable r : MachineReconciler.
Context `{!ReconcilerContract r}.
Implicit Types m : Machine.
Implicit Types R : event → Prop.

Lemma obeys_power_on R permitted provider m :
  (∀ h c, is_http c → permitted h c) →
  Registry_Get (Reg r) (Power_Provider (Power (Spec m))) = Some provider →
  obeys R permitted (PowerOn provider m).
Proof.
  intros HP Hp. eapply obeys_mono; [|exact HP|exact (registered_contract _ _ Hp m)]. done.
Qed.

Lemma obeys_evict R permitted p :
  (∀ h, permitted h (CreateEviction p)) → obeys R permitted (evictPod r p).
Proof.
  intros HP. unfold evictPod. destruct (Evict r) eqn:E; [|by apply obeys_do].
  eapply obeys_mono; [| |by apply contract_evict]; [done|]. by intros h c ->.
Qed.

(** [setCondition] changes the conditions and nothing else. *)
Lemma obeys_setCondition {A} R permitted m ty st reason msg (f : Machine → prog A) :
  (∀ h, permitted h WallNow) → (∀ cs, obeys R permitted (f (set_Conditions cs m))) →
  obeys R permitted (let! m := setCondition m ty st reason msg in f m).
Proof. intros HP Hf h. split; [done|]. intros now _. apply Hf. Qed.

Lemma wp_setCondition R permitted h m ty st reason msg (Q : trace → Machine → Prop) :
  permitted h WallNow →
  (∀ now cs, Q (Ev WallNow now :: h) (set_Conditions cs m)) →
  wp R permitted h (setCondition m ty st reason msg) Q.
Proof. intros HP HQ. split; [done|]. intros now _. apply HQ. Qed.

(** The Node of [m] is claimed by no Machine of another name. *)
Definition sole_claim (h : trace) (m : Machine) : Prop :=
  NodeName (Spec m) = "" ∨
  ∃ ms, Ev (ListMachinesOnNode (NodeName (Spec m))) (Ok ms) ∈ h ∧
        ∀ o : Machine, o ∈ ms → Name o = Name m.

(** The shape of [Reconcile]: whatever a run does beyond reading, it does in
    the handler of the state it read, with the Node claimed once. *)
Lemma wp_Reconcile R permitted name :
  (∀ h c, observes c = true → permitted h c) →
  (∀ h m, machine_read name m ∈ h → sole_claim h m →
     wp R permitted h (dispatch r m) (λ _ _, True)) →
  wp R permitted [] (Reconcile r name) (λ _ _, True).
Proof.
  intros Hobs Hd. unfold Reconcile. wp_call got; [by apply Hobs|].
  destruct got as [m|e]; [|by case_match].
  apply wp_rbind. unfold otherMachinesOnNode. case_decide as Hn.
  { apply wp_ret, Hd; [left|by left]. }
  wp_call ms; [by apply Hobs|]. destruct ms as [ms|e]; [|done]. apply wp_ret.
  destruct (_ <$> filter _ ms) as [|o others] eqn:Hf.
  - apply Hd; [right; left|]. right. exists ms. split; [left|]. intros o Ho.
    apply fmap_nil_inv in Hf. destruct (decide (Name o = Name m)); [done|].
    by destruct (filter_nil_not_elem_of _ _ o Hf).
  - wp_go ltac:(by apply Hobs).
Qed.
End facts.

(** One walk through the handlers with the facts above. *)
Ltac obeys_handlers r tac :=
  obeys_go ltac:(first
    [ tac
    | apply obeys_setCondition; [intros ?; first [exact I | exact (False_ind _)]|intros ?]
    | apply (obeys_power_on r); [intros ? []; simpl; tauto|done]
    | apply (obeys_evict r); intros ?; cbv beta ]).

(** ** Every status write follows the lifecycle *)

Section lifecycle.
Context `{KL : K8sLib} `{!MapRange}.
Variable r : MachineReconciler.
Context `{!ReconcilerContract r}.
Implicit Types m : Machine.

(** The environment the lifecycle needs: [status] is a subresource, so the
    metadata patch that removes a trigger annotation answers with the state
    the Machine had — no second writer moves it meanwhile. *)
Definition patch_keeps_state (e : event) : Prop :=
  match e with
  | Ev c res =>
      match c as c return resp c → Prop with
      | PatchMachine orig _ => λ res,
          match res with Ok m' => state m' = state orig | Err _ => True end
      | _ => λ _, True
      end res
  end.

#[global] Instance patch_keeps_state_dec e : Decision (patch_keeps_state e).
Proof. destruct e as [[] res]; simpl; try apply _. destruct res; apply _. Defined.

Definition on_edge (s : MachineState) (c : call) : Prop :=
  match c with UpdateMachineStatus m' => edge s (state m') | _ => True end.

Lemma obeys_removeDrain permitted m
    (f : Machine → prog (result error ReconcileResult)) :
  (∀ h orig m', permitted h (PatchMachine orig m')) →
  (∀ m', state m' = state m → obeys patch_keeps_state permitted (f m')) →
  obeys patch_keeps_state permitted (let? m := removeDrainAnnotation m in f m).
Proof.
  intros HP Hf h. apply wp_rbind. unfold removeDrainAnnotation.
  destruct (_ !! _); [|by apply wp_ret, Hf].
  apply wp_wrapf. split; [apply HP|]. intros [m'|e] Hr; [|done].
  apply wp_ret. by apply Hf.
Qed.

Lemma dispatch_on_edge m : emits patch_keeps_state (on_edge (state m)) (dispatch r m).
Proof.
  unfold dispatch. destruct (state m) eqn:Hs.
  all: obeys_handlers r ltac:(apply obeys_removeDrain; [done|intros ? ?]).
  all: change (on_edge ?s (UpdateMachineStatus ?m)) with (edge s (state m)).
  all: try constructor.
  match goal with H : state _ = state m |- _ => rewrite state_set_Conditions, H, Hs end.
  constructor.
Qed.

Lemma Reconcile_on_edge name :
  wp patch_keeps_state
    (λ h c, match c with
      | UpdateMachineStatus m' => ∃ m, machine_read name m ∈ h ∧ edge (state m) (state m')
      | _ => True end) [] (Reconcile r name) (λ _ _, True).
Proof.
  apply wp_Reconcile; [by intros h []|]. intros h m Hm _.
  eapply wp_emits; [apply dispatch_on_edge| |done].
  intros t []; try done. intros He. exists m. split; [set_solver|done].
Qed.

(** Every status write of every run of the Machine reconciler follows an
    edge of the lifecycle from the state the run read, as long as the
    metadata patch that drops a trigger answers with the state it found. *)
Theorem status_writes_follow_lifecycle name t a i m' :
  exec (Reconcile r name) t a → Forall patch_keeps_state t →
  at_ status_write t i = Some m' →
  ∃ m, machine_read name m ∈ take i t ∧ edge (state m) (state m').
Proof.
  intros Hx HR (e & He & Hw%status_write_Some)%at_Some.
  pose proof (wp_exec_at _ _ _ _ _ _ _ _ (Reconcile_on_edge name) Hx HR He) as Hp.
  rewrite Hw in Hp. destruct Hp as (m & Hm & Hedge). exists m. split; [|exact Hedge].
  rewrite elem_of_reverse in Hm. exact Hm.
Qed.
End lifecycle.

(** A drain that finds the node empty writes ShuttingDown as its eleventh call. *)
Lemma status_writes_follow_lifecycle_witness :
  ∃ m', at_ status_write drained_run 10 = Some m' ∧
    ∃ m, machine_read "w1" m ∈ take 10 drained_run ∧ edge (state m) (state m').
Proof.
  observe (at_ status_write drained_run 10) m' E. exists m'. split; [exact E|].
  by apply (status_writes_follow_lifecycle onp "w1" drained_run _ 10 m' (run_exec _ _ _));
    [by_compute|].
Defined.
