(* ===== verification/MachineSafety.v ===== *)
(** * Safety of the Machine reconciler

    What must have been observed before the reconciler hands a node to the
    power-off leg, evicts a pod, lifts a cordon or powers a node on.  Each
    theorem is about every run, against every API server. *)

From S2P Require Import Prelude GoStd Prog K8s Api Client Guards Power Pools NodeOps MachineController Fixture Scenarios MachineLifecycle.

Local Open Scope Z_scope.

Section drain.
Context `{KL : K8sLib} `{!MapRange}.
Variable r : MachineReconciler.
Context `{!ReconcilerContract r}.
Implicit Types m : Machine.

(** A Node read that lets a drain go on: the Node is gone or is not labelled
    always-on. *)
Definition not_always_on (res : result error Node) : Prop :=
  match res with
  | Ok n => map_get (Labels n) LabelAlwaysOn ≠ LabelAlwaysOnValue
  | Err e => IsNotFound e = true
  end.

(** A Node read that shows no new pod can land: the Node is gone or cordoned. *)
Definition closed_to_pods (res : result error Node) : Prop :=
  match res with Ok n => Unschedulable n = true | Err e => IsNotFound e = true end.

(** The evidence for powering the node [n] off, found in a history: the API
    server itself listed no pod that keeps it on, after the Node was seen not
    always-on and closed to new pods. *)
Definition drained_evidence (h : trace) (n : string) : Prop :=
  (∃ pods, pods_read APIReader n pods ∈ h ∧ Forall (λ p, keepsNodeOn p = false) pods) ∧
  (n ≠ "" → ∃ res, node_read n res ∈ h ∧ not_always_on res) ∧
  (n ≠ "" → ∃ res, node_read n res ∈ h ∧ closed_to_pods res).

Definition shutdown_permitted (h : trace) (c : call) : Prop :=
  match c with
  | UpdateMachineStatus m' =>
      state m' = ShuttingDown → drained_evidence h (NodeName (Spec m'))
  | _ => True
  end.

(** Calls that do not move a Machine to ShuttingDown. *)
Definition no_shutdown (c : call) : Prop :=
  match c with UpdateMachineStatus m' => state m' ≠ ShuttingDown | _ => True end.

Lemma no_shutdown_permitted t h c : no_shutdown c → shutdown_permitted (t ++ h) c.
Proof. by destruct c. Qed.

Lemma wp_finishDrain h m :
  (NodeName (Spec m) ≠ "" → ∃ res, node_read (NodeName (Spec m)) res ∈ h ∧ not_always_on res) →
  (NodeName (Spec m) ≠ "" → ∃ res, node_read (NodeName (Spec m)) res ∈ h ∧ closed_to_pods res) →
  wp patch_keeps_state shutdown_permitted h (finishDrain m) (λ _ _, True).
Proof.
  intros Hon Hclosed. unfold finishDrain.
  wp_go ltac:(apply wp_setCondition; [exact I|intros now' cs]).
  intros _. simpl. split_and!.
  - eexists. split; [do 2 right; left|]. apply none_keeps_on_spec.
    match goal with H : negb _ = false |- _ => by apply negb_false_iff in H end.
  - intros Hn. destruct (Hon Hn) as (res & ? & ?). exists res. split; [by do 3 right|done].
  - intros Hn. destruct (Hclosed Hn) as (res & ? & ?). exists res. split; [by do 3 right|done].
Qed.

(** The other legs of a drain write Ready or Failed, or no status at all. *)
Lemma removeDrain_no_shutdown R m : emits R no_shutdown (removeDrainAnnotation m).
Proof. obeys_go ltac:(fail). Qed.
Lemma abortDrain_no_shutdown R m : emits R no_shutdown (abortDrain m).
Proof. obeys_handlers r ltac:(fail). Qed.
Lemma failDrain_no_shutdown R m d : emits R no_shutdown (failDrain m d).
Proof. obeys_handlers r ltac:(fail). Qed.
Lemma evictAll_no_shutdown R m force pods : emits R no_shutdown (evictAll r m force pods).
Proof. obeys_handlers r ltac:(fail). Qed.
Lemma drainPolicy_no_shutdown R m : emits R no_shutdown (drainPolicy m).
Proof. obeys_go ltac:(fail). Qed.

Lemma wp_no_shutdown {A} h (p : prog A) (Q : trace → A → Prop) :
  emits patch_keeps_state no_shutdown p → (∀ t a, Q (t ++ h) a) →
  wp patch_keeps_state shutdown_permitted h p Q.
Proof. intros Hp HQ. eapply wp_emits; [exact Hp|intros t c; apply no_shutdown_permitted|done]. Qed.

(** [nodeAlwaysOn] answering false leaves its evidence in the history. *)
Lemma wp_nodeAlwaysOn h n (Q : trace → result error bool → Prop) :
  (∀ h', h ⊆ h' → (n ≠ "" → ∃ res, node_read n res ∈ h' ∧ not_always_on res) → Q h' (Ok false)) →
  (∀ h', Q h' (Ok true)) → (∀ h' e, Q h' (Err e)) →
  wp patch_keeps_state shutdown_permitted h (nodeAlwaysOn n) Q.
Proof.
  intros Hf Ht He. unfold nodeAlwaysOn. case_decide; [by apply Hf|].
  wp_go ltac:(fail); [|by apply Hf; [set_solver|]; intros _; eexists; split; [left|]|by apply He].
  destruct (bool_decide _) eqn:E; [by apply Ht|]. bool_simpl.
  apply Hf; [set_solver|]. intros _. eexists. split; [left|done].
Qed.

(** [setCordon] answering false likewise. *)
Lemma wp_setCordon_true h n (Q : trace → result error bool → Prop) :
  (∀ h', h ⊆ h' → (n ≠ "" → ∃ res, node_read n res ∈ h' ∧ closed_to_pods res) → Q h' (Ok false)) →
  (∀ h', Q h' (Ok true)) → (∀ h' e, Q h' (Err e)) →
  wp patch_keeps_state shutdown_permitted h (setCordon n true) Q.
Proof.
  intros Hf Ht He. unfold setCordon. case_decide; [by apply Hf|].
  wp_go ltac:(fail); try by (apply Ht || apply He).
  all: apply Hf; [set_solver|]; intros _; eexists; (split; [left|done]).
Qed.

Lemma wp_reconcileDraining h m :
  wp patch_keeps_state shutdown_permitted h (reconcileDraining r m) (λ _ _, True).
Proof.
  unfold reconcileDraining. apply wp_rbind, wp_no_shutdown; [apply removeDrain_no_shutdown|].
  intros t [m1|]; [|done]. cbv zeta.
  apply wp_rbind, wp_nodeAlwaysOn; [|intros h'; apply wp_no_shutdown; [apply abortDrain_no_shutdown|done]|done].
  intros h1 _ Hon. apply wp_rbind, wp_no_shutdown; [apply drainPolicy_no_shutdown|].
  intros t2 [[timeout force]|]; [|done].
  apply wp_bind, wp_no_shutdown; [obeys_go ltac:(fail)|].
  intros t3 [|]; [apply wp_no_shutdown; [apply failDrain_no_shutdown|done]|].
  apply wp_rbind, wp_setCordon_true; [|done|done]. intros h4 Hsub Hclosed.
  apply wp_rbind, wp_wrapf. unfold podsKeepingNodeOn.
  assert (NodeName (Spec m1) ≠ "" →
    ∃ res, node_read (NodeName (Spec m1)) res ∈ h4 ∧ not_always_on res) as Hon4.
  { intros Hn. destruct (Hon Hn) as (res & ? & ?). exists res. split; [|done].
    apply Hsub. set_solver. }
  case_decide; [by apply wp_ret, wp_finishDrain|].
  wp_call pods; [done|]. destruct pods as [pods|e]; [|done]. apply wp_ret.
  destruct (filter _ pods) as [|p0 rest].
  - apply wp_finishDrain; intros Hn; [destruct (Hon4 Hn) as (res & ? & ?)|destruct (Hclosed Hn) as (res & ? & ?)];
      exists res; (split; [by right|done]).
  - apply wp_rbind, wp_no_shutdown; [apply evictAll_no_shutdown|]. by intros t5 [].
Qed.

Lemma wp_Reconcile_drained name :
  wp patch_keeps_state shutdown_permitted [] (Reconcile r name) (λ _ _, True).
Proof.
  apply wp_Reconcile; [by intros h []|]. intros h m _ _.
  destruct (decide (state m = Draining)) as [Hs|Hs].
  { unfold dispatch. rewrite Hs. apply wp_reconcileDraining. }
  apply (wp_emits _ _ (on_edge (state m))); [by apply dispatch_on_edge| |done].
  intros t c Hc. apply no_shutdown_permitted. destruct c; try done. simpl in *.
  intros Hsd. rewrite Hsd in Hc. inversion Hc. congruence.
Qed.

End drain.

