(* ===== verification/MachineActions.v ===== *)
(** * What the Machine reconciler needs to have seen before it acts

    Evictions, power-ons and Node writes of every run, against every API
    server: each is preceded by the reads that justify it. *)

From S2P Require Import Prelude GoStd Prog K8s Api Client Guards Power Pools NodeOps MachineController Fixture Scenarios MachineLifecycle.

Local Open Scope Z_scope.

(** ** Evictions *)

Section evictions.
Context `{KL : K8sLib} `{!MapRange}.
Variable r : MachineReconciler.
Context `{!ReconcilerContract r}.
Implicit Types m : Machine.

Definition is_eviction (c : call) : Prop :=
  match c with CreateEviction _ => True | _ => False end.

(** The pools a run listed contain exactly one that selects [m], and it asks to
    force the drain. *)
Definition force_evidence (h : trace) m : Prop :=
  ∃ pools pool, pools_read pools ∈ h ∧
    filter (λ p, pool_selects p (Labels m) = true) pools = [pool] ∧
    Force (Drain (Pool_Spec pool)) = true.

Definition eviction_evidence (name : string) (h : trace) (p : Pod) : Prop :=
  ∃ m0 m pods force,
    machine_read name m0 ∈ h ∧ state m0 = Draining ∧ seen name h m ∧
    pods_read Cache (NodeName (Spec m)) pods ∈ h ∧ p ∈ pods ∧
    isDrainable p force = true ∧ (force = true → force_evidence h m).

Definition eviction_gate (name : string) : trace → call → Prop :=
  gate is_eviction (λ h c,
    match c with CreateEviction p => eviction_evidence name h p | _ => True end).

Lemma force_evidence_mono h h' m : h ⊆ h' → force_evidence h m → force_evidence h' m.
Proof. intros Hsub (pools & pool & ? & ?). exists pools, pool. set_solver. Qed.

Lemma eviction_evidence_mono name h h' p :
  h ⊆ h' → eviction_evidence name h p → eviction_evidence name h' p.
Proof.
  intros Hsub (m0 & m & pods & force & ? & ? & ? & ? & ? & ? & Hf). exists m0, m, pods, force.
  split_and!; try done; eauto using seen_mono, force_evidence_mono.
Qed.

Lemma wp_drainPolicy_force R K E h m (Q : trace → result error (Duration * bool) → Prop) :
  ¬ K ListPools →
  (∀ t timeout force, (force = true → force_evidence (t ++ h) m) → Q (t ++ h) (Ok (timeout, force))) →
  (∀ t e, Q (t ++ h) (Err e)) →
  wp R (gate K E) h (drainPolicy m) Q.
Proof.
  intros HK HQ HE. unfold drainPolicy, poolForMachine, matchingPools.
  wp_call res; [by intros []%HK|]. destruct res as [pools|e]; [|by apply (HE [_])].
  apply wp_ret, wp_ret.
  destruct (sort_by _ _) as [|p [|q rest]] eqn:Hs; apply wp_ret, wp_ret; apply (HQ [_]); [done| |done].
  intros Hf. exists pools, p. split_and!; [left| |done].
  apply Permutation_singleton_r. by rewrite <- Hs, sort_by_perm.
Qed.

Lemma wp_evictAll R name h m0 m pods force :
  machine_read name m0 ∈ h → state m0 = Draining → seen name h m →
  pods_read Cache (NodeName (Spec m)) pods ∈ h → (force = true → force_evidence h m) →
  wp R (eviction_gate name) h
    (evictAll r m force (filter (λ p, keepsNodeOn p = true) pods)) (λ _ _, True).
Proof.
  intros Hm0 Hs Hm Hpods Hf. unfold evictAll.
  apply (wp_for_each _ _ (λ h', ∃ t, h' = t ++ h) (λ _ _, True)); [by exists []| |done|done].
  intros _ p [_ Hp]%list_elem_of_filter [t ->].
  destruct (isDrainable p force) eqn:Hd; [|by apply wp_ret; exists t].
  apply wp_bind. eapply (wp_emits _ _ (evicts p)).
  - apply (obeys_evict r); by intros ?.
  - intros t' c -> _. exists m0, m, pods, force.
    split_and!; try done; [by do 2 apply elem_of_app, or_intror|by do 2 apply seen_app
      |by do 2 apply elem_of_app, or_intror|].
    intros Ht. eapply force_evidence_mono; [|by apply Hf]. set_solver.
  - intros t' [?|e]; [apply wp_ret; exists (t' ++ t); by rewrite (assoc_L (++))|].
    destruct (IsTooManyRequests e); apply wp_ret; [|done].
    exists (t' ++ t). by rewrite (assoc_L (++)).
Qed.

Lemma abortDrain_quiet m : quiet is_eviction (abortDrain m).
Proof. intros R. obeys_handlers r ltac:(fail). Qed.
Lemma failDrain_quiet m d : quiet is_eviction (failDrain m d).
Proof. intros R. obeys_handlers r ltac:(fail). Qed.
Lemma finishDrain_quiet m : quiet is_eviction (finishDrain m).
Proof. intros R. obeys_handlers r ltac:(fail). Qed.

Lemma wp_reconcileDraining_evicts R name h m :
  machine_read name m ∈ h → state m = Draining →
  wp R (eviction_gate name) h (reconcileDraining r m) (λ _ _, True).
Proof.
  intros Hm Hs. unfold reconcileDraining.
  apply wp_rbind, (wp_removeDrain _ _ _ _ name); [by intros ?? []|by left| |done].
  intros t1 m1 Hm1. cbv zeta.
  apply wp_rbind, wp_quiet; [intros R'; obeys_go ltac:(fail)|]. intros t2 [[|]|]; [| |done].
  { apply wp_quiet; [apply abortDrain_quiet|done]. }
  apply wp_rbind, wp_drainPolicy_force; [by intros []| |done].
  intros t3 timeout force Hforce.
  apply wp_bind, wp_quiet; [intros R'; obeys_go ltac:(fail)|].
  intros t4 [|]; [apply wp_quiet; [apply failDrain_quiet|done]|].
  apply wp_rbind, wp_quiet; [intros R'; obeys_go ltac:(fail)|]. intros t5 [[|]|]; [done| |done].
  apply wp_rbind, wp_wrapf. unfold podsKeepingNodeOn. case_decide.
  { apply wp_ret, wp_quiet; [apply finishDrain_quiet|done]. }
  wp_call pods; [by intros []|]. destruct pods as [pods|e]; [|done]. apply wp_ret.
  destruct (filter _ pods) as [|p0 rest] eqn:Hf.
  { apply wp_quiet; [apply finishDrain_quiet|done]. }
  apply wp_rbind. eapply wp_conseq; [|rewrite <- Hf; apply (wp_evictAll _ _ _ m)].
  { by intros h' []. }
  all: rewrite ?app_comm_cons; try done.
  - set_solver.
  - by do 4 apply seen_app.
  - left.
  - intros Ht. eapply force_evidence_mono; [|by apply Hforce]. set_solver.
Qed.

Lemma dispatch_evicts R name h m :
  machine_read name m ∈ h → wp R (eviction_gate name) h (dispatch r m) (λ _ _, True).
Proof.
  intros Hm. destruct (decide (state m = Draining)) as [Hs|Hs].
  { unfold dispatch. rewrite Hs. by apply wp_reconcileDraining_evicts. }
  apply wp_quiet; [|done]. intros R'. revert Hs. unfold dispatch.
  destruct (state m); intros Hs; try done; obeys_handlers r ltac:(fail).
Qed.

(** C3.  Every eviction of every run is of a pod the cache listed on the node
    of a Machine read as Draining, a pod a drain may evict; one annotated
    do-not-disrupt is evicted only when exactly one pool selects the Machine
    and that pool forces its drains. *)
Theorem evictions_are_permitted name t a i p :
  exec (Reconcile r name) t a → at_ evicted t i = Some p →
  eviction_evidence name (take i t) p.
Proof.
  intros Hx (e & He & Hp%evicted_Some)%at_Some.
  assert (wp anything (eviction_gate name) [] (Reconcile r name) (λ _ _, True)) as Hwp.
  { apply wp_Reconcile; [by intros h []|]. intros. by apply dispatch_evicts. }
  pose proof (wp_exec_at _ _ _ _ _ _ _ _ Hwp Hx (Forall_anything _) He) as Hev.
  rewrite Hp in Hev. eapply eviction_evidence_mono; [apply reverse_subseteq|exact (Hev I)].
Qed.
End evictions.

Definition force_world : world :=
  cluster Draining ∅ (node "w1" true true marked) [pod "web" "w1" PodRunning ∅].

Lemma evictions_are_permitted_witness :
  ∃ p, at_ evicted (run_w1 force_world) 7 = Some p ∧
    eviction_evidence "w1" (take 7 (run_w1 force_world)) p.
Proof.
  observe (at_ evicted (run_w1 force_world) 7) p E. exists p. split; [exact E|].
  by apply (evictions_are_permitted onp "w1" (run_w1 force_world) _ 7 p (run_exec _ _ _)).
Defined.

(** ** Power-on *)

Definition is_send `{K8sTypes} (c : call) : Prop :=
  match c with HTTPDo _ => True | _ => False end.

(** Only the handlers of Off and Booting talk to a power provider. *)
Lemma dispatch_no_send `{KL : K8sLib} `{!MapRange} (r : MachineReconciler)
    `{!ReconcilerContract r} m :
  state m ≠ Off → state m ≠ Booting → quiet is_send (dispatch r m).
Proof.
  unfold dispatch. intros H1 H2 R.
  destruct (state m); try done; obeys_handlers r ltac:(fail).
Qed.

Section power_on.
Context `{KL : K8sLib} `{!MapRange}.
Variables (c : WolClient) (boot shutdown grace : Duration).
Implicit Types m : Machine.
Abbreviation r := (production c boot shutdown grace).

(** The Node of the Machine was read and is not Ready, or does not exist. *)
Definition node_not_ready (h : trace) (n : string) : Prop :=
  n ≠ "" → ∃ res, node_read n res ∈ h ∧
    match res with
    | Ok node => conditions_ready (Node_Conditions node) = false
    | Err e => IsNotFound e = true
    end.

(** A wake was asked for, or a boot is in progress, neither fresh nor overdue. *)
Definition wake_reason (h : trace) (s : MachineState) m : Prop :=
  (s = Off ∧ wakeRequested m = true) ∨
  (s = Booting ∧ ∃ t0 now now', BootStartTime (Status m) = Some t0 ∧
     clock_read now ∈ h ∧ Sub now t0 < boot ∧
     clock_read now' ∈ h ∧ bootPollInterval ≤ Sub now' t0).

(** The request wakes the hardware of [m]. *)
Definition wakes m (req : HTTPRequest) : Prop :=
  ∃ cfg, Power_WoL (Power (Spec m)) = Some cfg ∧
    req = wake_request c (MacAddress cfg) (BroadcastAddress cfg).

Definition wake_evidence (name : string) (h : trace) (req : HTTPRequest) : Prop :=
  ∃ m0 m, machine_read name m0 ∈ h ∧ seen name h m ∧ wakes m req ∧
    node_not_ready h (NodeName (Spec m)) ∧ wake_reason h (state m0) m.

Definition wake_gate (name : string) : trace → call → Prop :=
  gate is_send (λ h c, match c with HTTPDo req => wake_evidence name h req | _ => True end).

Lemma node_not_ready_mono h h' n : h ⊆ h' → node_not_ready h n → node_not_ready h' n.
Proof. unfold node_not_ready. set_solver. Qed.

Lemma wake_reason_mono h h' s m : h ⊆ h' → wake_reason h s m → wake_reason h' s m.
Proof.
  intros Hsub [?|(? & t0 & now & now' & ? & ? & ? & ? & ?)]; [by left|right].
  split; [done|]. exists t0, now, now'. set_solver.
Qed.

Lemma wake_evidence_mono name h h' req :
  h ⊆ h' → wake_evidence name h req → wake_evidence name h' req.
Proof.
  intros Hsub (m0 & m & ? & ? & ? & ? & ?). exists m0, m.
  split_and!; eauto using seen_mono, node_not_ready_mono, wake_reason_mono.
Qed.

(** The only provider of the registry sends the Machine's own wake request. *)
Lemma registered_wol name p :
  Registry_Get (Reg r) name = Some p → p = NewWoLProvider c.
Proof. unfold Registry_Get. simpl. by rewrite lookup_singleton_Some; intros [_ <-]. Qed.

Lemma wol_power_on_wakes R m :
  emits R (λ c, match c with
    | HTTPDo req => wakes m req | HTTPNewRequest _ _ => True | _ => False end)
    (PowerOn (NewWoLProvider c) m).
Proof.
  cbn [PowerOn NewWoLProvider]. obeys_go ltac:(fail). cbv beta iota.
  eexists. split; [eassumption|reflexivity].
Qed.

Lemma wp_power_on R name h p m0 m (Q : trace → option error → Prop) :
  Registry_Get (Reg r) (Power_Provider (Power (Spec m))) = Some p →
  machine_read name m0 ∈ h → seen name h m → node_not_ready h (NodeName (Spec m)) →
  wake_reason h (state m0) m → (∀ t a, Q (t ++ h) a) →
  wp R (wake_gate name) h (PowerOn p m) Q.
Proof.
  intros ->%registered_wol ? ? ? ? HQ. eapply wp_emits; [apply wol_power_on_wakes| |exact HQ].
  intros t [] Hc Hk; try done. exists m0, m. split_and!; try done;
    eauto using seen_app, node_not_ready_mono, wake_reason_mono, app_subseteq_r.
  apply elem_of_app. by right.
Qed.

Lemma wp_nodeIsReady R K E h n (Q : trace → result error bool → Prop) :
  ¬ K (GetNode n) →
  (∀ t, node_not_ready (t ++ h) n → Q (t ++ h) (Ok false)) → (∀ t, Q (t ++ h) (Ok true)) →
  (∀ t e, Q (t ++ h) (Err e)) →
  wp R (gate K E) h (nodeIsReady n) Q.
Proof.
  intros HK Hf Ht He. unfold nodeIsReady. case_decide; [by apply (Hf []); intros []|].
  wp_call res; [by intros []%HK|]. destruct res as [node|e].
  - apply wp_ret. destruct (conditions_ready _) eqn:Hr; [apply (Ht [_])|]. apply (Hf [_]).
    intros _. eexists. split; [left|exact Hr].
  - destruct (IsNotFound e) eqn:Hn; [|by apply (He [_])].
    apply (Hf [_]). intros _. eexists. split; [left|exact Hn].
Qed.

Lemma promoteToReady_no_send m : quiet is_send (promoteToReady r m).
Proof. intros R. obeys_handlers constr:(r) ltac:(fail). Qed.
Lemma failBoot_no_send m x y : quiet is_send (failBoot m x y).
Proof. intros R. obeys_handlers constr:(r) ltac:(fail). Qed.

Lemma wp_reconcileOff_wakes R name h m :
  machine_read name m ∈ h → state m = Off →
  wp R (wake_gate name) h (reconcileOff r m) (λ _ _, True).
Proof.
  intros Hm Hs. unfold reconcileOff.
  apply wp_rbind, (wp_removeDrain _ _ _ _ name); [by intros ?? []|by left| |done].
  intros t1 m1 Hm1. cbv zeta.
  apply wp_rbind, wp_wrapf, wp_nodeIsReady; [by intros []| | |done].
  2: { intros t2. apply wp_bind, wp_quiet; [intros R'; obeys_go ltac:(fail)|]. intros t3 _.
       apply wp_quiet; [apply promoteToReady_no_send|done]. }
  intros t2 Hnr. destruct (wakeRequested m1) eqn:Hw; [|done]. cbn [negb].
  destruct (Registry_Get _ _) as [p|] eqn:Hp; [|apply wp_quiet; [intros R'; obeys_go ltac:(fail)|done]].
  destruct (negb _); [apply wp_quiet; [intros R'; obeys_go ltac:(fail)|done]|].
  apply wp_bind, (wp_power_on _ _ _ _ m m1); [done|set_solver|by apply seen_app|done|by left|].
  intros t3 err. apply wp_quiet; [|done]. intros R'. obeys_handlers constr:(r) ltac:(fail).
Qed.

Lemma wp_resendPowerOn R name h m0 m t0 now (Q : trace → unit → Prop) :
  machine_read name m0 ∈ h → state m0 = Booting → seen name h m →
  node_not_ready h (NodeName (Spec m)) → BootStartTime (Status m) = Some t0 →
  clock_read now ∈ h → Sub now t0 < boot → (∀ h', Q h' tt) →
  wp R (wake_gate name) h (resendPowerOn r m) Q.
Proof.
  intros Hm0 Hs Hm Hnr Ht0 Hnow Hlt HQ. unfold resendPowerOn. rewrite Ht0.
  apply wp_bind. wp_call now'; [by intros []|]. apply wp_ret. cbv beta.
  destruct (_ <? _) eqn:Hage; [by apply HQ|]. bool_simpl. cbv zeta.
  destruct (Registry_Get _ _) as [p|] eqn:Hp; [|by apply HQ].
  destruct (negb _); [by apply HQ|].
  apply wp_bind, (wp_power_on _ _ _ _ m0 m); [done|by right|by apply (seen_app _ [_])| | |].
  - by eapply node_not_ready_mono, Hnr; right.
  - right. split; [done|]. exists t0, now, now'. split_and!; [done|by right|done|left|done].
  - intros t err. apply wp_quiet; [intros R'; obeys_go ltac:(fail)|]. by intros t' [].
Qed.

Lemma wp_reconcileBooting_wakes R name h m :
  machine_read name m ∈ h → state m = Booting →
  wp R (wake_gate name) h (reconcileBooting r m) (λ _ _, True).
Proof.
  intros Hm Hs. unfold reconcileBooting.
  apply wp_rbind, (wp_removeDrain _ _ _ _ name); [by intros ?? []|by left| |done].
  intros t1 m1 Hm1. cbv zeta.
  apply wp_rbind, wp_wrapf, wp_nodeIsReady; [by intros []| | |done].
  2: { intros t2. apply wp_quiet; [apply promoteToReady_no_send|done]. }
  intros t2 Hnr. apply wp_bind. unfold bootTimedOut.
  destruct (BootStartTime (Status m1)) as [t0|] eqn:Ht0.
  - apply wp_bind. wp_call now; [by intros []|]. apply wp_ret, wp_ret. cbn [BootTimeout].
    destruct (_ <=? _) eqn:Hb; [apply wp_quiet; [apply failBoot_no_send|done]|].
    bool_simpl. apply wp_bind, (wp_resendPowerOn _ _ _ m m1 t0 now); try done.
    + right. set_solver.
    + by apply (seen_app _ (_ :: _)).
    + by eapply node_not_ready_mono, Hnr; right.
    + left.
    + intros h'. apply wp_quiet; [intros R'; obeys_go ltac:(fail)|done].
  - apply wp_ret. unfold resendPowerOn. rewrite Ht0.
    apply wp_quiet; [intros R'; obeys_go ltac:(fail)|done].
Qed.

Lemma dispatch_wakes R name h m :
  machine_read name m ∈ h → wp R (wake_gate name) h (dispatch r m) (λ _ _, True).
Proof.
  intros Hm. destruct (decide (state m = Off)) as [Hs|H1].
  { unfold dispatch. rewrite Hs. by apply wp_reconcileOff_wakes. }
  destruct (decide (state m = Booting)) as [Hs|H2].
  { unfold dispatch. rewrite Hs. by apply wp_reconcileBooting_wakes. }
  apply wp_quiet; [by apply (dispatch_no_send r)|done].
Qed.

(** C4.  A request to the wol-agent is sent only to wake the Machine's own
    hardware, after its Node was read as absent or not Ready, and only when a
    wake was requested of an Off Machine or a boot is in progress that is
    neither within its first poll interval nor past its timeout. *)
Theorem power_on_only_to_wake name t a i req :
  exec (Reconcile r name) t a → at_ http_sent t i = Some req →
  wake_evidence name (take i t) req.
Proof.
  intros Hx (e & He & Hp%http_sent_Some)%at_Some.
  assert (wp anything (wake_gate name) [] (Reconcile r name) (λ _ _, True)) as Hwp.
  { apply wp_Reconcile; [by intros h []|]. intros. by apply dispatch_wakes. }
  pose proof (wp_exec_at _ _ _ _ _ _ _ _ Hwp Hx (Forall_anything _) He) as Hev.
  rewrite Hp in Hev. eapply wake_evidence_mono; [apply reverse_subseteq|exact (Hev I)].
Qed.
End power_on.

(** A Machine Off with a wake requested, its Node not Ready. *)
Definition wake_world : world := cluster Off wake_now (node "w1" false false ∅) [].

Lemma power_on_only_to_wake_witness :
  ∃ req, at_ http_sent (run_w1 wake_world) 4 = Some req ∧
    wake_evidence (NewClient "http://wol-agent:8080/" [WithToken "s3cret"]) (5 * Minute) "w1"
      (take 4 (run_w1 wake_world)) req.
Proof.
  observe (at_ http_sent (run_w1 wake_world) 4) req E. exists req. split; [exact E|].
  by apply (power_on_only_to_wake _ _ (2 * Minute) Minute "w1" (run_w1 wake_world) _ 4 req
    (run_exec _ _ _)).
Defined.

(** ** Node writes *)

(** [spec.nodeName] is immutable (a validation rule of the CRD), so a patch of a
    Machine answers with the Node name it had. *)
Definition keeps_nodeName `{K8sTypes} (e : event) : Prop :=
  match e with
  | Ev c res =>
      match c as c return resp c → Prop with
      | PatchMachine orig _ => λ res,
          match res with Ok m' => NodeName (Spec m') = NodeName (Spec orig) | Err _ => True end
      | _ => λ _, True
      end res
  end.

#[global] Instance keeps_nodeName_dec `{K8sTypes} e : Decision (keeps_nodeName e).
Proof. destruct e as [[] res]; simpl; try apply _. destruct res; apply _. Defined.

Section node_writes.
Context `{KL : K8sLib} `{!MapRange}.
Implicit Types m : Machine.
Implicit Types node : Node.

(** What a write may do to the Node [n]: it starts from a copy the run read,
    leaves the operator's always-on label and the kubelet's reports alone, sets
    a cordon only together with ONP's marker, lifts one only after a read that
    showed the marker, and puts the marker on no cordon it did not make. *)
Record node_patch_ok (n : string) (h : trace) (orig node : Node) : Prop := {
  patched_from_read : node_read n (Ok orig) ∈ h;
  keeps_always_on : Labels node !! LabelAlwaysOn = Labels orig !! LabelAlwaysOn;
  keeps_identity : Name node = Name orig;
  keeps_reports : Node_Conditions node = Node_Conditions orig ∧ Allocatable node = Allocatable orig;
  cordons_marked : Unschedulable orig = false → Unschedulable node = true → cordon_marked node = true;
  uncordons_own : Unschedulable orig = true → Unschedulable node = false →
    cordon_marked node = false ∧ ∃ was, node_read n (Ok was) ∈ h ∧ cordon_marked was = true;
  marks_own : cordon_marked node = true → cordon_marked orig = true ∨ Unschedulable orig = false;
}.

Definition node_writes_ok (n : string) (h : trace) (c : call) : Prop :=
  match c with PatchNode orig node => node_patch_ok n h orig node | _ => True end.

Lemma cordon_marked_cordoned node : cordon_marked (cordoned node) = true.
Proof.
  unfold cordon_marked. cbn. rewrite lookup_insert_eq. by rewrite bool_decide_true.
Qed.

Lemma cordon_marked_dropped node :
  cordon_marked (with_NodeMeta (unannotate AnnotationCordonedByONP) node) = false.
Proof.
  unfold cordon_marked. cbn. rewrite lookup_delete_eq. apply bool_decide_false. by intros [].
Qed.

Lemma setCordon_true_ok R n n' : n' = n → obeys R (node_writes_ok n) (setCordon n' true).
Proof.
  intros -> h. unfold setCordon. case_decide; [done|].
  wp_call res; [done|]. destruct res as [node|e]; [|by case_match].
  destruct (Unschedulable node) eqn:Hu; [done|].
  apply wp_rbind. wp_call res; [|by destruct res].
  split; try done.
  - left.
  - intros _ _. apply cordon_marked_cordoned.
  - by right.
Qed.

Lemma uncordonIfONPCordoned_ok R n n' : n' = n → obeys R (node_writes_ok n) (uncordonIfONPCordoned n').
Proof.
  intros -> h. unfold uncordonIfONPCordoned. case_decide; [done|].
  wp_call res; [done|]. destruct res as [was|e]; [|by case_match].
  destruct (cordon_marked was) eqn:Hm; [|done].
  apply wp_rbind. unfold setCordon. rewrite decide_False by done.
  wp_call res; [done|]. destruct res as [node|e]; [|by case_match].
  cbn [negb]. destruct (_ && _); [done|].
  apply wp_rbind. wp_call res; [|by destruct res].
  split; try done.
  - left.
  - intros _ _. split; [apply cordon_marked_dropped|]. exists was. split; [by right; left|done].
  - unfold uncordoned. by rewrite cordon_marked_dropped.
Qed.

Lemma dropStaleCordonMarker_ok R n n' : n' = n → obeys R (node_writes_ok n) (dropStaleCordonMarker n').
Proof.
  intros -> h. unfold dropStaleCordonMarker, backingNode. case_decide; [done|].
  wp_call res; [done|]. destruct res as [node|e]; [|by case_match].
  apply wp_ret. destruct (Unschedulable node) eqn:Hu; [done|].
  destruct (cordon_marked node) eqn:Hm; [|done].
  apply wp_rbind. wp_call res; [|by destruct res].
  split; try done; [left|cbn; congruence|cbn; congruence|by rewrite cordon_marked_dropped].
Qed.

Lemma dropReservedLabels_lookup labels :
  (dropReservedLabels labels).1 !! LabelAlwaysOn = None.
Proof.
  unfold dropReservedLabels, reservedNodeLabels. simpl.
  destruct (labels !! LabelAlwaysOn) eqn:E; [apply lookup_delete_eq|done].
Qed.

Lemma applyNodeTemplate_ok R m :
  obeys R (node_writes_ok (NodeName (Spec m))) (applyNodeTemplate m).
Proof.
  unfold applyNodeTemplate. cbv zeta. case_decide; [done|].
  apply obeys_rbind; [obeys_go ltac:(fail)|]. intros [pool conflict].
  apply obeys_bind; [obeys_go ltac:(fail)|]. intros _.
  destruct (dropReservedLabels _) as [labels dropped] eqn:Hd.
  apply obeys_bind; [obeys_go ltac:(fail)|]. intros _. case_decide; [done|].
  intros h. wp_call res; [done|]. destruct res as [node|e]; [|by case_match].
  destruct (templated node labels (desiredTaints pool)) as [node' changed] eqn:Ht.
  destruct changed; [|done]. apply wp_rbind. wp_call res; [|by destruct res].
  assert (node' = (templated node labels (desiredTaints pool)).1) as -> by by rewrite Ht.
  pose proof (dropReservedLabels_lookup (desiredLabels m pool)) as Hl. rewrite Hd in Hl. simpl in Hl.
  split; try by rewrite templated_fields.
  - left.
  - by rewrite templated_labels, Hl.
  - rewrite templated_fields. cbn. congruence.
  - rewrite templated_fields. cbn. congruence.
  - rewrite templated_fields. by left.
Qed.

Section runs.
Variable r : MachineReconciler.
Context `{!ReconcilerContract r}.

(** The patch that drops a trigger keeps the Node name. *)
Lemma obeys_keeps_nodeName permitted m fmt args sent
    (f : Machine → prog (result error ReconcileResult)) :
  (∀ h orig m', permitted h (PatchMachine orig m')) →
  (∀ m', NodeName (Spec m') = NodeName (Spec m) → obeys keeps_nodeName permitted (f m')) →
  obeys keeps_nodeName permitted (let? m := wrapf fmt args (patch_machine m sent) in f m).
Proof.
  intros HP Hf h. apply wp_rbind, wp_wrapf. split; [apply HP|]. intros [m'|e] Hr; [|done].
  apply wp_ret. by apply Hf.
Qed.

Lemma removeDrain_keeps permitted m (f : Machine → prog (result error ReconcileResult)) :
  (∀ h orig m', permitted h (PatchMachine orig m')) →
  (∀ m', NodeName (Spec m') = NodeName (Spec m) → obeys keeps_nodeName permitted (f m')) →
  obeys keeps_nodeName permitted (let? m := removeDrainAnnotation m in f m).
Proof.
  intros HP Hf. unfold removeDrainAnnotation. destruct (_ !! _); [|by apply Hf].
  by apply obeys_keeps_nodeName.
Qed.

Lemma dropWake_keeps permitted m (f : Machine → prog (result error ReconcileResult)) :
  (∀ h orig m', permitted h (PatchMachine orig m')) →
  (∀ m', NodeName (Spec m') = NodeName (Spec m) → obeys keeps_nodeName permitted (f m')) →
  obeys keeps_nodeName permitted
    (let? m := match Annotations m !! AnnotationWakeNow with
               | Some _ => removeWakeAnnotation m | None => ok m end in f m).
Proof.
  intros HP Hf. unfold removeWakeAnnotation. destruct (_ !! _); [|by apply Hf].
  by apply obeys_keeps_nodeName.
Qed.

Lemma promoteToReady_ok R m n :
  NodeName (Spec m) = n → obeys R (node_writes_ok n) (promoteToReady r m).
Proof.
  intros <-. obeys_handlers r ltac:(first
    [by apply uncordonIfONPCordoned_ok | apply applyNodeTemplate_ok]).
Qed.

Lemma dispatch_node_writes m n :
  NodeName (Spec m) = n → obeys keeps_nodeName (node_writes_ok n) (dispatch r m).
Proof.
  intros Hn. unfold dispatch. destruct (state m).
  all: obeys_handlers r ltac:(first
    [ apply removeDrain_keeps; [done|intros ? ?]
    | apply dropWake_keeps; [done|intros ? ?]
    | apply promoteToReady_ok; congruence
    | apply setCordon_true_ok; congruence
    | apply uncordonIfONPCordoned_ok; congruence
    | apply dropStaleCordonMarker_ok; congruence ]).
Qed.

End runs.
End node_writes.

(** The Node of a booting Machine comes up still carrying ONP's cordon. *)
Definition booted_world : world := cluster Booting wake_now (node "w1" true true marked) [].

