(* ===== verification/MachineTimers.v ===== *)
(** * Deadlines, polling and holds of the Machine reconciler

    The timers stay inside their poll interval for every value an int64 can
    hold, a deadline that passes during a run can end the polling ([Waits] has
    what is polled), and the states in which the reconciler must not act are states
    in which it does not. *)

From S2P Require Import Prelude GoStd Prog K8s Api Client Guards Power Pools NodeOps MachineController Fixture Scenarios MachineLifecycle MachineActions.

Local Open Scope Z_scope.

(** ** The remaining budget *)

(** The delay before the next poll is between zero and the poll interval
    for every pair of int64 durations, overflow included; short of the deadline
    it is positive and never sleeps past it. *)
Theorem poll_delay_bounds budget elapsed poll :
  0 < poll →
  0 ≤ remaining_or_poll budget elapsed poll ≤ poll ∧
  (in_int64 (budget - elapsed) → elapsed < budget →
     remaining_or_poll budget elapsed poll = Z.min poll (budget - elapsed)) ∧
  (in_int64 (budget - elapsed) → budget ≤ elapsed →
     remaining_or_poll budget elapsed poll = 0).
Proof.
  intros Hp. unfold remaining_or_poll, dur_sub. split.
  - destruct (_ <? poll) eqn:E1; [|lia]. bool_simpl. destruct (_ <? 0) eqn:E2; bool_simpl; lia.
  - split; intros Hr Hlt; rewrite wrap64_id by done;
      destruct (_ <? poll) eqn:E1; bool_simpl; try destruct (_ <? 0) eqn:E2; bool_simpl; lia.
Qed.

Lemma poll_delay_bounds_witness :
  0 < bootPollInterval ∧
  remaining_or_poll (5 * Minute) (298 * Second) bootPollInterval =
    Z.min bootPollInterval (5 * Minute - 298 * Second).
Proof.
  split; [done|].
  apply (poll_delay_bounds (5 * Minute) (298 * Second) bootPollInterval); done.
Defined.

Lemma remaining_positive budget elapsed poll :
  0 < poll → in_int64 (budget - elapsed) → elapsed < budget →
  0 < remaining_or_poll budget elapsed poll ≤ poll.
Proof.
  intros Hp Hr He. destruct (poll_delay_bounds budget elapsed poll Hp) as (? & Heq & _).
  rewrite (Heq Hr He). lia.
Qed.

(** ** Runs that ask for another *)

Section polling.
Context `{KL : K8sLib}.

(** Reconcile asks to run again: a delay, a requeue or an error (which the
    queue retries). *)
Definition reconciled_again (a : result error ReconcileResult) : Prop :=
  match a with Ok res => Requeue res = true ∨ 0 < RequeueAfter res | Err _ => True end.

(** The run wrote the Machine's status. *)
Fixpoint status_written (h : trace) : bool :=
  match h with
  | [] => false
  | e :: h' => match status_write e with Some _ => true | None => status_written h' end
  end.

Lemma status_written_spec h :
  status_written h = true ↔ ∃ i m, at_ status_write h i = Some m.
Proof.
  unfold at_. induction h as [|e h IH]; simpl; [naive_solver|].
  destruct (status_write e) as [m|] eqn:E.
  - split; [|done]. intros _. by exists 0%nat, m.
  - rewrite IH. split; [intros (i & m & ?); by exists (S i), m|].
    intros ([|i] & m & Hi); simpl in Hi; [congruence|by exists i, m].
Qed.

End polling.

(** *** Clusters with a wait in progress *)

(** 10 s into a boot, the Node not Ready yet. *)
Definition booting_machine : Machine := machine "w1" Booting (Some (100 * Second)) ∅.
Definition booting_world : world := cluster Booting ∅ (node "w1" false false ∅) [].

(** 10 s after the hand-off to the power-off leg, the Node still Ready. *)
Definition stopping_machine : Machine := machine "w1" ShuttingDown (Some (100 * Second)) ∅.
Definition stopping_world : world := cluster ShuttingDown ∅ (node "w1" true true marked) [].

(** *** When the deadline passes during the run *)

(** The reference cluster with a wol-agent that takes 10 s (the timeout of the
    HTTP client) to answer. *)
Definition slow_serve (c : call) (w : world) : resp c * world :=
  let w := match c with HTTPDo _ => set_now (w_now w + 10 * Second) w | _ => w end in
  serve c w.

Definition late_boot_world : world := set_now (395 * Second) booting_world.


(** ** Holds *)

Section holds.
Context `{KL : K8sLib} `{!MapRange}.
Variable r : MachineReconciler.
Implicit Types m : Machine.

Lemma sole_claim_mono h h' m : h ⊆ h' → sole_claim h m → sole_claim h' m.
Proof. intros Hsub [?|(ms & ? & ?)]; [by left|right]. exists ms. auto. Qed.

(** C21.  Anything a run does beyond reading and reporting — a write, an
    eviction, a power-on — comes after it read the Machine in a state other than
    Failed and read that no other Machine claims its Node. *)
Theorem acts_only_on_a_sole_claim name t a i e :
  exec (Reconcile r name) t a → t !! i = Some e → observes (ev_call e) = false →
  ∃ m, machine_read name m ∈ take i t ∧ state m ≠ Failed ∧ sole_claim (take i t) m.
Proof.
  intros Hx He Hact.
  assert (wp anything (λ h c, observes c = false →
      ∃ m, machine_read name m ∈ h ∧ state m ≠ Failed ∧ sole_claim h m)
    [] (Reconcile r name) (λ _ _, True)) as Hwp.
  { apply wp_Reconcile; [by intros h c ->|]. intros h m Hm Hsole.
    destruct (decide (state m = Failed)) as [Hf|Hf]; [by unfold dispatch; rewrite Hf|].
    apply wp_skip; [|done]. intros t' c _. exists m. split_and!; [|done|].
    - apply elem_of_app. by right.
    - eapply sole_claim_mono; [apply app_subseteq_r|done]. }
  destruct (wp_exec_at _ _ _ _ _ _ _ _ Hwp Hx (Forall_anything _) He Hact) as (m & Hm & ? & Hs).
  exists m. rewrite elem_of_reverse in Hm. split_and!; [done|done|].
  eapply sole_claim_mono; [apply reverse_subseteq|done].
Qed.
End holds.

Lemma acts_only_on_a_sole_claim_witness :
  ∃ e, run_w1 wake_world !! 4%nat = Some e ∧ observes (ev_call e) = false ∧
  ∃ m, machine_read "w1" m ∈ take 4 (run_w1 wake_world) ∧ state m ≠ Failed ∧
    sole_claim (take 4 (run_w1 wake_world)) m.
Proof.
  observe (run_w1 wake_world !! 4%nat) e E.
  observe_field (run_w1 wake_world !! 4%nat) E (λ e, observes (ev_call e)) false.
  exists e. split_and!; [done|done|].
  by apply (acts_only_on_a_sole_claim onp "w1" (run_w1 wake_world) _ 4 e (run_exec _ _ _)).
Defined.
