(* ===== verification/MachineTransitions.v ===== *)
(** * What each transition of a Machine takes

    The lifecycle with its guards: [earned] lists, for every edge, what the run
    must have found before it writes the new state — the answers of the very
    guards of [machine_controller.go], computed from responses of the run. *)

From S2P Require Import Prelude GoStd Prog K8s Api Client Guards Power Pools NodeOps MachineController MachineLifecycle Fixture Scenarios.

Local Open Scope Z_scope.

(** Evidence and held objects survive the growth of the history. *)
Section evidence.
Context `{KL : K8sLib}.
Implicit Types m : Machine.
Implicit Types h : trace.

Lemma observed_app {A} t h (p : prog A) a : observed h p a → observed (t ++ h) p a.
Proof. apply observed_mono. set_solver. Qed.
Lemma observed_cons {A} e h (p : prog A) a : observed h p a → observed (e :: h) p a.
Proof. apply observed_mono. set_solver. Qed.

Lemma seen_cons name e h m : seen name h m → seen name (e :: h) m.
Proof. apply seen_mono. set_solver. Qed.

(** The run holds [m], in the state it was dispatched on. *)
Definition holding (name : string) (s : MachineState) h m : Prop := seen name h m ∧ state m = s.

Lemma holding_app name s t h m : holding name s h m → holding name s (t ++ h) m.
Proof. intros [? ?]. split; [by apply seen_app|done]. Qed.

Lemma holding_cons name s e h m : holding name s h m → holding name s (e :: h) m.
Proof. intros [? ?]. split; [by apply seen_cons|done]. Qed.

End evidence.

Section transitions.
Context `{KL : K8sLib} `{!MapRange}.
Variable r : MachineReconciler.
Context `{!ReconcilerContract r}.
Implicit Types m : Machine.
Implicit Types h : trace.

Definition provider_of m : option PowerProvider :=
  Registry_Get (Reg r) (Power_Provider (Power (Spec m))).

(** The power-off was issued at. *)
Definition issued_at m : Time := default zeroTime (ShutdownStartTime (Status m)).

Inductive earned h m : MachineState → MachineState → Prop :=
| earned_initialize : earned h m Unset Off
| earned_power_on p :
    wakeRequested m = true → provider_of m = Some p → CanPowerOn (Provider_Capabilities p) = true →
    observed h (nodeIsReady (NodeName (Spec m))) (Ok false) → observed h (PowerOn p m) None →
    earned h m Off Booting
| earned_power_on_failed p e :
    wakeRequested m = true → provider_of m = Some p → CanPowerOn (Provider_Capabilities p) = true →
    observed h (nodeIsReady (NodeName (Spec m))) (Ok false) → observed h (PowerOn p m) (Some e) →
    earned h m Off Off
| earned_ready s :
    s = Off ∨ s = Booting →
    observed h (nodeIsReady (NodeName (Spec m))) (Ok true) → observed h (applyNodeTemplate m) (Ok tt) →
    earned h m s Ready
| earned_template_failed s e :
    s = Off ∨ s = Booting →
    observed h (nodeIsReady (NodeName (Spec m))) (Ok true) → observed h (applyNodeTemplate m) (Err e) →
    IsInvalid e = true ∨ observed h (bootTimedOut r m) true →
    earned h m s Failed
| earned_boot_timeout :
    observed h (nodeIsReady (NodeName (Spec m))) (Ok false) → observed h (bootTimedOut r m) true →
    earned h m Booting Failed
| earned_drain :
    drainRequested m = true → observed h (nodeAlwaysOn (NodeName (Spec m))) (Ok false) →
    earned h m Ready Draining
| earned_node_lost t d :
    NotReadySince (Status m) = Some t → observed h (nodeIsReady (NodeName (Spec m))) (Ok false) →
    observed h (clock_since t) d → NodeLossGracePeriod r ≤ d →
    earned h m Ready Off
| earned_drain_aborted :
    observed h (nodeAlwaysOn (NodeName (Spec m))) (Ok true) → earned h m Draining Ready
| earned_drain_timeout timeout force :
    observed h (nodeAlwaysOn (NodeName (Spec m))) (Ok false) →
    observed h (drainPolicy m) (Ok (timeout, force)) → observed h (drainTimedOut m timeout) true →
    earned h m Draining Failed
| earned_drained :
    observed h (nodeAlwaysOn (NodeName (Spec m))) (Ok false) →
    observed h (setCordon (NodeName (Spec m)) true) (Ok false) →
    observed h (podsKeepingNodeOn (NodeName (Spec m))) (Ok []) →
    observed h (nothingKeepsNodeOn APIReader (NodeName (Spec m))) (Ok true) →
    earned h m Draining ShuttingDown
| earned_powered_off :
    observed h (nodeWentDownSince (NodeName (Spec m)) (issued_at m)) (Ok true) →
    earned h m ShuttingDown Off
| earned_shutdown_timeout :
    observed h (nodeWentDownSince (NodeName (Spec m)) (issued_at m)) (Ok false) →
    observed h (shutdownTimedOut r m) true →
    earned h m ShuttingDown Failed.

(** The write [m'] is a transition, earned, of a Machine the run holds. *)
Definition transition_ok (name : string) h (m' : Machine) : Prop :=
  ∃ m, seen name h m ∧ Name m' = Name m ∧ Spec m' = Spec m ∧ earned h m (state m) (state m').

Definition is_status_update (c : call) : Prop :=
  match c with UpdateMachineStatus _ => True | _ => False end.

Definition transition_gate (name : string) h (c : call) : Prop :=
  match c with UpdateMachineStatus m' => transition_ok name h m' | _ => True end.

(** ** Rules *)

Lemma wp_trigger name s h m (k : string) (fmt : string) (Q : trace → result error Machine → Prop) :
  holding name s h m →
  (∀ t m', holding name s (t ++ h) m' → Q (t ++ h) (Ok m')) → (∀ t e, Q (t ++ h) (Err e)) →
  wp patch_keeps_state (gate is_status_update (transition_gate name)) h
    (match Annotations m !! k with
     | None => ok m
     | Some _ => wrapf fmt [AStr (Name m)] (patch_machine m (with_Meta (unannotate k) m))
     end) Q.
Proof.
  intros [Hm Hs] HQ HE. destruct (_ !! _); [|by apply wp_ret, (HQ [])].
  wp_call res; [by intros []|]. destruct res as [m'|e]; [|by apply (HE [_])].
  apply (HQ [_]). split; [right; do 2 eexists; left|].
  match goal with H : patch_keeps_state _ |- _ => cbn in H; congruence end.
Qed.

Lemma wp_update name s h m m' (Q : trace → result error Machine → Prop) :
  holding name s h m → Name m' = Name m → Spec m' = Spec m → earned h m s (state m') →
  (∀ h' res, Q h' res) →
  wp patch_keeps_state (gate is_status_update (transition_gate name)) h (update_status m') Q.
Proof.
  intros [Hm <-] Hn Hsp He HQ. split; [|by intros res _; apply HQ]. intros _. cbn. by exists m.
Qed.
End transitions.

(** Evidence found earlier in the run is evidence still. *)
Ltac still :=
  solve [repeat first
  [ eassumption
  | lazymatch goal with
    | |- observed (_ :: _) _ _ => apply observed_cons
    | |- observed (_ ++ _) _ _ => apply observed_app
    | |- holding _ _ (_ :: _) _ => apply holding_cons
    | |- holding _ _ (_ ++ _) _ => apply holding_app
    | |- _ ∨ _ => first [by left | by right | left; still | right; still]
    end
  | done ]].

(** The walk: triggers, conditions and status writes by their rules; of every
    other sub-program its answer is kept as evidence. *)
Ltac only_holding Hn :=
  repeat match goal with
  | H : holding _ _ _ _ |- _ => lazymatch H with Hn => fail | _ => clear H end
  end.
Ltac earn_now :=
  rewrite ?state_set_Conditions;
  repeat match goal with
  | x : unit |- _ => destruct x
  | H : holding _ _ _ ?m |- earned _ _ _ _ (state ?m) => rewrite (proj2 H)
  end;
  first
  [ apply earned_initialize
  | solve [eapply earned_power_on; [done|eassumption|still..]]
  | solve [eapply earned_power_on_failed; [done|eassumption|still..]]
  | solve [eapply earned_ready; still]
  | match goal with H : observed _ (applyNodeTemplate _) (Err ?e) |- _ =>
      solve [apply (earned_template_failed _ _ _ _ e); still] end
  | solve [apply earned_boot_timeout; still]
  | solve [apply earned_drain; still]
  | match goal with H : observed _ (clock_since ?t) ?d |- _ =>
      solve [apply (earned_node_lost _ _ _ t d); [done|still..|by apply Z.ltb_ge]] end
  | solve [apply earned_drain_aborted; still]
  | match goal with H : observed _ (drainPolicy _) (Ok (?t, ?f)) |- _ =>
      solve [apply (earned_drain_timeout _ _ _ t f); still] end
  | solve [apply earned_drained; still]
  | solve [apply earned_powered_off; still]
  | solve [apply earned_shutdown_timeout; still] ].

Ltac earn_step r :=
  lazymatch goal with
  | |- True => exact I
  | |- wp _ _ _ (bind _ _) _ => apply wp_bind
  | |- wp _ _ _ (rbind _ _) _ => apply wp_rbind
  | |- wp _ _ _ (wrapf _ _ _) _ => apply wp_wrapf
  | |- wp _ _ _ (Ret _) _ => apply wp_ret; cbv beta iota
  | |- wp _ _ _ (ok _) _ => apply wp_ret; cbv beta iota
  | |- wp _ _ _ (fail _) _ => apply wp_ret; cbv beta iota
  | |- wp _ _ _ (removeDrainAnnotation _) _ =>
      match goal with H : holding ?n ?s _ ?m |- _ => apply (wp_trigger r n s _ m) end;
      [still|let Hn := fresh in intros ? ? Hn; only_holding Hn; cbv beta iota|intros ? ?; exact I]
  | |- wp _ _ _ (removeWakeAnnotation _) _ =>
      match goal with H : holding ?n ?s _ ?m |- _ => apply (wp_trigger r n s _ m) end;
      [still|let Hn := fresh in intros ? ? Hn; only_holding Hn; cbv beta iota|intros ? ?; exact I]
  | |- wp _ _ _ (setCondition _ _ _ _ _) _ =>
      apply wp_setCondition; [by intros []|intros ? ?; cbv beta]
  | |- wp _ _ _ (update_status _) _ =>
      match goal with H : holding ?n ?s _ ?m |- _ =>
        apply (wp_update r n s _ m); [still|done|done|earn_now|intros ? [?|?]; cbv beta iota; [|exact I]] end;
      apply wp_quiet; [intros ?; obeys_handlers r ltac:(fail)|done]
  | |- wp _ _ _ (if negb ?b then _ else _) _ => destruct b eqn:?; cbn [negb]
  | |- wp _ _ _ (match ?x with _ => _ end) _ => first [is_var x; destruct x | destruct x eqn:?]; cbv beta iota
  | |- match ?x with Ok _ => _ | Err _ => _ end =>
      first [is_var x; destruct x | destruct x eqn:?]; cbv beta iota
  | |- wp _ _ _ (event_on _ _ _ _) _ =>
      apply wp_quiet; [intros ?; solve [obeys_go ltac:(fail)]|intros ? ?; cbv beta iota]
  | |- wp _ _ _ (failBoot _ _ _) _ => wp_unfold
  | |- wp _ _ _ (promoteToReady _ _) _ => wp_unfold
  | |- wp _ _ _ (startDraining _) _ => wp_unfold
  | |- wp _ _ _ (reconcileReadyNodeLost _ _) _ => wp_unfold
  | |- wp _ _ _ (abortDrain _) _ => wp_unfold
  | |- wp _ _ _ (failDrain _ _) _ => wp_unfold
  | |- wp _ _ _ (finishDrain _) _ => wp_unfold
  | |- wp _ _ _ _ _ =>
      apply wp_observed; [intros ?; solve [obeys_handlers r ltac:(fail)]|intros ? ? _ ?; cbv beta iota]
  end.

Section theorem.
Context `{KL : K8sLib} `{!MapRange}.
Variable r : MachineReconciler.
Context `{!ReconcilerContract r}.
Implicit Types m : Machine.

Abbreviation earns name h p :=
  (wp patch_keeps_state (gate is_status_update (transition_gate r name)) h p (λ _ _, True)).

Lemma reconcileOff_earns name h m : holding name Off h m → earns name h (reconcileOff r m).
Proof. intros Hm. unfold reconcileOff. repeat earn_step r. Qed.

Lemma reconcileBooting_earns name h m : holding name Booting h m → earns name h (reconcileBooting r m).
Proof. intros Hm. unfold reconcileBooting. repeat earn_step r. Qed.

Lemma reconcileReady_earns name h m : holding name Ready h m → earns name h (reconcileReady r m).
Proof. intros Hm. unfold reconcileReady. repeat earn_step r. Qed.

Lemma reconcileDraining_earns name h m : holding name Draining h m → earns name h (reconcileDraining r m).
Proof. intros Hm. unfold reconcileDraining. repeat earn_step r. Qed.

Lemma reconcileShuttingDown_earns name h m :
  holding name ShuttingDown h m → earns name h (reconcileShuttingDown r m).
Proof. intros Hm. unfold reconcileShuttingDown. repeat earn_step r. Qed.
Lemma initialize_earns name h m : holding name Unset h m → earns name h (initialize m).
Proof. intros Hm. unfold initialize. repeat earn_step r. Qed.

Lemma Reconcile_earns name : earns name [] (Reconcile r name).
Proof.
  apply wp_Reconcile; [by intros h []|]. intros h m Hm _.
  assert (holding name (state m) h m) as Hh by (split; [by left|done]).
  unfold dispatch. destruct (state m); eauto using initialize_earns, reconcileOff_earns,
    reconcileBooting_earns, reconcileReady_earns, reconcileDraining_earns, reconcileShuttingDown_earns.
  done.
Qed.

Lemma earned_mono h h' m s s' : h ⊆ h' → earned r h m s s' → earned r h' m s s'.
Proof.
  intros Hh. destruct 1;
    [ apply earned_initialize | eapply earned_power_on | eapply earned_power_on_failed
    | apply earned_ready | eapply earned_template_failed | apply earned_boot_timeout
    | apply earned_drain | eapply earned_node_lost | apply earned_drain_aborted
    | eapply earned_drain_timeout | apply earned_drained | apply earned_powered_off
    | apply earned_shutdown_timeout ]; naive_solver eauto using observed_mono.
Qed.

End theorem.

