(* ===== verification/ScaleUp.v ===== *)
(** * internal/controller/scaleup_controller.go: the scale-up reconciler

    For one unschedulable pod: walk every pool's members, fit-check each against
    a synthetic Node, and wake the smallest Off Machine that fits, unless a wake
    is already in flight.  Names the source shares with the Machine reconciler
    carry the component's name. *)

From S2P Require Import Prelude GoStd Prog K8s Api Client Guards Power Pools Fit NodeOps MachineController.

Local Open Scope Z_scope.

Definition scaleUpRequeue : Duration := 30 * Second.
Definition noFitRequeue : Duration := 60 * Second.
Definition readySettle : Duration := 2 * Minute.
Definition minCooldownRequeue : Duration := Second.
Definition reasonScaleUp : string := "ScaleUp".
Definition reasonScaleUpBlocked : string := "ScaleUpBlocked".
Definition LabelHostname : string := "kubernetes.io/hostname".
Definition PodScheduled : string := "PodScheduled".
Definition PodReasonUnschedulable : string := "Unschedulable".
Definition ResourceCPU : string := "cpu".
Definition ResourceMemory : string := "memory".

(** ** The synthetic Node *)

Section synthetic.
Context `{KL : K8sLib} `{!MapRange}.
Implicit Types m : Machine.
Implicit Types pool : NodePool.

Definition isExtendedResource (name : string) : bool := Contains name "/".

(** [for name, reported := range real.Status.Allocatable] *)
Definition cap_by_reported (out : ResourceList) (kv : string * Quantity) : ResourceList :=
  match out !! kv.1 with
  | None => <[kv.1 := kv.2]> out
  | Some declared =>
      if negb (isExtendedResource kv.1) && Cmp_lt kv.2 declared
      then <[kv.1 := kv.2]> out else out
  end.

(** [for name, used := range bound] *)
Definition subtract_bound (out : ResourceList) (kv : string * Quantity) : ResourceList :=
  match out !! kv.1 with
  | None => out
  | Some avail =>
      let avail := Quantity_Sub avail kv.2 in
      <[kv.1 := if Quantity_Sign avail <? 0 then Quantity_zero else avail]> out
  end.

Definition syntheticAllocatable (capacity : ResourceList) (real : option Node)
    (bound : ResourceList) : ResourceList :=
  let out := match real with
             | Some n => foldl cap_by_reported capacity (map_range (Allocatable n))
             | None => capacity
             end in
  foldl subtract_bound out (map_range bound).

Definition persistentTaints (taints : list Taint) : list Taint :=
  filter (λ t, HasPrefix (Taint_Key t) "node.kubernetes.io/" = false) taints.

Definition synthetic_labels m pool (real : option Node) : gmap string string :=
  let labels := {[LabelHostname := NodeName (Spec m)]} in
  let labels := match real with Some n => overlay labels (Labels n) | None => labels end in
  let labels := overlay labels (Template_Labels (Template (Pool_Spec pool))) in
  overlay labels (Spec_Labels (Spec m)).

Definition nodeForMachine m pool (real : option Node) (bound : ResourceList) : Node :=
  let taints := match real with Some n => persistentTaints (Taints n) | None => [] end in
  let cordoned := match real with
                  | Some n => Unschedulable n && negb (cordon_marked n)
                  | None => false
                  end in
  let taints := foldl (λ ts t, (mergeTaint ts t).1) taints (Template_Taints (Template (Pool_Spec pool))) in
  MkNode (MkMeta (NodeName (Spec m)) "" (synthetic_labels m pool real) ∅ 0 0 None [])
    cordoned taints [] (syntheticAllocatable (Capacity (Spec m)) real bound).

(** The pods that still hold their place once the node boots. *)
Definition holds_place (pod : Pod) : bool :=
  negb (bool_decide (is_Some (DeletionTimestamp pod)) || finished pod).

Definition add_requests (total : ResourceList) (pod : Pod) : ResourceList :=
  if holds_place pod then
    foldl (λ total kv, <[kv.1 := Quantity_Add (resource_get total kv.1) kv.2]> total)
      total (map_range (PodRequests pod))
  else total.

Definition boundRequests (nodeName : string) : prog (result error ResourceList) :=
  let? pods := wrapf "list pods on node %q: %w" [AStr nodeName] (list_pods_on Cache nodeName) in
  ok (foldl add_requests ∅ pods).
End synthetic.

(** ** Pods, volumes, membership *)

(** The events a watch predicate filters. *)
Inductive watch_event (A : Type) : Type :=
| CreateEvent (obj : A)
| UpdateEvent (old new : A)
| DeleteEvent (obj : A)
| GenericEvent (obj : A).
Arguments CreateEvent {A} obj.
Arguments UpdateEvent {A} old new.
Arguments DeleteEvent {A} obj.
Arguments GenericEvent {A} obj.

Section inputs.
Context `{KL : K8sLib} `{!MapRange}.
Implicit Types m : Machine.
Implicit Types pool : NodePool.
Implicit Types pod : Pod.

(** The loop over the pod's conditions: the first PodScheduled one decides. *)
Fixpoint marked_unschedulable (conds : list PodCondition) : bool :=
  match conds with
  | [] => false
  | c :: rest =>
      if decide (PCond_Type c = PodScheduled) then
        bool_decide (PCond_Status c = ConditionFalse) &&
        bool_decide (PCond_Reason c = PodReasonUnschedulable)
      else marked_unschedulable rest
  end.

Definition isScaleUpCandidate pod : bool :=
  if negb (bool_decide (Pod_NodeName pod = "")) || negb (bool_decide (Pod_Phase pod = PodPending))
  then false
  else marked_unschedulable (Pod_Conditions pod).

(** [unschedulablePodPredicate] *)
Definition unschedulablePodPredicate (e : watch_event Pod) : bool :=
  match e with
  | CreateEvent pod => isScaleUpCandidate pod
  | UpdateEvent _ pod => isScaleUpCandidate pod
  | DeleteEvent _ | GenericEvent _ => false
  end.

Definition volume_claim pod (vol : Volume) : option string :=
  match Volume_Source vol with
  | VolPersistentVolumeClaim claim => Some claim
  | VolEphemeral => Some (Name pod +:+ "-" +:+ Volume_Name vol)
  | VolOther => None
  end.

Definition volume_affinity pod (required : list NodeSelector) (vol : Volume)
    : prog (result error (list NodeSelector)) :=
  match volume_claim pod vol with
  | None => ok required
  | Some claim =>
      let! r := get_pvc (Namespace pod) claim in
      match r with
      | Err err =>
          if IsNotFound err then ok required
          else fail (Errorf "get claim %s/%s: %w" [AStr (Namespace pod); AStr claim] err)
      | Ok pvc =>
          if decide (PVC_VolumeName pvc = "") then ok required
          else
          let! r := get_pv (PVC_VolumeName pvc) in
          match r with
          | Err err =>
              if IsNotFound err then ok required
              else fail (Errorf "get volume %s: %w" [AStr (PVC_VolumeName pvc)] err)
          | Ok pv =>
              ok (match PV_RequiredAffinity pv with
                  | Some ns => required ++ [ns]
                  | None => required
                  end)
          end
      end
  end.

Definition podVolumeAffinities pod : prog (result error (list NodeSelector)) :=
  foldM (volume_affinity pod) [] (Pod_Volumes pod).

Definition count_member (counts : gmap string Z) m : gmap string Z :=
  <[Name m := default 0 (counts !! Name m) + 1]> counts.

Definition poolMemberships (pools : list NodePool) : prog (result error (gmap string Z)) :=
  foldM (λ counts pool,
    match LabelSelectorAsSelector (MachineSelector (Pool_Spec pool)) with
    | Err _ => ok counts
    | Ok selector =>
        let? machines := wrapf "list machines for pool %q: %w" [AStr (Name pool)]
                           (list_machines_matching Cache selector) in
        ok (foldl count_member counts machines)
    end) ∅ pools.

(** ** Guards *)

Definition isActive m : bool :=
  match state m with
  | Ready | Booting | Draining | ShuttingDown => true
  | Off => wakeRequested m
  | _ => false
  end.

Definition countsAgainstCap m : prog (result error bool) :=
  if isActive m then ok true
  else match state m with
       | Failed => nodeIsReady (NodeName (Spec m))
       | _ => ok false
       end.

Definition poolAtCap pool (members : list Machine) : prog (result error bool) :=
  match MaxNodes (Pool_Spec pool) with
  | None => ok false
  | Some cap =>
      let? active := foldM (λ active m,
        let? counts := countsAgainstCap m in
        ok (if (counts : bool) then active + 1 else active)) 0 members in
      ok (cap <=? active)
  end.

(** The body [coolingUntil] and the scale-down path's [coolingDownUntil] share:
    the instant the cooldown lifts, or the zero time when there is no limit. *)
Definition cooldown_until (cd : option Duration) (last : option Time) : prog Time :=
  match cd, last with
  | Some cd, Some last =>
      let expiry := Add last cd in
      let! now := clock_now in
      if negb (Before now expiry) then Ret zeroTime else Ret expiry
  | _, _ => Ret zeroTime
  end.

Definition coolingUntil pool : prog Time :=
  cooldown_until (Cooldown_ScaleUp (Cooldown (Pool_Spec pool))) (LastScaleUpTime (Pool_Status pool)).

Definition settling m : prog bool :=
  match state m with
  | Ready =>
      match FindStatusCondition (Conditions (Status m)) ConditionReady with
      | Some c =>
          if decide (Cond_Status c = ConditionTrue) then
            let! d := clock_since (Cond_LastTransitionTime c) in
            Ret (d <? readySettle)
          else Ret false
      | None => Ret false
      end
  | _ => Ret false
  end.

Definition isWaking m : bool :=
  match state m with
  | Booting => true
  | Off =>
      if negb (wakeRequested m) then false
      else match FindStatusCondition (Conditions (Status m)) ConditionPowerOnSucceeded with
           | None => true
           | Some c => negb (bool_decide (Cond_Status c = ConditionFalse))
           end
  | _ => false
  end.

(** ** Choosing *)

Record wakeCandidate : Type := MkCandidate {
  cand_machine : Machine;
  cand_pool : NodePool;
}.

Definition cpuMilli m : Quantity := resource_get (Capacity (Spec m)) ResourceCPU.
Definition memBytes m : Quantity := resource_get (Capacity (Spec m)) ResourceMemory.

Definition smaller (a b : Machine) : bool :=
  match Quantity_Cmp (cpuMilli a) (cpuMilli b) with
  | Lt => true
  | Gt => false
  | Eq =>
      match Quantity_Cmp (memBytes a) (memBytes b) with
      | Lt => true
      | Gt => false
      | Eq => str_lt (Name a) (Name b)
      end
  end.

Definition smaller_candidate (a b : wakeCandidate) : bool :=
  smaller (cand_machine a) (cand_machine b).

(** The source panics on an empty slice; it is called with candidates only. *)
Definition smallestCandidate (candidates : list wakeCandidate) : option wakeCandidate :=
  head (sort_by smaller_candidate candidates).

(** The local variables of the walk. *)
Record walk : Type := MkWalk {
  candidates : list wakeCandidate;
  wakeInFlight : bool;
  maxedPool : string;
  walk_coolingUntil : Time;
}.
Definition walk_start : walk := MkWalk [] false "" zeroTime.

(** The body of the inner loop: one member of one pool. *)
Definition visit pod (onVolumeNode : Predicate) (memberships : gmap string Z) pool (maxed : bool)
    (poolCoolingUntil : Time) (w : walk) m : prog (result error walk) :=
  let? real := backingNode (NodeName (Spec m)) in
  let? bound := boundRequests (NodeName (Spec m)) in
  let node := nodeForMachine m pool real bound in
  if negb (Fits (Fit pod node [onVolumeNode])) then ok w
  else
  let! inFlight := if isWaking m then Ret true else settling m in
  if inFlight then ok (MkWalk (candidates w) true (maxedPool w) (walk_coolingUntil w))
  else if negb (bool_decide (state m = Off)) || wakeRequested m then ok w
  else if 1 <? default 0 (memberships !! Name m) then ok w
  else if (maxed : bool) then
    ok (MkWalk (candidates w) (wakeInFlight w) (Name pool) (walk_coolingUntil w))
  else if negb (IsZero poolCoolingUntil) then
    ok (MkWalk (candidates w) (wakeInFlight w) (maxedPool w)
          (if IsZero (walk_coolingUntil w) || Before poolCoolingUntil (walk_coolingUntil w)
           then poolCoolingUntil else walk_coolingUntil w))
  else ok (MkWalk (candidates w ++ [MkCandidate m pool]) (wakeInFlight w) (maxedPool w)
             (walk_coolingUntil w)).

(** The body of the outer loop: one pool. *)
Definition visit_pool pod onVolumeNode memberships (w : walk) pool : prog (result error walk) :=
  match LabelSelectorAsSelector (MachineSelector (Pool_Spec pool)) with
  | Err _ => ok w
  | Ok selector =>
      let? machines := wrapf "list machines for pool %q: %w" [AStr (Name pool)]
                         (list_machines_matching Cache selector) in
      let? maxed := poolAtCap pool machines in
      let! poolCoolingUntil := coolingUntil pool in
      foldM (visit pod onVolumeNode memberships pool maxed poolCoolingUntil) w machines
  end.

(** ** Waking *)

Definition stampScaleUp pool : prog (result error NodePool) :=
  let! now := clock_now in
  wrapf "stamp scale-up time on nodepool %q: %w" [AStr (Name pool)]
    (patch_pool_status pool (set_LastScaleUpTime (Some now) pool)).

Definition requestWake m : prog (result error Machine) :=
  wrapf "set wake-now annotation on machine %q: %w" [AStr (Name m)]
    (patch_machine m (with_Meta (annotate AnnotationWakeNow AnnotationWakeNowValue) m)).

Definition wake pod (winner : wakeCandidate) : prog (result error ReconcileResult) :=
  let? _ := stampScaleUp (cand_pool winner) in
  let? m := requestWake (cand_machine winner) in
  let! _ := emit (OnMachine (Name m)) EventTypeNormal reasonScaleUp
    (Sprintf "waking machine %q to schedule pod %s/%s"
       [AStr (Name m); AStr (Namespace pod); AStr (Name pod)]) in
  let! _ := emit (OnPod (Namespace pod) (Name pod)) EventTypeNormal reasonScaleUp
    (Sprintf "waking machine %q to host pod" [AStr (Name m)]) in
  ok (requeue_after scaleUpRequeue).

(** What the walk's outcome leads to. *)
Definition conclude pod (w : walk) : prog (result error ReconcileResult) :=
  if wakeInFlight w then ok (requeue_after scaleUpRequeue)
  else
  match smallestCandidate (candidates w) with
  | Some winner => wake pod winner
  | None =>
      if negb (IsZero (walk_coolingUntil w)) then
        let! now := clock_now in
        let wait := Sub (walk_coolingUntil w) now in
        ok (requeue_after (if wait <? minCooldownRequeue then minCooldownRequeue else wait))
      else if decide (maxedPool w = "") then ok (requeue_after noFitRequeue)
      else
        let! _ := emit (OnPod (Namespace pod) (Name pod)) EventTypeWarning reasonScaleUpBlocked
          (Sprintf "pool %q is at its maxNodes cap; not waking a node for this pod"
             [AStr (maxedPool w)]) in
        ok (requeue_after noFitRequeue)
  end.

Definition ScaleUp_Reconcile (namespace name : string) : prog (result error ReconcileResult) :=
  let! got := get_pod namespace name in
  match got with
  | Err err => if IsNotFound err then ok Result_ else fail err
  | Ok pod =>
      if negb (ptr_IsZero (DeletionTimestamp pod)) then ok Result_
      else if negb (isScaleUpCandidate pod) then ok Result_
      else
      let? pools := wrapf "list nodepools: %w" [] list_pools in
      let? memberships := poolMemberships pools in
      let? affinities := podVolumeAffinities pod in
      let? w := foldM (visit_pool pod (VolumeNodeAffinity affinities) memberships) walk_start pools in
      conclude pod w
  end.
End inputs.
