(* ===== verification/ScaleUpFit.v ===== *)
(** * The synthetic Node and the choice of a Machine

    The pure half of the scale-up reconciler: what the synthetic Node's
    allocatable, labels and taints are, independently of the order maps are
    walked in, how they relate to what the Machine reconciler will put on the
    real Node, and that the chosen Machine is the smallest whatever sorting
    algorithm [sort.Slice] uses. *)

From S2P Require Import Prelude GoStd Prog K8s Api Client Guards Power Pools Fit NodeOps MachineController ScaleUp Fixture Scenarios.

Local Open Scope Z_scope.

(** A loop over a map that touches only the visited key, keywise. *)
Lemma foldl_pointwise {A B} (f : gmap string B → string * A → gmap string B)
    (g : string → option B → A → option B) (l : list (string * A)) (out : gmap string B) k :
  (∀ out k v, f out (k, v) !! k = g k (out !! k) v) →
  (∀ out k v k', k' ≠ k → f out (k, v) !! k' = out !! k') →
  NoDup l.*1 →
  foldl f out l !! k =
    match (list_to_map l : gmap string A) !! k with Some v => g k (out !! k) v | None => out !! k end.
Proof.
  intros Hsame Hother. revert out. induction l as [|[k' v] l IH]; intros out Hnd; simpl.
  { by rewrite lookup_empty. }
  apply NoDup_cons in Hnd as [Hk Hnd]. rewrite IH by done.
  destruct (decide (k = k')) as [->|Hne].
  - rewrite lookup_insert_eq, not_elem_of_list_to_map_1 by done. apply Hsame.
  - rewrite lookup_insert_ne by done. by rewrite Hother.
Qed.

Lemma foldl_range {A B} `{!MapRange} (f : gmap string B → string * A → gmap string B)
    (g : string → option B → A → option B) (m : gmap string A) (out : gmap string B) k :
  (∀ out k v, f out (k, v) !! k = g k (out !! k) v) →
  (∀ out k v k', k' ≠ k → f out (k, v) !! k' = out !! k') →
  foldl f out (map_range m) !! k =
    match m !! k with Some v => g k (out !! k) v | None => out !! k end.
Proof.
  intros Hsame Hother.
  assert (NoDup (map_range m).*1) by (rewrite map_range_perm; apply NoDup_fst_map_to_list).
  rewrite (foldl_pointwise f g) by done.
  rewrite (list_to_map_proper _ (map_to_list m)) by (done || apply map_range_perm).
  by rewrite list_to_map_to_list.
Qed.

Section allocatable.
Context `{KL : K8sLib} `{!MapRange}.

(** What the node offers of one resource before the bound pods: the declared
    capacity, capped by what the Node reports unless the resource is extended;
    an undeclared resource comes from the Node. *)
Definition offered (name : string) (declared reported : option Quantity) : option Quantity :=
  match declared, reported with
  | Some d, Some r => Some (if negb (isExtendedResource name) && Cmp_lt r d then r else d)
  | Some d, None => Some d
  | None, r => r
  end.

(** What is left of it. *)
Definition left_over (avail : Quantity) (used : option Quantity) : Quantity :=
  match used with
  | None => avail
  | Some u => if Quantity_Sign (Quantity_Sub avail u) <? 0 then Quantity_zero
              else Quantity_Sub avail u
  end.

Lemma syntheticAllocatable_lookup capacity real bound name :
  syntheticAllocatable capacity real bound !! name =
    (λ avail, left_over avail (bound !! name)) <$>
      offered name (capacity !! name) (real ≫= λ n, Allocatable n !! name).
Proof.
  unfold syntheticAllocatable.
  rewrite (foldl_range subtract_bound (λ _ o u, (λ a, left_over a (Some u)) <$> o)); cycle 1.
  { intros out k v. unfold subtract_bound. simpl.
    destruct (out !! k) eqn:E; [by rewrite lookup_insert_eq|by rewrite E]. }
  { intros out k v k' Hne. unfold subtract_bound. simpl.
    destruct (out !! k); [by rewrite lookup_insert_ne|done]. }
  assert ((match real with
    | Some n => foldl cap_by_reported capacity (map_range (Allocatable n))
    | None => capacity end) !! name =
    offered name (capacity !! name) (real ≫= λ n, Allocatable n !! name)) as ->.
  { destruct real as [n|]; simpl; [|by destruct (capacity !! name)].
    rewrite (foldl_range cap_by_reported (λ k o r, offered k o (Some r))).
    - destruct (Allocatable n !! name), (capacity !! name); done.
    - intros out k v. unfold cap_by_reported. simpl.
      destruct (out !! k) eqn:E; simpl; [|by rewrite lookup_insert_eq].
      destruct (_ && _); [by rewrite lookup_insert_eq|done].
    - intros out k v k' Hne. unfold cap_by_reported. simpl.
      destruct (out !! k); [destruct (_ && _); [|done]|]; by rewrite lookup_insert_ne. }
  destruct (bound !! name), (offered _ _ _); done.
Qed.

Lemma offered_le_declared `{!K8sLaws} name d r o :
  offered name (Some d) r = Some o → Quantity_Cmp o d ≠ Gt.
Proof.
  unfold offered, Cmp_lt. destruct r as [r|]; intros [= <-]; [|by rewrite Cmp_refl].
  destruct (negb _); simpl; [|by rewrite Cmp_refl].
  destruct (Quantity_Cmp r d) eqn:E; rewrite ?Cmp_refl, ?E; done.
Qed.

Lemma offered_le_reported `{!K8sLaws} name d r o :
  isExtendedResource name = false → offered name d (Some r) = Some o → Quantity_Cmp o r ≠ Gt.
Proof.
  unfold offered, Cmp_lt. intros ->. destruct d as [d|]; intros [= <-]; simpl; [|by rewrite Cmp_refl].
  destruct (Quantity_Cmp r d) eqn:E; rewrite ?Cmp_refl; try done;
    rewrite Cmp_antisym, E; done.
Qed.

Lemma left_over_le `{!K8sLaws} avail used :
  Quantity_Cmp Quantity_zero avail ≠ Gt →
  (∀ u, used = Some u → Quantity_Cmp Quantity_zero u ≠ Gt) →
  Quantity_Cmp (left_over avail used) avail ≠ Gt.
Proof.
  intros Ha Hu. unfold left_over. destruct used as [u|]; [|by rewrite Cmp_refl].
  destruct (_ <? 0); [done|]. by apply Sub_le, Hu.
Qed.

Definition nonneg (o : option Quantity) : Prop :=
  ∀ q, o = Some q → Quantity_Cmp Quantity_zero q ≠ Gt.

(** The synthetic node never promises more than the Machine declares, nor,
    for a native resource, more than its Node reports — provided the amounts
    declared, reported and bound are non-negative. *)
Theorem syntheticAllocatable_no_more `{!K8sLaws} capacity (n : Node) bound name avail :
  syntheticAllocatable capacity (Some n) bound !! name = Some avail →
  nonneg (capacity !! name) → nonneg (Allocatable n !! name) → nonneg (bound !! name) →
  (∀ d, capacity !! name = Some d → Quantity_Cmp avail d ≠ Gt) ∧
  (∀ r, Allocatable n !! name = Some r → isExtendedResource name = false →
     Quantity_Cmp avail r ≠ Gt).
Proof.
  rewrite syntheticAllocatable_lookup. intros (o & Ho & ->)%fmap_Some Hd Hr Hu. simpl in Ho.
  assert (Quantity_Cmp (left_over o (bound !! name)) o ≠ Gt) as Hle.
  { apply left_over_le; [|done]. unfold offered in Ho.
    destruct (capacity !! name) as [d|], (Allocatable n !! name) as [r|];
      simplify_eq; try destruct (_ && _); eauto. }
  split.
  - intros d Hc. rewrite Hc in Ho. eapply Cmp_trans; [exact Hle|]. by eapply offered_le_declared.
  - intros r Hal He. rewrite Hal in Ho. eapply Cmp_trans; [exact Hle|]. by eapply offered_le_reported.
Qed.
End allocatable.

(** C24.  The synthetic allocatable does not depend on the order any of the maps
    is walked in, and is, resource by resource, the offered capacity less the
    bound requests, floored at zero. *)
Theorem syntheticAllocatable_exact `{KL : K8sLib} (walk walk' : MapRange) capacity real bound :
  @syntheticAllocatable _ _ walk capacity real bound =
    @syntheticAllocatable _ _ walk' capacity real bound ∧
  ∀ name, @syntheticAllocatable _ _ walk capacity real bound !! name =
    (λ avail, left_over avail (bound !! name)) <$>
      offered name (capacity !! name) (real ≫= λ n, Allocatable n !! name).
Proof.
  split; [|apply syntheticAllocatable_lookup].
  apply map_eq. intros name. by rewrite !syntheticAllocatable_lookup.
Qed.

Lemma syntheticAllocatable_no_more_witness :
  syntheticAllocatable {["cpu" := 8000]} (Some (node "w1" false true ∅)) {["cpu" := 1000]} !! "cpu"
    = Some (7000 : Quantity) ∧
  Quantity_Cmp (7000 : Quantity) 8000 ≠ Gt.
Proof.
  split; [vm_compute; reflexivity|].
  assert (∀ q : Quantity, 0 ≤ q → nonneg (Some q)) as Hn.
  { intros q Hq q' [= <-]. exact (proj2 (Z.compare_le_iff _ _) Hq). }
  refine (proj1 (syntheticAllocatable_no_more {["cpu" := 8000]} (node "w1" false true ∅)
    {["cpu" := 1000]} "cpu" 7000 _ _ _ _) 8000 _);
    [vm_compute; reflexivity|by apply Hn|by apply Hn|by apply Hn|reflexivity].
Defined.

(** ** The synthetic Node and the Node that will be there *)

Section promoted.
Context `{KL : K8sLib} `{!MapRange}.
Implicit Types m : Machine.
Implicit Types pool : NodePool.
Implicit Types n : Node.

(** The Node once the Machine reconciler has promoted the Machine: its own
    cordon lifted, the template applied. *)
Definition as_promoted m pool n : Node :=
  (templated (if cordon_marked n then uncordoned n else n)
     (dropReservedLabels (desiredLabels m (Some pool))).1
     (Template_Taints (Template (Pool_Spec pool)))).1.

Lemma dropReservedLabels_other (labels : gmap string string) k :
  k ∉ reservedNodeLabels → (dropReservedLabels labels).1 !! k = labels !! k.
Proof.
  unfold dropReservedLabels, reservedNodeLabels. simpl. rewrite list_elem_of_singleton. intros Hk.
  destruct (labels !! LabelAlwaysOn); simpl; [|done]. by apply lookup_delete_ne.
Qed.

Lemma dropReservedLabels_reserved (labels : gmap string string) k :
  k ∈ reservedNodeLabels → (dropReservedLabels labels).1 !! k = None.
Proof.
  unfold dropReservedLabels, reservedNodeLabels. simpl. rewrite list_elem_of_singleton. intros ->.
  destruct (labels !! LabelAlwaysOn) eqn:E; simpl; [apply lookup_delete_eq|done].
Qed.

Lemma desiredLabels_lookup m pool k :
  desiredLabels m (Some pool) !! k =
    match Spec_Labels (Spec m) !! k with
    | Some v => Some v | None => Template_Labels (Template (Pool_Spec pool)) !! k end.
Proof.
  unfold desiredLabels. rewrite !overlay_union, !lookup_union.
  destruct (Spec_Labels (Spec m) !! k), (Template_Labels _ !! k); rewrite ?lookup_empty; done.
Qed.

Lemma synthetic_labels_lookup m pool n k :
  synthetic_labels m pool (Some n) !! k =
    match desiredLabels m (Some pool) !! k with
    | Some v => Some v
    | None => match Labels n !! k with
              | Some v => Some v
              | None => if decide (k = LabelHostname) then Some (NodeName (Spec m)) else None
              end
    end.
Proof.
  rewrite desiredLabels_lookup. unfold synthetic_labels. rewrite !overlay_union, !lookup_union.
  assert ({[LabelHostname := NodeName (Spec m)]} !! k =
    (if decide (k = LabelHostname) then Some (NodeName (Spec m)) else None)) as ->.
  { case_decide; [subst; by rewrite lookup_singleton_eq|by rewrite lookup_singleton_ne]. }
  destruct (Spec_Labels (Spec m) !! k), (Template_Labels _ !! k), (Labels n !! k), (decide _); done.
Qed.

Lemma promoted_labels m pool n k :
  Labels (as_promoted m pool n) !! k =
    match (dropReservedLabels (desiredLabels m (Some pool))).1 !! k with
    | Some v => if decide (map_get (Labels n) k = v) then Labels n !! k else Some v
    | None => Labels n !! k
    end.
Proof. unfold as_promoted. rewrite templated_labels. by destruct (cordon_marked n). Qed.

(** Merging a taint commutes with dropping the taints of other identities. *)
Lemma mergeTaint_filter (P : Taint → Prop) `{!∀ x, Decision (P x)} ts t :
  (∀ x y, taint_id x = taint_id y → P x → P y) → P t →
  filter P (mergeTaint ts t).1 = (mergeTaint (filter P ts) t).1.
Proof.
  intros HP Ht. induction ts as [|x ts IH]; cbn [mergeTaint].
  { change (filter P [t] = [t]). by rewrite filter_cons_True. }
  destruct (_ || _) eqn:E.
  - destruct (mergeTaint ts t) as [rest b] eqn:Hr. cbn [fst] in *. rewrite !filter_cons.
    destruct (decide (P x)).
    + cbn [mergeTaint]. rewrite E, IH. by destruct (mergeTaint (filter P ts) t).
    + done.
  - bool_simpl. assert (taint_id t = taint_id x) as Hid by (unfold taint_id; congruence).
    rewrite (filter_cons_True _ x) by eauto. cbn [mergeTaint].
    rewrite !bool_decide_true by done. cbn [negb orb]. clear IH. case_decide; cbn [fst].
    + by rewrite filter_cons_True by eauto.
    + rewrite filter_cons_True; [done|]. by eapply HP; [|exact Ht].
Qed.

Lemma mergeTaints_fold ts d ch :
  (mergeTaints ts d ch).1 = foldl (λ ts t, (mergeTaint ts t).1) ts d.
Proof. revert ts ch. induction d as [|t d IH]; intros ts ch; [done|]. by rewrite mergeTaints_cons, IH. Qed.

Definition lifecycle_taint (t : Taint) : bool := HasPrefix (Taint_Key t) "node.kubernetes.io/".

Lemma persistentTaints_merge ts d ch :
  Forall (λ t, lifecycle_taint t = false) d →
  persistentTaints (mergeTaints ts d ch).1 =
    foldl (λ ts t, (mergeTaint ts t).1) (persistentTaints ts) d.
Proof.
  rewrite mergeTaints_fold. revert ts. induction d as [|t d IH]; intros ts Hd; [done|].
  apply Forall_cons in Hd as [Ht Hd]. simpl. rewrite IH by done. f_equal.
  apply mergeTaint_filter; [|exact Ht]. unfold taint_id. by intros x y [= -> _].
Qed.


(** C31.  The exceptions are real: a reserved label of a template, or one with an
    empty value, is on the node the fit is checked against and is never put on
    the Node itself, so a pod that selects on it is matched to a Machine that
    cannot take it. *)
Theorem fit_assumes_labels_never_applied m pool n bound k v :
  desiredLabels m (Some pool) !! k = Some v → Labels n !! k = None →
  k ∈ reservedNodeLabels ∨ v = "" →
  Labels (nodeForMachine m pool (Some n) bound) !! k = Some v ∧
  Labels (as_promoted m pool n) !! k = None.
Proof.
  intros Hd Hl Hwhy. split.
  - cbn [nodeForMachine Labels Node_ObjectMeta]. by rewrite synthetic_labels_lookup, Hd.
  - rewrite promoted_labels. destruct (decide (k ∈ reservedNodeLabels)) as [Hr|Hr].
    + by rewrite dropReservedLabels_reserved.
    + destruct Hwhy as [?| ->]; [done|]. rewrite dropReservedLabels_other, Hd by done.
      unfold map_get. by rewrite Hl.
Qed.
End promoted.

Definition edge_pool : NodePool := pool 0 (Some 2).
Definition m1 : Machine := machine "w1" Off None ∅.


(** A pool whose template carries a label without a value. *)
Definition gpu_pool : NodePool :=
  MkPool (meta "gpu" ∅ ∅)
    (MkPoolSpec 0 None (Some edge_labels) (MkTemplate {["gpu" := ""]} [])
       (MkDisruption "WhenEmpty" None None) (MkCooldown None None) (MkDrain None false))
    (MkPoolStatus 0 0 None None []).

Lemma fit_assumes_labels_never_applied_witness :
  Labels (nodeForMachine m1 gpu_pool (Some (node "w1" false false ∅)) ∅) !! "gpu" = Some "" ∧
  Labels (as_promoted m1 gpu_pool (node "w1" false false ∅)) !! "gpu" = None.
Proof.
  apply (fit_assumes_labels_never_applied m1 gpu_pool (node "w1" false false ∅) ∅ "gpu" "");
    [reflexivity|reflexivity|by right].
Defined.

(** ** The smallest candidate *)

Section smallest.
Context `{KL : K8sLib} `{!K8sLaws}.
Implicit Types a b : Machine.

Lemma Cmp_Eq_l q r s : Quantity_Cmp q r = Eq → Quantity_Cmp q s = Quantity_Cmp r s.
Proof.
  intros H1. assert (Quantity_Cmp r q = Eq) as H2 by by rewrite Cmp_antisym, H1.
  pose proof (Cmp_trans q r s) as T1. pose proof (Cmp_trans r q s) as T2.
  pose proof (Cmp_trans s q r) as T3. pose proof (Cmp_trans s r q) as T4.
  rewrite H1, H2 in *. rewrite !(Cmp_antisym q s), !(Cmp_antisym r s) in *.
  destruct (Quantity_Cmp q s), (Quantity_Cmp r s); simpl in *; try done; exfalso; naive_solver.
Qed.

Lemma Cmp_Gt_trans q r s :
  Quantity_Cmp q r = Gt → Quantity_Cmp r s = Gt → Quantity_Cmp q s = Gt.
Proof.
  intros H1 H2. destruct (Quantity_Cmp q s) eqn:E; [| |done]; exfalso.
  - rewrite (Cmp_Eq_l q s r E), Cmp_antisym, H2 in H1. done.
  - apply (Cmp_trans q s r); [by rewrite E|by rewrite Cmp_antisym, H2|done].
Qed.

Lemma Cmp_Eq_r q r s : Quantity_Cmp r s = Eq → Quantity_Cmp q r = Quantity_Cmp q s.
Proof.
  intros Hrs. rewrite (Cmp_antisym r q), (Cmp_antisym s q). f_equal. by apply Cmp_Eq_l.
Qed.

(** A lexicographic step: decided by the first key unless it ties. *)
Definition lex (c : comparison) (next : bool) : bool :=
  match c with Lt => true | Gt => false | Eq => next end.

Lemma lex_negtrans q r s x y z :
  lex (Quantity_Cmp r q) x = false → lex (Quantity_Cmp s r) y = false →
  (x = false → y = false → z = false) → lex (Quantity_Cmp s q) z = false.
Proof.
  intros H1 H2 Hz. destruct (Quantity_Cmp r q) eqn:E1, (Quantity_Cmp s r) eqn:E2; try done; simpl in *.
  - rewrite (Cmp_Eq_l s r q E2), E1. simpl. auto.
  - by rewrite <- (Cmp_Eq_r s r q E1), E2.
  - by rewrite (Cmp_Eq_l s r q E2), E1.
  - by rewrite (Cmp_Gt_trans s r q E2 E1).
Qed.

Lemma lex_asym q r x y :
  lex (Quantity_Cmp q r) x = true → (x = true → y = false) → lex (Quantity_Cmp r q) y = false.
Proof. rewrite (Cmp_antisym q r). destruct (Quantity_Cmp q r); simpl; naive_solver. Qed.

Lemma smaller_lex a b :
  smaller a b = lex (Quantity_Cmp (cpuMilli a) (cpuMilli b))
    (lex (Quantity_Cmp (memBytes a) (memBytes b)) (str_lt (Name a) (Name b))).
Proof.
  unfold smaller, lex.
  by destruct (Quantity_Cmp (cpuMilli a) (cpuMilli b)), (Quantity_Cmp (memBytes a) (memBytes b)).
Qed.

#[global] Instance smaller_weak : WeakOrder smaller_candidate.
Proof.
  split; unfold smaller_candidate.
  - intros x y. rewrite !smaller_lex. intros Hx. eapply lex_asym; [exact Hx|]. intros Hx'.
    eapply lex_asym; [exact Hx'|]. apply less_asym.
  - intros x y z. rewrite !smaller_lex. intros Hyx Hzy.
    eapply lex_negtrans; [exact Hyx|exact Hzy|]. intros Hyx' Hzy'.
    eapply lex_negtrans; [exact Hyx'|exact Hzy'|]. apply less_negtrans.
Qed.

(** Two Machines neither of which is smaller have the same name. *)
Lemma smaller_total a b : smaller a b = false → smaller b a = false → Name a = Name b.
Proof.
  rewrite !smaller_lex, (Cmp_antisym (cpuMilli a) (cpuMilli b)),
    (Cmp_antisym (memBytes a) (memBytes b)).
  destruct (Quantity_Cmp (cpuMilli a) _); simpl; try done.
  destruct (Quantity_Cmp (memBytes a) _); simpl; try done.
  intros. by apply str_lt_trichotomy.
Qed.

(** Whatever algorithm [sort.Slice] uses, the Machine chosen is the one
    candidate no other is smaller than, by cpu, then memory, then name: any
    sorted arrangement of the candidates starts with it. *)
Theorem smallest_whatever_the_sort cs sorted c :
  sorted ≡ₚ cs → sorted_by smaller_candidate sorted →
  NoDup ((λ c, Name (cand_machine c)) <$> cs) →
  smallestCandidate cs = Some c →
  head sorted = Some c ∧ c ∈ cs ∧
  ∀ d, d ∈ cs → smaller (cand_machine d) (cand_machine c) = false.
Proof.
  intros Hp Hs Hnd Hc. unfold smallestCandidate in Hc.
  destruct (sort_by smaller_candidate cs) as [|c' l] eqn:Hl; simplify_eq/=.
  assert (cs ≡ₚ c :: l) as Hcl by by rewrite <- Hl, sort_by_perm.
  assert (sorted_by smaller_candidate (c :: l)) as Hsl by (rewrite <- Hl; apply sort_by_sorted; apply _).
  destruct sorted as [|d rest].
  { apply Permutation_nil_l in Hp. subst cs. by apply Permutation_nil_cons in Hcl. }
  assert (d ∈ cs) as Hd by (rewrite <- Hp; left). assert (c ∈ cs) as Hcin by (rewrite Hcl; left).
  split_and!; [|done|intros x Hx; by apply (sorted_by_head_min smaller_candidate c cs l x)].
  simpl. f_equal. apply (NoDup_key (λ c, Name (cand_machine c)) cs); [done|done|done|].
  apply smaller_total.
  - by apply (sorted_by_head_min smaller_candidate c cs l d).
  - by apply (sorted_by_head_min smaller_candidate d cs rest c).
Qed.
End smallest.

Definition cand (name : string) : wakeCandidate := MkCandidate (machine name Off None ∅) edge_pool.

Lemma smallest_whatever_the_sort_witness :
  head [cand "a"; cand "b"; cand "c"] = Some (cand "a") ∧
  ∀ d, d ∈ [cand "c"; cand "a"; cand "b"] → smaller (cand_machine d) (machine "a" Off None ∅) = false.
Proof.
  destruct (smallest_whatever_the_sort [cand "c"; cand "a"; cand "b"] [cand "a"; cand "b"; cand "c"]
    (cand "a")) as (H1 & H2 & H3).
  - apply Permutation_sym, (Permutation_cons_append [cand "a"; cand "b"] (cand "c")).
  - repeat constructor.
  - by_compute.
  - vm_compute. reflexivity.
  - split; [exact H1|exact H3].
Defined.
