(* ===== verification/ScaleUpSafety.v ===== *)
(** * Safety of the scale-up reconciler

    Every wake of every run is justified by what the run read, and a run wakes at
    most one Machine.  [ScaleUpComplete] has the converse. *)

From S2P Require Import Prelude GoStd Prog K8s Api Client Guards Power Pools Fit NodeOps MachineController ScaleUp Fixture Scenarios.

Local Open Scope Z_scope.

Section wakes.
Context `{KL : K8sLib} `{!MapRange}.
Implicit Types m : Machine.
Implicit Types pool : NodePool.
Implicit Types pod : Pod.

Definition is_machine_write (c : call) : Prop :=
  match c with PatchMachine _ _ => True | _ => False end.

(** No machine write among the first [i] events. *)
Lemma earlier_none t i :
  none_of is_machine_write (take i t) →
  ∀ j, (j < i)%nat → at_ machine_write t j = None.
Proof.
  intros Hnone j Hj. destruct (at_ machine_write t j) as [[o m]|] eqn:E; [|done]. exfalso.
  apply at_Some in E as (e & He & Hw%machine_write_Some).
  unfold none_of in Hnone. rewrite Forall_forall in Hnone. apply (Hnone e); [|by rewrite Hw].
  apply list_elem_of_lookup. exists j. by rewrite lookup_take_lt.
Qed.

(** A cooldown [cd] anchored at [last] has run out at some instant the clock was
    read. *)
Definition cooled_down (h : trace) (cd : option Duration) (last : option Time) : Prop :=
  ∀ d t, cd = Some d → last = Some t →
    Add t d = zeroTime ∨ ∃ now, clock_read now ∈ h ∧ Add t d ≤ now.

Lemma cooled_down_mono h h' cd last : h ⊆ h' → cooled_down h cd last → cooled_down h' cd last.
Proof.
  intros Hsub Hc d t Hd Ht. destruct (Hc d t Hd Ht) as [?|(now & ? & ?)]; [by left|right].
  exists now. auto.
Qed.

(** The pool may wake another member: fewer members than its cap are active,
    and its cooldown has run out. *)
Definition pool_may_wake (h : trace) pool (members : list Machine) : Prop :=
  (∀ cap, MaxNodes (Pool_Spec pool) = Some cap → count_if isActive members < cap) ∧
  cooled_down h (Cooldown_ScaleUp (Cooldown (Pool_Spec pool))) (LastScaleUpTime (Pool_Status pool)).

(** What makes a Machine a candidate for the pod. *)
Record candidate_ok (pod : Pod) (pools : list NodePool) (h : trace) (c : wakeCandidate) : Prop := {
  cand_listed : ∃ sel ms,
    cand_pool c ∈ pools ∧
    LabelSelectorAsSelector (MachineSelector (Pool_Spec (cand_pool c))) = Ok sel ∧
    members_read Cache sel ms ∈ h ∧ cand_machine c ∈ ms ∧ pool_may_wake h (cand_pool c) ms;
  cand_off : state (cand_machine c) = Off ∧ wakeRequested (cand_machine c) = false;
  cand_sole_pool : ∃ counts, observed h (poolMemberships pools) (Ok counts) ∧
    default 0 (counts !! Name (cand_machine c)) ≤ 1;
  cand_fits : ∃ real bound affinities,
    observed h (backingNode (NodeName (Spec (cand_machine c)))) (Ok real) ∧
    observed h (boundRequests (NodeName (Spec (cand_machine c)))) (Ok bound) ∧
    observed h (podVolumeAffinities pod) (Ok affinities) ∧
    Fits (Fit pod (nodeForMachine (cand_machine c) (cand_pool c) real bound)
            [VolumeNodeAffinity affinities]) = true;
}.

Lemma pool_may_wake_mono h h' pool ms : h ⊆ h' → pool_may_wake h pool ms → pool_may_wake h' pool ms.
Proof.
  intros Hsub [? Hc]. split; [done|]. by eapply cooled_down_mono.
Qed.

Lemma candidate_ok_mono pod pools h h' c :
  h ⊆ h' → candidate_ok pod pools h c → candidate_ok pod pools h' c.
Proof.
  intros Hsub [(sel & ms & ? & ? & ? & ? & ?) ? (counts & ? & ?) (real & bound & aff & ? & ? & ? & ?)].
  split; [|done| |].
  - exists sel, ms. split_and!; eauto using pool_may_wake_mono.
  - exists counts. eauto using observed_mono.
  - exists real, bound, aff. split_and!; eauto using observed_mono.
Qed.

(** *** The guards *)

Lemma countsAgainstCap_active m t a :
  exec (countsAgainstCap m) t (Ok a) → isActive m = true → a = true.
Proof. unfold countsAgainstCap. intros Hx Ha. rewrite Ha in Hx. by apply exec_ret_inv in Hx as [_ [= ->]]. Qed.

Lemma count_active members n t active :
  exec (foldM (λ active m, let? counts := countsAgainstCap m in
          ok (if (counts : bool) then active + 1 else active)) n members) t (Ok active) →
  n + count_if isActive members ≤ active.
Proof.
  revert n t. induction members as [|m ms IH]; intros n t; simpl.
  { intros [_ [= ->]]%exec_ret_inv. unfold count_if. simpl. lia. }
  rewrite count_if_cons. intros (t1 & t2 & n' & -> & Hn' & Hx%IH)%exec_rbind_inv.
  apply exec_rbind_inv in Hn' as (t3 & t4 & c & -> & Hc & [_ [= ->]]%exec_ret_inv).
  destruct (isActive m) eqn:Ha; [rewrite (countsAgainstCap_active _ _ _ Hc Ha) in Hx; lia|].
  destruct c; lia.
Qed.

Lemma poolAtCap_active pool members t :
  exec (poolAtCap pool members) t (Ok false) →
  ∀ cap, MaxNodes (Pool_Spec pool) = Some cap → count_if isActive members < cap.
Proof.
  unfold poolAtCap. intros Hx cap Hcap. rewrite Hcap in Hx.
  apply exec_rbind_inv in Hx as (t1 & t2 & active & -> & Hn%count_active & [_ [= Hle]]%exec_ret_inv).
  symmetry in Hle. bool_simpl. lia.
Qed.

Lemma wp_cooldown_until R E h cd last (Q : trace → Time → Prop) :
  (∀ t until, none_of is_machine_write t →
     (IsZero until = true → cooled_down (t ++ h) cd last) → Q (t ++ h) until) →
  wp R (gate is_machine_write E) h (cooldown_until cd last) Q.
Proof.
  intros HQ. unfold cooldown_until.
  destruct cd as [cd|]; [|by apply (HQ []); [constructor|]].
  destruct last as [last|]; [|by apply (HQ []); [constructor|]].
  cbv zeta. wp_call now; [by intros []|].
  assert (none_of is_machine_write [clock_read now]) as Hnone by (repeat constructor; by intros []).
  destruct (Before now (Add last cd)) eqn:Hb; apply wp_ret; apply (HQ [_]); try done.
  - intros Hz cd' last' [= <-] [= <-]. left. unfold IsZero in Hz. by bool_simpl.
  - intros _ cd' last' [= <-] [= <-]. right. exists now. split; [left|]. unfold Before in Hb.
    by bool_simpl.
Qed.

(** *** The walk *)

(** What holds throughout the walk. *)
Record walking (pod : Pod) (pools : list NodePool) (affinities : list NodeSelector)
    (memberships : gmap string Z) (h : trace) (w : walk) : Prop := {
  walk_counts : observed h (poolMemberships pools) (Ok memberships);
  walk_volumes : observed h (podVolumeAffinities pod) (Ok affinities);
  walk_quiet : none_of is_machine_write h;
  walk_candidates : Forall (candidate_ok pod pools h) (candidates w);
}.

Lemma walking_app pod pools aff counts t h w :
  none_of is_machine_write t → walking pod pools aff counts h w →
  walking pod pools aff counts (t ++ h) w.
Proof.
  intros Ht [? ? ? Hc]. split; eauto using observed_mono, app_subseteq_r.
  - by apply Forall_app.
  - eapply Forall_impl; [exact Hc|]. intros c. apply candidate_ok_mono, app_subseteq_r.
Qed.

Lemma walking_same pod pools aff counts h w w' :
  candidates w' = candidates w → walking pod pools aff counts h w →
  walking pod pools aff counts h w'.
Proof. intros Hc [????]. split; try done. by rewrite Hc. Qed.

(** [m] is not a wake in flight for the pod: it is not waking, or the pod was
    seen not to fit it. *)
Definition no_wake (pod : Pod) (affinities : list NodeSelector) (h : trace) pool m : Prop :=
  isWaking m = true →
  ∃ real bound, observed h (backingNode (NodeName (Spec m))) (Ok real) ∧
    observed h (boundRequests (NodeName (Spec m))) (Ok bound) ∧
    Fits (Fit pod (nodeForMachine m pool real bound) [VolumeNodeAffinity affinities]) = false.

Definition no_wake_in pod affinities (h : trace) pool : Prop :=
  ∀ sel, LabelSelectorAsSelector (MachineSelector (Pool_Spec pool)) = Ok sel →
  ∃ ms, members_read Cache sel ms ∈ h ∧ ∀ m, m ∈ ms → no_wake pod affinities h pool m.

Lemma no_wake_mono pod aff h h' pool m : h ⊆ h' → no_wake pod aff h pool m → no_wake pod aff h' pool m.
Proof.
  intros Hsub Hn Hw. destruct (Hn Hw) as (real & bound & ? & ? & ?). exists real, bound.
  eauto using observed_mono.
Qed.

Lemma no_wake_in_mono pod aff h h' pool : h ⊆ h' → no_wake_in pod aff h pool → no_wake_in pod aff h' pool.
Proof.
  intros Hsub Hn sel Hsel. destruct (Hn sel Hsel) as (ms & ? & ?). exists ms.
  split; [auto|]. eauto using no_wake_mono.
Qed.

Lemma wp_visit R E pod pools aff counts pool sel ms maxed until h w m :
  walking pod pools aff counts h w →
  pool ∈ pools → LabelSelectorAsSelector (MachineSelector (Pool_Spec pool)) = Ok sel →
  members_read Cache sel ms ∈ h → m ∈ ms →
  (maxed = false → IsZero until = true → pool_may_wake h pool ms) →
  wp R (gate is_machine_write E) h
    (visit pod (VolumeNodeAffinity aff) counts pool maxed until w m)
    (λ h' r, match r with
      | Ok w' => walking pod pools aff counts h' w' ∧ h ⊆ h' ∧
          (wakeInFlight w' = false → wakeInFlight w = false ∧ no_wake pod aff h' pool m)
      | Err _ => True end).
Proof.
  intros Hw Hpool Hsel Hms Hm Hmay. unfold visit.
  apply wp_rbind, wp_observed; [intros R'; obeys_go ltac:(fail)|]. intros t1 [real|] Hn1 Hreal; [|done].
  apply wp_rbind, wp_observed; [intros R'; obeys_go ltac:(fail)|]. intros t2 [bound|] Hn2 Hbound; [|done].
  cbv zeta. destruct (Fits _) eqn:Hfit; cbn [negb]; cycle 1.
  { apply wp_ret. split_and!; [by do 2 (apply walking_app; [done|])|set_solver|].
    intros Hnf. split; [done|]. intros _. exists real, bound.
    split_and!; [eapply observed_mono, Hreal; set_solver|done|done]. }
  apply wp_bind, (wp_conseq _ _ _ _ (λ h' b, ∃ t, h' = t ++ t2 ++ t1 ++ h ∧
    none_of is_machine_write t ∧ (isWaking m = true → b = true))).
  2: { destruct (isWaking m); [by apply wp_ret; exists []; repeat constructor|].
       apply wp_quiet_new; [intros R'; obeys_go ltac:(fail)|]. intros t3 b Hn3. by exists t3. }
  intros h' inFlight (t3 & -> & Hn3 & Hwaking).
  assert (walking pod pools aff counts (t3 ++ t2 ++ t1 ++ h) w) as Hw'
    by by do 3 (apply walking_app; [done|]).
  assert (h ⊆ t3 ++ t2 ++ t1 ++ h) as Hsub by set_solver.
  destruct inFlight.
  { apply wp_ret. split_and!; [by apply (walking_same _ _ _ _ _ w)|done|done]. }
  assert (∀ w', wakeInFlight w' = wakeInFlight w → wakeInFlight w' = false →
    wakeInFlight w = false ∧ no_wake pod aff (t3 ++ t2 ++ t1 ++ h) pool m) as Hnw.
  { intros w' <- Hnf. split; [done|]. by intros ?%Hwaking. }
  destruct (negb _ || _) eqn:Hoff; [apply wp_ret; split_and!; [done|done|by apply Hnw]|].
  destruct (1 <? _) eqn:Hsole; [apply wp_ret; split_and!; [done|done|by apply Hnw]|].
  destruct maxed; [apply wp_ret; split_and!; [by apply (walking_same _ _ _ _ _ w)|done|by apply Hnw]|].
  destruct (IsZero until) eqn:Hz; cbn [negb];
    [|apply wp_ret; split_and!; [by apply (walking_same _ _ _ _ _ w)|done|by apply Hnw]].
  apply wp_ret. split_and!; [|done|by apply Hnw]. destruct Hw' as [? ? ? Hc]. split; [done|done|done|]. bool_simpl.
  apply Forall_app. split; [done|]. constructor; [|done]. split; cbn [cand_machine cand_pool].
  - exists sel, ms. split_and!; [done|done|by apply Hsub|done|]. eapply pool_may_wake_mono; [done|]. auto.
  - done.
  - by exists counts.
  - exists real, bound, aff. split_and!; [| |done|done].
    + eapply observed_mono, Hreal. set_solver.
    + eapply observed_mono, Hbound. set_solver.
Qed.

Lemma wp_visit_pool R E pod pools aff counts h w pool :
  walking pod pools aff counts h w → pool ∈ pools →
  wp R (gate is_machine_write E) h (visit_pool pod (VolumeNodeAffinity aff) counts w pool)
    (λ h' r, match r with
      | Ok w' => walking pod pools aff counts h' w' ∧ h ⊆ h' ∧
          (wakeInFlight w' = false → wakeInFlight w = false ∧ no_wake_in pod aff h' pool)
      | Err _ => True end).
Proof.
  intros Hw Hpool. unfold visit_pool.
  destruct (LabelSelectorAsSelector _) as [sel|e] eqn:Hsel; cycle 1.
  { apply wp_ret. split_and!; [done|done|]. intros ?. split; [done|]. intros sel. congruence. }
  apply wp_rbind. wp_call res; [by intros []|]. destruct res as [ms|e]; [|done]. apply wp_ret.
  apply wp_rbind, wp_quiet_run; [intros R'; obeys_go ltac:(fail)|]. intros t1 [maxed|] Hx Hn1; [|done].
  apply wp_bind. unfold coolingUntil. apply wp_cooldown_until. intros t2 until Hn2 Hcool.
  set (h0 := t2 ++ reverse t1 ++ members_read Cache sel ms :: h).
  assert (members_read Cache sel ms ∈ h0) as Hms by set_solver.
  apply (wp_foldM_done _ _ (λ done h' w', walking pod pools aff counts h' w' ∧ h0 ⊆ h' ∧
    (wakeInFlight w' = false → wakeInFlight w = false ∧ ∀ m, m ∈ done → no_wake pod aff h' pool m))
    (λ _ _, True)).
  - split_and!; [|done|set_solver]. apply walking_app; [done|]. apply walking_app.
    { unfold none_of in *. by rewrite reverse_Permutation. }
    apply (walking_app _ _ _ _ [members_read Cache sel ms]); [|done].
    repeat constructor. by intros [].
  - intros dn h' w' m Hm (Hw' & Hsub & Hnf).
    eapply wp_conseq; [|eapply (wp_visit _ _ _ pools _ _ _ sel ms)]; try done.
    + intros h'' [w''|]; [|done]. intros (? & Hsub' & Hnf'). split_and!; [done|by etrans|].
      intros [Hf Hm']%Hnf'. apply Hnf in Hf as [? Hdn]. split; [done|].
      intros m' [Hd| ->%list_elem_of_singleton]%elem_of_app; [|done].
      eapply no_wake_mono; [exact Hsub'|auto].
    + by apply Hsub.
    + intros -> Hz. eapply pool_may_wake_mono; [exact Hsub|]. split; [|by apply Hcool].
      by eapply poolAtCap_active.
  - intros h' w' (? & Hsub & Hnf). split_and!; [done|set_solver|]. intros [? Hall]%Hnf. split; [done|].
    intros sel' Hsel'. exists ms. rewrite Hsel in Hsel'. injection Hsel' as <-. auto.
  - done.
Qed.

(** *** The wake *)

(** What justifies asking [orig] to wake for the pod [ns/name]. *)
Definition wake_ok (ns name : string) (h : trace) (orig : Machine) : Prop :=
  ∃ pod pools affinities c,
    pod_read ns name pod ∈ h ∧ isScaleUpCandidate pod = true ∧ pools_read pools ∈ h ∧
    observed h (podVolumeAffinities pod) (Ok affinities) ∧
    cand_machine c = orig ∧ candidate_ok pod pools h c ∧
    (∀ pool, pool ∈ pools → no_wake_in pod affinities h pool) ∧
    ∃ now p', clock_read now ∈ h ∧
      pool_patched (cand_pool c) (set_LastScaleUpTime (Some now) (cand_pool c)) p' ∈ h.

Definition wake_gate (ns name : string) (h : trace) (c : call) : Prop :=
  match c with
  | PatchMachine orig m' =>
      m' = with_Meta (annotate AnnotationWakeNow AnnotationWakeNowValue) orig ∧
      none_of is_machine_write h ∧ wake_ok ns name h orig
  | _ => True
  end.

Lemma wake_ok_mono ns name h h' orig : h ⊆ h' → wake_ok ns name h orig → wake_ok ns name h' orig.
Proof.
  intros Hsub (pod & pools & aff & c & ? & ? & ? & ? & ? & ? & Hn & now & p' & ? & ?).
  exists pod, pools, aff, c. split_and!; eauto using observed_mono, candidate_ok_mono, no_wake_in_mono.
  exists now, p'. auto.
Qed.

Lemma smallestCandidate_in cs c : smallestCandidate cs = Some c → c ∈ cs.
Proof.
  unfold smallestCandidate. intros Hc%head_Some_elem_of. by rewrite sort_by_perm in Hc.
Qed.

Lemma wp_wake R ns name h pod pools aff c :
  pod_read ns name pod ∈ h → isScaleUpCandidate pod = true → pools_read pools ∈ h →
  observed h (podVolumeAffinities pod) (Ok aff) → none_of is_machine_write h →
  candidate_ok pod pools h c → (∀ pool, pool ∈ pools → no_wake_in pod aff h pool) →
  wp R (gate is_machine_write (wake_gate ns name)) h (wake pod c) (λ _ _, True).
Proof.
  intros Hpod Hcand Hpools Haff Hnone Hc Hnw. unfold wake.
  apply wp_rbind. unfold stampScaleUp. wp_call now; [by intros []|].
  wp_call res; [by intros []|]. destruct res as [p'|e]; [|done]. apply wp_ret.
  set (h' := _ :: _ :: h).
  assert (h ⊆ h') as Hsub by (intros e He; by do 2 right).
  apply wp_rbind. unfold requestWake. wp_call res.
  - intros _. split_and!; [done| |].
    + constructor; [by intros []|]. constructor; [by intros []|done].
    + exists pod, pools, aff, c. split_and!; eauto using observed_mono, candidate_ok_mono, no_wake_in_mono.
      exists now, p'. split; [right; left|left].
  - destruct res as [m|e]; [|done]. apply wp_ret, wp_quiet; [|done]. intros R'. obeys_go ltac:(fail).
Qed.

Lemma wp_ScaleUp_Reconcile R ns name :
  wp R (gate is_machine_write (wake_gate ns name)) [] (ScaleUp_Reconcile ns name) (λ _ _, True).
Proof.
  unfold ScaleUp_Reconcile. wp_call got; [by intros []|].
  destruct got as [pod|e]; [|by case_match].
  destruct (negb (ptr_IsZero _)); [done|].
  destruct (isScaleUpCandidate pod) eqn:Hcand; [|done]. cbn [negb].
  apply wp_rbind. wp_call res; [by intros []|]. destruct res as [pools|e]; [|done]. apply wp_ret.
  apply wp_rbind, wp_observed; [intros R'; obeys_go ltac:(fail)|]. intros t1 [counts|] Hn1 Hcounts; [|done].
  apply wp_rbind, wp_observed; [intros R'; obeys_go ltac:(fail)|]. intros t2 [aff|] Hn2 Haff; [|done].
  set (h0 := t2 ++ t1 ++ pools_read pools :: [pod_read ns name pod]).
  apply wp_rbind, (wp_foldM_done _ _ (λ dn h' w, walking pod pools aff counts h' w ∧ h0 ⊆ h' ∧
    (wakeInFlight w = false → ∀ pool, pool ∈ dn → no_wake_in pod aff h' pool)) (λ _ _, True)).
  - split_and!; [|done|set_solver]. split; [eapply observed_mono, Hcounts; set_solver|done| |done].
    apply Forall_app. split; [done|]. apply Forall_app. split; [done|].
    repeat constructor; by intros [].
  - intros dn h' w pool Hpool (Hw & Hsub & Hnf).
    eapply wp_conseq; [|by eapply wp_visit_pool]. intros h'' [w'|]; [|done].
    intros (? & Hsub' & Hnf'). split_and!; [done|by etrans|].
    intros [Hf Hin]%Hnf'. intros p' [Hp| ->%list_elem_of_singleton]%elem_of_app; [|done].
    eapply no_wake_in_mono; [exact Hsub'|auto].
  - intros h' w (Hw & Hsub & Hnf). unfold conclude. destruct (wakeInFlight w); [done|].
    destruct (smallestCandidate _) as [c|] eqn:Hc.
    + destruct Hw as [? ? ? Hall]. rewrite Forall_forall in Hall.
      eapply wp_wake; eauto using smallestCandidate_in; apply Hsub; set_solver.
    + apply wp_quiet; [|done]. intros R'. obeys_go ltac:(fail).
  - done.
Qed.


(** *** Looking again *)

(** The pod was read as gone, going away, or no longer waiting for a node. *)
Definition pod_settled (ns name : string) (h : trace) : Prop :=
  ∃ got, pod_got ns name got ∈ h ∧
    match got with
    | Ok pod => ptr_IsZero (DeletionTimestamp pod) = false ∨ isScaleUpCandidate pod = false
    | Err e => IsNotFound e = true
    end.

Definition rechecked (a : result error ReconcileResult) : Prop :=
  match a with Ok res => Second ≤ RequeueAfter res | Err _ => True end.

Lemma conclude_rechecks R h pod w :
  wp R (λ _ _, True) h (conclude pod w) (λ _ a, rechecked a).
Proof.
  unfold conclude. destruct (wakeInFlight w); [done|].
  destruct (smallestCandidate _) as [c|].
  { unfold wake. apply wp_rbind, wp_skip; [done|]. intros t1 [p|]; [|done].
    apply wp_rbind, wp_skip; [done|]. intros t2 [m|]; [|done].
    apply wp_bind, wp_skip; [done|]. intros t3 _. by apply wp_bind, wp_skip. }
  destruct (negb _).
  { wp_call now; [done|]. apply wp_ret. simpl.
    destruct (_ <? minCooldownRequeue) eqn:Hm; bool_simpl; unfold minCooldownRequeue, Second in *; lia. }
  case_decide; [done|]. by apply wp_bind, wp_skip.
Qed.
End wakes.

(** ** Witnesses *)

(** A pending pod, and two Off Machines that could take it. *)
Definition pending_pod : Pod :=
  MkPod (MkMeta "web" "default" ∅ ∅ 1 1 None ["ReplicaSet"]) "" [] []
    (MkRest {["cpu" := 1000]} ∅) PodPending
    [MkPodCondition PodScheduled ConditionFalse PodReasonUnschedulable].

Definition pending_world : world :=
  MkWorld [machine "w2" Off None ∅; machine "w1" Off None ∅] [pool 0 (Some 2)]
    [node "w1" true false marked] [pending_pod] (1000 * Second) accepted (Ok "").

Definition scale_up_run : trace :=
  run_trace serve (ScaleUp_Reconcile "default" "web") pending_world.

