(* ===== verification/ScaleUpComplete.v ===== *)
(** * No fitting Machine is passed over

    The converse of [ScaleUpSafety]: a scale-up run on a pod that needs a node
    wakes a Machine, or has found one already waking for it, or has for every
    member of every pool a reason not to wake it.  Nothing is assumed of the
    responses. *)

From S2P Require Import Prelude GoStd Prog K8s Api Client Guards Power Pools Fit NodeOps MachineController ScaleUp Fixture Scenarios ScaleUpSafety.

Local Open Scope Z_scope.

Section reasons.
Context `{KL : K8sLib} `{!MapRange}.
Implicit Types m : Machine.
Implicit Types pool : NodePool.
Implicit Types pod : Pod.

(** Whether the pod fits the Node [m] would boot as, from what was read. *)
Definition fit_read (pod : Pod) (aff : list NodeSelector) (h : trace) pool m (b : bool) : Prop :=
  ∃ real bound, observed h (backingNode (NodeName (Spec m))) (Ok real) ∧
    observed h (boundRequests (NodeName (Spec m))) (Ok bound) ∧
    Fits (Fit pod (nodeForMachine m pool real bound) [VolumeNodeAffinity aff]) = b.

(** The reasons not to wake the member [m] of [pool], whose members are [ms]. *)
Inductive passed_over pod pools aff (h : trace) pool (ms : list Machine) m : Prop :=
| passed_unfit : fit_read pod aff h pool m false → passed_over pod pools aff h pool ms m
| passed_not_off : state m ≠ Off → passed_over pod pools aff h pool ms m
| passed_asked : wakeRequested m = true → passed_over pod pools aff h pool ms m
| passed_shared counts :
    observed h (poolMemberships pools) (Ok counts) → 1 < default 0 (counts !! Name m) →
    passed_over pod pools aff h pool ms m
| passed_maxed : observed h (poolAtCap pool ms) (Ok true) → passed_over pod pools aff h pool ms m
| passed_cooling until :
    observed h (coolingUntil pool) until → IsZero until = false →
    passed_over pod pools aff h pool ms m.

(** A fitting member is on its way up, or has just become Ready. *)
Definition on_its_way pod aff (h : trace) pool m : Prop :=
  fit_read pod aff h pool m true ∧ (isWaking m = true ∨ observed h (settling m) true).

Lemma fit_read_mono pod aff h h' pool m b :
  h ⊆ h' → fit_read pod aff h pool m b → fit_read pod aff h' pool m b.
Proof. intros Hsub (real & bound & ? & ? & ?). exists real, bound. eauto using observed_mono. Qed.

Lemma passed_over_mono pod pools aff h h' pool ms m :
  h ⊆ h' → passed_over pod pools aff h pool ms m → passed_over pod pools aff h' pool ms m.
Proof.
  intros Hsub [?|?|?|? ? ?|?|? ? ?]; [apply passed_unfit|by apply passed_not_off|by apply passed_asked|
    eapply passed_shared|apply passed_maxed|eapply passed_cooling];
    eauto using observed_mono, fit_read_mono.
Qed.

Lemma on_its_way_mono pod aff h h' pool m :
  h ⊆ h' → on_its_way pod aff h pool m → on_its_way pod aff h' pool m.
Proof. intros Hsub [? [?|?]]; split; eauto using fit_read_mono, observed_mono. Qed.

(** A member of [pool], as listed, on its way. *)
Definition flight_in pod aff (h : trace) pool : Prop :=
  ∃ sel ms m, LabelSelectorAsSelector (MachineSelector (Pool_Spec pool)) = Ok sel ∧
    members_read Cache sel ms ∈ h ∧ m ∈ ms ∧ on_its_way pod aff h pool m.

(** Every member of [pool], as listed, is passed over. *)
Definition pool_passed_over pod pools aff (h : trace) pool : Prop :=
  ∀ sel, LabelSelectorAsSelector (MachineSelector (Pool_Spec pool)) = Ok sel →
  ∃ ms, members_read Cache sel ms ∈ h ∧ ∀ m, m ∈ ms → passed_over pod pools aff h pool ms m.

Lemma flight_in_mono pod aff h h' pool : h ⊆ h' → flight_in pod aff h pool → flight_in pod aff h' pool.
Proof.
  intros Hsub (sel & ms & m & ? & ? & ? & ?). exists sel, ms, m.
  split_and!; eauto using on_its_way_mono.
Qed.

Lemma pool_passed_over_mono pod pools aff h h' pool :
  h ⊆ h' → pool_passed_over pod pools aff h pool → pool_passed_over pod pools aff h' pool.
Proof.
  intros Hsub Hp sel Hsel. destruct (Hp sel Hsel) as (ms & ? & ?). exists ms.
  split; [auto|]. eauto using passed_over_mono.
Qed.

(** *** The walk *)

(** From [w] to [w']: candidates and a wake in flight are never forgotten, and
    what is new is accounted for by [F] and [X]. *)
Definition accounted (w w' : walk) (F X : Prop) : Prop :=
  (wakeInFlight w' = true → wakeInFlight w = true ∨ F) ∧
  (wakeInFlight w' = false → candidates w' = [] →
     wakeInFlight w = false ∧ candidates w = [] ∧ X).

Lemma wp_visit_accounts R pod pools aff counts pool ms maxed until h w m :
  observed h (poolMemberships pools) (Ok counts) →
  observed h (poolAtCap pool ms) (Ok maxed) → observed h (coolingUntil pool) until →
  wp R (λ _ _, True) h (visit pod (VolumeNodeAffinity aff) counts pool maxed until w m)
    (λ h' r, match r with
      | Ok w' => h ⊆ h' ∧
          accounted w w' (on_its_way pod aff h' pool m) (passed_over pod pools aff h' pool ms m)
      | Err _ => True end).
Proof.
  intros Hcounts Hmax Hcool. unfold visit.
  apply wp_rbind, wp_record. intros t1 [real|] Hreal; [|done].
  apply wp_rbind, wp_record. intros t2 [bound|] Hbound; [|done].
  cbv zeta. set (h1 := t2 ++ t1 ++ h). assert (h ⊆ h1) as Hsub by set_solver.
  assert (∀ t b, Fits (Fit pod (nodeForMachine m pool real bound) [VolumeNodeAffinity aff]) = b →
    fit_read pod aff (t ++ h1) pool m b) as Hfit.
  { intros t b Hb. exists real, bound. split_and!; [| |done].
    - eapply observed_mono, Hreal. set_solver.
    - eapply observed_mono, Hbound. set_solver. }
  destruct (Fits _) eqn:Hf; cbn [negb]; cycle 1.
  { apply wp_ret. split; [done|]. split; [by left|]. intros ? ?. split_and!; [done|done|].
    by apply passed_unfit, (Hfit []). }
  apply wp_bind, (wp_conseq _ _ _ _ (λ h' b, ∃ t, h' = t ++ h1 ∧
    (b = true → isWaking m = true ∨ observed h' (settling m) true))).
  2: { destruct (isWaking m); [by apply wp_ret; exists []; split; [|left]|].
       apply wp_record. intros t3 b Hb. exists t3. split; [done|]. intros ->. by right. }
  intros h' inFlight (t3 & -> & Hway). assert (h ⊆ t3 ++ h1) as Hsub3 by set_solver.
  assert (∀ w', wakeInFlight w' = wakeInFlight w → candidates w' = candidates w →
    passed_over pod pools aff (t3 ++ h1) pool ms m →
    h ⊆ t3 ++ h1 ∧ accounted w w' (on_its_way pod aff (t3 ++ h1) pool m)
      (passed_over pod pools aff (t3 ++ h1) pool ms m)) as Hpass.
  { intros w' Hw Hc Hp. unfold accounted. rewrite Hw, Hc. split; [done|]. split; [by left|]. by intros. }
  destruct inFlight.
  { apply wp_ret. split; [done|]. split; [|done]. intros _. right. split; [by apply Hfit|auto]. }
  destruct (negb (bool_decide (state m = Off))) eqn:Hoff; cbn [orb]; bool_simpl.
  { apply wp_ret, Hpass; [done|done|by apply passed_not_off]. }
  destruct (wakeRequested m) eqn:Hask.
  { apply wp_ret, Hpass; [done|done|by apply passed_asked]. }
  destruct (1 <? _) eqn:Hsole; bool_simpl.
  { apply wp_ret, Hpass; [done|done|]. eapply passed_shared; [by eapply observed_mono|done]. }
  destruct maxed.
  { apply wp_ret, Hpass; [done|done|]. eapply passed_maxed, observed_mono; done. }
  destruct (IsZero until) eqn:Hz; cbn [negb]; cycle 1.
  { apply wp_ret, Hpass; [done|done|]. eapply passed_cooling; [by eapply observed_mono|done]. }
  apply wp_ret. split; [done|]. split; [by left|]. intros _ []%app_nil. done.
Qed.

Lemma accounted_trans w1 w2 w3 (F1 F2 F X1 X2 X : Prop) :
  accounted w1 w2 F1 X1 → accounted w2 w3 F2 X2 → (F1 ∨ F2 → F) → (X1 → X2 → X) →
  accounted w1 w3 F X.
Proof. unfold accounted. intros [? ?] [? ?] ? ?. split; naive_solver. Qed.

Lemma wp_visit_pool_accounts R pod pools aff counts h w pool :
  observed h (poolMemberships pools) (Ok counts) →
  wp R (λ _ _, True) h (visit_pool pod (VolumeNodeAffinity aff) counts w pool)
    (λ h' r, match r with
      | Ok w' => h ⊆ h' ∧
          accounted w w' (flight_in pod aff h' pool) (pool_passed_over pod pools aff h' pool)
      | Err _ => True end).
Proof.
  intros Hcounts. unfold visit_pool.
  destruct (LabelSelectorAsSelector _) as [sel|e] eqn:Hsel; cycle 1.
  { apply wp_ret. split; [done|]. split; [by left|]. intros ? ?. split_and!; [done|done|]. intros sel. congruence. }
  apply wp_rbind. wp_call res; [done|]. destruct res as [ms|e]; [|done]. apply wp_ret.
  apply wp_rbind, wp_record. intros t1 [maxed|] Hmax; [|done].
  apply wp_bind, wp_record. intros t2 until Hcool.
  set (h0 := t2 ++ t1 ++ members_read Cache sel ms :: h).
  assert (members_read Cache sel ms ∈ h0) as Hms by set_solver.
  apply (wp_foldM_done _ _ (λ done h' w', h0 ⊆ h' ∧
    accounted w w' (∃ m, m ∈ ms ∧ on_its_way pod aff h' pool m)
      (∀ m, m ∈ done → passed_over pod pools aff h' pool ms m)) (λ _ _, True)).
  - split; [done|]. split; [by left|]. intros ? ?. split_and!; [done|done|set_solver].
  - intros dn h' w' m Hm (Hsub & Hacc).
    eapply wp_conseq; [|apply (wp_visit_accounts R pod pools aff counts pool ms)].
    + intros h'' [w''|]; [|done]. intros (Hsub' & Hacc'). split; [by etrans|].
      eapply accounted_trans; [exact Hacc|exact Hacc'|..].
      * intros [(m' & ? & ?)|?]; [exists m'|exists m]; eauto using on_its_way_mono.
      * intros Hdn Hmm m' [Hd| ->%list_elem_of_singleton]%elem_of_app; eauto using passed_over_mono.
    + eapply observed_mono, Hcounts. set_solver.
    + eapply observed_mono, Hmax. set_solver.
    + eapply observed_mono, Hcool. set_solver.
  - intros h' w' (Hsub & Hacc). split; [set_solver|].
    destruct Hacc as [Hf Hx]. split.
    + intros [?|(m & ? & ?)]%Hf; [by left|right]. exists sel, ms, m. split_and!; [done|by apply Hsub|done|done].
    + intros ? (? & ? & Hall)%Hx; [|done]. split_and!; [done|done|]. intros sel' Hsel'.
      rewrite Hsel in Hsel'. injection Hsel' as <-. exists ms. auto.
  - done.
Qed.

(** *** The run *)

(** A Machine was asked to wake. *)
Definition woken (h : trace) : Prop :=
  ∃ orig m, machine_patched orig (with_Meta (annotate AnnotationWakeNow AnnotationWakeNowValue) orig) m ∈ h.

(** The pod is taken care of, or cannot be for now. *)
Definition attended pod pools aff (h : trace) : Prop :=
  woken h ∨ (∃ pool, pool ∈ pools ∧ flight_in pod aff h pool) ∨
  ∀ pool, pool ∈ pools → pool_passed_over pod pools aff h pool.

Lemma attended_mono pod pools aff h h' : h ⊆ h' → attended pod pools aff h → attended pod pools aff h'.
Proof.
  intros Hsub [(orig & m & ?)|[(pool & ? & ?)|Hall]].
  - left. exists orig, m. auto.
  - right. left. exists pool. eauto using flight_in_mono.
  - right. right. eauto using pool_passed_over_mono.
Qed.

Lemma smallestCandidate_None cs : smallestCandidate cs = None → cs = [].
Proof.
  unfold smallestCandidate. intros Hn%head_None. apply Permutation_nil_r. by rewrite <- (sort_by_perm smaller_candidate cs), Hn.
Qed.

Lemma conclude_attends R pod pools aff h w :
  accounted walk_start w (∃ pool, pool ∈ pools ∧ flight_in pod aff h pool)
    (∀ pool, pool ∈ pools → pool_passed_over pod pools aff h pool) →
  wp R (λ _ _, True) h (conclude pod w)
    (λ h' a, match a with Ok _ => attended pod pools aff h' | Err _ => True end).
Proof.
  intros [Hf Hx]. unfold conclude. destruct (wakeInFlight w).
  { apply wp_ret. destruct (Hf eq_refl) as [|?]; [done|]. right. by left. }
  destruct (smallestCandidate _) as [c|] eqn:Hc.
  - unfold wake. apply wp_rbind, wp_skip; [done|]. intros t1 [p|]; [|done].
    apply wp_rbind. unfold requestWake. wp_call res; [done|]. destruct res as [m|e]; [|done]. apply wp_ret.
    apply wp_skip; [done|]. intros t [res|]; [|done]. left. exists (cand_machine c), m.
    apply elem_of_app. right. left.
  - apply smallestCandidate_None in Hc. destruct (Hx eq_refl Hc) as (_ & _ & Hall).
    apply wp_skip; [done|]. intros t [res|]; [|done].
    eapply attended_mono; [apply app_subseteq_r|]. by do 2 right.
Qed.

(** What a run is to have come to. *)
Definition looked_after ns name (h : trace) (a : result error ReconcileResult) : Prop :=
  match a with
  | Ok res => pod_settled ns name h ∨
      Second ≤ RequeueAfter res ∧
      ∃ pod pools aff, pod_read ns name pod ∈ h ∧ isScaleUpCandidate pod = true ∧ pools_read pools ∈ h ∧
        observed h (podVolumeAffinities pod) (Ok aff) ∧ attended pod pools aff h
  | Err _ => True
  end.

Lemma looked_after_mono ns name h h' a : h ⊆ h' → looked_after ns name h a → looked_after ns name h' a.
Proof.
  intros Hsub. destruct a as [res|]; [|done].
  intros [(got & ? & ?)|(? & pod & pools & aff & ? & ? & ? & ? & ?)].
  - left. exists got. auto.
  - right. split; [done|]. exists pod, pools, aff. split_and!; eauto using observed_mono, attended_mono.
Qed.

Lemma ScaleUp_looks_after R ns name :
  wp R (λ _ _, True) [] (ScaleUp_Reconcile ns name) (looked_after ns name).
Proof.
  unfold ScaleUp_Reconcile. wp_call got; [done|]. destruct got as [pod|e]; cycle 1.
  { destruct (IsNotFound e) eqn:He; apply wp_ret; [|done]. left. eexists. split; [left|done]. }
  destruct (ptr_IsZero _) eqn:Hz; cbn [negb]; cycle 1.
  { apply wp_ret. left. eexists. split; [left|]. by left. }
  destruct (isScaleUpCandidate pod) eqn:Hcand; cbn [negb]; cycle 1.
  { apply wp_ret. left. eexists. split; [left|]. by right. }
  apply wp_rbind. wp_call res; [done|]. destruct res as [pools|e]; [|done]. apply wp_ret.
  apply wp_rbind, wp_record. intros t1 [counts|] Hcounts; [|done].
  apply wp_rbind, wp_record. intros t2 [aff|] Haff; [|done].
  set (h0 := t2 ++ t1 ++ pools_read pools :: [pod_read ns name pod]).
  apply wp_rbind, (wp_foldM_done _ _ (λ dn h' w, h0 ⊆ h' ∧
    accounted walk_start w (∃ pool, pool ∈ pools ∧ flight_in pod aff h' pool)
      (∀ pool, pool ∈ dn → pool_passed_over pod pools aff h' pool)) (λ _ _, True)).
  - split; [done|]. split; [by left|]. intros ? ?. split_and!; [done|done|set_solver].
  - intros dn h' w pool Hpool (Hsub & Hacc).
    eapply wp_conseq; [|apply (wp_visit_pool_accounts R pod pools); eapply observed_mono, Hcounts; set_solver].
    intros h'' [w'|]; [|done]. intros (Hsub' & Hacc'). split; [by etrans|].
    eapply accounted_trans; [exact Hacc|exact Hacc'|..].
    + intros [(p & ? & ?)|?]; [exists p|exists pool]; eauto using flight_in_mono.
    + intros Hdn Hp p' [Hd| ->%list_elem_of_singleton]%elem_of_app; eauto using pool_passed_over_mono.
  - intros h' w (Hsub & Hacc).
    eapply wp_conseq; [|apply wp_and; [apply wp_grows, conclude_attends, Hacc|apply conclude_rechecks]].
    intros h'' [res|]; [|done]. intros [[Hsub' Hatt] Hre]. right. split; [exact Hre|].
    assert (h0 ⊆ h'') as Hsub0 by by etrans.
    exists pod, pools, aff. split_and!; [apply Hsub0; set_solver|done|apply Hsub0; set_solver| |done].
    eapply observed_mono; [exact Hsub0|exact Haff].
  - done.
Qed.

(** C14.  No fitting Machine is passed over: a scale-up run that ends without an
    error has read the pod as gone or no longer waiting for a node; or it asks to
    look again, and has asked a Machine to wake, or found a fitting one already on
    its way, or has for every listed member of every listed pool a reason against
    it from what it read: the pod does not fit the Node the Machine would boot as,
    the Machine is not Off or already asked, it is in two pools, or its pool is at
    its cap or cooling down. *)
Theorem wakes_or_has_reasons ns name t res :
  exec (ScaleUp_Reconcile ns name) t (Ok res) →
  pod_settled ns name t ∨
  Second ≤ RequeueAfter res ∧
  ∃ pod pools aff, pod_read ns name pod ∈ t ∧ isScaleUpCandidate pod = true ∧ pools_read pools ∈ t ∧
    observed t (podVolumeAffinities pod) (Ok aff) ∧ attended pod pools aff t.
Proof.
  intros Hx. apply (looked_after_mono ns name (reverse t) t (Ok res)); [apply reverse_subseteq|].
  refine (wp_exec_value _ _ _ _ _ _ (ScaleUp_looks_after anything ns name) Hx (Forall_anything _)).
Qed.
End reasons.

(** ** Witness *)

(** The pool of the pending pod is at its cap: no wake, and a reason for both
    members. *)
Definition capped_world : world :=
  MkWorld [machine "w2" Off None ∅; machine "w1" Ready None ∅] [pool 0 (Some 1)]
    [node "w1" false true ∅] [pending_pod] (1000 * Second) accepted (Ok "").

Definition capped_run : trace := run_trace serve (ScaleUp_Reconcile "default" "web") capped_world.

Lemma wakes_or_has_reasons_witness :
  run_value serve (ScaleUp_Reconcile "default" "web") capped_world = Ok (requeue_after noFitRequeue) ∧
  (pod_settled "default" "web" capped_run ∨
   Second ≤ RequeueAfter (requeue_after noFitRequeue) ∧
   ∃ pod pools aff, pod_read "default" "web" pod ∈ capped_run ∧ isScaleUpCandidate pod = true ∧
     pools_read pools ∈ capped_run ∧ observed capped_run (podVolumeAffinities pod) (Ok aff) ∧
     attended pod pools aff capped_run).
Proof.
  assert (run_value serve (ScaleUp_Reconcile "default" "web") capped_world = Ok (requeue_after noFitRequeue))
    as Hv by (vm_compute; reflexivity).
  split; [done|]. apply (wakes_or_has_reasons "default" "web" capped_run).
  rewrite <- Hv. apply run_exec.
Defined.
