(* ===== verification/ScaleDown.v ===== *)
(** * internal/controller/scaledown_controller.go: the scale-down reconciler

    For one Ready Machine: keep the empty timer, and when the node has been empty
    for the pool's consolidateAfter, ask for its drain unless a pool guard holds
    it back.  The reconciler keeps a little state in memory between runs (which
    holds it has announced), passed through explicitly. *)

From S2P Require Import Prelude GoStd Prog K8s Api Client Guards Power Pools NodeOps MachineController ScaleUp.

Local Open Scope Z_scope.

Definition minConsolidateRequeue : Duration := Second.
Definition scaleDownBlockedRequeue : Duration := 30 * Second.
Definition reasonScaleDown : string := "ScaleDown".
Definition reasonScaleDownBlocked : string := "ScaleDownBlocked".

(** The fields [holds] and [heldThisPass] of [ScaleDownReconciler]. *)
Record HoldState : Type := MkHolds {
  holds : gmap string string;
  heldThisPass : bool;
}.

Section pure.
Context `{KL : K8sLib} `{!MapRange}.
Implicit Types m : Machine.
Implicit Types pool : NodePool.

Definition consolidateAfter (pool : option NodePool) : Duration * bool :=
  match pool with
  | None => (0, false)
  | Some p =>
      let d := Disruption (Pool_Spec p) in
      if decide (ConsolidationPolicy d = ConsolidationPolicyWhenEmpty) then
        match ConsolidateAfter d with None => (0, false) | Some ca => (ca, true) end
      else (0, false)
  end.

Fixpoint memberNamed (members : list Machine) (name : string) : option Machine :=
  match members with
  | [] => None
  | m :: rest => if decide (Name m = name) then Some m else memberNamed rest name
  end.

Definition isScalingDown m : bool :=
  match state m with
  | Draining | ShuttingDown => true
  | _ => drainRequested m
  end.

(** [(keptOn, scalingDown)] *)
Definition poolScaleDownCounts (members : list Machine) : Z * Z :=
  foldl (λ '(keptOn, scalingDown) m,
    if isScalingDown m then (keptOn, scalingDown + 1)
    else if decide (state m = Ready) then (keptOn + 1, scalingDown)
    else (keptOn, scalingDown)) (0, 0) members.

(** A nil cap reads as 1. *)
Definition max_concurrent pool : Z :=
  default 1 (MaxConcurrent (Disruption (Pool_Spec pool))).
End pure.

Section calls.
Context `{KL : K8sLib} `{!MapRange}.
Implicit Types m : Machine.
Implicit Types pool : NodePool.

Definition coolingDownUntil pool : prog Time :=
  cooldown_until (Cooldown_ScaleDown (Cooldown (Pool_Spec pool)))
    (LastScaleDownTime (Pool_Status pool)).

Definition freshPoolState pool : prog (result error (NodePool * list Machine)) :=
  let? fresh := wrapf "get nodepool %q: %w" [AStr (Name pool)] (get_pool APIReader (Name pool)) in
  match LabelSelectorAsSelector (MachineSelector (Pool_Spec fresh)) with
  | Err err => fail (Errorf "convert machineSelector for nodepool %q: %w" [AStr (Name fresh)] err)
  | Ok selector =>
      let? machines := wrapf "list machines for pool %q: %w" [AStr (Name fresh)]
                         (list_machines_matching APIReader selector) in
      ok (fresh, machines)
  end.

Definition nodeEmpty (nodeName : string) : prog (result error bool) :=
  let? pods := podsKeepingNodeOn nodeName in
  ok (bool_decide (length pods = 0%nat)).

Definition nodeDoNotDisrupt (nodeName : string) : prog (result error bool) :=
  if decide (nodeName = "") then ok false
  else
  let! r := get_node nodeName in
  match r with
  | Err err =>
      if IsNotFound err then ok false
      else fail (Errorf "get node %q for do-not-disrupt check: %w" [AStr nodeName] err)
  | Ok node =>
      ok (bool_decide (map_get (Annotations node) AnnotationDoNotDisrupt = AnnotationDoNotDisruptValue))
  end.

Definition stampEmptySince m : prog (result error Machine) :=
  let! now := clock_now in
  wrapf "stamp emptySince on machine %q: %w" [AStr (Name m)]
    (patch_status m (set_EmptySince (Some now) m)).

Definition clearEmptySince m : prog (result error unit) :=
  match EmptySince (Status m) with
  | None => ok tt
  | Some _ =>
      let? _ := wrapf "clear emptySince on machine %q: %w" [AStr (Name m)]
                  (patch_status m (set_EmptySince None m)) in
      ok tt
  end.

Definition requestDrain m : prog (result error Machine) :=
  wrapf "set drain-now annotation on machine %q: %w" [AStr (Name m)]
    (patch_machine m (with_Meta (annotate AnnotationDrainNow AnnotationDrainNowValue) m)).

Definition stampScaleDown pool : prog (result error NodePool) :=
  let! now := clock_now in
  wrapf "stamp scale-down time on nodepool %q: %w" [AStr (Name pool)]
    (patch_pool_status pool (set_LastScaleDownTime (Some now) pool)).

(** [announceHold]: an Event when the message is new for this Machine. *)
Definition announceHold (st : HoldState) m (ty : EventType) (reason message : string)
    : prog HoldState :=
  if decide (map_get (holds st) (Name m) = message) then Ret (MkHolds (holds st) true)
  else
    let! _ := emit (OnMachine (Name m)) ty reason message in
    Ret (MkHolds (<[Name m := message]> (holds st)) true).

(** A reconcile's outcome next to the reconciler's fields after it; a step that
    fails returns its error with the fields as they are. *)
Definition outcome : Type := HoldState * result error ReconcileResult.

Definition attempt {A} (st : HoldState) (p : prog (result error A)) (k : A → prog outcome)
    : prog outcome :=
  let! r := p in
  match r with Ok a => k a | Err e => Ret (st, Err e) end.

Definition done_ (st : HoldState) (res : ReconcileResult) : prog outcome := Ret (st, Ok res).

(** [return ctrl.Result{}, r.clearEmptySince(ctx, &m)] *)
Definition clear_and_stop (st : HoldState) m : prog outcome :=
  attempt st (clearEmptySince m) (λ _, done_ st Result_).

(** The guards and the trigger, on the fresh state of the pool. *)
Definition triggerScaleDown (st : HoldState) m pool (after : Duration) : prog outcome :=
  attempt st (freshPoolState pool) (λ '(pool, members),
  let stale := match memberNamed members (Name m) with
               | None => true
               | Some self => negb (bool_decide (state self = Ready)) || drainRequested self
               end in
  if stale then done_ st Result_
  else
  let! until := coolingDownUntil pool in
  if negb (IsZero until) then
    let! now := clock_now in
    let wait := Sub until now in
    done_ st (requeue_after (if wait <? minConsolidateRequeue then minConsolidateRequeue else wait))
  else
  let '(keptOn, scalingDown) := poolScaleDownCounts members in
  if keptOn <=? MinNodes (Pool_Spec pool) then
    let! st := announceHold st m EventTypeNormal reasonScaleDownBlocked
      (Sprintf "not draining node %q: pool %q at its minNodes floor (%d kept on, min %d)"
         [AStr (NodeName (Spec m)); AStr (Name pool); AInt keptOn; AInt (MinNodes (Pool_Spec pool))]) in
    done_ st (requeue_after scaleDownBlockedRequeue)
  else if max_concurrent pool <=? scalingDown then
    let! st := announceHold st m EventTypeNormal reasonScaleDownBlocked
      (Sprintf "deferring drain of node %q: pool %q already draining %d (maxConcurrent %d)"
         [AStr (NodeName (Spec m)); AStr (Name pool); AInt scalingDown; AInt (max_concurrent pool)]) in
    done_ st (requeue_after scaleDownBlockedRequeue)
  else
  attempt st (stampScaleDown pool) (λ _,
  attempt st (requestDrain m) (λ m,
  let! _ := emit (OnMachine (Name m)) EventTypeNormal reasonScaleDown
    (Sprintf "node %q empty for %s; draining and powering off"
       [AStr (NodeName (Spec m)); ADur after]) in
  done_ st Result_))).

(** The part of [reconcile] that runs on an empty node of an enabled pool. *)
Definition consolidate (st : HoldState) m pool (after : Duration) : prog outcome :=
  match EmptySince (Status m) with
  | None =>
      attempt st (stampEmptySince m) (λ _, done_ st (requeue_after after))
  | Some since =>
      let! elapsed := clock_since since in
      if elapsed <? after then
        let wait := dur_sub after elapsed in
        done_ st (requeue_after (if wait <? minConsolidateRequeue then minConsolidateRequeue else wait))
      else triggerScaleDown st m pool after
  end.

Definition reconcile (st : HoldState) (name : string) : prog outcome :=
  let! got := get_machine name in
  match got with
  | Err err => if IsNotFound err then done_ st Result_ else Ret (st, Err err)
  | Ok m =>
  if negb (bool_decide (state m = Ready)) then clear_and_stop st m
  else if drainRequested m then done_ st Result_
  else
  attempt st (nodeDoNotDisrupt (NodeName (Spec m))) (λ protected,
  if (protected : bool) then clear_and_stop st m
  else
  attempt st (nodeAlwaysOn (NodeName (Spec m))) (λ alwaysOn,
  if (alwaysOn : bool) then clear_and_stop st m
  else
  attempt st (matchingPools m) (λ pools,
  match pools with
  | _ :: _ :: _ =>
      let! st := announceHold st m EventTypeWarning reasonPoolConflict
        (Sprintf "Machine %q matches %d NodePools (%s); holding automatic scale-down until the overlap is resolved"
           [AStr (Name m); AInt (Z.of_nat (length pools)); AStr (poolNames pools)]) in
      clear_and_stop st m
  | [] => clear_and_stop st m
  | [pool] =>
      let '(after, enabled) := consolidateAfter (Some pool) in
      if negb enabled then clear_and_stop st m
      else
      attempt st (wrapf "check node %q emptiness: %w" [AStr (NodeName (Spec m))]
                    (nodeEmpty (NodeName (Spec m)))) (λ empty,
      if negb empty then clear_and_stop st m
      else consolidate st m pool after)
  end)))
  end.

Definition ScaleDown_Reconcile (st : HoldState) (name : string) : prog outcome :=
  let! out := reconcile (MkHolds (holds st) false) name in
  let '(st, res) := out in
  Ret (if heldThisPass st then st else MkHolds (delete name (holds st)) false, res).

(** *** Watches *)

Definition machinesForPod (pod : Pod) : prog (list string) :=
  requestsForMachinesOnNode (Pod_NodeName pod).

Definition ScaleDown_machinesForNode (node : Node) : prog (list string) :=
  requestsForMachinesOnNode (Name node).

Definition membersOfPool pool : prog (list string) := requestsForPoolMembers pool.

Definition nodeExemptionChanged (e : watch_event Node) : bool :=
  match e with
  | UpdateEvent old new =>
      negb (bool_decide (map_get (Annotations old) AnnotationDoNotDisrupt =
                         map_get (Annotations new) AnnotationDoNotDisrupt)) ||
      negb (bool_decide (map_get (Labels old) LabelAlwaysOn = map_get (Labels new) LabelAlwaysOn))
  | _ => false
  end.

Definition podEmptinessPredicate (e : watch_event Pod) : bool :=
  match e with
  | CreateEvent pod => negb (bool_decide (Pod_NodeName pod = "")) && keepsNodeOn pod
  | DeleteEvent pod => negb (bool_decide (Pod_NodeName pod = ""))
  | UpdateEvent old new =>
      if decide (Pod_NodeName new = "") then false
      else if negb (bool_decide (Pod_NodeName old = Pod_NodeName new)) then keepsNodeOn new
      else negb (bool_decide (keepsNodeOn old = keepsNodeOn new))
  | GenericEvent _ => false
  end.
End calls.
