(* ===== verification/ScaleDownSafety.v ===== *)
(** * Safety of the scale-down reconciler

    Every drain it asks for is justified by what the run read — the guards on
    state fresh from the API server — a run asks for at most one, and a hold that
    persists is announced once. *)

From S2P Require Import Prelude GoStd Prog K8s Api Client Guards Power Pools NodeOps MachineController ScaleUp ScaleUpSafety ScaleDown Fixture Scenarios.

Local Open Scope Z_scope.

Section drains.
Context `{KL : K8sLib} `{!MapRange}.
Implicit Types m : Machine.
Implicit Types pool : NodePool.

(** A member that keeps the pool's floor. *)
Definition kept_on m : bool := negb (isScalingDown m) && bool_decide (state m = Ready).

Lemma poolScaleDownCounts_exact members :
  poolScaleDownCounts members = (count_if kept_on members, count_if isScalingDown members).
Proof.
  unfold poolScaleDownCounts.
  assert (∀ a b, foldl (λ '(keptOn, scalingDown) m,
    if isScalingDown m then (keptOn, scalingDown + 1)
    else if decide (state m = Ready) then (keptOn + 1, scalingDown)
    else (keptOn, scalingDown)) (a, b) members =
    (a + count_if kept_on members, b + count_if isScalingDown members)) as Hgen; [|by rewrite Hgen].
  induction members as [|m ms IH]; intros a b; [unfold count_if; simpl; f_equal; lia|].
  rewrite !count_if_cons. unfold kept_on at 1. simpl.
  destruct (isScalingDown m); simpl; [rewrite IH; f_equal; lia|].
  case_decide; [rewrite bool_decide_true by done|rewrite bool_decide_false by done];
    rewrite IH; f_equal; lia.
Qed.

Lemma memberNamed_Some members name m :
  memberNamed members name = Some m → m ∈ members ∧ Name m = name.
Proof.
  induction members as [|x ms IH]; simpl; [done|]. case_decide; [intros [= <-]; split; [left|done]|].
  intros [??]%IH. split; [by right|done].
Qed.

(** The Node is exempt neither by annotation nor by label, and nothing keeps it
    on. *)
Definition node_idle (h : trace) (n : string) : Prop :=
  observed h (nodeDoNotDisrupt n) (Ok false) ∧ observed h (nodeAlwaysOn n) (Ok false) ∧
  observed h (nodeEmpty n) (Ok true).

(** The guards of the pool, on what the API server itself answered. *)
Definition guards_passed (h : trace) (m : Machine) pool : Prop :=
  ∃ fresh sel ms (self : Machine),
    pool_read APIReader (Name pool) fresh ∈ h ∧
    LabelSelectorAsSelector (MachineSelector (Pool_Spec fresh)) = Ok sel ∧
    members_read APIReader sel ms ∈ h ∧
    self ∈ ms ∧ Name self = Name m ∧ state self = Ready ∧ drainRequested self = false ∧
    MinNodes (Pool_Spec fresh) < count_if kept_on ms ∧
    count_if isScalingDown ms < max_concurrent fresh ∧
    cooled_down h (Cooldown_ScaleDown (Cooldown (Pool_Spec fresh)))
      (LastScaleDownTime (Pool_Status fresh)) ∧
    ∃ now p', clock_read now ∈ h ∧
      pool_patched fresh (set_LastScaleDownTime (Some now) fresh) p' ∈ h.

(** What justifies asking for the drain of [m]. *)
Definition drain_ok (name : string) (h : trace) (m : Machine) : Prop :=
  machine_read name m ∈ h ∧ state m = Ready ∧ drainRequested m = false ∧
  node_idle h (NodeName (Spec m)) ∧
  ∃ pool after since now,
    observed h (matchingPools m) (Ok [pool]) ∧ consolidateAfter (Some pool) = (after, true) ∧
    EmptySince (Status m) = Some since ∧ clock_read now ∈ h ∧ after ≤ Sub now since ∧
    guards_passed h m pool.

Lemma guards_passed_mono h h' m pool : h ⊆ h' → guards_passed h m pool → guards_passed h' m pool.
Proof.
  intros Hsub (fresh & sel & ms & self & ? & ? & ? & ? & ? & ? & ? & ? & ? & Hc & now & p' & ? & ?).
  exists fresh, sel, ms, self. split_and!; eauto using cooled_down_mono.
  exists now, p'. auto.
Qed.

Lemma drain_ok_mono name h h' m : h ⊆ h' → drain_ok name h m → drain_ok name h' m.
Proof.
  intros Hsub (? & ? & ? & (? & ? & ?) & pool & after & since & now & ? & ? & ? & ? & ? & ?).
  repeat split; eauto using observed_mono.
  exists pool, after, since, now. split_and!; eauto using observed_mono, guards_passed_mono.
Qed.

Definition drain_gate (name : string) (h : trace) (c : call) : Prop :=
  match c with
  | PatchMachine orig m' =>
      m' = with_Meta (annotate AnnotationDrainNow AnnotationDrainNowValue) orig ∧
      none_of is_machine_write h ∧ drain_ok name h orig
  | _ => True
  end.

Lemma wp_attempt {A} R P h st (p : prog (result error A)) (k : A → prog outcome) Q :
  wp R P h p (λ h' r, match r with Ok a => wp R P h' (k a) Q | Err e => Q h' (st, Err e) end) →
  wp R P h (attempt st p k) Q.
Proof. intros Hp. apply wp_bind. eapply wp_conseq; [|exact Hp]. by intros h' [a|e]. Qed.

(** *** The trigger *)

Lemma wp_triggerScaleDown R name h st m pool after since now :
  none_of is_machine_write h → machine_read name m ∈ h → state m = Ready →
  drainRequested m = false → node_idle h (NodeName (Spec m)) →
  observed h (matchingPools m) (Ok [pool]) → consolidateAfter (Some pool) = (after, true) →
  EmptySince (Status m) = Some since → clock_read now ∈ h → after ≤ Sub now since →
  wp R (gate is_machine_write (drain_gate name)) h (triggerScaleDown st m pool after) (λ _ _, True).
Proof.
  intros Hnone Hm Hs Hd Hidle Hpools Hafter Hsince Hnow Hel. unfold triggerScaleDown.
  apply wp_attempt. unfold freshPoolState.
  apply wp_rbind. wp_call res; [by intros []|]. destruct res as [fresh|e]; [|done]. apply wp_ret.
  destruct (LabelSelectorAsSelector _) as [sel|e] eqn:Hsel; [|done].
  apply wp_rbind. wp_call res; [by intros []|]. destruct res as [ms|e]; [|done]. apply wp_ret, wp_ret.
  cbv zeta. destruct (memberNamed ms (Name m)) as [self|] eqn:Hself; [|done].
  apply memberNamed_Some in Hself as [Hin Hname].
  destruct (negb _ || _) eqn:Hstale; [done|].
  apply wp_bind. unfold coolingDownUntil. apply wp_cooldown_until. intros t1 until Hn1 Hcool.
  destruct (IsZero until) eqn:Hz; cbn [negb]; [|apply wp_quiet; [intros R'; obeys_go ltac:(fail)|done]].
  rewrite poolScaleDownCounts_exact.
  destruct (_ <=? MinNodes _) eqn:Hmin; [apply wp_quiet; [intros R'; obeys_go ltac:(fail)|done]|].
  destruct (max_concurrent fresh <=? _) eqn:Hmax; [apply wp_quiet; [intros R'; obeys_go ltac:(fail)|done]|].
  apply wp_attempt. unfold stampScaleDown. wp_call now'; [by intros []|].
  wp_call res; [by intros []|]. destruct res as [p'|e]; [|done]. apply wp_ret.
  set (h0 := t1 ++ members_read APIReader sel ms :: pool_read APIReader (Name pool) fresh :: h).
  set (h' := _ :: _ :: _).
  assert (h0 ⊆ h') as Hsub0 by (intros e He; by do 2 right).
  assert (h ⊆ h') as Hsub by (intros e He; apply Hsub0; set_solver).
  apply wp_attempt. unfold requestDrain. wp_call res.
  - intros _. bool_simpl. destruct Hidle as (? & ? & ?). split_and!; [done| |].
    + do 2 (constructor; [by intros []|]). apply Forall_app. split; [done|].
      by do 2 (constructor; [by intros []|]).
    + repeat split; eauto using observed_mono.
      exists pool, after, since, now. split_and!; eauto using observed_mono.
      exists fresh, sel, ms, self. split_and!; try done; try (apply Hsub0; set_solver).
      * eapply cooled_down_mono; [exact Hsub0|by apply Hcool].
      * exists now', p'. split; [right; left|left].
  - destruct res as [m'|e]; [|done]. apply wp_ret, wp_quiet; [|done]. intros R'. obeys_go ltac:(fail).
Qed.

Lemma clear_and_stop_quiet st m : quiet is_machine_write (clear_and_stop st m).
Proof. intros R. obeys_go ltac:(fail). Qed.

Lemma none_of_app K t h : none_of K t → none_of K h → none_of K (t ++ h).
Proof. intros. by apply Forall_app. Qed.

Lemma wp_consolidate R name h st m pool after :
  none_of is_machine_write h → machine_read name m ∈ h → state m = Ready →
  drainRequested m = false → node_idle h (NodeName (Spec m)) →
  observed h (matchingPools m) (Ok [pool]) → consolidateAfter (Some pool) = (after, true) →
  wp R (gate is_machine_write (drain_gate name)) h (consolidate st m pool after) (λ _ _, True).
Proof.
  intros Hnone Hm Hs Hd (? & ? & ?) Hpools Hafter. unfold consolidate.
  destruct (EmptySince (Status m)) as [since|] eqn:Hsince;
    [|apply wp_quiet; [intros R'; obeys_go ltac:(fail)|done]].
  apply wp_bind. wp_call now; [by intros []|]. apply wp_ret. cbv beta.
  destruct (_ <? after) eqn:Hlt; [done|]. bool_simpl.
  assert (h ⊆ clock_read now :: h) as Hsub by (intros e He; by right).
  eapply (wp_triggerScaleDown _ _ _ _ _ _ _ since now); eauto using observed_mono.
  - constructor; [by intros []|done].
  - split_and!; eauto using observed_mono.
  - left.
Qed.

Lemma wp_reconcile R name st :
  wp R (gate is_machine_write (drain_gate name)) [] (reconcile st name) (λ _ _, True).
Proof.
  unfold reconcile. wp_call got; [by intros []|]. destruct got as [m|e]; [|by case_match].
  destruct (bool_decide (state m = Ready)) eqn:Hs; cbn [negb];
    [|apply wp_quiet; [apply clear_and_stop_quiet|done]].
  destruct (drainRequested m) eqn:Hd; [done|]. bool_simpl.
  apply wp_attempt, wp_observed; [intros R'; obeys_go ltac:(fail)|]. intros t1 [[|]|] Hn1 Ho1; [| |done].
  { apply wp_quiet; [apply clear_and_stop_quiet|done]. }
  apply wp_attempt, wp_observed; [intros R'; obeys_go ltac:(fail)|]. intros t2 [[|]|] Hn2 Ho2; [| |done].
  { apply wp_quiet; [apply clear_and_stop_quiet|done]. }
  apply wp_attempt, wp_observed; [intros R'; obeys_go ltac:(fail)|]. intros t3 [pools|] Hn3 Ho3; [|done].
  destruct pools as [|pool [|p2 rest]].
  { apply wp_quiet; [apply clear_and_stop_quiet|done]. }
  2: { apply wp_bind, wp_quiet; [intros R'; obeys_go ltac:(fail)|]. intros t4 st'.
       apply wp_quiet; [apply clear_and_stop_quiet|done]. }
  destruct (consolidateAfter _) as [after [|]] eqn:Hafter; cbn [negb];
    [|apply wp_quiet; [apply clear_and_stop_quiet|done]].
  apply wp_attempt, wp_wrapf, wp_observed; [intros R'; obeys_go ltac:(fail)|].
  intros t4 [[|]|] Hn4 Ho4; cbn [negb]; [| |done].
  2: { apply wp_quiet; [apply clear_and_stop_quiet|done]. }
  apply wp_consolidate; try done.
  - repeat apply none_of_app; try done. repeat constructor. by intros [].
  - set_solver.
  - split_and!; [eapply observed_mono, Ho1|eapply observed_mono, Ho2|done]; set_solver.
  - eapply observed_mono, Ho3. set_solver.
Qed.

(** C7.  A scale-down run asks for at most one drain, and only: of the Ready
    Machine it read, whose Node it read as exempt neither by annotation nor by
    label and as empty, whose one pool has opted in, after the whole
    consolidateAfter; with its pool, read afresh from the API server, past its
    cooldown, above its minNodes floor and below its maxConcurrent cap, and the
    cooldown stamped anew. *)
Theorem scale_down_drains_are_justified st name t a i orig m' :
  exec (ScaleDown_Reconcile st name) t a → at_ machine_write t i = Some (orig, m') →
  m' = with_Meta (annotate AnnotationDrainNow AnnotationDrainNowValue) orig ∧
  drain_ok name (take i t) orig ∧
  ∀ j, (j < i)%nat → at_ machine_write t j = None.
Proof.
  intros Hx (e & He & Hp%machine_write_Some)%at_Some.
  assert (wp anything (gate is_machine_write (drain_gate name)) []
    (ScaleDown_Reconcile st name) (λ _ _, True)) as Hwp.
  { apply wp_bind. eapply wp_conseq; [|apply wp_reconcile]. by intros h [st' r] _. }
  pose proof (wp_exec_at _ _ _ _ _ _ _ _ Hwp Hx (Forall_anything _) He) as Hg.
  rewrite Hp in Hg. destruct (Hg I) as (-> & Hnone & Hok). split_and!; [done| |].
  - eapply drain_ok_mono; [apply reverse_subseteq|done].
  - apply earlier_none. unfold none_of in Hnone. by rewrite reverse_Permutation in Hnone.
Qed.
End drains.

(** ** Announcing holds *)

Section holds.
Context `{KL : K8sLib} `{!MapRange}.
Implicit Types m : Machine.
Implicit Types pool : NodePool.

Definition is_hold (c : call) : Prop :=
  match c with
  | RecordEvent (OnMachine _) _ reason _ =>
      reason = reasonPoolConflict ∨ reason = reasonScaleDownBlocked
  | _ => False
  end.

(** The hold messages a run announced. *)
Definition hold_message (e : event) : option string :=
  match ev_call e with
  | RecordEvent (OnMachine _) _ reason msg =>
      if decide (reason = reasonPoolConflict ∨ reason = reasonScaleDownBlocked) then Some msg else None
  | _ => None
  end.
Definition announced (t : trace) : list string := omap hold_message t.

Lemma announced_cons e h :
  announced (e :: h) = match hold_message e with Some msg => msg :: announced h | None => announced h end.
Proof. done. Qed.

Lemma announced_quiet t h : none_of is_hold t → announced (t ++ h) = announced h.
Proof.
  unfold announced. induction 1 as [|[c r] t Hc Ht IH]; [done|]. simpl. unfold hold_message at 1.
  simpl in *. destruct c as [| | | | | | | | | | | | | | | | | | | | |on ty reason msg| | | | | |];
    simpl; try done.
  destruct on; try done. by rewrite decide_False.
Qed.

(** The API server answers a Get with an object of that name. *)
Definition reads_named (e : event) : Prop :=
  match e with
  | Ev c res =>
      match c as c return resp c → Prop with
      | GetMachine n => λ res, match res with Ok m => Name m = n | Err _ => True end
      | _ => λ _, True
      end res
  end.

#[global] Instance reads_named_dec e : Decision (reads_named e).
Proof. destruct e as [[] res]; simpl; try apply _. destruct res; apply _. Defined.

(** Nothing announced, nothing recorded; or one new message announced and
    recorded. *)
Definition not_held (hs : gmap string string) (h : trace) (st : HoldState) : Prop :=
  holds st = hs ∧ announced h = [].
Definition hold_kept (hs : gmap string string) (name : string) (h : trace) (st : HoldState) : Prop :=
  not_held hs h st ∨
  heldThisPass st = true ∧ ∃ msg, holds st = <[name := msg]> hs ∧ map_get hs name ≠ msg ∧
    announced h = [msg].

Abbreviation unguarded := (gate is_hold (λ _ _, True)).

Lemma unguarded_any h c : unguarded h c.
Proof. by intros _. Qed.

Lemma not_held_quiet hs t h st : none_of is_hold t → not_held hs h st → not_held hs (t ++ h) st.
Proof. intros Ht [??]. split; [done|]. by rewrite announced_quiet. Qed.

Lemma hold_kept_quiet hs name t h st :
  none_of is_hold t → hold_kept hs name h st → hold_kept hs name (t ++ h) st.
Proof.
  intros Ht [Hn|(? & msg & ? & ? & ?)]; [left; by apply not_held_quiet|right].
  split; [done|]. exists msg. by rewrite announced_quiet.
Qed.

Lemma wp_clear_and_stop R hs name h st m :
  hold_kept hs name h st →
  wp R unguarded h (clear_and_stop st m) (λ h' o, hold_kept hs name h' o.1).
Proof.
  intros Hk. apply wp_attempt, wp_quiet_new; [intros R'; obeys_go ltac:(fail)|].
  intros t [|e] Ht; by apply hold_kept_quiet.
Qed.

Lemma wp_attempt_quiet {A} R hs name h st (p : prog (result error A)) (k : A → prog outcome) :
  quiet is_hold p → not_held hs h st →
  (∀ t a, not_held hs (t ++ h) st → wp R unguarded (t ++ h) (k a) (λ h' o, hold_kept hs name h' o.1)) →
  wp R unguarded h (attempt st p k) (λ h' o, hold_kept hs name h' o.1).
Proof.
  intros Hp Hn Hk. apply wp_attempt, wp_quiet_new; [done|]. intros t [a|e] Ht.
  - by apply Hk, not_held_quiet.
  - left. by apply not_held_quiet.
Qed.

Lemma wp_announceHold R hs h st m ty reason msg :
  not_held hs h st → reason = reasonPoolConflict ∨ reason = reasonScaleDownBlocked →
  wp R unguarded h (announceHold st m ty reason msg)
    (λ h' st', hold_kept hs (Name m) h' st').
Proof.
  intros [Hs Ha] Hr. unfold announceHold. case_decide as Hm; [by apply wp_ret; left|].
  wp_call u; [apply unguarded_any|]. apply wp_ret. right. split; [done|]. exists msg.
  rewrite Hs in *. split_and!; [done|done|]. rewrite announced_cons. unfold hold_message. simpl.
  by rewrite decide_True, Ha.
Qed.

(** A hold followed by steps that announce nothing. *)
Lemma wp_hold_then R hs name h st m ty reason msg (k : HoldState → prog outcome) :
  Name m = name → not_held hs h st → reason = reasonPoolConflict ∨ reason = reasonScaleDownBlocked →
  (∀ h' st', hold_kept hs name h' st' →
     wp R unguarded h' (k st') (λ h' o, hold_kept hs name h' o.1)) →
  wp R unguarded h (let! st := announceHold st m ty reason msg in k st)
    (λ h' o, hold_kept hs name h' o.1).
Proof.
  intros <- Hn Hr Hk. apply wp_bind. eapply wp_conseq; [|by apply wp_announceHold].
  intros h' st'. apply Hk.
Qed.

Lemma wp_triggerScaleDown_holds R hs h st m pool after :
  not_held hs h st →
  wp R unguarded h (triggerScaleDown st m pool after) (λ h' o, hold_kept hs (Name m) h' o.1).
Proof.
  intros Hn. unfold triggerScaleDown.
  apply wp_attempt_quiet; [intros R'; obeys_go ltac:(fail)|done|]. intros t1 [fresh ms] Hn1.
  cbv zeta. destruct (match memberNamed ms (Name m) with Some _ => _ | None => _ end); [by left|].
  apply wp_bind, wp_quiet_new; [intros R'; obeys_go ltac:(fail)|]. intros t2 until Ht2.
  apply (not_held_quiet _ t2) in Hn1; [|done].
  destruct (negb _).
  { apply wp_bind, wp_quiet_new; [intros R'; obeys_go ltac:(fail)|]. intros t3 now Ht3. left.
    by apply not_held_quiet. }
  destruct (poolScaleDownCounts ms) as [keptOn scalingDown].
  destruct (_ <=? _); [apply wp_hold_then; [done|done|by right|by intros]|].
  destruct (_ <=? _); [apply wp_hold_then; [done|done|by right|by intros]|].
  apply wp_attempt_quiet; [intros R'; obeys_go ltac:(fail)|done|]. intros t3 p' Hn3.
  apply wp_attempt_quiet; [intros R'; obeys_go ltac:(fail)|done|]. intros t4 m' Hn4.
  apply wp_bind, wp_quiet_new; [intros R'; obeys_go ltac:(by intros [?|?])|]. intros t5 u Ht5. left.
  by apply not_held_quiet.
Qed.

Lemma wp_reconcile_holds hs st name :
  holds st = hs →
  wp reads_named unguarded [] (reconcile st name) (λ h' o, hold_kept hs name h' o.1).
Proof.
  intros Hs. unfold reconcile. wp_call got; [apply unguarded_any|].
  set (h := [_]). assert (not_held hs h st) as Hn by done.
  destruct got as [m|e]; [|case_match; by left]. match goal with H : reads_named _ |- _ => rename H into Hname end.
  simpl in Hname. subst name.
  destruct (negb _); [apply wp_clear_and_stop; by left|].
  destruct (drainRequested m); [by left|].
  apply wp_attempt_quiet; [intros R'; obeys_go ltac:(fail)|done|]. intros t1 [|] Hn1;
    [apply wp_clear_and_stop; by left|].
  apply wp_attempt_quiet; [intros R'; obeys_go ltac:(fail)|done|]. intros t2 [|] Hn2;
    [apply wp_clear_and_stop; by left|].
  apply wp_attempt_quiet; [intros R'; obeys_go ltac:(fail)|done|]. intros t3 pools Hn3.
  destruct pools as [|pool [|p2 rest]]; [apply wp_clear_and_stop; by left| |].
  2: { apply wp_hold_then; [done|done|by left|]. intros h' st' Hk. by apply wp_clear_and_stop. }
  destruct (consolidateAfter _) as [after [|]]; cbn [negb]; [|apply wp_clear_and_stop; by left].
  apply wp_attempt_quiet; [intros R'; obeys_go ltac:(fail)|done|]. intros t4 [|] Hn4; cbn [negb];
    [|apply wp_clear_and_stop; by left].
  unfold consolidate. destruct (EmptySince _).
  - apply wp_bind, wp_quiet_new; [intros R'; obeys_go ltac:(fail)|]. intros t5 elapsed Ht5.
    apply (not_held_quiet _ t5) in Hn4; [|done].
    destruct (_ <? _); [by left|]. by apply wp_triggerScaleDown_holds.
  - apply wp_attempt_quiet; [intros R'; obeys_go ltac:(fail)|done|]. intros t5 m' Hn5. by left.
Qed.

End holds.

(** ** Watches *)

Section watches.
Context `{K8sTypes}.

(** The pod counts against its node's emptiness. *)
Definition occupies (p : Pod) : bool := negb (bool_decide (Pod_NodeName p = "")) && keepsNodeOn p.

(** The pod filter loses nothing: an update it drops, of a pod that does
    not change node once bound, leaves the pod's node as occupied as it was; a
    dropped create or delete is of a pod that occupied no node. *)
Lemma pod_filter_loses_nothing (e : watch_event Pod) :
  podEmptinessPredicate e = false →
  match e with
  | UpdateEvent old new =>
      Pod_NodeName old = "" ∨ Pod_NodeName old = Pod_NodeName new → occupies old = occupies new
  | CreateEvent p | DeleteEvent p => occupies p = false
  | GenericEvent _ => True
  end.
Proof.
  unfold occupies. destruct e as [p|old new|p|p]; simpl; [done| | |done].
  - intros Hf Hmove. case_decide as Hn.
    + destruct Hmove as [Ho|Ho]; rewrite Ho, ?Hn; done.
    + rewrite (bool_decide_false (Pod_NodeName new = "")) by done.
      case_bool_decide as Hsame; simpl in *.
      * rewrite Hsame, bool_decide_false by done. by apply negb_false_iff, bool_decide_eq_true_1 in Hf.
      * destruct Hmove as [Ho|?]; [|done]. by rewrite Ho, Hf.
  - by intros ->.
Qed.
End watches.

(** ** Witnesses *)

(** Two Ready Machines of a pool that keeps one on; [w1] has been empty for more
    than the minute its pool waits. *)
Definition idle_machine (name : string) : Machine :=
  set_EmptySince (Some (100 * Second)) (machine name Ready None ∅).

Definition idle_world (floor : Z) : world :=
  MkWorld [idle_machine "w1"; idle_machine "w2"] [pool floor None]
    [node "w1" false true ∅; node "w2" false true ∅] [] (1000 * Second) accepted (Ok "").

Definition no_holds : HoldState := MkHolds ∅ false.

Definition scale_down_run (floor : Z) (st : HoldState) : trace :=
  run_trace serve (ScaleDown_Reconcile st "w1") (idle_world floor).

Lemma scale_down_drains_are_justified_witness :
  ∃ orig m', at_ machine_write (scale_down_run 1 no_holds) 10 = Some (orig, m') ∧
    drain_ok "w1" (take 10 (scale_down_run 1 no_holds)) orig.
Proof.
  observe (at_ machine_write (scale_down_run 1 no_holds) 10) w E. destruct w as [orig m'].
  exists orig, m'. split; [exact E|].
  by apply (scale_down_drains_are_justified no_holds "w1" (scale_down_run 1 no_holds) _ 10 orig m'
    (run_exec _ _ _)).
Defined.

(** At the floor: the hold is announced, and remembered. *)
Definition floor_message : string :=
  Sprintf "not draining node %q: pool %q at its minNodes floor (%d kept on, min %d)"
    [AStr "w1"; AStr "edge"; AInt 2; AInt 2].

