(* ===== verification/ScaleDownComplete.v ===== *)
(** * No idle Machine is left on without a reason

    The converse of [ScaleDownSafety]: a scale-down run asks for the drain of the
    Machine it reads, or has a reason not to.  The reasons an event lifts end the
    run for good ([Watches] has the events); the reasons time or other members
    lift make the run ask for the next one.  Nothing is assumed of the
    responses. *)

From S2P Require Import Prelude GoStd Prog K8s Api Client Guards Power Pools NodeOps MachineController ScaleUp ScaleUpSafety ScaleDown ScaleDownSafety Fixture Scenarios.

Local Open Scope Z_scope.

Section reasons.
Context `{KL : K8sLib} `{!MapRange}.
Implicit Types m : Machine.
Implicit Types pool : NodePool.
Implicit Types h : trace.

(** A member of this name that the API server shows neither Ready nor undrained. *)
Definition moved_on (ms : list Machine) m : Prop :=
  ∀ self, memberNamed ms (Name m) = Some self → state self ≠ Ready ∨ drainRequested self = true.

(** Reasons an event lifts. *)
Inductive exempt h m : Prop :=
| exempt_state : state m ≠ Ready → exempt h m
| exempt_asked : drainRequested m = true → exempt h m
| exempt_annotated : observed h (nodeDoNotDisrupt (NodeName (Spec m))) (Ok true) → exempt h m
| exempt_labelled : observed h (nodeAlwaysOn (NodeName (Spec m))) (Ok true) → exempt h m
| exempt_pools pools :
    observed h (matchingPools m) (Ok pools) →
    (∀ pool, pools = [pool] → (consolidateAfter (Some pool)).2 = false) → exempt h m
| exempt_busy : observed h (nodeEmpty (NodeName (Spec m))) (Ok false) → exempt h m
| exempt_moved pool fresh ms :
    observed h (freshPoolState pool) (Ok (fresh, ms)) → moved_on ms m → exempt h m.

(** The window of the pool that consolidates [m]. *)
Definition window h m pool (after : Duration) : Prop :=
  observed h (matchingPools m) (Ok [pool]) ∧ consolidateAfter (Some pool) = (after, true).

(** Reasons time or the other members lift, with the delay until the next run. *)
Inductive held_up h m : Duration → Prop :=
| held_new pool after now m' :
    window h m pool after → EmptySince (Status m) = None →
    Ev (PatchMachineStatus m (set_EmptySince (Some now) m)) (Ok m') ∈ h → held_up h m after
| held_window pool after since elapsed d :
    window h m pool after → EmptySince (Status m) = Some since →
    observed h (clock_since since) elapsed → elapsed < after → minConsolidateRequeue ≤ d → held_up h m d
| held_cooling pool fresh ms until d :
    observed h (freshPoolState pool) (Ok (fresh, ms)) → observed h (coolingDownUntil fresh) until →
    IsZero until = false → minConsolidateRequeue ≤ d → held_up h m d
| held_floor pool fresh ms :
    observed h (freshPoolState pool) (Ok (fresh, ms)) →
    count_if kept_on ms ≤ MinNodes (Pool_Spec fresh) → held_up h m scaleDownBlockedRequeue
| held_concurrent pool fresh ms :
    observed h (freshPoolState pool) (Ok (fresh, ms)) →
    max_concurrent fresh ≤ count_if isScalingDown ms → held_up h m scaleDownBlockedRequeue.

(** The drain of [m] was asked for. *)
Definition drain_asked h m : Prop :=
  ∃ m', machine_patched m (with_Meta (annotate AnnotationDrainNow AnnotationDrainNowValue) m) m' ∈ h.

Definition decided h m (res : ReconcileResult) : Prop :=
  drain_asked h m ∨ exempt h m ∨ held_up h m (RequeueAfter res).

Lemma exempt_mono h h' m : h ⊆ h' → exempt h m → exempt h' m.
Proof.
  intros Hsub Hx. destruct Hx; [by apply exempt_state|by apply exempt_asked|apply exempt_annotated|
    apply exempt_labelled|eapply exempt_pools|apply exempt_busy|eapply exempt_moved]; eauto using observed_mono.
Qed.

Lemma window_mono h h' m pool after : h ⊆ h' → window h m pool after → window h' m pool after.
Proof. intros Hsub [? ?]. split; eauto using observed_mono. Qed.

Lemma held_up_mono h h' m d : h ⊆ h' → held_up h m d → held_up h' m d.
Proof.
  intros Hsub Hx. destruct Hx; [eapply held_new|eapply held_window|eapply held_cooling|eapply held_floor|
    eapply held_concurrent]; eauto using observed_mono, window_mono.
Qed.

Lemma decided_mono h h' m res : h ⊆ h' → decided h m res → decided h' m res.
Proof.
  intros Hsub [(m' & ?)|[?|?]]; [left; exists m'; auto|right; left|right; right];
    eauto using exempt_mono, held_up_mono.
Qed.

(** *** The run *)

Definition decides m h (out : outcome) : Prop :=
  match out.2 with Ok res => decided h m res | Err _ => True end.

Lemma clear_decides R h st m : exempt h m → wp R (λ _ _, True) h (clear_and_stop st m) (decides m).
Proof.
  intros Hx. apply wp_skip; [done|]. intros t [st' [res|]]; [|done]. right. left.
  eapply exempt_mono; [apply app_subseteq_r|done].
Qed.

(** After an announcement the run stops with the delay it was given. *)
Lemma announce_decides R h st m ty reason msg d :
  held_up h m d →
  wp R (λ _ _, True) h (let! st := announceHold st m ty reason msg in done_ st (requeue_after d)) (decides m).
Proof.
  intros Hx. apply wp_bind, wp_skip; [done|]. intros t st'. right. right. cbn.
  eapply held_up_mono; [apply app_subseteq_r|done].
Qed.

Lemma trigger_decides R h st m pool after :
  wp R (λ _ _, True) h (triggerScaleDown st m pool after) (decides m).
Proof.
  unfold triggerScaleDown. apply wp_attempt, wp_record. intros t1 [[fresh ms]|] Hfresh; [|done].
  cbv zeta. destruct (match memberNamed _ _ with None => _ | _ => _ end) eqn:Hstale.
  { right. left. eapply exempt_moved; [done|]. intros self Hself. rewrite Hself in Hstale.
    apply orb_true_iff in Hstale as [Hs|?]; [left|by right]. by bool_simpl. }
  apply wp_bind, wp_record. intros t2 until Huntil. apply (observed_mono _ (t2 ++ t1 ++ h)) in Hfresh; [|set_solver].
  destruct (IsZero until) eqn:Hz; cbn [negb]; cycle 1.
  { wp_call now; [done|]. right. right. apply (held_up_mono (t2 ++ t1 ++ h)); [set_solver|].
    eapply held_cooling; [done|done|done|]. cbn. destruct (_ <? _) eqn:E; bool_simpl; lia. }
  rewrite poolScaleDownCounts_exact. destruct (_ <=? MinNodes _) eqn:Hmin; bool_simpl.
  { by eapply announce_decides, held_floor. }
  destruct (max_concurrent fresh <=? _) eqn:Hmax; bool_simpl.
  { by eapply announce_decides, held_concurrent. }
  apply wp_attempt, wp_skip; [done|]. intros t3 [p|]; [|done].
  apply wp_attempt. unfold requestDrain. wp_call res; [done|]. destruct res as [m'|]; [|done].
  apply wp_ret, wp_skip; [done|]. intros t4 [st' [res|]]; [|done]. left. exists m'.
  apply elem_of_app. right. left.
Qed.

Lemma consolidate_decides R h st m pool after :
  window h m pool after → wp R (λ _ _, True) h (consolidate st m pool after) (decides m).
Proof.
  intros Hw. unfold consolidate. destruct (EmptySince (Status m)) as [since|] eqn:Hsince.
  - apply wp_bind, wp_record. intros t1 elapsed Hel. destruct (elapsed <? after) eqn:Hlt; bool_simpl.
    + right. right. eapply held_window; [|done|done|done|].
      * eapply window_mono; [apply app_subseteq_r|done].
      * cbn. destruct (_ <? minConsolidateRequeue) eqn:E; bool_simpl; lia.
    + apply trigger_decides.
  - apply wp_attempt. unfold stampEmptySince. wp_call now; [done|]. wp_call res; [done|].
    destruct res as [m'|]; [|done]. apply wp_ret. right. right.
    eapply (held_new _ _ pool after now m'); [|done|left]. eapply window_mono; [|done]. set_solver.
Qed.

Lemma nodepools_decide R h st m pools :
  observed h (matchingPools m) (Ok pools) →
  wp R (λ _ _, True) h
    (match pools with
     | _ :: _ :: _ =>
         let! st := announceHold st m EventTypeWarning reasonPoolConflict
           (Sprintf "Machine %q matches %d NodePools (%s); holding automatic scale-down until the overlap is resolved"
              [AStr (Name m); AInt (Z.of_nat (length pools)); AStr (poolNames pools)]) in
         clear_and_stop st m
     | [] => clear_and_stop st m
     | [pool] =>
         let '(after, enabled) := consolidateAfter (Some pool) in
         if negb enabled then clear_and_stop st m
         else
         attempt st (wrapf "check node %q emptiness: %w" [AStr (NodeName (Spec m))]
                       (nodeEmpty (NodeName (Spec m)))) (λ empty,
         if negb empty then clear_and_stop st m
         else consolidate st m pool after)
     end) (decides m).
Proof.
  intros Hpools. destruct pools as [|pool [|pool' pools]].
  - by eapply clear_decides, exempt_pools.
  - destruct (consolidateAfter (Some pool)) as [after enabled] eqn:Hafter. destruct enabled; cbn [negb]; cycle 1.
    { eapply clear_decides, exempt_pools; [done|]. intros p [= <-]. by rewrite Hafter. }
    apply wp_attempt, wp_wrapf, wp_record. intros t1 [[|]|] Hempty; cbn [negb]; [| |done].
    + apply consolidate_decides. split; [|done]. eapply observed_mono; [apply app_subseteq_r|done].
    + by apply clear_decides, exempt_busy.
  - apply wp_bind, wp_skip; [done|]. intros t1 st'. apply clear_decides, (exempt_pools _ _ (pool :: pool' :: pools)); [|done].
    eapply observed_mono; [apply app_subseteq_r|done].
Qed.

Definition machine_missing (name : string) (e : error) : event := Ev (GetMachine name) (Err e).

(** The Machine was read as gone, or its run is decided. *)
Definition reviewed (name : string) h (out : outcome) : Prop :=
  match out.2 with
  | Ok res => (∃ e, machine_missing name e ∈ h ∧ IsNotFound e = true) ∨
              ∃ m, machine_read name m ∈ h ∧ decided h m res
  | Err _ => True
  end.

Lemma reviewed_mono name h h' out : h ⊆ h' → reviewed name h out → reviewed name h' out.
Proof.
  intros Hsub. destruct out as [st [res|]]; [|done].
  intros [(e & ? & ?)|(m & ? & ?)]; [left; exists e|right; exists m]; cbn; eauto using decided_mono.
Qed.

Lemma reconcile_reviews R name st : wp R (λ _ _, True) [] (reconcile st name) (reviewed name).
Proof.
  unfold reconcile. wp_call got; [done|]. destruct got as [m|e]; cycle 1.
  { destruct (IsNotFound e) eqn:He; [|done]. left. exists e. split; [left|done]. }
  assert (∀ h out, machine_read name m ∈ h → decides m h out → reviewed name h out) as Hrev.
  { intros h [st' [res|]] Hm Hd; [|done]. right. by exists m. }
  set (h0 := [machine_read name m]).
  eapply (wp_conseq _ _ _ _ (λ h' out, h0 ⊆ h' ∧ decides m h' out)).
  { intros h' out [Hsub Hd]. apply Hrev; [|done]. apply Hsub. left. }
  apply wp_grows.
  destruct (negb (bool_decide (state m = Ready))) eqn:Hs; bool_simpl.
  { by apply clear_decides, exempt_state. }
  destruct (drainRequested m) eqn:Hd; [by right; left; apply exempt_asked|].
  apply wp_attempt, wp_record. intros t1 [[|]|] Hx1; [by apply clear_decides, exempt_annotated| |done].
  apply wp_attempt, wp_record. intros t2 [[|]|] Hx2; [by apply clear_decides, exempt_labelled| |done].
  apply wp_attempt, wp_record. intros t3 [pools|] Hx3; [|done]. by apply nodepools_decide.
Qed.

End reasons.

(** ** Witness *)

