(* ===== verification/PoolController.v ===== *)
(** * nodepool_controller.go and metrics_collector.go

    The NodePool reconciler keeps a pool's membership counts in its status; the
    state collector computes the gauges at scrape time.  Both are counts over
    listed Machines. *)

From S2P Require Import Prelude GoStd Prog K8s Api Client Guards Power Pools MachineController ScaleUp Fixture Scenarios.

Local Open Scope Z_scope.

Section nodepool.
Context `{KL : K8sLib} `{!MapRange}.
Implicit Types m : Machine.
Implicit Types pool : NodePool.

Definition is_ready m : bool := bool_decide (state m = Ready).

(** [(total, ready)] *)
Definition countMembers (sel : Selector) : prog (result error (Z * Z)) :=
  let? machines := list_machines_matching Cache sel in
  ok (foldl (λ '(total, ready) m, (total + 1, if is_ready m then ready + 1 else ready))
        (0, 0) machines).

Definition NodePool_Reconcile (name : string) : prog (result error ReconcileResult) :=
  let! got := get_pool Cache name in
  match got with
  | Err err => if IsNotFound err then ok Result_ else fail err
  | Ok pool =>
  match LabelSelectorAsSelector (MachineSelector (Pool_Spec pool)) with
  | Err err =>
      let! _ := emit (OnPool (Name pool)) EventTypeWarning "InvalidSelector"
        (Sprintf "machineSelector is invalid, the pool selects no Machines until it is fixed: %v"
           [AErr (err_msg err)]) in
      ok Result_
  | Ok selector =>
  let? '(total, ready) := wrapf "count members of nodepool %q: %w" [AStr (Name pool)]
                            (countMembers selector) in
  if bool_decide (TotalMachines (Pool_Status pool) = total) &&
     bool_decide (ReadyMachines (Pool_Status pool) = ready)
  then ok Result_
  else
  let? pool := wrapf "update status for nodepool %q: %w" [AStr (Name pool)]
                 (update_pool_status (set_Membership total ready pool)) in
  let! _ := emit (OnPool (Name pool)) EventTypeNormal "Membership"
    (Sprintf "pool membership: %d machines, %d ready" [AInt total; AInt ready]) in
  ok Result_
  end
  end.

(** [poolsForMachine]: the pools to reconcile on a Machine event. *)
Definition poolsForMachine m : prog (list string) :=
  let! r := list_pools in
  match r with
  | Err _ => Ret []
  | Ok pools => Ret ((λ p : NodePool, Name p) <$> filter (λ p, pool_selects p (Labels m) = true) pools)
  end.

(** *** Theorems *)

Definition pool_write (e : event) : option NodePool :=
  match ev_call e with UpdatePoolStatus p => Some p | _ => None end.

Lemma pool_write_Some e p : pool_write e = Some p → ev_call e = UpdatePoolStatus p.
Proof. destruct e as [[] res]; unfold pool_write; simpl; congruence. Qed.

Lemma count_fold (ms : list Machine) :
  foldl (λ '(total, ready) m, (total + 1, if is_ready m then ready + 1 else ready)) (0, 0) ms =
    (Z.of_nat (length ms), count_if is_ready ms).
Proof.
  assert (∀ a b, foldl (λ '(total, ready) m, (total + 1, if is_ready m then ready + 1 else ready))
    (a, b) ms = (a + Z.of_nat (length ms), b + count_if is_ready ms)) as Hgen; [|by rewrite Hgen].
  induction ms as [|m ms IH]; intros a b; [unfold count_if; simpl; f_equal; lia|].
  rewrite count_if_cons. simpl. rewrite IH. destruct (is_ready m); f_equal; lia.
Qed.

(** The counts [pool] should report, as the run read its members. *)
Definition counts_read (h : trace) (name : string) (pool' : NodePool) : Prop :=
  ∃ pool sel ms, pool_read Cache name pool ∈ h ∧
    LabelSelectorAsSelector (MachineSelector (Pool_Spec pool)) = Ok sel ∧
    members_read Cache sel ms ∈ h ∧
    pool' = set_Membership (Z.of_nat (length ms)) (count_if is_ready ms) pool ∧
    Pool_Status pool' ≠ Pool_Status pool.

(** The NodePool reconciler writes a pool's status only to change it, and
    writes exactly the number of Machines its selector matches and how many of
    them are Ready; every other field of the status is kept. *)
Theorem pool_counts_are_exact name t a i pool' :
  exec (NodePool_Reconcile name) t a → at_ pool_write t i = Some pool' →
  counts_read (take i t) name pool'.
Proof.
  intros Hx (e & He & Hp%pool_write_Some)%at_Some.
  assert (wp anything (λ h c, match c with
    | UpdatePoolStatus p => counts_read h name p | _ => True end) []
    (NodePool_Reconcile name) (λ _ _, True)) as Hwp.
  { unfold NodePool_Reconcile. wp_call got; [done|]. destruct got as [pool|e']; [|by case_match].
    destruct (LabelSelectorAsSelector _) as [sel|e'] eqn:Hsel; [|by apply wp_bind; wp_call u].
    apply wp_rbind, wp_wrapf. unfold countMembers. apply wp_rbind.
    wp_call res; [done|]. destruct res as [ms|e']; [|done]. apply wp_ret.
    rewrite count_fold. destruct (_ && _) eqn:Hsame; [done|].
    apply wp_rbind. wp_call res; cycle 1.
    { destruct res as [p'|]; [|done]. apply wp_ret. apply wp_bind. by wp_call u. }
    exists pool, sel, ms. split_and!; [right; left|done|left|done|].
    destruct (Pool_Status pool) as [tm rm ? ? ?] eqn:Hst. cbn. rewrite Hst in *. cbn in Hsame |- *.
    intros [= Ht Hr]. rewrite Ht, Hr, !bool_decide_true in Hsame by done. done. }
  pose proof (wp_exec_at _ _ _ _ _ _ _ _ Hwp Hx (Forall_anything _) He) as Hg.
  rewrite Hp in Hg. destruct Hg as (pool & sel & ms & Hr1 & ? & Hr2 & ? & ?).
  apply reverse_subseteq in Hr1. apply reverse_subseteq in Hr2. by exists pool, sel, ms.
Qed.
End nodepool.

(** ** The collector *)

Definition poolUnassigned : string := "<none>".
Definition poolConflicted : string := "<conflict>".
Definition machineStates : list MachineState := [Off; Booting; Ready; Draining; ShuttingDown; Failed].

Section collector.
Context `{KL : K8sLib} `{!MapRange}.
Implicit Types m : Machine.
Implicit Types pools : list NodePool.

(** The loop of [poolLabel] over the pools, with the name found so far. *)
Fixpoint pool_label m pools (name : string) : string :=
  match pools with
  | [] => name
  | p :: rest =>
      if negb (pool_selects p (Labels m)) then pool_label m rest name
      else if negb (bool_decide (name = poolUnassigned)) then poolConflicted
      else pool_label m rest (Name p)
  end.

Definition poolLabel m pools : string := pool_label m pools poolUnassigned.

Definition state_label m : string :=
  match state m with Unset => "Unknown" | s => MachineState_string s end.

Abbreviation sample := (gmap (string * string) Z).

(** Every state of every pool at zero. *)
Definition zero_samples pools : sample :=
  foldl (λ counts (p : NodePool), foldl (λ counts s, <[(Name p, MachineState_string s) := 0]> counts)
    counts machineStates) ∅ pools.

Definition count_machine pools (counts : sample) m : sample :=
  let k := (poolLabel m pools, state_label m) in
  <[k := default 0 (counts !! k) + 1]> counts.

(** [collectNodes]: the samples sent for onp_nodes_total, none on a list error. *)
Definition collectNodes : prog (option sample) :=
  let! r := list_pools in
  match r with
  | Err _ => Ret None
  | Ok pools =>
      let! r := list_machines in
      match r with
      | Err _ => Ret None
      | Ok machines => Ret (Some (foldl (count_machine pools) (zero_samples pools) machines))
      end
  end.

Definition collectPending : prog (option Z) :=
  let! r := list_pods in
  match r with
  | Err _ => Ret None
  | Ok pods => Ret (Some (count_if isScaleUpCandidate pods))
  end.

Definition Collect : prog (option sample * option Z) :=
  let! nodes := collectNodes in
  let! pending := collectPending in
  Ret (nodes, pending).

(** *** Theorems *)

(** A scrape counts the pending pods whether or not the Machines could be
    listed. *)
Lemma Collect_pending t nodes pending :
  exec Collect t (nodes, pending) →
  ∃ r, Ev ListPods r ∈ t ∧
    pending = match r with Ok pods => Some (count_if isScaleUpCandidate pods) | Err _ => None end.
Proof.
  intros (t1 & t2 & n & -> & _ & Hx)%exec_bind_inv.
  apply exec_bind_inv in Hx as (t3 & t4 & q & -> & Hp & [-> [= -> ->]]%exec_ret_inv).
  apply exec_bind_inv in Hp as (t5 & t6 & r & -> & Hd & Hr).
  apply (exec_do_inv (S:=KubeSignature) ListPods) in Hd as ->.
  exists r. split; [set_solver|]. by destruct r; apply exec_ret_inv in Hr as [_ ->].
Qed.

Lemma pool_label_other m pools name :
  name ≠ poolUnassigned →
  pool_label m pools name =
    (if decide (filter (λ p, pool_selects p (Labels m) = true) pools = []) then name else poolConflicted).
Proof.
  intros Hn. induction pools as [|p rest IH]; cbn [pool_label]; [by rewrite decide_True|].
  destruct (pool_selects p (Labels m)) eqn:Hs; cbn [negb].
  - rewrite filter_cons_True by done. rewrite bool_decide_false by done. cbn [negb].
    by rewrite decide_False.
  - rewrite filter_cons_False by congruence. exact IH.
Qed.

(** A Machine is counted under the one pool whose selector matches it,
    under "<none>" when none does and under "<conflict>" when several do; no
    pool can carry either name. *)
Theorem poolLabel_names_the_pool m pools :
  Forall (λ p : NodePool, Name p ≠ poolUnassigned) pools →
  poolLabel m pools =
    match filter (λ p, pool_selects p (Labels m) = true) pools with
    | [] => poolUnassigned
    | [p] => Name p
    | _ => poolConflicted
    end.
Proof.
  unfold poolLabel. induction 1 as [|p rest Hp Hrest IH]; cbn [pool_label]; [done|].
  destruct (pool_selects p (Labels m)) eqn:Hs; cbn [negb].
  - rewrite filter_cons_True by done. rewrite bool_decide_true by done. cbn [negb].
    rewrite pool_label_other by done. by destruct (filter _ rest).
  - rewrite filter_cons_False by congruence. exact IH.
Qed.

Lemma foldl_preserves {A B} (P : B → Prop) (f : B → A → B) (l : list A) (b : B) :
  P b → (∀ b x, P b → P (f b x)) → P (foldl f b l).
Proof. intros Hb Hf. revert b Hb. induction l as [|x l IH]; intros b Hb; simpl; auto. Qed.

Lemma zero_samples_values pools k n : zero_samples pools !! k = Some n → n = 0.
Proof.
  revert k n. unfold zero_samples.
  apply (foldl_preserves (λ acc : sample, ∀ k n, acc !! k = Some n → n = 0)).
  { intros k n. by rewrite lookup_empty. }
  intros acc p Hacc. apply (foldl_preserves (λ acc : sample, ∀ k n, acc !! k = Some n → n = 0)); [done|].
  intros acc' s Hacc' k n. rewrite lookup_insert_Some. naive_solver.
Qed.

Lemma count_machines_lookup pools (acc : sample) ms k :
  default 0 (foldl (count_machine pools) acc ms !! k) =
    default 0 (acc !! k) + count_if (λ m, bool_decide ((poolLabel m pools, state_label m) = k)) ms.
Proof.
  revert acc. induction ms as [|m ms IH]; intros acc; [unfold count_if; simpl; lia|].
  rewrite count_if_cons. simpl. rewrite IH. unfold count_machine. cbv zeta.
  case_bool_decide as Hk.
  - rewrite Hk, lookup_insert_eq. simpl. lia.
  - rewrite lookup_insert_ne by done. lia.
Qed.
End collector.

(** ** Witnesses *)

Definition two_machines : world :=
  MkWorld [machine "w1" Ready None ∅; machine "w2" Off None ∅] [pool 0 None] [] []
    (100 * Second) accepted (Ok "").

Definition pool_run : trace := run_trace serve (NodePool_Reconcile "edge") two_machines.

Lemma pool_counts_are_exact_witness :
  ∃ p, at_ pool_write pool_run 2 = Some p ∧ ReadyMachines (Pool_Status p) = 1 ∧
    counts_read (take 2 pool_run) "edge" p.
Proof.
  observe (at_ pool_write pool_run 2) p E.
  observe_field (at_ pool_write pool_run 2) E (λ p, ReadyMachines (Pool_Status p)) 1.
  exists p. split_and!; [done|done|].
  by apply (pool_counts_are_exact "edge" pool_run _ 2 p (run_exec _ _ _)).
Defined.

Lemma poolLabel_names_the_pool_witness :
  poolLabel (machine "w1" Ready None ∅) [pool 0 None] = "edge".
Proof.
  rewrite (poolLabel_names_the_pool (machine "w1" Ready None ∅) [pool 0 None]);
    [reflexivity|repeat constructor; discriminate].
Defined.
