(* ===== verification/Metrics.v ===== *)
(** * Metrics as Prometheus sees them

    The descriptors of internal/metrics and of the state collector, their
    registration, and the metrics a scrape sends.  Prometheus panics on a second
    registration of a name, on histogram buckets that do not increase and on the
    wrong number of label values, and fails a scrape that sends one series twice:
    the lemmas show that none of this can happen. *)

From S2P Require Import Prelude GoStd Prog K8s Api Client Guards Power Pools NodeOps MachineController MachineLifecycle ScaleUp PoolController Fixture Scenarios.

Local Open Scope Z_scope.

(** ** internal/metrics *)

(** [prometheus.Desc]; an [Opts] with its label names. *)
Record Desc : Type := MkDesc { fqName : string; Desc_Help : string; variableLabels : list string }.

#[global] Instance Desc_eq_dec : EqDecision Desc.
Proof. solve_decision. Defined.

Definition PowerOnTotal_desc : Desc :=
  MkDesc PowerOnTotal "Count of power-on commands issued, by provider and result (success|error)."
    ["provider"; "result"].
Definition ScaleUpLatencySeconds_desc : Desc :=
  MkDesc ScaleUpLatencySeconds "Seconds from power-on to the backing Node reporting Ready." [].
Definition Buckets : list Z := [5; 10; 15; 20; 30; 45; 60; 90; 120; 180; 300; 600].
Definition DrainFailureTotal_desc : Desc :=
  MkDesc DrainFailureTotal "Count of drains/power-offs that failed, by reason." ["reason"].

(** [init] registers these. *)
Definition metrics_init : list Desc :=
  [PowerOnTotal_desc; ScaleUpLatencySeconds_desc; DrainFailureTotal_desc].

(** ** The state collector *)

Record StateCollector : Type := MkStateCollector { nodesTotal : Desc; pendingUnschedulable : Desc }.

Definition NewStateCollector : StateCollector :=
  MkStateCollector
    (MkDesc "onp_nodes_total" "Number of Machines by pool and lifecycle state." ["pool"; "state"])
    (MkDesc "onp_pending_unschedulable" "Number of unschedulable pending pods awaiting a node." []).

Definition Describe (c : StateCollector) : list Desc := [nodesTotal c; pendingUnschedulable c].

(** [prometheus.MustNewConstMetric] *)
Record Metric : Type := MkMetric { metric_desc : Desc; metric_value : Z; metric_labels : list string }.

(** [for k, v := range counts { ch <- ... }]; the channel's reader does not see the
    order. *)
Definition send_nodes (c : StateCollector) (counts : gmap (string * string) Z) : list Metric :=
  (λ kv : string * string * Z, MkMetric (nodesTotal c) kv.2 [kv.1.1; kv.1.2]) <$> map_to_list counts.
Definition send_pending (c : StateCollector) (n : Z) : list Metric :=
  [MkMetric (pendingUnschedulable c) n []].

Section scrape.
Context `{KL : K8sLib} `{!MapRange}.
Implicit Types m : Machine.
Implicit Types pools : list NodePool.

(** What a scrape sends on the channel. *)
Definition scrape (c : StateCollector) : prog (list Metric) :=
  let! out := Collect in
  Ret (match out.1 with Some counts => send_nodes c counts | None => [] end ++
       match out.2 with Some n => send_pending c n | None => [] end).

(** ** Registration *)

(** Every name is registered once, and the histogram's buckets increase. *)
Lemma registration_succeeds :
  NoDup (fqName <$> metrics_init ++ Describe NewStateCollector) ∧ StronglySorted Z.lt Buckets.
Proof. split; [by_compute|]. repeat constructor. Qed.

(** A metric call names a declared metric, with a value for each of its labels. *)
Definition declared_call (c : call) : Prop :=
  match c with
  | CounterInc metric labels =>
      ∃ d, d ∈ metrics_init ∧ fqName d = metric ∧ length labels = length (variableLabels d)
  | HistogramObserve metric _ => metric = fqName ScaleUpLatencySeconds_desc
  | _ => True
  end.

Lemma power_on_declared provider err :
  declared_call (CounterInc PowerOnTotal [provider; err]).
Proof. exists PowerOnTotal_desc. split_and!; [left|done|done]. Qed.
Lemma drain_failure_declared reason : declared_call (CounterInc DrainFailureTotal [reason]).
Proof. exists DrainFailureTotal_desc. split_and!; [do 2 right; left|done|done]. Qed.

(** Every metric call of every run of the Machine reconciler. *)
Lemma Reconcile_declared r `{!ReconcilerContract r} name : emits anything declared_call (Reconcile r name).
Proof.
  obeys_handlers r ltac:(idtac; lazymatch goal with |- declared_call _ =>
    first [exact (power_on_declared _ _) | exact (drain_failure_declared _)] end).
Qed.

(** ** A scrape *)

Definition node_key pools m : string * string := (poolLabel m pools, state_label m).

Lemma count_machines_dom pools acc ms k :
  is_Some (foldl (count_machine pools) acc ms !! k) ↔ is_Some (acc !! k) ∨ ∃ m, m ∈ ms ∧ node_key pools m = k.
Proof.
  revert acc. induction ms as [|m ms IH]; intros acc; simpl.
  { split; [by left|]. intros [?|(m & ?%elem_of_nil & _)]; done. }
  rewrite IH. unfold count_machine at 1. cbv zeta. rewrite lookup_insert_is_Some'.
  unfold node_key in *. set_solver.
Qed.

Lemma foldl_insert_dom {A} (key : A → string * string) (xs : list A) (acc : gmap (string * string) Z) k :
  is_Some (acc !! k) ∨ k ∈ key <$> xs → is_Some (foldl (λ c x, <[key x := 0]> c) acc xs !! k).
Proof.
  revert acc. induction xs as [|x xs IH]; intros acc Hk; simpl; [set_solver|].
  apply IH. rewrite lookup_insert_is_Some'. set_solver.
Qed.

Lemma zero_samples_dom pools (p : NodePool) s :
  p ∈ pools → s ∈ machineStates → is_Some (zero_samples pools !! (Name p, MachineState_string s)).
Proof.
  intros Hp. unfold zero_samples. generalize machineStates. intros states Hs.
  cut (∀ acc : gmap (string * string) Z,
    is_Some (acc !! (Name p, MachineState_string s)) ∨ p ∈ pools →
    is_Some (foldl (λ counts (p : NodePool), foldl (λ counts s, <[(Name p, MachineState_string s) := 0]> counts)
      counts states) acc pools !! (Name p, MachineState_string s))); [intros H'; apply H'; by right|].
  clear Hp. induction pools as [|q pools IH]; intros acc [Ha|Hp]; simpl; try done; [by apply elem_of_nil in Hp|..].
  all: apply IH.
  - left. apply (foldl_insert_dom (λ s, (Name q, MachineState_string s))). by left.
  - apply elem_of_cons in Hp as [->|Hp]; [left|by right].
    apply (foldl_insert_dom (λ s, (Name q, MachineState_string s))). right.
    apply list_elem_of_fmap. by exists s.
Qed.

(** A metric of the collector, with a value for each label. *)
Definition well_formed (c : StateCollector) (x : Metric) : Prop :=
  metric_desc x ∈ Describe c ∧ length (metric_labels x) = length (variableLabels (metric_desc x)).

(** The series a metric belongs to. *)
Definition series (x : Metric) : string * list string := (fqName (metric_desc x), metric_labels x).

Lemma send_nodes_elem c counts v p s :
  MkMetric (nodesTotal c) v [p; s] ∈ send_nodes c counts ↔ counts !! (p, s) = Some v.
Proof.
  unfold send_nodes. rewrite list_elem_of_fmap. split.
  - intros ([[p' s'] v'] & [= -> -> ->] & Hin). by apply elem_of_map_to_list in Hin.
  - intros Hk. exists ((p, s), v). split; [done|]. by apply elem_of_map_to_list.
Qed.

Lemma send_nodes_series c counts : NoDup (series <$> send_nodes c counts).
Proof.
  unfold send_nodes. rewrite <-list_fmap_compose.
  assert (∀ l : list (string * string * Z), NoDup l.*1 →
    NoDup ((series ∘ (λ kv : string * string * Z, MkMetric (nodesTotal c) kv.2 [kv.1.1; kv.1.2])) <$> l)) as Hl.
  { induction l as [|[[p s] v] l IH]; simpl; [constructor|]. intros [Hk Hnd]%NoDup_cons.
    apply NoDup_cons. split; [|by apply IH]. intros ([[p' s'] v'] & [= -> ->] & Hin)%list_elem_of_fmap.
    apply Hk, list_elem_of_fmap. by exists ((p', s'), v'). }
  apply Hl, NoDup_fst_map_to_list.
Qed.

(** What a scrape sends, by what it could list. *)
Definition nodes_sent (c : StateCollector) (t : trace) (nodes : list Metric) : Prop :=
  (nodes = [] ∧ ∃ e, Ev ListPools (Err e) ∈ t ∨ Ev ListMachines (Err e) ∈ t) ∨
  ∃ pools machines, pools_read pools ∈ t ∧ Ev ListMachines (Ok machines) ∈ t ∧
    nodes = send_nodes c (foldl (count_machine pools) (zero_samples pools) machines).
Definition pending_sent (c : StateCollector) (t : trace) (pending : list Metric) : Prop :=
  (pending = [] ∧ ∃ e, Ev ListPods (Err e) ∈ t) ∨
  ∃ pods, Ev ListPods (Ok pods) ∈ t ∧ pending = send_pending c (count_if isScaleUpCandidate pods).

Lemma nodes_sent_mono c t t' nodes : t ⊆ t' → nodes_sent c t nodes → nodes_sent c t' nodes.
Proof.
  intros Hs [[-> (e & [?|?])]|(pools & machines & ? & ? & ->)]; [left; eauto 10|left; eauto 10|right].
  exists pools, machines. auto.
Qed.
Lemma pending_sent_mono c t t' pending : t ⊆ t' → pending_sent c t pending → pending_sent c t' pending.
Proof. intros Hs [[-> (e & ?)]|(pods & ? & ->)]; [left; eauto 10|right; eauto 10]. Qed.

Lemma scrape_runs c t ms :
  exec (scrape c) t ms →
  ∃ nodes pending, ms = nodes ++ pending ∧ nodes_sent c t nodes ∧ pending_sent c t pending.
Proof.
  intros Hx.
  assert (wp anything (λ _ _, True) [] (scrape c) (λ h ms,
    ∃ nodes pending, ms = nodes ++ pending ∧ nodes_sent c h nodes ∧ pending_sent c h pending)) as Hwp.
  { unfold scrape, Collect. apply wp_bind, wp_bind. unfold collectNodes.
    wp_call r1; [done|]. destruct r1 as [pools|e1]; [wp_call r2; [done|]; destruct r2 as [machines|e2]|].
    all: apply wp_ret, wp_bind; unfold collectPending; wp_call r3; [done|]; destruct r3 as [pods|e3].
    all: do 3 apply wp_ret; cbn [fst snd]; eexists _, _; (split; [reflexivity|]); split.
    all: first [ solve [right; eexists; split; [left|done]]
               | solve [left; split; [done|]; exists e3; left]
               | solve [left; split; [done|]; exists e2; right; right; left]
               | solve [left; split; [done|]; exists e1; left; right; left]
               | solve [right; eexists _, _; split_and!; [do 2 right; left|right; left|done]]]. }
  destruct (wp_exec_value _ _ _ _ _ _ Hwp Hx (Forall_anything _)) as (nodes & pending & -> & Hn & Hp).
  exists nodes, pending. eauto using nodes_sent_mono, pending_sent_mono, reverse_subseteq.
Qed.

(** onp_nodes_total is exact: every sample is the number of Machines with its
    labels, and every state of every pool, as every Machine, has its sample. *)
Definition nodes_exact (c : StateCollector) pools (machines : list Machine) (ms : list Metric) : Prop :=
  (∀ v p s, MkMetric (nodesTotal c) v [p; s] ∈ ms →
     v = count_if (λ m, bool_decide (node_key pools m = (p, s))) machines) ∧
  (∀ (p : NodePool) s, p ∈ pools → s ∈ machineStates →
     ∃ v, MkMetric (nodesTotal c) v [Name p; MachineState_string s] ∈ ms) ∧
  (∀ m, m ∈ machines → ∃ v, MkMetric (nodesTotal c) v [poolLabel m pools; state_label m] ∈ ms).

Lemma send_nodes_exact c pools machines :
  nodes_exact c pools machines (send_nodes c (foldl (count_machine pools) (zero_samples pools) machines)).
Proof.
  split_and!.
  - intros v p s Hv%send_nodes_elem. pose proof (count_machines_lookup pools (zero_samples pools) machines (p, s)) as Hc.
    rewrite Hv in Hc. cbn in Hc. rewrite Hc. unfold node_key.
    destruct (zero_samples pools !! (p, s)) eqn:Hz; cbn; [by rewrite (zero_samples_values _ _ _ Hz)|lia].
  - intros p s Hp Hs. destruct (proj2 (count_machines_dom pools (zero_samples pools) machines _)
      (or_introl (zero_samples_dom pools p s Hp Hs))) as [v Hv].
    exists v. by apply send_nodes_elem.
  - intros m Hm. destruct (proj2 (count_machines_dom pools (zero_samples pools) machines (node_key pools m)))
      as [v Hv]; [right; by exists m|]. exists v. by apply send_nodes_elem.
Qed.

(** C28.  A scrape is well formed and exact: every metric is one the collector
    described, with a value for each label; no series is sent twice;
    onp_nodes_total is there unless a list failed, has a sample for every state
    of every pool and for every Machine, each the exact number of Machines with
    its labels; onp_pending_unschedulable is the number of unschedulable pods. *)
Theorem scrape_is_exact t ms :
  let c := NewStateCollector in
  exec (scrape c) t ms →
  Forall (well_formed c) ms ∧ NoDup (series <$> ms) ∧
  ((∃ e, Ev ListPools (Err e) ∈ t ∨ Ev ListMachines (Err e) ∈ t) ∨
   ∃ pools machines, pools_read pools ∈ t ∧ Ev ListMachines (Ok machines) ∈ t ∧
     nodes_exact c pools machines ms) ∧
  ((∃ e, Ev ListPods (Err e) ∈ t) ∨
   ∃ pods, Ev ListPods (Ok pods) ∈ t ∧
     ∀ v, MkMetric (pendingUnschedulable c) v [] ∈ ms ↔ v = count_if isScaleUpCandidate pods).
Proof.
  intros c (nodes & pending & -> & Hn & Hp)%scrape_runs.
  assert (Forall (λ x, metric_desc x = nodesTotal c ∧ length (metric_labels x) = 2%nat) nodes ∧
          NoDup (series <$> nodes)) as [Hnf Hnd].
  { destruct Hn as [[-> _]|(pools & machines & _ & _ & ->)]; [by repeat constructor|].
    split; [|apply send_nodes_series]. apply Forall_fmap, Forall_forall. by intros. }
  assert (∀ x, x ∈ pending → metric_desc x = pendingUnschedulable c ∧ metric_labels x = []) as Hpf.
  { destruct Hp as [[-> _]|(pods & _ & ->)]; [by intros x ?%elem_of_nil|].
    by intros x ->%list_elem_of_singleton. }
  rewrite Forall_forall in Hnf. split_and!.
  - apply Forall_app. split; apply Forall_forall; intros x Hx.
    + destruct (Hnf x Hx) as [Hd Hl]. split; rewrite Hd; [left|done].
    + destruct (Hpf x Hx) as [Hd Hl]. split; rewrite Hd; [right; left|by rewrite Hl].
  - rewrite fmap_app. apply NoDup_app. split_and!; [done| |].
    + intros k (x & -> & Hx)%list_elem_of_fmap (y & Heq & Hy)%list_elem_of_fmap.
      destruct (Hnf x Hx) as [Hd _], (Hpf y Hy) as [Hd' _]. unfold series in Heq.
      rewrite Hd, Hd' in Heq. discriminate Heq.
    + destruct Hp as [[-> _]|(pods & _ & ->)]; [constructor|apply NoDup_singleton].
  - destruct Hn as [[_ ?]|(pools & machines & ? & ? & ->)]; [by left|right].
    exists pools, machines. split_and!; [done..|]. destruct (send_nodes_exact c pools machines) as (He & Hs & Hm).
    split_and!.
    + intros v p s [Hin|Hin]%elem_of_app; [by apply He|]. by destruct (Hpf _ Hin).
    + intros p s Hp' Hs'. destruct (Hs p s Hp' Hs') as [v ?]. exists v. apply elem_of_app. by left.
    + intros m Hm'. destruct (Hm m Hm') as [v ?]. exists v. apply elem_of_app. by left.
  - destruct Hp as [[_ ?]|(pods & ? & ->)]; [by left|right]. exists pods. split; [done|]. intros v.
    rewrite elem_of_app. split.
    + intros [Hin|[= ->]%list_elem_of_singleton]; [|done]. by destruct (Hnf _ Hin).
    + intros ->. right. left.
Qed.
End scrape.

Definition scraped : world :=
  MkWorld [machine "w1" Ready None ∅; machine "w2" Off None ∅] [pool 0 None] [] []
    (100 * Second) accepted (Ok "").

Lemma scrape_is_exact_witness :
  let ms := run_value serve (scrape NewStateCollector) scraped in
  length ms = 7%nat ∧ Forall (well_formed NewStateCollector) ms ∧ NoDup (series <$> ms).
Proof.
  intros ms. split; [by vm_compute|].
  destruct (scrape_is_exact (run_trace serve (scrape NewStateCollector) scraped) ms (run_exec _ _ _))
    as (? & ? & _).
  split; assumption.
Defined.
