(* ===== verification/ShutdownAgent.v ===== *)
(** * internal/shutdownagent: powering the host off

    The agent's reconciler ([reconciler.go]) with the fields it keeps between
    runs, and the parsing of the host's boot time ([boottime.go]).  The theorems:
    the agent halts only its own host, only for a Machine in ShuttingDown, and
    once per episode. *)

From S2P Require Import Prelude GoStd Prog K8s Api Client Fixture Scenarios.
From Stdlib Require Import Ascii.

Local Open Scope Z_scope.

Definition reasonPoweringOff : string := "PoweringOff".
Definition reasonPowerOffSkipped : string := "PowerOffSkipped".
Definition reasonPowerOffFailed : string := "PowerOffFailed".

(** ** boottime.go *)

(** [bufio.Scanner] with [ScanLines]: lines without their end-of-line marker; a
    line that does not fit the 64 KiB buffer ends the scan with an error. *)
Definition MaxScanTokenSize : Z := 65536.

Definition is_newline (c : ascii) : bool := (nat_of_ascii c =? 10)%nat.

(** The text before the first newline, and what follows it. *)
Fixpoint cut_line (s : string) : string * option string :=
  match s with
  | EmptyString => ("", None)
  | String c s' =>
      if is_newline c then ("", Some s')
      else let '(line, rest) := cut_line s' in (String c line, rest)
  end.

(** [dropCR] *)
Definition drop_cr (line : string) : string :=
  match rev_string "" line with
  | String c rest => if (nat_of_ascii c =? 13)%nat then rev_string "" rest else line
  | EmptyString => line
  end.

(** [strings.Fields] *)
Fixpoint fields_from (word : string) (s : string) : list string :=
  match s with
  | EmptyString => if decide (word = "") then [] else [rev_string "" word]
  | String c s' =>
      if is_space c then (if decide (word = "") then [] else [rev_string "" word]) ++ fields_from "" s'
      else fields_from (String c word) s'
  end.
Definition Fields (s : string) : list string := fields_from "" s.

(** [strconv.ParseInt(s, 10, 64)] *)
Definition digit_value (c : ascii) : option Z :=
  let n := Z.of_nat (nat_of_ascii c) in
  if (48 <=? n) && (n <=? 57) then Some (n - 48) else None.

Fixpoint parse_digits (acc : Z) (s : string) : option Z :=
  match s with
  | EmptyString => Some acc
  | String c s' =>
      match digit_value c with
      | None => None
      | Some d => parse_digits (acc * 10 + d) s'
      end
  end.

Definition parse_error (what s : string) : error :=
  NewErrorf "strconv.ParseInt: parsing %q: %s" [AStr s; AStr what].

Definition ParseInt (s : string) : result error Z :=
  let '(neg, digits) :=
    match s with
    | String c rest =>
        if (nat_of_ascii c =? 45)%nat then (true, rest)
        else if (nat_of_ascii c =? 43)%nat then (false, rest) else (false, s)
    | EmptyString => (false, s)
    end in
  if decide (digits = "") then Err (parse_error "invalid syntax" s)
  else
  match parse_digits 0 digits with
  | None => Err (parse_error "invalid syntax" s)
  | Some n =>
      let n := if (neg : bool) then - n else n in
      if (n <? int64_min) || (int64_max <? n) then Err (parse_error "value out of range" s)
      else Ok n
  end.

(** [time.Unix(secs, 0)]: int64 seconds since the zero time, wrapping. *)
Definition unixToInternal : Z := 62135596800.
Definition Unix (secs : Z) : Time := wrap64 (secs + unixToInternal) * Second.

(** What one line of /proc/stat says. *)
Definition btime_line (line : string) : option (result error Time) :=
  match Fields line with
  | [key; value] =>
      if decide (key = "btime") then
        Some (match ParseInt value with
              | Err err => Err (Errorf "parse btime %q: %w" [AStr value] err)
              | Ok secs => Ok (Unix secs)
              end)
      else None
  | _ => None
  end.

Definition no_btime : error := NewErrorf "no btime line in /proc/stat" [].
Definition errTooLong : error := NewErrorf "bufio.Scanner: token too long" [].

(** The scan loop; the fuel bounds the number of lines. *)
Fixpoint scan_btime (fuel : nat) (s : string) : result error Time :=
  match fuel with
  | O => Err no_btime
  | S fuel =>
      if decide (s = "") then Err no_btime
      else
      let '(line, rest) := cut_line s in
      if MaxScanTokenSize <=? Z.of_nat (String.length line) then Err errTooLong
      else
      match btime_line (drop_cr line) with
      | Some r => r
      | None => match rest with Some rest => scan_btime fuel rest | None => Err no_btime end
      end
  end.

Definition parseBootTime (s : string) : result error Time := scan_btime (S (String.length s)) s.

(** ** Facts about the boot time *)

(** The fuel is enough: more changes nothing. *)
Lemma cut_line_shorter s line rest :
  cut_line s = (line, Some rest) → (String.length rest < String.length s)%nat.
Proof.
  revert line. induction s as [|c s IH]; intros line; simpl; [done|].
  destruct (is_newline c); [intros [= <- <-]; lia|].
  destruct (cut_line s) as [l r]. intros [= <- ->]. specialize (IH l eq_refl). lia.
Qed.

Lemma scan_btime_fuel fuel fuel' s :
  (String.length s < fuel)%nat → (String.length s < fuel')%nat →
  scan_btime fuel s = scan_btime fuel' s.
Proof.
  revert fuel' s. induction fuel as [|fuel IH]; intros [|fuel'] s Hf Hf'; try lia. simpl.
  case_decide; [done|]. destruct (cut_line s) as [line [rest|]] eqn:Hc; [|done].
  apply cut_line_shorter in Hc. destruct (_ <=? _); [done|].
  destruct (btime_line _); [done|]. apply IH; lia.
Qed.


(** Printing a number and parsing it back. *)
Lemma digit_value_pretty (x : N) :
  (x < 10)%N → digit_value (pretty_N_char x) = Some (Z.of_N x).
Proof.
  intros Hx. assert (x ∈ [0; 1; 2; 3; 4; 5; 6; 7; 8; 9]%N) as Hin.
  { rewrite !elem_of_cons. lia. }
  repeat (apply elem_of_cons in Hin as [->|Hin]; [done|]). by apply elem_of_nil in Hin.
Qed.

Lemma parse_digits_pretty_go (x : N) s :
  parse_digits 0 (pretty_N_go x s) = parse_digits (Z.of_N x) s.
Proof.
  revert s. induction (N.lt_wf_0 x) as [x _ IH]; intros s.
  destruct (decide (x = 0%N)) as [->|Hx]; [by rewrite pretty_N_go_0|].
  rewrite pretty_N_go_step by lia. rewrite IH by (apply N.div_lt; lia). simpl.
  rewrite digit_value_pretty by (apply N.mod_lt; lia). f_equal.
  pose proof (N.div_mod x 10). lia.
Qed.

Lemma parse_digits_pretty (x : N) : parse_digits 0 (pretty x) = Some (Z.of_N x).
Proof.
  unfold pretty, pretty_N. case_decide as Hx; [by subst|]. by rewrite parse_digits_pretty_go.
Qed.

Definition newline : string := String (ascii_of_nat 10) "".

Fixpoint str_forall (P : ascii → bool) (s : string) : bool :=
  match s with EmptyString => true | String c s' => P c && str_forall P s' end.

Definition is_digit (c : ascii) : bool := bool_decide (is_Some (digit_value c)).

Lemma parse_digits_are_digits acc s n : parse_digits acc s = Some n → str_forall is_digit s = true.
Proof.
  revert acc. induction s as [|c s IH]; intros acc; simpl; [done|].
  destruct (digit_value c) as [d|] eqn:Hd; [|done]. intros Hp%IH.
  rewrite Hp, andb_true_r. unfold is_digit. by rewrite Hd.
Qed.

Lemma str_forall_impl (P Q : ascii → bool) s :
  (∀ c, P c = true → Q c = true) → str_forall P s = true → str_forall Q s = true.
Proof.
  intros HPQ. induction s as [|c s IH]; simpl; [done|]. rewrite !andb_true_iff.
  intros [??]. auto.
Qed.

Lemma is_digit_range c : is_digit c = true → (48 ≤ nat_of_ascii c ≤ 57)%nat.
Proof.
  unfold is_digit, digit_value. rewrite bool_decide_eq_true.
  destruct (_ && _) eqn:E; [|by intros []]. intros _. bool_simpl. lia.
Qed.

Lemma digit_not_space c : is_digit c = true → negb (is_space c) = true.
Proof.
  intros H%is_digit_range. unfold is_space. apply negb_true_iff, orb_false_iff. split.
  - apply Nat.eqb_neq. lia.
  - apply andb_false_iff. right. apply Nat.leb_gt. lia.
Qed.

Lemma digit_not_newline c : is_digit c = true → negb (is_newline c) = true.
Proof. intros H%is_digit_range. apply negb_true_iff, Nat.eqb_neq. lia. Qed.

Lemma str_forall_app P a b : str_forall P (a +:+ b) = str_forall P a && str_forall P b.
Proof. induction a as [|c a IH]; simpl; [done|]. by rewrite IH, andb_assoc. Qed.

Lemma str_forall_rev P acc s : str_forall P (rev_string acc s) = str_forall P s && str_forall P acc.
Proof.
  revert acc. induction s as [|c s IH]; intros acc; simpl; [done|]. rewrite IH. simpl.
  destruct (P c), (str_forall P s); done.
Qed.

(** A word without spaces is one field. *)
Lemma fields_from_word w s :
  str_forall (λ c, negb (is_space c)) s = true →
  fields_from w s = if decide (w = "" ∧ s = "") then [] else [rev_string "" w +:+ s].
Proof.
  revert w. induction s as [|c s IH]; intros w; simpl.
  { intros _. rewrite append_empty_r. repeat case_decide; naive_solver. }
  intros [Hc Hs]%andb_true_iff. apply negb_true_iff in Hc. rewrite Hc, IH by done.
  rewrite !decide_False by naive_solver. simpl. rewrite rev_string_app, append_assoc. done.
Qed.

Lemma drop_cr_none s : str_forall (λ c, negb (nat_of_ascii c =? 13)%nat) s = true → drop_cr s = s.
Proof.
  intros Hs. unfold drop_cr. rewrite <- (andb_true_r (str_forall _ _)) in Hs.
  change true with (str_forall (λ c, negb (nat_of_ascii c =? 13)%nat) "") in Hs at 1.
  rewrite <- str_forall_rev in Hs. destruct (rev_string "" s) as [|c r] eqn:E; [done|].
  simpl in Hs. apply andb_true_iff in Hs as [Hc _]. apply negb_true_iff in Hc. by rewrite Hc.
Qed.

Lemma cut_line_app line rest :
  str_forall (λ c, negb (is_newline c)) line = true →
  cut_line (line +:+ newline +:+ rest) = (line, Some rest).
Proof.
  induction line as [|c line IH]; simpl; [done|]. intros [Hc Hl]%andb_true_iff.
  apply negb_true_iff in Hc. by rewrite Hc, IH.
Qed.

Definition unlines (ls : list string) : string := foldr (λ l s, l +:+ newline +:+ s) "" ls.

(** A line that is not the one looked for. *)
Definition other_line (l : string) : bool :=
  str_forall (λ c, negb (is_newline c)) l && (Z.of_nat (String.length l) <? MaxScanTokenSize) &&
  match btime_line (drop_cr l) with None => true | Some _ => false end.

Lemma scan_btime_skips pre s fuel :
  Forall (λ l, other_line l = true) pre → (String.length (unlines pre +:+ s) < fuel)%nat → s ≠ "" →
  scan_btime fuel (unlines pre +:+ s) = parseBootTime s.
Proof.
  intros Hpre Hf Hs. revert fuel Hf. induction Hpre as [|l pre Hl Hpre IH]; intros fuel Hf.
  { change (unlines [] +:+ s) with s in *. apply scan_btime_fuel; lia. }
  change (unlines (l :: pre)) with (l +:+ newline +:+ unlines pre) in *.
  rewrite !append_assoc in *. destruct fuel as [|fuel]; [lia|]. cbn [scan_btime].
  unfold other_line in Hl. bool_simpl. rewrite cut_line_app by done.
  rewrite decide_False by (by destruct l).
  match goal with H : _ < MaxScanTokenSize |- _ => apply Z.leb_gt in H; rewrite H end.
  destruct (btime_line _); [done|]. apply IH.
  rewrite !length_append in *. simpl in *. lia.
Qed.

Lemma pretty_go_length (k : nat) (x : N) s :
  (x < 10 ^ N.of_nat k)%N → (String.length (pretty_N_go x s) ≤ k + String.length s)%nat.
Proof.
  revert x s. induction k as [|k IH]; intros x s Hx.
  { assert (x = 0%N) as -> by (simpl in Hx; lia). by rewrite pretty_N_go_0. }
  destruct (decide (x = 0%N)) as [->|Hne]; [rewrite pretty_N_go_0; lia|].
  rewrite pretty_N_go_step by lia. etrans; [apply IH|simpl; lia].
  apply N.Div0.div_lt_upper_bound. rewrite <- N.pow_succ_r'. by rewrite <- Nat2N.inj_succ.
Qed.

Lemma pretty_length (n : N) : Z.of_N n ≤ int64_max → (String.length (pretty n) ≤ 19)%nat.
Proof.
  intros Hn. unfold pretty, pretty_N. case_decide; [simpl; lia|].
  etrans; [apply (pretty_go_length 19)|simpl; lia]. unfold int64_max in Hn. simpl. lia.
Qed.

Lemma pretty_nonempty (n : N) : pretty n ≠ "".
Proof.
  intros He. pose proof (parse_digits_pretty n) as Hp. rewrite He in Hp. injection Hp as Hp.
  assert (n = 0%N) as -> by lia. done.
Qed.

Lemma btime_line_pretty (n : N) :
  Z.of_N n ≤ int64_max → btime_line ("btime " +:+ pretty n) = Some (Ok (Unix (Z.of_N n))).
Proof.
  intros Hn. pose proof (parse_digits_pretty n) as Hp.
  pose proof (parse_digits_are_digits _ _ _ Hp) as Hd.
  assert (Fields ("btime " +:+ pretty n) = ["btime"; pretty n]) as Hf.
  { change (Fields ("btime " +:+ pretty n)) with ("btime" :: fields_from "" (pretty n)).
    rewrite fields_from_word by (eapply str_forall_impl; [apply digit_not_space|done]).
    rewrite decide_False; [done|]. intros [_ He]. by apply pretty_nonempty in He. }
  unfold btime_line. rewrite Hf, decide_True by done. f_equal.
  unfold ParseInt. destruct (pretty n) as [|c rest] eqn:E; [by apply pretty_nonempty in E|].
  cbn [str_forall] in Hd. apply andb_true_iff in Hd as [Hc%is_digit_range _].
  rewrite (proj2 (Nat.eqb_neq (nat_of_ascii c) 45)) by lia.
  rewrite (proj2 (Nat.eqb_neq (nat_of_ascii c) 43)) by lia.
  rewrite decide_False by done. rewrite Hp.
  replace (_ || _) with false; [done|]. symmetry. apply orb_false_iff.
  split; [apply Z.ltb_ge|apply Z.ltb_ge]; unfold int64_min, int64_max in *; lia.
Qed.



(** ** reconciler.go *)

(** The configuration; [format] is [Time.Format(time.RFC3339)], which depends on
    the host's time zone.  [boot_check] says whether BootTime is wired. *)
Record ShutdownReconciler : Type := MkShutdownReconciler {
  Agent_NodeName : string;
  boot_check : bool;
  recorder : bool;
  format : Time → string;
}.

(** The fields [issued] and [issuedFor]. *)
Record AgentState : Type := MkAgent { issued : bool; issuedFor : Time }.
Definition agent_start : AgentState := MkAgent false zeroTime.

Section agent.
Context `{K8sTypes}.
Variable r : ShutdownReconciler.
Implicit Types m : Machine.

Definition shutdownEpisode m : Time := default zeroTime (ShutdownStartTime (Status m)).

(** [HostBootTime]: reading the file may fail too. *)
Definition HostBootTime : prog (result error Time) :=
  let! f := read_proc_stat in
  match f with Err e => fail e | Ok content => Ret (parseBootTime content) end.

Definition bootedAfter (episode : Time) : prog bool :=
  if negb (boot_check r) || IsZero episode then Ret false
  else
    let! booted := HostBootTime in
    match booted with Err _ => Ret false | Ok t => Ret (After t episode) end.

Definition agent_event m (ty : EventType) (reason message : string) : prog unit :=
  if recorder r then emit (OnMachine (Name m)) ty reason message else Ret tt.

(** A Machine that leaves its power-off to another provider. *)
Definition other_provider m : bool :=
  match Shutdown (Spec m) with
  | None => false
  | Some s => negb (bool_decide (Shutdown_Provider s = "")) &&
              negb (bool_decide (Shutdown_Provider s = ShutdownProviderAgent))
  end.

Definition Agent_Reconcile (st : AgentState) (name : string)
    : prog (AgentState * result error ReconcileResult) :=
  let! got := get_machine name in
  match got with
  | Err err => Ret (st, if IsNotFound err then Ok Result_ else Err err)
  | Ok m =>
  if negb (bool_decide (NodeName (Spec m) = Agent_NodeName r)) then Ret (st, Ok Result_)
  else if negb (bool_decide (state m = ShuttingDown)) then Ret (st, Ok Result_)
  else if other_provider m then Ret (st, Ok Result_)
  else
  let episode := shutdownEpisode m in
  if issued st && bool_decide (issuedFor st = episode) then Ret (st, Ok Result_)
  else
  let! booted := bootedAfter episode in
  if (booted : bool) then
    let! _ := agent_event m EventTypeWarning reasonPowerOffSkipped
      (Sprintf "node %q booted after the power-off requested at %s; not powering it off again"
         [AStr (Agent_NodeName r); AStr (format r episode)]) in
    Ret (MkAgent true episode, Ok Result_)
  else
  let! off := host_power_off in
  match off with
  | Err err =>
      let! _ := agent_event m EventTypeWarning reasonPowerOffFailed
        (Sprintf "power-off on node %q failed: %v" [AStr (Agent_NodeName r); AErr (err_msg err)]) in
      Ret (st, Err (Errorf "power off node %q: %w" [AStr (Agent_NodeName r)] err))
  | Ok _ =>
      let! _ := agent_event m EventTypeNormal reasonPoweringOff
        (Sprintf "issued graceful power-off on node %q" [AStr (Agent_NodeName r)]) in
      Ret (MkAgent true episode, Ok Result_)
  end
  end.

(** The watch predicate of [SetupWithManager]. *)
Definition ownNode m : bool := bool_decide (NodeName (Spec m) = Agent_NodeName r).

(** *** Theorems *)

Definition is_power_off (c : call) : Prop := match c with HostPowerOff => True | _ => False end.
Definition power_off (e : event) : option unit :=
  match ev_call e with HostPowerOff => Some tt | _ => None end.

(** What justifies halting the host. *)
Definition halt_ok (st : AgentState) (name : string) (h : trace) : Prop :=
  ∃ m, machine_read name m ∈ h ∧ NodeName (Spec m) = Agent_NodeName r ∧ state m = ShuttingDown ∧
    other_provider m = false ∧
    ¬ (issued st = true ∧ issuedFor st = shutdownEpisode m) ∧
    observed h (bootedAfter (shutdownEpisode m)) false.

Lemma wp_Agent_Reconcile R st name :
  wp R (gate is_power_off (λ h _, none_of is_power_off h ∧ halt_ok st name h)) []
    (Agent_Reconcile st name) (λ _ _, True).
Proof.
  unfold Agent_Reconcile. wp_call got; [by intros []|]. destruct got as [m|e]; [|done].
  destruct (negb (bool_decide (NodeName _ = _))) eqn:Hn; [done|].
  destruct (negb (bool_decide (state m = _))) eqn:Hs; [done|].
  destruct (other_provider m) eqn:Ho; [done|]. cbv zeta.
  destruct (issued st && _) eqn:Hi; [done|].
  apply wp_bind, wp_observed; [intros R'; obeys_go ltac:(fail)|]. intros t [|] Hq Hb.
  { apply wp_quiet; [intros R'; obeys_go ltac:(fail)|done]. }
  wp_call off.
  - intros _. split.
    + apply Forall_app. split; [done|]. repeat constructor. by intros [].
    + exists m. bool_simpl. split_and!; [set_solver|done|done|done| |done].
      intros [Hi1 Hi2]. by rewrite Hi1, bool_decide_true in Hi.
  - apply wp_quiet; [intros R'; obeys_go ltac:(fail)|done].
Qed.

(** C8.  The agent halts the host at most once per run, and only after reading
    a Machine that names this very node, is ShuttingDown, leaves its power-off
    to the agent, and whose episode it has neither acted on nor outlived (the
    host did not boot after the request). *)
Theorem agent_halts_only_its_node st name t a i :
  exec (Agent_Reconcile st name) t a → at_ power_off t i = Some tt →
  halt_ok st name (take i t) ∧ ∀ j, (j < i)%nat → at_ power_off t j = None.
Proof.
  intros Hx (e & He & Hp)%at_Some.
  assert (ev_call e = HostPowerOff) as Hc by (by destruct e as [[] ?]).
  pose proof (wp_exec_at _ _ _ _ _ _ _ _ (wp_Agent_Reconcile anything st name) Hx
    (Forall_anything _) He) as Hg.
  rewrite Hc in Hg. destruct (Hg I) as [Hnone (m & Hm & ? & ? & ? & ? & Hb)]. split.
  - exists m. split_and!; try done; [by apply reverse_subseteq in Hm|].
    eapply observed_mono, Hb. apply reverse_subseteq.
  - intros j Hj. destruct (at_ power_off t j) eqn:E; [|done]. exfalso.
    apply at_Some in E as (e' & He' & Hw).
    unfold none_of in Hnone. rewrite reverse_Permutation, Forall_forall in Hnone.
    apply (Hnone e'); [|by destruct e' as [[] ?]].
    apply list_elem_of_lookup. exists j. by rewrite lookup_take_lt.
Qed.

(** *** One episode, one power-off *)

(** A successful power-off. *)
Definition halted (e : event) : bool :=
  match e with
  | Ev c res =>
      match c as c return resp c → bool with
      | HostPowerOff => λ res, is_ok res
      | _ => λ _, false
      end res
  end.
Definition halts (t : trace) : Z := count_if halted t.

(** Every Machine the run reads is in the episode [ep]. *)
Definition in_episode (ep : Time) (e : event) : Prop :=
  match e with
  | Ev c res =>
      match c as c return resp c → Prop with
      | GetMachine _ => λ res, match res with Ok m => shutdownEpisode m = ep | Err _ => True end
      | _ => λ _, True
      end res
  end.

#[global] Instance in_episode_dec ep e : Decision (in_episode ep e).
Proof. destruct e as [[] res]; simpl; try apply _. destruct res; apply _. Defined.

(** The agent has acted on the episode. *)
Definition acted (ep : Time) (st : AgentState) : bool :=
  issued st && bool_decide (issuedFor st = ep).

Lemma halts_quiet t h : none_of is_power_off t → halts (t ++ h) = halts h.
Proof.
  unfold halts. induction 1 as [|[c res] t Hc Ht IH]; [done|]. simpl. rewrite count_if_cons, IH.
  by destruct c.
Qed.

(** The run read a Machine that asks this agent for a power-off. *)
Definition asks_agent m : Prop :=
  NodeName (Spec m) = Agent_NodeName r ∧ state m = ShuttingDown ∧ other_provider m = false.
Definition due (h : trace) : Prop := ∃ e m, e ∈ h ∧ machine_got e = Some m ∧ asks_agent m.

(** The host was found to have booted after the request. *)
Definition outlived (ep : Time) (h : trace) : Prop := observed h (bootedAfter ep) true.

(** What one run does to the record and to the host. *)
Record run_ok (ep : Time) (st st' : AgentState) (h : trace) (res : result error ReconcileResult) : Prop := {
  run_kept : acted ep st = true → halts h = 0 ∧ acted ep st' = true;
  run_idle : acted ep st' = false → halts h = 0;
  run_halts : acted ep st = false → acted ep st' = true → halts h = 1 ∨ halts h = 0 ∧ outlived ep h;
  run_acts : due h → is_ok res = true → acted ep st' = true;
}.

Lemma run_ok_same ep st h res : halts h = 0 → (due h → is_ok res = true → acted ep st = true) → run_ok ep st st h res.
Proof. intros Hh Hd. split; [done|done|congruence|done]. Qed.

Lemma not_due name (m : Machine) : ¬ asks_agent m → ¬ due [Ev (GetMachine name) (Ok m)].
Proof. intros Hn (e & m' & ->%list_elem_of_singleton & [= ->] & ?). done. Qed.

Lemma wp_Agent_episode ep st name :
  wp (in_episode ep) (gate is_power_off (λ _ _, True)) [] (Agent_Reconcile st name)
    (λ h o, run_ok ep st o.1 h o.2).
Proof.
  unfold Agent_Reconcile. wp_call got; [done|].
  match goal with H : in_episode _ _ |- _ => rename H into Hep end.
  destruct got as [m|e]; [|by apply run_ok_same; [|intros (? & ? & ->%list_elem_of_singleton & ? & _)]].
  simpl in Hep. assert (∀ res, ¬ asks_agent m → run_ok ep st st [Ev (GetMachine name) (Ok m)] res) as Hnot.
  { intros res Hn. apply run_ok_same; [done|]. by intros []%not_due. }
  destruct (negb _) eqn:Hnode; [apply wp_ret, Hnot; intros (? & _); by bool_simpl|].
  destruct (negb _) eqn:Hst in |- *; [apply wp_ret, Hnot; intros (_ & ? & _); by bool_simpl|].
  destruct (other_provider m) eqn:Ho; [apply wp_ret, Hnot; intros (_ & _ & ?); congruence|]. rewrite Hep. cbv zeta.
  destruct (issued st && _) eqn:Hi; [by apply wp_ret, run_ok_same|].
  assert (acted ep (MkAgent true ep) = true) as Hact by (unfold acted; simpl; by rewrite bool_decide_true).
  assert (∀ h res, halts h = 1 ∨ halts h = 0 ∧ outlived ep h → run_ok ep st (MkAgent true ep) h res) as Hdone.
  { intros h res Hh. split; [|congruence|done|done]. unfold acted in *. congruence. }
  apply wp_bind, wp_observed; [intros R'; obeys_go ltac:(fail)|]. intros t1 [|] Ht1 Hbooted.
  { apply wp_bind, wp_quiet_new; [intros R'; obeys_go ltac:(fail)|]. intros t2 u Ht2. apply wp_ret, Hdone.
    right. rewrite !halts_quiet by done. split; [done|]. eapply observed_mono, Hbooted. apply app_subseteq_r. }
  wp_call off; [by intros _|]. destruct off as [[]|e]; cbv beta iota;
    (apply wp_bind, wp_quiet_new; [intros R'; obeys_go ltac:(fail)|]); intros t2 u Ht2; apply wp_ret.
  - apply Hdone. left. rewrite halts_quiet by done. unfold halts. rewrite count_if_cons.
    change (1 + halts (t1 ++ [Ev (GetMachine name) (Ok m)]) = 1). by rewrite halts_quiet.
  - apply run_ok_same; [|done]. rewrite halts_quiet by done. unfold halts. rewrite count_if_cons.
    change (0 + halts (t1 ++ [Ev (GetMachine name) (Ok m)]) = 0). by rewrite halts_quiet.
Qed.

(** The life of an agent process: runs one after the other (the controller has
    a single worker), each from the fields the last one left. *)
Inductive agent_runs : AgentState → list (trace * result error ReconcileResult) → AgentState → Prop :=
| agent_idle st : agent_runs st [] st
| agent_run st name t st' res ts st'' :
    exec (Agent_Reconcile st name) t (st', res) → agent_runs st' ts st'' →
    agent_runs st ((t, res) :: ts) st''.

Lemma halts_app t h : halts (t ++ h) = halts t + halts h.
Proof. unfold halts. induction t as [|e t IH]; [done|]. cbn [app]. rewrite !count_if_cons, IH. lia. Qed.

Lemma run_ok_perm ep st st' t res : run_ok ep st st' (reverse t) res → run_ok ep st st' t res.
Proof.
  assert (halts (reverse t) = halts t) as Hrev by (unfold halts; by rewrite reverse_Permutation).
  intros [H1 H2 H3 H4]. rewrite Hrev in *. split; [done|done| |].
  - intros Ha Ha'. destruct (H3 Ha Ha') as [?|[? Ho]]; [by left|right]. split; [done|].
    eapply observed_mono, Ho. apply reverse_subseteq.
  - intros (e & m & He & ?). apply H4. exists e, m. by rewrite elem_of_reverse.
Qed.

Definition agent_log (ts : list (trace * result error ReconcileResult)) : trace := mjoin ts.*1.

(** What a life of the agent does to the record and to the host. *)
Record life_ok (ep : Time) (st st' : AgentState) (ts : list (trace * result error ReconcileResult)) : Prop := {
  life_kept : acted ep st = true → halts (agent_log ts) = 0 ∧ acted ep st' = true;
  life_idle : acted ep st' = false → halts (agent_log ts) = 0;
  life_halts : acted ep st = false → acted ep st' = true →
    halts (agent_log ts) = 1 ∨ halts (agent_log ts) = 0 ∧ outlived ep (agent_log ts);
  life_acts t res : (t, Ok res) ∈ ts → due t → acted ep st' = true;
}.

Lemma agent_life ep st ts st' :
  agent_runs st ts st' → Forall (in_episode ep) (agent_log ts) → life_ok ep st st' ts.
Proof.
  induction 1 as [st|st name t st1 res ts st2 Hx Hruns IH]; intros HR.
  { split; [done|done|congruence|]. intros ? ? []%elem_of_nil. }
  apply Forall_app in HR as [Ht Hts]. destruct (IH Hts) as [K1 K2 K3 K4].
  pose proof (wp_exec_value _ _ _ _ _ _ (wp_Agent_episode ep st name) Hx Ht) as [H1 H2 H3 H4]%run_ok_perm.
  cbn [fst snd] in *. fold (agent_log ts) in *.
  assert (halts (agent_log ((t, res) :: ts)) = halts t + halts (agent_log ts)) as Hsum by apply halts_app.
  assert (∀ h, h ⊆ agent_log ((t, res) :: ts) → outlived ep h → outlived ep (agent_log ((t, res) :: ts))) as Hout
    by (intros h; apply observed_mono).
  split; rewrite ?Hsum.
  - intros [Ht0 Ha1]%H1. destruct (K1 Ha1). split; [lia|done].
  - intros Ha2. destruct (acted ep st1) eqn:Ha1; [destruct (K1 eq_refl); congruence|].
    rewrite (H2 eq_refl), (K2 Ha2). done.
  - intros Ha Ha2. destruct (acted ep st1) eqn:Ha1.
    + destruct (K1 eq_refl) as [Hts0 _], (H3 Ha eq_refl) as [?|[? Ho]]; [left; lia|right].
      split; [lia|]. apply (Hout t); [|done]. intros e He. apply elem_of_app. by left.
    + rewrite (H2 eq_refl). destruct (K3 eq_refl Ha2) as [?|[? Ho]]; [left; lia|right].
      split; [lia|]. by apply (Hout (agent_log ts)); [apply app_subseteq_r|].
  - intros t' res' [[= -> <-]|Hin]%elem_of_cons Hdue; [|by eapply K4]. by apply K1, H4.
Qed.

(** C20.  One power-off per episode: over any life of an agent process in which the
    Machines read are in one ShuttingDown episode, the host is powered off
    successfully at most once.  Once a run that read a Machine asking this agent
    has ended without an error, the episode is settled: it was powered off exactly
    once, unless the record already had it or the host had booted after the
    request. *)
Theorem one_power_off_per_episode ep st ts st' :
  agent_runs st ts st' → Forall (in_episode ep) (agent_log ts) →
  halts (agent_log ts) ≤ 1 ∧
  ∀ t res, (t, Ok res) ∈ ts → due t →
    acted ep st = true ∨ halts (agent_log ts) = 1 ∨ outlived ep (agent_log ts).
Proof.
  intros Hruns HR. destruct (agent_life ep st ts st' Hruns HR) as [K1 K2 K3 K4].
  destruct (acted ep st) eqn:Ha, (acted ep st') eqn:Ha'; split; intros; naive_solver lia.
Qed.
End agent.

(** ** Witnesses *)

Definition w1_agent : ShutdownReconciler := MkShutdownReconciler "w1" true true (λ t, pretty t).

(** ShuttingDown since 100 s after the host booted at the epoch. *)
Definition halt_world : world :=
  MkWorld [machine "w1" ShuttingDown (Some (Add (Unix 0) (100 * Second))) ∅] [] [] []
    (Add (Unix 0) (101 * Second)) accepted (Ok (unlines ["cpu 1"; "btime 0"])).

Definition agent_prog (st : AgentState) : prog (AgentState * result error ReconcileResult) :=
  Agent_Reconcile w1_agent st "w1".
Definition halt_run : trace := run_trace serve (agent_prog agent_start) halt_world.

Lemma agent_halts_only_its_node_witness :
  at_ power_off halt_run 2 = Some tt ∧ halt_ok w1_agent agent_start "w1" (take 2 halt_run).
Proof.
  assert (at_ power_off halt_run 2 = Some tt) as E by (vm_compute; reflexivity).
  split; [exact E|].
  by apply (agent_halts_only_its_node w1_agent agent_start "w1" halt_run _ 2 (run_exec _ _ _)).
Defined.

(** The same Machine delivered twice. *)
Definition acted_state : AgentState := MkAgent true (Add (Unix 0) (100 * Second)).
Definition second_run : trace := run_trace serve (agent_prog acted_state) halt_world.

Definition twice : list (trace * result error ReconcileResult) :=
  [(halt_run, Ok Result_); (second_run, Ok Result_)].

Lemma one_power_off_per_episode_witness :
  halts (agent_log twice) = 1 ∧ halts (agent_log twice) ≤ 1 ∧
  ∀ t res, (t, Ok res) ∈ twice → due w1_agent t →
    acted (Add (Unix 0) (100 * Second)) agent_start = true ∨ halts (agent_log twice) = 1 ∨
    outlived w1_agent (Add (Unix 0) (100 * Second)) (agent_log twice).
Proof.
  split; [vm_compute; reflexivity|].
  apply (one_power_off_per_episode w1_agent (Add (Unix 0) (100 * Second)) agent_start twice acted_state);
    [|by_compute].
  apply (agent_run _ _ "w1" _ acted_state (Ok Result_)).
  { replace (acted_state, Ok Result_) with (run_value serve (agent_prog agent_start) halt_world)
      by (vm_compute; reflexivity). apply run_exec. }
  apply (agent_run _ _ "w1" _ acted_state (Ok Result_)).
  { replace (acted_state, Ok Result_) with (run_value serve (agent_prog acted_state) halt_world)
      by (vm_compute; reflexivity). apply run_exec. }
  constructor.
Defined.
