(* ===== verification/Watches.v ===== *)
(** * SetupWithManager: which events make which runs

    The watches of the five reconcilers: a predicate and a map function per
    watched kind.  controller-runtime's handler and its generation predicate are
    parameters ([WatchLib]) with the behaviour its documentation gives them
    ([WatchLaws]): the map function is run on every object of the event, both of
    an update, and all its requests are queued. *)

From S2P Require Import Prelude GoStd Prog K8s Api Client Guards Pools ScaleUp ScaleDown ScaleDownSafety PoolController NodeOps MachineController ShutdownAgent Fixture Scenarios.

Local Open Scope Z_scope.

(** The objects of an event. *)
Definition objects {T} (e : watch_event T) : list T :=
  match e with
  | CreateEvent o | DeleteEvent o | GenericEvent o => [o]
  | UpdateEvent old new => [old; new]
  end.

(** The object an event is about, as it is now. *)
Definition subject {T} (e : watch_event T) : T :=
  match e with CreateEvent o | DeleteEvent o | GenericEvent o | UpdateEvent _ o => o end.

Class WatchLib `{K8sTypes} : Type := {
  EnqueueRequestsFromMapFunc {T} (f : T → prog (list string)) (e : watch_event T) : prog (list string);
  GenerationChanged (e : watch_event NodePool) : bool;
}.

Class WatchLaws `{K8sTypes} (W : WatchLib) : Prop := {
  mapped_objects {T} (f : T → prog (list string)) e t rs o :
    exec (EnqueueRequestsFromMapFunc f e) t rs → o ∈ objects e →
    ∃ t' rs', t' ⊆ t ∧ exec (f o) t' rs' ∧ rs' ⊆ rs;
  generation_admitted (old new : NodePool) :
    Generation old ≠ Generation new → GenerationChanged (UpdateEvent old new) = true;
}.

Section watches.
Context `{KL : K8sLib} {W : WatchLib}.

(** [Watches(kind, EnqueueRequestsFromMapFunc(f), WithPredicates(pred))] *)
Definition Watch {T} (pred : watch_event T → bool) (f : T → prog (list string)) (e : watch_event T)
    : prog (list string) :=
  if pred e then EnqueueRequestsFromMapFunc f e else Ret [].

(** [For(kind, WithPredicates(pred))]: the object itself. *)
Definition For {T K} (pred : watch_event T → bool) (key : T → K) (e : watch_event T) : list K :=
  if pred e then [key (subject e)] else [].

Definition all_events {T} (e : watch_event T) : bool := true.

(** ** The five reconcilers *)

Definition machine_for (e : watch_event Machine) : list string := For all_events (λ m : Machine, Name m) e.
Definition machine_watches_node (e : watch_event Node) : prog (list string) :=
  Watch all_events machinesForNode e.

Definition nodepool_for (e : watch_event NodePool) : list string := For all_events (λ p : NodePool, Name p) e.
Definition nodepool_watches_machine (e : watch_event Machine) : prog (list string) :=
  Watch all_events poolsForMachine e.

Definition scaleup_for (e : watch_event Pod) : list (string * string) :=
  For unschedulablePodPredicate (λ p : Pod, (Namespace p, Name p)) e.

Definition scaledown_for (e : watch_event Machine) : list string := For all_events (λ m : Machine, Name m) e.

(** The events the scale-down reconciler watches besides Machines. *)
Inductive scaledown_event : Type :=
| PodEvent (e : watch_event Pod)
| PoolEvent (e : watch_event NodePool)
| NodeEvent (e : watch_event Node).

Definition scaledown_watches (ev : scaledown_event) : prog (list string) :=
  match ev with
  | PodEvent e => Watch podEmptinessPredicate machinesForPod e
  | PoolEvent e => Watch GenerationChanged membersOfPool e
  | NodeEvent e => Watch nodeExemptionChanged ScaleDown_machinesForNode e
  end.

Definition shutdown_for (r : ShutdownReconciler) (e : watch_event Machine) : list string :=
  For (λ e, ownNode r (subject e)) (λ m : Machine, Name m) e.

(** ** What a change must make run again *)

(** The Machines a change is about: those on a Node, those a selector matches. *)
Inductive fan_out : Type :=
| OnNode (nodeName : string)
| Matching (sel : Selector).

Definition listed (f : fan_out) (res : result error (list Machine)) : event :=
  match f with
  | OnNode n => Ev (ListMachinesOnNode n) res
  | Matching sel => Ev (ListMachinesMatching Cache sel) res
  end.

(** The node is exempt from scale-down, as the guards read it. *)
Definition do_not_disrupt (n : Node) : bool :=
  bool_decide (map_get (Annotations n) AnnotationDoNotDisrupt = AnnotationDoNotDisruptValue).
Definition always_on (n : Node) : bool :=
  bool_decide (map_get (Labels n) LabelAlwaysOn = LabelAlwaysOnValue).

(** The changes that can turn a Machine into a scale-down candidate or stop it
    being one: its Node fills or empties (a pod keeps its node once bound), its
    pool's spec changes (the API server then counts [metadata.generation] up), an
    exemption of its Node comes or goes. *)
Inductive affects : scaledown_event → fan_out → Prop :=
| affects_create p : occupies p = true → affects (PodEvent (CreateEvent p)) (OnNode (Pod_NodeName p))
| affects_delete p : occupies p = true → affects (PodEvent (DeleteEvent p)) (OnNode (Pod_NodeName p))
| affects_update old new :
    Pod_NodeName old = "" ∨ Pod_NodeName old = Pod_NodeName new → occupies old ≠ occupies new →
    affects (PodEvent (UpdateEvent old new)) (OnNode (Pod_NodeName new))
| affects_pool (old new p : NodePool) sel :
    Generation old ≠ Generation new → p = old ∨ p = new →
    LabelSelectorAsSelector (MachineSelector (Pool_Spec p)) = Ok sel →
    affects (PoolEvent (UpdateEvent old new)) (Matching sel)
| affects_exemption (old new : Node) :
    Name new ≠ "" →
    do_not_disrupt old ≠ do_not_disrupt new ∨ always_on old ≠ always_on new →
    affects (NodeEvent (UpdateEvent old new)) (OnNode (Name new)).

(** The Machines were listed, and unless the list failed all of them are
    queued. *)
Definition queued (f : fan_out) (t : trace) (rs : list string) : Prop :=
  ∃ res, listed f res ∈ t ∧ ∀ ms, res = Ok ms → machineRequests ms ⊆ rs.

Lemma queued_mono f t t' rs rs' : t ⊆ t' → rs ⊆ rs' → queued f t rs → queued f t' rs'.
Proof.
  intros Ht Hr (res & Hl & Hq). exists res. split; [by apply Ht|]. intros ms Hm.
  etrans; [by apply Hq|done].
Qed.

Lemma requests_on_node n t rs :
  n ≠ "" → exec (requestsForMachinesOnNode n) t rs → queued (OnNode n) t rs.
Proof.
  unfold requestsForMachinesOnNode. intros Hn. rewrite decide_False by done.
  intros (t1 & t2 & res & -> & Hd & Hr)%exec_bind_inv.
  apply (exec_do_inv (S:=KubeSignature) (ListMachinesOnNode n)) in Hd as ->.
  exists res. split; [left|]. intros ms ->. by apply exec_ret_inv in Hr as [-> ->].
Qed.

Lemma requests_of_pool pool sel t rs :
  LabelSelectorAsSelector (MachineSelector (Pool_Spec pool)) = Ok sel →
  exec (requestsForPoolMembers pool) t rs → queued (Matching sel) t rs.
Proof.
  unfold requestsForPoolMembers. intros ->.
  intros (t1 & t2 & res & -> & Hd & Hr)%exec_bind_inv.
  apply (exec_do_inv (S:=KubeSignature) (ListMachinesMatching Cache sel)) in Hd as ->.
  exists res. split; [left|]. intros ms ->. by apply exec_ret_inv in Hr as [-> ->].
Qed.

Lemma Watch_runs `{!WatchLaws W} {T} pred (f : T → prog (list string)) e t rs o fo :
  exec (Watch pred f e) t rs → pred e = true → o ∈ objects e →
  (∀ t' rs', exec (f o) t' rs' → queued fo t' rs') → queued fo t rs.
Proof.
  unfold Watch. intros Hx Hp Ho Hf. rewrite Hp in Hx.
  destruct (mapped_objects f e t rs o Hx Ho) as (t' & rs' & ? & Hx' & ?).
  by eapply queued_mono, Hf.
Qed.

Lemma occupies_node p : occupies p = true → Pod_NodeName p ≠ "".
Proof. unfold occupies. intros Ho. by bool_simpl. Qed.

(** The predicates admit every change that matters. *)
Lemma affecting_pod_event e f : affects (PodEvent e) f → podEmptinessPredicate e = true.
Proof.
  intros Ha. destruct (podEmptinessPredicate e) eqn:Hp; [done|].
  apply pod_filter_loses_nothing in Hp. inversion Ha; subst; [congruence..|]. naive_solver.
Qed.

Lemma affecting_node_event e f : affects (NodeEvent e) f → nodeExemptionChanged e = true.
Proof.
  inversion 1 as [| | | |old new _ Hd]; subst. cbn. apply orb_true_iff.
  unfold do_not_disrupt, always_on in Hd.
  destruct Hd as [Hd|Hd]; [left|right]; apply negb_true_iff, bool_decide_eq_false_2;
    intros Heq; apply Hd; by rewrite Heq.
Qed.

(** C27.  The scale-down watches miss nothing: a pod event that changes whether a
    Node is occupied, a change of a pool's spec, and a change of a Node's
    exemptions queue every Machine they are about — all Machines of the Node,
    all members of the pool before and after — unless listing them failed. *)
Theorem changes_are_queued `{!WatchLaws W} ev f t rs :
  affects ev f → exec (scaledown_watches ev) t rs → queued f t rs.
Proof.
  intros Ha. destruct ev as [e|e|e]; simpl; intros Hx.
  - pose proof (affecting_pod_event _ _ Ha) as Hp.
    inversion Ha as [p Ho|p Ho|old new Hb Ho| |]; subst.
    1, 2: eapply (Watch_runs _ _ _ _ _ p); [done|done|left|]; intros ? ?; by apply requests_on_node, occupies_node.
    eapply (Watch_runs _ _ _ _ _ new); [done|done|right; left|]. intros ? ?. apply requests_on_node.
    intros Hn. apply Ho. unfold occupies. rewrite Hn in *. destruct Hb as [-> | ->]; done.
  - inversion Ha as [| | |old new p sel Hs Hp Hsel|]; subst.
    eapply (Watch_runs _ _ _ _ _ p); [done|by apply generation_admitted|set_solver|].
    intros ? ?. by apply requests_of_pool.
  - pose proof (affecting_node_event _ _ Ha) as Hp. inversion Ha as [| | | |old new Hn _]; subst.
    eapply (Watch_runs _ _ _ _ _ new); [done|done|right; left|]. intros ? ?. by apply requests_on_node.
Qed.

(** A Machine event queues every pool that selects the Machine, before or after
    the change. *)
Lemma membership_changes_are_queued `{!WatchLaws W} e m t rs pools p :
  exec (nodepool_watches_machine e) t rs → m ∈ objects e →
  (∀ res, Ev ListPools res ∈ t → res = Ok pools) → p ∈ pools → pool_selects p (Labels m) = true →
  Name p ∈ rs.
Proof.
  intros Hx Hm Hl Hp Hs. destruct (mapped_objects _ _ _ _ m Hx Hm) as (t' & rs' & Ht & Hx' & Hr).
  apply exec_bind_inv in Hx' as (t1 & t2 & res & -> & Hd & Hret).
  apply (exec_do_inv (S:=KubeSignature) ListPools) in Hd as ->.
  rewrite (Hl res) in Hret by (apply Ht; left). apply exec_ret_inv in Hret as [-> ->].
  apply Hr. apply list_elem_of_fmap. exists p. split; [done|]. by apply list_elem_of_filter.
Qed.
End watches.

(** ** The handler of controller-runtime, concretely *)

Fixpoint map_all `{K8sTypes} {T} (f : T → prog (list string)) (l : list T) : prog (list string) :=
  match l with
  | [] => Ret []
  | o :: l => let! rs := f o in let! rest := map_all f l in Ret (rs ++ rest)
  end.

#[export] Instance runtime_watches `{K8sTypes} : WatchLib := {|
  EnqueueRequestsFromMapFunc _ f e := map_all f (objects e);
  GenerationChanged e :=
    match e with UpdateEvent old new => negb (bool_decide (Generation old = Generation new)) | _ => true end;
|}.

Lemma map_all_runs `{K8sTypes} {T} (f : T → prog (list string)) l t rs o :
  exec (map_all f l) t rs → o ∈ l → ∃ t' rs', t' ⊆ t ∧ exec (f o) t' rs' ∧ rs' ⊆ rs.
Proof.
  revert t rs. induction l as [|o' l IH]; intros t rs Hx Ho; [by apply elem_of_nil in Ho|].
  apply exec_bind_inv in Hx as (t1 & t2 & rs1 & -> & H1 & Hx).
  apply exec_bind_inv in Hx as (t3 & t4 & rs2 & -> & H2 & [-> ->]%exec_ret_inv).
  apply elem_of_cons in Ho as [->|Ho].
  - exists t1, rs1. split_and!; [set_solver|done|set_solver].
  - destruct (IH _ _ H2 Ho) as (t' & rs' & ? & ? & ?). exists t', rs'. split_and!; [set_solver|done|set_solver].
Qed.

#[export] Instance runtime_laws `{K8sTypes} : WatchLaws runtime_watches.
Proof.
  split.
  - intros T f e t rs o. apply map_all_runs.
  - intros old new Hg. cbn. by rewrite bool_decide_false.
Qed.

(** The last pod of the Node finishes: its Machine is queued. *)
Definition web : Pod := pod "web" "w1" PodRunning ∅.
Definition web_done : Pod := pod "web" "w1" PodSucceeded ∅.
Definition last_pod_done : scaledown_event := PodEvent (UpdateEvent web web_done).

Lemma changes_are_queued_witness :
  let rs := run_value serve (scaledown_watches last_pod_done) drained_world in
  "w1" ∈ rs ∧
  queued (OnNode "w1") (run_trace serve (scaledown_watches last_pod_done) drained_world) rs.
Proof.
  intros rs. split; [by_compute|].
  apply (changes_are_queued last_pod_done (OnNode "w1")).
  - apply (affects_update web web_done); [by right|vm_compute; done].
  - exact (run_exec serve (scaledown_watches last_pod_done) drained_world).
Defined.
