(* ===== verification/Cmd.v ===== *)
(** * cmd: the program entry points

    The [main] functions of [onp-controller], [onp-wol-agent] and
    [onp-shutdown-agent], and [run] of [wol-probe], from the parsed flags to the
    exit status.  What they do not do themselves — controller-runtime's
    manager, the HTTP server, signals, the environment — are the calls of
    [HostSignature].  Log lines are not calls. *)

From S2P Require Import Prelude GoStd Prog K8s Api Client Text Logging Fixture Guards Power Json Wol Agent NodeOps MachineController MachineLifecycle ShutdownAgent.
From Stdlib Require Import Ascii.

Local Open Scope Z_scope.

(** ** The host *)

(** [http.Server] as [onp-wol-agent] configures it; its handler is the agent's
    with [Srv_Token]. *)
Record Server : Type := MkServer {
  Srv_Addr : string;
  Srv_Token : string;
  Srv_ReadHeaderTimeout : Duration;
  Srv_ReadTimeout : Duration;
  Srv_WriteTimeout : Duration;
}.

(** [ctrl.Options]. *)
Record ManagerOptions : Type := MkManagerOptions {
  Metrics_BindAddress : string;
  HealthProbeBindAddress : string;
  LeaderElection : bool;
  LeaderElectionID : string;
  LeaderElectionReleaseOnCancel : bool;
}.

(** What [ListenAndServe] returned: the sentinel or another error. *)
Inductive serve_error : Type := ErrServerClosed | ServeFailed (e : error).
Definition serve_msg (e : serve_error) : error :=
  match e with ErrServerClosed => NewErrorf "http: Server closed" [] | ServeFailed e => e end.

(** Which case of [run]'s select fired. *)
Inductive selected : Type := ErrCh (e : serve_error) | CtxDone.

Inductive hcall `{K8sTypes} : Type :=
| Getenv (key : string)
| Stderr (line : string)
(** the manager; [GetConfigOrDie] ends the process when it finds no
    configuration *)
| GetConfigOrDie
| NewManager (o : ManagerOptions)
| IndexMachines (field : string) (f : Machine → list string)
| IndexPods (field : string) (f : Pod → list string)
| SetupMachineReconciler (r : MachineReconciler)
| SetupNodePoolReconciler
| SetupScaleUpReconciler
| SetupScaleDownReconciler
| SetupShutdownReconciler (r : ShutdownReconciler)
| MustRegisterCollector
| AddHealthzCheck (name : string)
| AddReadyzCheck (name : string)
| StartManager
(** the HTTP server and its goroutine *)
| GoListenAndServe (s : Server)
| SelectErrOrSignal
| ShutdownServer (timeout : Duration)
| ReceiveErr
(** the network *)
| Net (c : ncall).

Definition hresp `{K8sTypes} (c : hcall) : Type :=
  match c with
  | Getenv _ => string
  | Stderr _ | GoListenAndServe _ => unit
  | GetConfigOrDie | MustRegisterCollector => bool
  | SelectErrOrSignal => selected
  | ReceiveErr => serve_error
  | Net c => nresp c
  | _ => option error
  end.

#[global] Instance HostSignature `{K8sTypes} : Signature | 0 :=
  {| call := hcall; resp := hresp |}.

(** A program of the network, run by a process. *)
Fixpoint on_net `{K8sTypes} {A} (p : prog (S:=NetSignature) A) : prog (S:=HostSignature) A :=
  match p with
  | Ret a => Ret a
  | Call c k => Call (S:=HostSignature) (Net c) (λ r, on_net (k r))
  end.

Section main.
Context `{K8sTypes}.

(** [if err := ...; err != nil { log.Error(err, ...); os.Exit(1) }] *)
Definition or_exit (p : prog (option error)) (k : prog Z) : prog Z :=
  let! err := p in
  match err with Some _ => Ret 1 | None => k end.

(** ** onp-controller *)

Record ControllerFlags : Type := MkControllerFlags {
  metricsAddr : string;
  probeAddr : string;
  leaderElect : bool;
  logLevel : string;
  bootTimeout : Duration;
  shutdownTimeout : Duration;
  nodeLossGracePeriod : Duration;
  wolAgentEndpoint : string;
}.

Definition controller_flags : ControllerFlags :=
  MkControllerFlags ":8080" ":8081" false "info" (10 * Minute) (5 * Minute) Minute
    "http://onp-wol-agent:9119".

Definition tokenEnv : string := "ONP_WOL_AGENT_TOKEN".

Definition manager_options (f : ControllerFlags) : ManagerOptions :=
  MkManagerOptions (metricsAddr f) (probeAddr f) (leaderElect f) "onp-controller.onp.io" true.

(** The client of the wol-agent, given the token's environment variable. *)
Definition wol_client (f : ControllerFlags) (env : string) : WolClient :=
  let token := TrimSpace env in
  NewClient (wolAgentEndpoint f) (if decide (token = "") then [] else [WithToken token]).

(** The two field indexes. *)
Definition machine_index (m : Machine) : list string :=
  if decide (NodeName (Spec m) = "") then [] else [NodeName (Spec m)].
Definition pod_index (p : Pod) : list string :=
  if decide (Pod_NodeName p = "") then [] else [Pod_NodeName p].

Definition machine_reconciler (f : ControllerFlags) (registry : gmap string PowerProvider)
    : MachineReconciler :=
  {| Reg := registry;
     BootTimeout := bootTimeout f; ShutdownTimeout := shutdownTimeout f;
     NodeLossGracePeriod := nodeLossGracePeriod f;
     Evict := None |}.

(** [main]; the result is the exit status. *)
Definition controller_main (f : ControllerFlags) : prog Z :=
  match ParseLevel (logLevel f) with
  | Err err => let! _ := do (Stderr (err_msg err)) in Ret 1
  | Ok _ =>
  let! configured := do GetConfigOrDie in
  if negb configured then Ret 1
  else
  or_exit (do (NewManager (manager_options f))) (
  let! env := do (Getenv tokenEnv) in
  match Register NewRegistry (NewWoLProvider (wol_client f env)) with
  | Err _ => Ret 1
  | Ok registry =>
  or_exit (do (IndexMachines IndexMachineNodeName machine_index)) (
  or_exit (do (IndexPods IndexPodNodeName pod_index)) (
  or_exit (do (SetupMachineReconciler (machine_reconciler f registry))) (
  or_exit (do SetupNodePoolReconciler) (
  or_exit (do SetupScaleUpReconciler) (
  or_exit (do SetupScaleDownReconciler) (
  let! registered := do MustRegisterCollector in
  if negb registered then Ret 2
  else
  or_exit (do (AddHealthzCheck "healthz")) (
  or_exit (do (AddReadyzCheck "readyz")) (
  or_exit (do StartManager) (Ret 0)))))))))
  end)
  end.

(** ** onp-wol-agent *)

Definition serverShutdownTimeout : Duration := 10 * Second.
Definition readHeaderTimeout : Duration := 5 * Second.
Definition readTimeout : Duration := 10 * Second.
Definition writeTimeout : Duration := 10 * Second.

Definition agent_server (listenAddr token : string) : Server :=
  MkServer listenAddr token readHeaderTimeout readTimeout writeTimeout.

(** [run].  Once [Shutdown] was called the goroutine's value is there to be
    received. *)
Definition agent_run (listenAddr token : string) : prog (result error unit) :=
  let! _ := do (GoListenAndServe (agent_server listenAddr token)) in
  let! fired := do SelectErrOrSignal in
  match fired with
  | ErrCh e => fail (Errorf "listen: %w" [] (serve_msg e))
  | CtxDone =>
      let! err := do (ShutdownServer serverShutdownTimeout) in
      match err with
      | Some e => fail (Errorf "graceful shutdown: %w" [] e)
      | None =>
          let! err := do ReceiveErr in
          match err with
          | ErrServerClosed => ok tt
          | ServeFailed e => fail (Errorf "serve: %w" [] e)
          end
      end
  end.

Record AgentFlags : Type := MkAgentFlags {
  listenAddr : string;
  agentLogLevel : string;
  requireToken : bool;
}.

Definition agent_main (f : AgentFlags) : prog Z :=
  match ParseLevel (agentLogLevel f) with
  | Err err => let! _ := do (Stderr (err_msg err)) in Ret 1
  | Ok _ =>
  let! env := do (Getenv tokenEnv) in
  let token := TrimSpace env in
  if bool_decide (token = "") && requireToken f then Ret 1
  else
  let! res := agent_run (listenAddr f) token in
  match res with Err _ => Ret 1 | Ok _ => Ret 0 end
  end.

(** ** onp-shutdown-agent *)

Record ShutdownFlags : Type := MkShutdownFlags {
  nodeNameFlag : option string;
  shutdownMetricsAddr : string;
  shutdownProbeAddr : string;
  shutdownLogLevel : string;
}.

(** [NODE_NAME] is the default of the flag; [fmt_time] prints a time in the
    host's zone. *)
Definition shutdown_main (fmt_time : Time → string) (f : ShutdownFlags) : prog Z :=
  let! env := do (Getenv "NODE_NAME") in
  let nodeName := default env (nodeNameFlag f) in
  match ParseLevel (shutdownLogLevel f) with
  | Err err => let! _ := do (Stderr (err_msg err)) in Ret 1
  | Ok _ =>
  if decide (nodeName = "") then Ret 1
  else
  let! configured := do GetConfigOrDie in
  if negb configured then Ret 1
  else
  or_exit (do (NewManager
    (MkManagerOptions (shutdownMetricsAddr f) (shutdownProbeAddr f) false "" false))) (
  or_exit (do (SetupShutdownReconciler (MkShutdownReconciler nodeName true true fmt_time))) (
  or_exit (do (AddHealthzCheck "healthz")) (
  or_exit (do (AddReadyzCheck "readyz")) (
  or_exit (do StartManager) (Ret 0)))))
  end.

(** ** wol-probe *)

Definition probe_broadcast : string := "255.255.255.255".

(** [net.HardwareAddr.String] *)
Definition hex_byte (n : Z) : string :=
  String (hex_digit (Z.to_nat (n / 16))) (String (hex_digit (Z.to_nat (n mod 16))) "").
Definition mac_string (mac : HardwareAddr) : string := Join (hex_byte <$> mac) ":".

(** [run] from the parsed address on, [broadcast] being the argument or the
    default. *)
Definition probe_send (mac_arg broadcast : string) : prog (result error unit) :=
  match ParseMAC mac_arg with
  | Err err => fail (Errorf "parse MAC %q: %w" [AStr mac_arg] err)
  | Ok mac =>
      let? _ := on_net (Send mac broadcast) in
      let! _ := do (Stderr (Sprintf "wake packet sent to %s via %s"
        [AStr (mac_string mac); AStr broadcast])) in
      ok tt
  end.

Definition probe_run (args : list string) : prog (result error unit) :=
  match args with
  | [mac] => probe_send mac probe_broadcast
  | [mac; broadcast] => probe_send mac broadcast
  | _ => fail (NewErrorf "expected 1 or 2 arguments, got %d" [AInt (Z.of_nat (length args))])
  end.

Definition probe_main (args : list string) : prog Z :=
  let! res := probe_run args in
  match res with
  | Err err => let! _ := do (Stderr (err_msg err)) in Ret 1
  | Ok _ => Ret 0
  end.
End main.

(** ** Theorems *)

(** Walk a [main], leaving its exits. *)
Ltac main_step :=
  lazymatch goal with
  | |- wp _ _ _ (or_exit _ _) _ => unfold or_exit at 1
  | |- wp _ _ _ (if negb ?b then _ else _) _ => destruct b; cbn [negb]; cbv beta iota
  | |- wp _ _ _ (match ?x with _ => _ end) _ =>
      first [is_var x; destruct x | destruct x eqn:?]; cbv beta iota
  | |- wp ?R ?P ?h (do ?c) ?Q =>
      change (P h c ∧ ∀ r, R (Ev c r) → Q (Ev c r :: h) r); split; [exact I|intros ? _; cbv beta iota]
  | |- wp _ _ _ (Ret _) _ => apply wp_ret
  | |- wp _ _ _ _ _ => first [apply wp_bind | wp_unfold]; cbv beta iota zeta
  end.

Section main_theorems.
Context `{KL : K8sLib} `{!MapRange}.

Definition starts (e : event) : bool := match ev_call e with StartManager => true | _ => false end.

(** The reconciler the controller sets up is the production one. *)
Lemma machine_reconciler_production f env :
  ∃ registry, Register NewRegistry (NewWoLProvider (wol_client f env)) = Ok registry ∧
    machine_reconciler f registry =
      production (wol_client f env) (bootTimeout f) (shutdownTimeout f) (nodeLossGracePeriod f).
Proof.
  eexists. split; [|done]. unfold Register, NewRegistry. by rewrite lookup_empty.
Qed.

(** The calls of a controller that comes up. *)
Definition startup (f : ControllerFlags) (env : string) (final : option error) : trace :=
  [ Ev GetConfigOrDie true; Ev (NewManager (manager_options f)) None; Ev (Getenv tokenEnv) env;
    Ev (IndexMachines IndexMachineNodeName machine_index) None;
    Ev (IndexPods IndexPodNodeName pod_index) None;
    Ev (SetupMachineReconciler (production (wol_client f env) (bootTimeout f) (shutdownTimeout f)
          (nodeLossGracePeriod f))) None;
    Ev SetupNodePoolReconciler None; Ev SetupScaleUpReconciler None;
    Ev SetupScaleDownReconciler None; Ev MustRegisterCollector true;
    Ev (AddHealthzCheck "healthz") None; Ev (AddReadyzCheck "readyz") None;
    Ev StartManager final ].

(** What holds of a run by its end. *)
Lemma run_ends {A} (p : prog A) (Q : trace → A → Prop) t a :
  exec p t a → wp anything (λ _ _, True) [] p (λ h, Q (reverse h)) → Q t a.
Proof.
  intros Hx Hp. rewrite <- (reverse_involutive t).
  exact (wp_exec_value _ _ _ _ _ _ Hp Hx (Forall_anything _)).
Qed.

(** C38.  The controller starts its manager only fully wired: with both field
    indexes, all four reconcilers — the Machine reconciler being the production
    one with the flags' timeouts and a WoL client holding the trimmed token —
    and both health checks in place.  Its exit status is 0 exactly when the
    manager was started and returned no error. *)
Theorem controller_starts_wired f t code :
  exec (controller_main f) t code →
  (Forall (λ e, starts e = false) t ∧ code ≠ 0) ∨
  (∃ lvl env final, ParseLevel (logLevel f) = Ok lvl ∧ t = startup f env final ∧
     code = match final with None => 0 | Some _ => 1 end).
Proof.
  intros Hx. refine (run_ends _ (λ t code, _ ∨ _) t code Hx _).
  unfold controller_main. repeat main_step.
  all: try (left; split; [by repeat constructor|done]).
  all: right; match goal with H : Register _ (NewWoLProvider (wol_client ?f ?env)) = _ |- _ =>
    destruct (machine_reconciler_production f env) as (reg & Hr & Hm); rewrite Hr in H;
    injection H as <-; rewrite Hm; do 2 eexists; eexists; split_and!; [done|reflexivity|done] end.
Qed.

(** ** onp-wol-agent *)

(** The server a call starts. *)
Definition served (e : event) : option Server :=
  match ev_call e with GoListenAndServe s => Some s | _ => None end.

(** The agent serves /wake with the trimmed token of its environment and
    nothing else, never with an empty one under --require-token; it exits with
    status 0 only after a signal, a graceful shutdown and the server's own
    closing. *)
Theorem agent_serves_with_its_token f t code :
  exec (agent_main f) t code →
  (Forall (λ e, ∀ s, served e = Some s → ∃ env, Ev (Getenv tokenEnv) env ∈ t ∧
     s = agent_server (listenAddr f) (TrimSpace env) ∧
     (requireToken f = true → Srv_Token s ≠ "")) t) ∧
  (code = 0 → ∃ env, t =
     [ Ev (Getenv tokenEnv) env; Ev (GoListenAndServe (agent_server (listenAddr f) (TrimSpace env))) tt;
       Ev SelectErrOrSignal CtxDone; Ev (ShutdownServer serverShutdownTimeout) None;
       Ev ReceiveErr ErrServerClosed ]).
Proof.
  intros Hx. refine (run_ends _ (λ t code, Forall _ t ∧ _) t code Hx _).
  unfold agent_main. destruct (ParseLevel _) as [lvl|e]; cycle 1.
  { repeat main_step. split; [by repeat constructor|done]. }
  do 2 main_step. destruct (bool_decide _ && requireToken f) eqn:Hreq; repeat main_step.
  { split; [by repeat constructor|done]. }
  all: split; [|intros Hc; try discriminate Hc; match goal with u : resp (GoListenAndServe _) |- _ => destruct u end; by eexists].
  all: repeat (apply Forall_cons_2; [|]); try apply Forall_nil_2; try done.
  all: intros s [= <-]; eexists; (split; [left|]); (split; [done|]); intros Hr Ht; cbn in Ht;
    rewrite bool_decide_true in Hreq by done; by rewrite Hr in Hreq.
Qed.

(** One secret opens the agent: with the same value in both environments, up to
    white space around it, the agent's token is the client's. *)
Lemma wol_client_token f env : token (wol_client f env) = TrimSpace env.
Proof. unfold wol_client, NewClient. by case_decide. Qed.

(** ** onp-shutdown-agent *)

(** The agent watches for the node it was told it runs on, with the reboot
    check wired, and never for the empty name. *)
Lemma shutdown_agent_knows_its_node fmt_time f t code :
  exec (shutdown_main fmt_time f) t code →
  (Forall (λ e, ∀ r, match ev_call e with SetupShutdownReconciler r => Some r | _ => None end = Some r →
     Agent_NodeName r ≠ "" ∧ boot_check r = true ∧
     ∃ env, Ev (Getenv "NODE_NAME") env ∈ t ∧ Agent_NodeName r = default env (nodeNameFlag f)) t) ∧
  (code = 0 → Ev StartManager None ∈ t).
Proof.
  intros Hx. refine (run_ends _ (λ t code, Forall _ t ∧ _) t code Hx _).
  unfold shutdown_main. repeat main_step.
  all: split; [|intros Hc; try discriminate Hc; by apply elem_of_reverse; left].
  all: repeat (apply Forall_cons_2; [|]); try apply Forall_nil_2; try done.
  all: intros rc [= <-]; (split_and!; [done|done|]); eexists; split; [left|done].
Qed.

(** ** wol-probe *)

(** A network event, seen from the process. *)
Definition net_event (e : @event NetSignature) : event :=
  match e with Ev c r => Ev (S:=HostSignature) (Net c) r end.

Lemma exec_on_net {A} (p : prog (S:=NetSignature) A) t a :
  exec (on_net p) t a → ∃ t', exec (S:=NetSignature) p t' a ∧ t = net_event <$> t'.
Proof.
  revert t. induction p as [a'|c k IH]; intros t Hx.
  - apply exec_ret_inv in Hx as [-> ->]. exists []. split; [constructor|done].
  - destruct (exec_inv _ _ _ Hx) as (r & t1 & -> & Hx1). destruct (IH _ _ Hx1) as (t' & ? & ->).
    exists (Ev (S:=NetSignature) c r :: t'). split; [by constructor|done].
Qed.

(** A packet the network took. *)
Definition packet_out (e : event) : bool :=
  match e with Ev c r => match c, r with Net (WriteToUDP _ _), Ok _ => true | _, _ => false end end.

Lemma packet_out_net e : packet_out (net_event e) = delivered e.
Proof. by destruct e as [[] []]. Qed.

Lemma probe_send_packet mac b t res :
  exec (probe_send mac b) t res →
  match res with
  | Ok _ => ∃ hw pkt addr, ParseMAC mac = Ok hw ∧ BuildPacket hw = Ok pkt ∧
      Ev (Net (WriteToUDP pkt addr)) (Ok tt) ∈ t
  | Err _ => Forall (λ e, packet_out e = false) t
  end.
Proof.
  unfold probe_send. destruct (ParseMAC mac) as [hw|e]; [|by intros [-> ->]%exec_ret_inv].
  intros (t1 & t2 & res1 & -> & (t' & Hs%Send_runs & ->)%exec_on_net & Hr)%exec_bind_inv.
  destruct res1 as [[]|e].
  - destruct Hs as (pkt & addr & Hb & ->).
    apply exec_bind_inv in Hr as (t3 & t4 & [] & -> & _ & [-> ->]%exec_ret_inv).
    exists hw, pkt, addr. split_and!; [done..|]. do 4 right. left.
  - apply exec_ret_inv in Hr as [-> ->]. rewrite app_nil_r. apply Forall_fmap.
    eapply Forall_impl; [exact Hs|]. intros e'. cbn. by rewrite packet_out_net.
Qed.

(** The probe reports success exactly when the magic packet of its argument went
    out. *)
Lemma probe_reports_the_packet args t code :
  exec (probe_main args) t code →
  (code = 0 ∧ ∃ mac rest hw pkt addr, args = mac :: rest ∧ ParseMAC mac = Ok hw ∧
     BuildPacket hw = Ok pkt ∧ Ev (Net (WriteToUDP pkt addr)) (Ok tt) ∈ t) ∨
  (code = 1 ∧ Forall (λ e, packet_out e = false) t).
Proof.
  intros (t1 & t2 & res & -> & Hr & Hc)%exec_bind_inv. destruct res as [[]|e].
  - apply exec_ret_inv in Hc as [-> ->]. rewrite app_nil_r. left. split; [done|].
    destruct args as [|mac [|b [|]]]; [by apply exec_ret_inv in Hr as [_ ?]|..|by apply exec_ret_inv in Hr as [_ ?]];
      apply probe_send_packet in Hr as (hw & pkt & addr & ?); by eexists mac, _, hw, pkt, addr.
  - apply exec_bind_inv in Hc as (t3 & t4 & [] & -> & Hs%exec_do_inv & [-> ->]%exec_ret_inv).
    right. split; [done|]. rewrite app_nil_r, Hs. apply Forall_app. split; [|by repeat constructor].
    destruct args as [|mac [|b [|]]]; [by apply exec_ret_inv in Hr as [-> _]|..|by apply exec_ret_inv in Hr as [-> _]];
      by apply probe_send_packet in Hr.
Qed.

End main_theorems.

(** ** Concrete processes *)

Import Fixture.

(** A host where everything works, the secret ends in a newline, and the server
    is stopped by a signal. *)
Definition secret_file : string := "s3cret" +:+ newline.

Definition healthy_host (c : hcall) (w : unit) : hresp c * unit :=
  (match c return hresp c with
   | Getenv _ => secret_file
   | Stderr _ | GoListenAndServe _ => tt
   | GetConfigOrDie | MustRegisterCollector => true
   | SelectErrOrSignal => CtxDone
   | ReceiveErr => ErrServerClosed
   | Net c => (open_network c tt).1
   | _ => None
   end, tt).

Lemma controller_starts_wired_witness :
  let t := run_trace healthy_host (controller_main controller_flags) tt in
  let code := run_value healthy_host (controller_main controller_flags) tt in
  (Forall (λ e, starts e = false) t ∧ code ≠ 0) ∨
  (∃ lvl env final, ParseLevel (logLevel controller_flags) = Ok lvl ∧
     t = startup controller_flags env final ∧ code = match final with None => 0 | Some _ => 1 end).
Proof. apply (controller_starts_wired controller_flags), run_exec. Defined.

Definition locked_agent : AgentFlags := MkAgentFlags ":9119" " Warn" true.

Lemma agent_serves_with_its_token_witness :
  let t := run_trace healthy_host (agent_main locked_agent) tt in
  (Forall (λ e, ∀ s, served e = Some s → ∃ env, Ev (Getenv tokenEnv) env ∈ t ∧
     s = agent_server (listenAddr locked_agent) (TrimSpace env) ∧
     (requireToken locked_agent = true → Srv_Token s ≠ "")) t) ∧
  (run_value healthy_host (agent_main locked_agent) tt = 0 → ∃ env, t =
     [ Ev (Getenv tokenEnv) env;
       Ev (GoListenAndServe (agent_server (listenAddr locked_agent) (TrimSpace env))) tt;
       Ev SelectErrOrSignal CtxDone; Ev (ShutdownServer serverShutdownTimeout) None;
       Ev ReceiveErr ErrServerClosed ]).
Proof. apply (agent_serves_with_its_token locked_agent), run_exec. Defined.

Definition one_secret_prog : prog (S:=NetSignature) Response :=
  Handler (λ _, MkResponse 404 ∅ "") None
    (Srv_Token (agent_server ":9119" (TrimSpace ("" +:+ "s3cret" +:+ newline))))
    (at_agent (wake_request (wol_client controller_flags "s3cret") "01:23:45:67:89:ab" "")).

