(* ===== verification/MachineSystem.v ===== *)
(** * The reconcilers together, on one Machine

    The API server holds one Machine; the Machine reconciler has one run in
    progress on it (controller-runtime never runs two for one key), and any
    number of runs of the other reconcilers, of the shutdown agents, and an
    operator are interleaved with it call by call.  A status update is accepted
    only for the resource version the server holds, a patch changes the fields
    its two objects differ in, a read of the cache answers with some version the
    server has held.

    The theorems are about every interleaving: the server's Machine moves only
    along the lifecycle, and its timers are set in the states that need them. *)

From S2P Require Import Prelude GoStd Prog Ghost K8s Api Client Guards Power Pools NodeOps MachineController MachineLifecycle ScaleUp ScaleDown PoolController ShutdownAgent Fixture Scenarios.

Local Open Scope Z_scope.

(** ** The server *)

Section server.
Context `{K8sTypes}.
Implicit Types m cur : Machine.

(** A three-way merge of one field: kept unless the patch changes it. *)
Definition picked {A} (orig sent cur new : A) : Prop :=
  (orig = sent → new = cur) ∧ (orig ≠ sent → new = sent).

Definition merged_status (orig sent cur new : MachineStatus) : Prop :=
  picked (State orig) (State sent) (State cur) (State new) ∧
  picked (BootStartTime orig) (BootStartTime sent) (BootStartTime cur) (BootStartTime new) ∧
  picked (DrainStartTime orig) (DrainStartTime sent) (DrainStartTime cur) (DrainStartTime new) ∧
  picked (EmptySince orig) (EmptySince sent) (EmptySince cur) (EmptySince new) ∧
  picked (ShutdownStartTime orig) (ShutdownStartTime sent) (ShutdownStartTime cur)
    (ShutdownStartTime new) ∧
  picked (NotReadySince orig) (NotReadySince sent) (NotReadySince cur) (NotReadySince new) ∧
  picked (Conditions orig) (Conditions sent) (Conditions cur) (Conditions new).

(** The name of an object never changes; its version does not go back. *)
Definition same_object (m new : Machine) : Prop :=
  Name new = Name m ∧ ResourceVersion m ≤ ResourceVersion new.

Record server : Type := MkServer { current : Machine; past : list Machine }.

(** The server writes [new]. *)
Definition stored (s : server) (new : Machine) : server := MkServer new (current s :: past s).

Definition held (s : server) (m : Machine) : Prop := m = current s ∨ m ∈ past s.

(** What a call does to the server's Machine [name], and what the response says
    of it.  Reads and calls on other objects leave it alone. *)
Definition effect (name : string) (s : server) (c : call) : resp c → server → Prop :=
  match c as c return resp c → server → Prop with
  | UpdateMachineStatus sent => λ res s',
      match res with
      | Ok m' =>
          if decide (Name sent = name) then
            ResourceVersion sent = ResourceVersion (current s) ∧
            Spec m' = Spec (current s) ∧ Status m' = Status sent ∧ same_object (current s) m' ∧
            s' = stored s m'
          else s' = s
      | Err _ => s' = s
      end
  | PatchMachine orig sent => λ res s',
      match res with
      | Ok m' =>
          if decide (Name orig = name) then
            Spec m' = Spec (current s) ∧ Status m' = Status (current s) ∧
            same_object (current s) m' ∧
            (∀ k, picked (Annotations orig !! k) (Annotations sent !! k)
                    (Annotations (current s) !! k) (Annotations m' !! k)) ∧
            s' = stored s m'
          else s' = s
      | Err _ => s' = s
      end
  | PatchMachineStatus orig sent => λ res s',
      match res with
      | Ok m' =>
          if decide (Name orig = name) then
            Spec m' = Spec (current s) ∧ same_object (current s) m' ∧
            merged_status (Status orig) (Status sent) (Status (current s)) (Status m') ∧
            s' = stored s m'
          else s' = s
      | Err _ => s' = s
      end
  | _ => λ _ s', s' = s
  end.

(** An operator edits the Machine: anything but its status. *)
Definition edited (s s' : server) : Prop :=
  ∃ m', Status m' = Status (current s) ∧ same_object (current s) m' ∧ s' = stored s m'.

(** The worker's read of its Machine, from a cache that answers by [reads]. *)
Definition read_ok (name : string) (reads : server → Machine → Prop) (s : server) (e : event) : Prop :=
  match e with
  | Ev c res =>
      match c as c return resp c → Prop with
      | GetMachine n => λ res,
          match res with Ok m => n = name → reads s m | Err _ => True end
      | _ => λ _, True
      end res
  end.

(** A cache that may be behind, but not on the Machine's lifecycle state. *)
Definition state_fresh (s : server) (m : Machine) : Prop :=
  held s m ∧ state m = state (current s).
End server.

(** ** What a run may do *)

Section protocol.
Context `{K8sTypes}.
Variable name : string.
Implicit Types m : Machine.

(** The timer each state is measured by is set. *)
Definition anchored (st : MachineStatus) : Prop :=
  match State st with
  | Booting => is_Some (BootStartTime st)
  | Draining => is_Some (DrainStartTime st)
  | ShuttingDown => is_Some (ShutdownStartTime st)
  | _ => True
  end.

(** A status patch that leaves the state and its timers alone. *)
Definition keeps_lifecycle (orig sent : Machine) : Prop :=
  State (Status orig) = State (Status sent) ∧
  BootStartTime (Status orig) = BootStartTime (Status sent) ∧
  DrainStartTime (Status orig) = DrainStartTime (Status sent) ∧
  ShutdownStartTime (Status orig) = ShutdownStartTime (Status sent).

(** The ghost state is the state of the server's Machine. *)
Definition lifecycle_pre (s : MachineState) (c : call) : Prop :=
  match c with
  | UpdateMachineStatus m' => Name m' = name ∧ edge s (state m') ∧ anchored (Status m')
  | PatchMachine orig _ => Name orig = name ∧ state orig = s
  | PatchMachineStatus orig sent => Name orig = name ∧ keeps_lifecycle orig sent
  | _ => True
  end.

Definition lifecycle_valid (s : MachineState) (e : event) : Prop :=
  match e with
  | Ev c res =>
      match c as c return resp c → Prop with
      | GetMachine n => λ res,
          match res with Ok m => n = name → Name m = name ∧ state m = s | Err _ => True end
      | UpdateMachineStatus sent => λ res,
          match res with Ok m => Name m = name ∧ state m = state sent | Err _ => True end
      | PatchMachine _ _ | PatchMachineStatus _ _ => λ res,
          match res with Ok m => Name m = name ∧ state m = s | Err _ => True end
      | _ => λ _, True
      end res
  end.

Definition lifecycle_next (s : MachineState) (e : event) : MachineState :=
  match e with
  | Ev c res =>
      match c as c return resp c → MachineState with
      | UpdateMachineStatus sent => λ res, match res with Ok _ => state sent | Err _ => s end
      | _ => λ _, s
      end res
  end.

Definition lifecycle : protocol MachineState :=
  MkProtocol lifecycle_pre lifecycle_valid lifecycle_next.

(** A call of another component: no status update of a Machine, and no status
    patch that touches the lifecycle. *)
Definition harmless (c : call) : Prop :=
  match c with
  | UpdateMachineStatus _ => False
  | PatchMachineStatus orig sent => keeps_lifecycle orig sent
  | _ => True
  end.

(** A call that writes no Machine. *)
Definition no_machine_write (c : call) : Prop :=
  match c with
  | UpdateMachineStatus _ | PatchMachine _ _ | PatchMachineStatus _ _ => False
  | _ => True
  end.

Lemma no_machine_write_idle c : no_machine_write c → idle lifecycle c.
Proof. destruct c; intros Hc g; try done; split; done. Qed.

Lemma gwp_silent {A} s (p : prog A) (Q : MachineState → A → Prop) :
  emits anything no_machine_write p → (∀ a, Q s a) → gwp lifecycle s p Q.
Proof.
  intros Hp HQ. apply gwp_idle; [|done].
  eapply emits_weaken; [apply no_machine_write_idle|exact Hp].
Qed.
End protocol.

(** ** The Machine reconciler keeps the protocol *)

Section worker.
Context `{KL : K8sLib} `{!MapRange}.
Variable r : MachineReconciler.
Context `{!ReconcilerContract r}.
Variable name : string.
Implicit Types m : Machine.
Implicit Types s : MachineState.

(** What the run holds is its Machine, in the state [s]. *)
Definition mine s m : Prop := Name m = name ∧ state m = s.

Lemma gwp_update s m (Q : MachineState → result error Machine → Prop) :
  Name m = name → edge s (state m) → anchored (Status m) →
  (∀ m', mine (state m) m' → Q (state m) (Ok m')) → (∀ e, Q s (Err e)) →
  gwp (lifecycle name) s (update_status m) Q.
Proof. intros ??? HQ HE. apply gwp_do; [done|]. intros [m'|e] Hv; [by apply HQ|apply HE]. Qed.

Lemma gwp_patch_status s (orig m : Machine) (Q : MachineState → result error Machine → Prop) :
  Name orig = name → keeps_lifecycle orig m →
  (∀ m', mine s m' → Q s (Ok m')) → (∀ e, Q s (Err e)) →
  gwp (lifecycle name) s (patch_status orig m) Q.
Proof. intros ?? HQ HE. apply gwp_do; [done|]. intros [m'|e] Hv; [by apply HQ|apply HE]. Qed.

Lemma gwp_patch s (orig m : Machine) (Q : MachineState → result error Machine → Prop) :
  mine s orig → (∀ m', mine s m' → Q s (Ok m')) → (∀ e, Q s (Err e)) →
  gwp (lifecycle name) s (patch_machine orig m) Q.
Proof. intros [??] HQ HE. apply gwp_do; [done|]. intros [m'|e] Hv; [by apply HQ|apply HE]. Qed.

Lemma gwp_removeDrain s m (Q : MachineState → result error Machine → Prop) :
  mine s m → (∀ m', mine s m' → Q s (Ok m')) → (∀ e, Q s (Err e)) →
  gwp (lifecycle name) s (removeDrainAnnotation m) Q.
Proof.
  intros Hm HQ HE. unfold removeDrainAnnotation. destruct (_ !! _); [|by apply gwp_ret, HQ].
  apply gwp_wrapf, gwp_patch; auto.
Qed.

Lemma gwp_removeWake s m (Q : MachineState → result error Machine → Prop) :
  mine s m → (∀ m', mine s m' → Q s (Ok m')) → (∀ e, Q s (Err e)) →
  gwp (lifecycle name) s (removeWakeAnnotation m) Q.
Proof.
  intros Hm HQ HE. unfold removeWakeAnnotation. destruct (_ !! _); [|by apply gwp_ret, HQ].
  apply gwp_wrapf, gwp_patch; auto.
Qed.

Lemma gwp_setCondition s m ty st reason msg (Q : MachineState → Machine → Prop) :
  (∀ cs, Q s (set_Conditions cs m)) → gwp (lifecycle name) s (setCondition m ty st reason msg) Q.
Proof. intros HQ. split; [done|]. intros now _. apply HQ. Qed.

End worker.

(** The walk through the handlers: the calls above by their rules, every other
    sub-program as one that writes no Machine. *)
Ltac on_edge_now :=
  rewrite ?state_set_Conditions;
  first [by constructor
        | match goal with H : state ?m = _ |- edge _ (state ?m) => rewrite H end; constructor].
Ltac anchored_now :=
  unfold anchored; cbn;
  first [done | by eexists
        | match goal with
          | H : state ?m = _ |- context [State (Status ?m)] =>
              change (State (Status m)) with (state m); rewrite H
          end; done].
Ltac lifecycle_step r name :=
  lazymatch goal with
  | |- True => exact I
  | |- gwp _ _ (removeDrainAnnotation _) _ =>
      apply (gwp_removeDrain name); [done|intros ? [??]; cbv beta iota|intros ?; done]
  | |- gwp _ _ (removeWakeAnnotation _) _ =>
      apply (gwp_removeWake name); [done|intros ? [??]; cbv beta iota|intros ?; done]
  | |- gwp _ _ (setCondition _ _ _ _ _) _ => apply gwp_setCondition; intros ?; cbv beta
  | |- gwp _ _ (update_status _) _ =>
      apply (gwp_update name);
        [done|on_edge_now|anchored_now|intros ? [??]; cbv beta iota|intros ?; done]
  | |- gwp _ _ (patch_status _ _) _ =>
      apply (gwp_patch_status name); [done|done|intros ? [??]; cbv beta iota|intros ?; done]
  | |- gwp _ _ (bind _ _) _ => apply gwp_bind
  | |- gwp _ _ (rbind _ _) _ => apply gwp_rbind
  | |- gwp _ _ (wrapf _ _ _) _ => apply gwp_wrapf
  | |- gwp _ _ (Ret _) _ => apply gwp_ret; cbv beta iota
  | |- gwp _ _ (ok _) _ => apply gwp_ret; cbv beta iota
  | |- gwp _ _ (fail _) _ => apply gwp_ret; cbv beta iota
  | |- gwp _ _ (match ?x with _ => _ end) _ => destruct x eqn:?; cbv beta iota
  | |- match ?x with Ok _ => _ | Err _ => _ end => destruct x eqn:?; cbv beta iota
  | |- match ?x with pair _ _ => _ end => destruct x eqn:?; cbv beta iota
  | |- gwp _ _ (failBoot _ _ _) _ => gwp_unfold
  | |- gwp _ _ (promoteToReady _ _) _ => gwp_unfold
  | |- gwp _ _ (startDraining _) _ => gwp_unfold
  | |- gwp _ _ (reconcileReadyNodeLost _ _) _ => gwp_unfold
  | |- gwp _ _ (stampNotReadySince _) _ => gwp_unfold
  | |- gwp _ _ (clearNotReadySince _) _ => gwp_unfold
  | |- gwp _ _ (abortDrain _) _ => gwp_unfold
  | |- gwp _ _ (failDrain _ _) _ => gwp_unfold
  | |- gwp _ _ (finishDrain _) _ => gwp_unfold
  | |- gwp _ _ _ _ =>
      apply gwp_silent; [solve [obeys_handlers r ltac:(fail)]|intros ?; cbv beta iota]
  end.

Section worker_runs.
Context `{KL : K8sLib} `{!MapRange}.
Variable r : MachineReconciler.
Context `{!ReconcilerContract r}.
Variable name : string.
Implicit Types m : Machine.

Lemma dispatch_lifecycle m :
  Name m = name → gwp (lifecycle name) (state m) (dispatch r m) (λ _ _, True).
Proof.
  intros Hn. unfold dispatch. destruct (state m) eqn:Hs; gwp_unfold.
  all: repeat lifecycle_step r name.
Qed.

Lemma Reconcile_lifecycle s : gwp (lifecycle name) s (Reconcile r name) (λ _ _, True).
Proof.
  unfold Reconcile. apply gwp_bind. split; [done|]. intros [m|e] Hv; cbn in Hv |- *; [|by case_match].
  destruct (Hv eq_refl) as [Hn <-]. apply gwp_rbind, gwp_silent; [obeys_go ltac:(fail)|].
  intros [[|o others]|e]; [by apply dispatch_lifecycle| |done].
  by split.
Qed.
End worker_runs.

(** ** The other components are harmless *)

Section others.
Context `{KL : K8sLib} `{!MapRange}.

Lemma ScaleUp_harmless ns n : emits anything harmless (ScaleUp_Reconcile ns n).
Proof. obeys_go ltac:(fail). Qed.

Lemma ScaleDown_harmless st n : emits anything harmless (ScaleDown_Reconcile st n).
Proof. obeys_go ltac:(fail). Qed.

Lemma NodePool_harmless n : emits anything harmless (NodePool_Reconcile n).
Proof. obeys_go ltac:(fail). Qed.

Lemma Agent_harmless a st n : emits anything harmless (Agent_Reconcile a st n).
Proof. obeys_go ltac:(fail). Qed.
End others.

(** ** Effects on the server *)

Section effects.
Context `{K8sTypes}.
Variable name : string.
Variable reads : server → Machine → Prop.
Hypothesis reads_fresh : ∀ s m, reads s m → Name m = name ∧ state m = state (current s).
Implicit Types s : server.

(** The server's object is the Machine [name], with its timers set. *)
Definition well_kept (s : server) : Prop :=
  Name (current s) = name ∧ anchored (Status (current s)).

Lemma merged_keeps orig sent cur new :
  keeps_lifecycle orig sent → merged_status (Status orig) (Status sent) (Status cur) (Status new) →
  state new = state cur ∧ (anchored (Status cur) → anchored (Status new)).
Proof.
  intros (Hs & Hb & Hd & Hh) ([HS _] & [HB _] & [HD _] & _ & [HH _] & _).
  specialize (HS Hs). specialize (HB Hb). specialize (HD Hd). specialize (HH Hh).
  split; [exact HS|]. unfold anchored. by rewrite HS, HB, HD, HH.
Qed.

Lemma well_kept_same s m' :
  same_object (current s) m' → Status m' = Status (current s) →
  well_kept s → well_kept (stored s m') ∧ state (current (stored s m')) = state (current s).
Proof.
  intros [Hn _] Hst [? ?]. unfold well_kept, state. cbn. rewrite Hst. split_and!; [congruence|done|done].
Qed.

Lemma effect_harmless s c res s' :
  harmless c → well_kept s → effect name s c res s' →
  well_kept s' ∧ state (current s') = state (current s).
Proof.
  intros Hc Hk He. destruct c; try (cbn in He; subst s'; by split); [done| |].
  - cbn in Hc, He. destruct res as [m'|]; [|by subst].
    destruct (decide _); [|by subst]. destruct He as (_ & [Hn _] & Hm & ->).
    destruct (merged_keeps _ _ _ _ Hc Hm) as [? Ha]. destruct Hk. unfold well_kept. cbn.
    split_and!; [congruence|auto|done].
  - cbn in He. destruct res as [m'|]; [|by subst].
    destruct (decide _); [|by subst]. destruct He as (_ & Hst & Hn & _ & ->).
    by apply well_kept_same.
Qed.

(** A call that meets the protocol is answered by the server as the protocol
    says, and moves the server as the protocol says. *)
Lemma effect_protocol s c res s' :
  lifecycle_pre name (state (current s)) c → well_kept s →
  effect name s c res s' → read_ok name reads s (Ev c res) →
  lifecycle_valid name (state (current s)) (Ev c res) ∧ well_kept s' ∧
  state (current s') = lifecycle_next (state (current s)) (Ev c res).
Proof.
  intros Hp Hk He Hr. destruct c; try (cbn in He; subst s'; done).
  - cbn in He, Hr |- *. subst s'. split_and!; [|done|done].
    destruct res; [|done]. intros ->. by apply reads_fresh, Hr.
  - cbn in Hp, He |- *. destruct res as [m'|]; [|by subst]. destruct Hp as (Hn & _ & Ha).
    rewrite decide_True in He by done. destruct He as (_ & _ & Hst & [Hn' _] & ->).
    destruct Hk. unfold well_kept, state in *. cbn. rewrite Hst.
    split_and!; congruence || done.
  - cbn in Hp, He |- *. destruct res as [m'|]; [|by subst]. destruct Hp as [Hn Hkeep].
    rewrite decide_True in He by done. destruct He as (_ & [Hn' _] & Hm & ->).
    destruct (merged_keeps _ _ _ _ Hkeep Hm) as [? Ha]. destruct Hk. unfold well_kept. cbn.
    split_and!; congruence || auto.
  - cbn in Hp, He |- *. destruct res as [m'|]; [|by subst]. destruct Hp as [Hn Hs].
    rewrite decide_True in He by done. destruct He as (_ & Hst & Hso & _ & ->).
    destruct (well_kept_same s m' Hso Hst Hk) as [Hk' ?].
    split_and!; [destruct Hk, Hso; congruence|unfold state; by rewrite Hst|done|done].
Qed.
End effects.

(** ** The system *)

Section system.
Context `{KL : K8sLib} `{!MapRange}.
Variable r : MachineReconciler.
Context `{!ReconcilerContract r}.
Variable name : string.
Variable reads : server → Machine → Prop.

(** A run in progress: what is left of it. *)
Inductive thread : Type :=
| Thread {A : Type} (p : prog A).

(** The runs of the other components. *)
Inductive component : thread → Prop :=
| component_scale_up ns n : component (Thread (ScaleUp_Reconcile ns n))
| component_scale_down st n : component (Thread (ScaleDown_Reconcile st n))
| component_node_pool n : component (Thread (NodePool_Reconcile n))
| component_agent a st n : component (Thread (Agent_Reconcile a st n)).

Record system : Type := MkSystem {
  srv : server;
  worker : option (prog (result error ReconcileResult));
  others : list thread;
}.

Inductive sys_step : system → system → Prop :=
| step_start s o : sys_step (MkSystem s None o) (MkSystem s (Some (Reconcile r name)) o)
| step_call s c k o res s' :
    effect name s c res s' → read_ok name reads s (Ev c res) →
    sys_step (MkSystem s (Some (Call c k)) o) (MkSystem s' (Some (k res)) o)
| step_stop s p o :
    (** the run returns, or the controller restarts *)
    sys_step (MkSystem s (Some p) o) (MkSystem s None o)
| step_spawn s w o t : component t → sys_step (MkSystem s w o) (MkSystem s w (t :: o))
| step_other A s w o1 o2 c (k : resp c → prog A) res s' :
    effect name s c res s' →
    sys_step (MkSystem s w (o1 ++ Thread (Call c k) :: o2))
             (MkSystem s' w (o1 ++ Thread (k res) :: o2))
| step_edit s w o s' : edited s s' → sys_step (MkSystem s w o) (MkSystem s' w o).

(** A Machine just created. *)
Definition created (y : system) : Prop :=
  Name (current (srv y)) = name ∧ state (current (srv y)) = Unset ∧ past (srv y) = [] ∧
  worker y = None ∧ others y = [].

Definition reachable (y : system) : Prop := ∃ y0, created y0 ∧ rtc sys_step y0 y.

Definition harmless_thread (t : thread) : Prop :=
  match t with Thread p => emits anything harmless p end.

Record system_inv (y : system) : Prop := {
  si_kept : well_kept name (srv y);
  si_worker p : worker y = Some p → gwp (lifecycle name) (state (current (srv y))) p (λ _ _, True);
  si_others : Forall harmless_thread (others y);
}.

Lemma component_harmless t : component t → harmless_thread t.
Proof.
  destruct 1; [apply ScaleUp_harmless|apply ScaleDown_harmless|apply NodePool_harmless|apply Agent_harmless].
Qed.

Hypothesis reads_fresh : ∀ s m, reads s m → Name m = name ∧ state m = state (current s).

(** Every step keeps the invariant and refines the lifecycle: the state of the
    server's Machine stays, or follows an edge. *)
Lemma sys_step_inv y y' :
  sys_step y y' → system_inv y →
  system_inv y' ∧
  (state (current (srv y')) = state (current (srv y)) ∨
   edge (state (current (srv y))) (state (current (srv y')))).
Proof.
  intros Hstep [Hk Hw Ho]. destruct Hstep as
    [s o|s c k o res s' He Hr|s p o|s w o t Ht|A s w o1 o2 c k res s' He|s w o s' He];
    cbn in Hk, Hw, Ho |- *.
  - split; [split; cbn|by left]; [done| |done]. intros p [= <-]. by apply Reconcile_lifecycle.
  - destruct (Hw _ eq_refl) as [Hpre Hk'].
    destruct (effect_protocol name reads reads_fresh s c res s' Hpre Hk He Hr) as (Hv & Hkept & Hst).
    split; [split; cbn|]; [done| |done|].
    + intros p [= <-]. rewrite Hst. by apply Hk'.
    + rewrite Hst. destruct c; try (by left). cbn in Hpre |- *. destruct res; [right|by left].
      by destruct Hpre as (_ & ? & _).
  - split; [by split|by left].
  - split; [split; cbn|by left]; [done|done|]. constructor; [by apply component_harmless|done].
  - apply Forall_app in Ho as [Ho1 [Hc Ho2]%Forall_cons].
    destruct (Hc []) as [Hharm _].
    destruct (effect_harmless name s c res s' Hharm Hk He) as [Hk' Hst].
    split; [split; cbn|by left]; [done|by rewrite Hst|].
    apply Forall_app. split; [done|]. constructor; [|done].
    by apply (emits_call _ _ c k res Hc).
  - destruct He as (m' & Hst & Hso & ->). destruct (well_kept_same name s m' Hso Hst Hk) as [? Hs'].
    split; [split|by left]; [done| |done]. intros p Hp. cbn in Hs' |- *. rewrite Hs'. by apply Hw.
Qed.

Lemma reachable_inv y : reachable y → system_inv y.
Proof.
  intros (y0 & (Hn & Hs & _ & Hw & Ho) & Hrun).
  assert (system_inv y0) as Hi0.
  { split; [|by rewrite Hw|by rewrite Ho]. split; [done|]. unfold anchored, state in *. by rewrite Hs. }
  clear Hn Hs Hw Ho. induction Hrun as [y|y0 y1 y Hstep _ IH]; [done|].
  by apply IH; eapply sys_step_inv.
Qed.


End system.

(** ** A run of the system *)

Import Fixture.

Definition w1_reads (s : server) (m : Machine) : Prop := Name m = "w1" ∧ state_fresh s m.

Definition w1 (s : MachineState) : Machine := machine "w1" s None ∅.

Definition w1_created : system := MkSystem (MkServer (w1 Unset) []) None [].

(** The first run on the Machine: read, claim check, initialisation. *)
Definition w1_running (p : prog (result error ReconcileResult)) : system :=
  MkSystem (MkServer (w1 Unset) []) (Some p) [].

Definition initialising : prog (result error ReconcileResult) := initialize (w1 Unset).

Lemma w1_reaches_initialise : reachable onp "w1" w1_reads (w1_running initialising).
Proof.
  exists w1_created. split; [by split_and!|].
  eapply rtc_l; [apply step_start|].
  eapply rtc_l.
  { eapply (step_call _ _ _ _ (GetMachine "w1") _ _ (Ok (w1 Unset))); [reflexivity|].
    intros _. split; [done|]. split; [by left|done]. }
  eapply rtc_l.
  { eapply (step_call _ _ _ _ (ListMachinesOnNode "w1") _ _ (Ok [w1 Unset])); [reflexivity|exact I]. }
  apply rtc_refl.
Qed.

Lemma w1_reads_fresh s m : w1_reads s m → Name m = "w1" ∧ state m = state (current s).
Proof. by intros [? [_ ?]]. Qed.

Definition w1_off : server := MkServer (w1 Off) [w1 Unset].


