(* ===== verification/SystemRuns.v ===== *)
(** * Runs of the system

    An API server that can be executed: it checks the resource version of a
    status update, merges patches and numbers the versions it stores; its cache
    answers a read of the Machine with a version [depth] behind the current one.
    Its runs are runs of the system of [MachineSystem], so evaluating one shows
    what the system can reach. *)

From S2P Require Import Prelude GoStd Prog K8s Api Client Guards Power Pools NodeOps MachineController MachineLifecycle MachineSystem Fixture Scenarios.
Import Fixture.

Local Open Scope Z_scope.

#[global] Instance Condition_eq_dec : EqDecision Condition.
Proof. solve_decision. Defined.

(** ** An executable server *)

Definition bump (o : ObjectMeta) : ObjectMeta :=
  MkMeta (Name o) (Namespace o) (Labels o) (Annotations o) (Generation o) (ResourceVersion o + 1)
    (DeletionTimestamp o) (OwnerKinds o).

Definition pick {A} `{!EqDecision A} (orig sent cur : A) : A :=
  if decide (orig = sent) then cur else sent.

Definition merge_annotations (orig sent cur : gmap string string) : gmap string string :=
  filter (λ kv, orig !! kv.1 = sent !! kv.1) cur ∪
  filter (λ kv, orig !! kv.1 ≠ sent !! kv.1) sent.

Definition merge_status (orig sent cur : MachineStatus) : MachineStatus :=
  MkMachineStatus (pick (State orig) (State sent) (State cur))
    (pick (BootStartTime orig) (BootStartTime sent) (BootStartTime cur))
    (pick (DrainStartTime orig) (DrainStartTime sent) (DrainStartTime cur))
    (pick (EmptySince orig) (EmptySince sent) (EmptySince cur))
    (pick (ShutdownStartTime orig) (ShutdownStartTime sent) (ShutdownStartTime cur))
    (pick (NotReadySince orig) (NotReadySince sent) (NotReadySince cur))
    (pick (Conditions orig) (Conditions sent) (Conditions cur)).

Record sim : Type := MkSim { sim_srv : server; sim_world : world }.

Definition conflict {A} : result error A := Err (MkError ReasonConflict "the object has been modified").

(** The server writes a new version with the given annotations and status. *)
Definition commit (annotations : gmap string string) (st : MachineStatus) (w : sim)
    : result error Machine * sim :=
  let cur := current (sim_srv w) in
  let m' := MkMachine (bump (set_Annotations annotations (Machine_ObjectMeta cur))) (Spec cur) st in
  (Ok m', MkSim (stored (sim_srv w) m') (sim_world w)).

Definition simserve (depth : nat) (c : call) : sim → resp c * sim :=
  match c as c return sim → resp c * sim with
  | GetMachine _ => λ w,
      (Ok (nth depth (current (sim_srv w) :: past (sim_srv w)) (current (sim_srv w))), w)
  | ListMachinesOnNode _ => λ w, (Ok [current (sim_srv w)], w)
  | UpdateMachineStatus sent => λ w,
      if decide (Name sent = "w1" ∧ ResourceVersion sent = ResourceVersion (current (sim_srv w)))
      then commit (Annotations (current (sim_srv w))) (Status sent) w else (conflict, w)
  | PatchMachine orig sent => λ w,
      if decide (Name orig ≠ "w1") then (conflict, w) else
      commit (merge_annotations (Annotations orig) (Annotations sent)
                (Annotations (current (sim_srv w)))) (Status (current (sim_srv w))) w
  | PatchMachineStatus orig sent => λ w,
      if decide (Name orig ≠ "w1") then (conflict, w) else
      commit (Annotations (current (sim_srv w)))
        (merge_status (Status orig) (Status sent) (Status (current (sim_srv w)))) w
  | c => λ w, let '(res, wd) := serve c (sim_world w) in (res, MkSim (sim_srv w) wd)
  end.

Definition any_version (s : server) (m : Machine) : Prop := held s m.

(** ** Its runs are runs of the system *)

Lemma pick_picked {A} `{!EqDecision A} (orig sent cur : A) : picked orig sent cur (pick orig sent cur).
Proof. unfold picked, pick. by case_decide. Qed.

Lemma merge_annotations_picked orig sent cur k :
  picked (orig !! k) (sent !! k) (cur !! k) (merge_annotations orig sent cur !! k).
Proof.
  unfold merge_annotations, picked. rewrite lookup_union, !map_lookup_filter. split; intros Hk.
  - destruct (cur !! k) eqn:?, (sent !! k) eqn:?; simplify_option_eq; congruence.
  - destruct (cur !! k) eqn:?, (sent !! k) eqn:?; simplify_option_eq; congruence.
Qed.

Lemma bump_same (m : Machine) annotations spec st :
  same_object m (MkMachine (bump (set_Annotations annotations (Machine_ObjectMeta m))) spec st).
Proof. split; cbn; [done|lia]. Qed.

(** Every answer is one the system allows. *)
Lemma simserve_ok depth c w :
  effect "w1" (sim_srv w) c (simserve depth c w).1 (sim_srv (simserve depth c w).2) ∧
  read_ok "w1" any_version (sim_srv w) (Ev c (simserve depth c w).1).
Proof.
  destruct c as [n| | | | | | | | | | | |sent|orig sent|orig sent| | | | | | | | | | | | | ];
    try first [done | cbn; destruct (serve _ _); by split].
  - cbn. split; [done|]. intros _. unfold any_version, held.
    destruct depth as [|d]; [by left|]. cbn.
    destruct (nth_in_or_default d (past (sim_srv w)) (current (sim_srv w))) as [Hin| -> ];
      [right; by apply list_elem_of_In|by left].
  - split; [|done]. cbn. destruct (decide (_ ∧ _)) as [[Hn Hv]|]; [|done]. cbn.
    rewrite decide_True by done. split_and!; try done. apply bump_same.
  - split; [|done]. cbn. destruct (decide (Name orig ≠ "w1")) as [|Hn]; [done|]. cbn.
    rewrite decide_True by (by apply dec_stable). unfold merged_status.
    split_and!; try done; try apply pick_picked. apply bump_same.
  - split; [|done]. cbn. destruct (decide (Name orig ≠ "w1")) as [|Hn]; [done|]. cbn.
    rewrite decide_True by (by apply dec_stable).
    split_and!; try done; [apply bump_same|]. intros k. apply merge_annotations_picked.
Qed.

Lemma run_reaches depth (p : prog (result error ReconcileResult)) w o :
  rtc (sys_step onp "w1" any_version) (MkSystem (sim_srv w) (Some p) o)
    (MkSystem (sim_srv (run_world (simserve depth) p w)) None o).
Proof.
  revert w. induction p as [a|c k IH]; intros w; [by apply rtc_once, step_stop|].
  destruct (simserve_ok depth c w) as [He Hr].
  eapply rtc_l; [by apply step_call|]. unfold run_world. cbn.
  destruct (simserve depth c w) as [res w']. cbn in *. specialize (IH res w').
  unfold run_world in IH. by destruct (run _ (k res) w') as [[t a] w''].
Qed.

(** ** Scripts *)

Inductive act : Type :=
| Run (depth : nat)                        (** a run of the Machine reconciler *)
| Annotate (a : gmap string string)        (** an operator sets the annotations *)
| Change (f : world → world).              (** the rest of the world moves on *)

Definition perform (w : sim) (a : act) : sim :=
  match a with
  | Run depth => run_world (simserve depth) (Reconcile onp "w1") w
  | Annotate an => (commit an (Status (current (sim_srv w))) w).2
  | Change f => MkSim (sim_srv w) (f (sim_world w))
  end.

Lemma perform_reaches acts w :
  rtc (sys_step onp "w1" any_version) (MkSystem (sim_srv w) None [])
    (MkSystem (sim_srv (foldl perform w acts)) None []).
Proof.
  revert w. induction acts as [|a acts IH]; intros w; [done|]. cbn [foldl].
  etransitivity; [|apply IH]. clear IH. destruct a as [depth|an|f]; cbn [perform].
  - eapply rtc_l; [apply step_start|]. apply run_reaches.
  - apply rtc_once, step_edit.
    exists (current (sim_srv (commit an (Status (current (sim_srv w))) w).2)).
    split_and!; [done|apply bump_same|done].
  - done.
Qed.

Definition fresh_sim (w : world) : sim := MkSim (MkServer (machine "w1" Unset None ∅) []) w.

Lemma script_reachable w acts :
  reachable onp "w1" any_version (MkSystem (sim_srv (foldl perform (fresh_sim w) acts)) None []).
Proof.
  exists (MkSystem (sim_srv (fresh_sim w)) None []). split; [by split_and!|]. apply perform_reaches.
Qed.

(** ** A full cycle *)

Definition cluster_of (nodes : list Node) (pods : list Pod) (now : Time) : world :=
  MkWorld [] [pool 0 None] nodes pods now accepted (Ok "").

Definition states (w : sim) : list MachineState :=
  state <$> rev (current (sim_srv w) :: past (sim_srv w)).

Definition w1_up : Node := node "w1" false true ∅.
Definition at_time (t : Time) (nodes : list Node) (w : world) : world :=
  MkWorld (w_machines w) (w_pools w) nodes (w_pods w) t (w_http w) (w_procstat w).

(** Woken, booted, drained and powered off again: the server's Machine goes
    through the whole lifecycle. *)
Definition full_cycle : list act :=
  [Run 0; Annotate wake_now; Run 0; Change (at_time (2 * Minute) [w1_up]); Run 0;
   Annotate drain_now; Run 0; Run 0; Run 0; Change (at_time (3 * Minute) []); Run 0].

Lemma full_cycle_states :
  states (foldl perform (fresh_sim (cluster_of [] [] 0)) full_cycle) =
    [Unset; Off; Off; Booting; Ready; Ready; Ready; Draining; Draining; ShuttingDown; Off].
Proof. vm_compute. reflexivity. Qed.

(** ** A stale read *)

(** A Machine asked to wake and, while it boots, to drain; its boot times out;
    its Node comes up late, and the next run reads a version from before the
    failure. *)
Definition late_boot : list act :=
  [Run 0; Annotate wake_now; Run 0; Annotate (wake_now ∪ drain_now);
   Change (at_time (10 * Minute) []); Run 0;
   Change (at_time (10 * Minute) [w1_up]); Run 3].

(** C36.  With a cache that may be behind, the lifecycle can be left: the patch
    that drops a stale trigger refreshes the Machine, its resource version
    included, but the handler of the old state goes on, and a Failed Machine
    becomes Ready. *)
Theorem stale_read_leaves_failed :
  ∃ y failed, reachable onp "w1" any_version y ∧
    state (current (srv y)) = Ready ∧ head (past (srv y)) = Some failed ∧ state failed = Failed ∧
    ¬ edge Failed Ready.
Proof.
  pose proof (script_reachable (cluster_of [] [] 0) late_boot) as Hr.
  set (w := foldl perform (fresh_sim (cluster_of [] [] 0)) late_boot) in Hr.
  assert (state (current (sim_srv w)) = Ready ∧
          state <$> head (past (sim_srv w)) = Some Failed) as [Hs Hp] by (by vm_compute).
  apply fmap_Some in Hp as (failed & Hh & Hf).
  exists (MkSystem (sim_srv w) None []), failed. split_and!; [done..|]. by inversion 1.
Qed.
