(* ===== verification/Waits.v ===== *)
(** * No wait without end

    Booting, Draining and ShuttingDown are the states in which a Machine waits
    for its Node.  A run of their handlers that ends without an error has moved
    the Machine on, or it has read a clock within the state's budget and asks to
    be run again within the poll interval; so once the budget is spent, the next
    run that ends without an error ends the wait, whatever the Node does. *)

From S2P Require Import Prelude GoStd Prog K8s Api Client Guards Power Pools NodeOps MachineController Fixture Scenarios MachineLifecycle MachineActions MachineTimers MachineTransitions MachineSystem.

Local Open Scope Z_scope.

Section waits.
Context `{KL : K8sLib} `{!MapRange}.
Variable r : MachineReconciler.
Implicit Types m : Machine.
Implicit Types h : trace.

(** The metadata patch of a trigger annotation answers with the Machine as it
    was: nobody else writes it between the read and the patch. *)
Definition patch_keeps_object (e : event) : Prop :=
  match e with
  | Ev c res =>
      match c as c return resp c → Prop with
      | PatchMachine orig _ => λ res,
          match res with
          | Ok m' => Status m' = Status orig ∧ Spec m' = Spec orig ∧ Labels m' = Labels orig ∧
                     Name m' = Name orig
          | Err _ => True
          end
      | _ => λ _, True
      end res
  end.

(** A status of [m] with another state was accepted. *)
Definition status_accepted (sent got : Machine) : event := Ev (UpdateMachineStatus sent) (Ok got).
Definition moved m h : Prop :=
  ∃ sent got, status_accepted sent got ∈ h ∧ Name sent = Name m ∧ state sent ≠ state m.

Lemma moved_mono m h h' : h ⊆ h' → moved m h → moved m h'.
Proof. intros Hsub (sent & got & ? & ?). exists sent, got. auto. Qed.

(** [h] has a clock reading [now] with [P (Sub now start)]. *)
Definition clocked h (start : Time) (P : Duration → Prop) : Prop :=
  ∃ now, clock_read now ∈ h ∧ P (Sub now start).

Lemma clocked_mono h h' start P : h ⊆ h' → clocked h start P → clocked h' start P.
Proof. intros Hs (now & ? & ?). exists now. auto. Qed.

(** The wait goes on: when it started, a reading within the budget, and the next
    run at most the poll interval away — none only when a reading was out of
    the budget. *)
Definition waits_on h m (res : ReconcileResult) : Prop :=
  match state m with
  | Booting => ∃ start, BootStartTime (Status m) = Some start ∧
      clocked h start (λ d, d < BootTimeout r) ∧
      0 ≤ RequeueAfter res ≤ bootPollInterval ∧
      (0 < RequeueAfter res ∨ clocked h start (λ d, ¬ (0 ≤ d < BootTimeout r)))
  | Draining => ∃ start timeout force, DrainStartTime (Status m) = Some start ∧
      observed h (drainPolicy m) (Ok (timeout, force)) ∧
      clocked h start (λ d, d ≤ timeout) ∧ RequeueAfter res = drainPollInterval
  | ShuttingDown => ∃ start, ShutdownStartTime (Status m) = Some start ∧
      clocked h start (λ d, d ≤ ShutdownTimeout r) ∧
      0 ≤ RequeueAfter res ≤ shutdownPollInterval ∧
      (0 < RequeueAfter res ∨ clocked h start (λ d, ¬ (0 ≤ d < ShutdownTimeout r)))
  | _ => False
  end.

Definition wait_ok m h (a : result error ReconcileResult) : Prop :=
  match a with Ok res => moved m h ∨ waits_on h m res | Err _ => True end.

(** *** Moving on *)

Lemma move_update m0 h fmt args m (f : Machine → prog (result error ReconcileResult))
    (Q : trace → result error ReconcileResult → Prop) R :
  Name m = Name m0 → state m ≠ state m0 →
  (∀ h' e, Q h' (Err e)) → (∀ h' a, moved m0 h' → Q h' a) →
  wp R (λ _ _, True) h (let? m := wrapf fmt args (update_status m) in f m) Q.
Proof.
  intros Hn Hs He HQ. apply wp_rbind. wp_call res; [done|]. destruct res as [m'|e]; [|by apply He].
  apply wp_ret, wp_skip; [done|]. intros t a. apply HQ, (moved_mono _ _ _ (app_subseteq_r _ _)).
  exists m, m'. split_and!; [left|done|done].
Qed.

(** A move settles the wait. *)
Ltac move_on := intros ? [] ?; [left|].

Lemma failBoot_moves R h m m' reason msg :
  Name m' = Name m → state m ≠ Failed → wp R (λ _ _, True) h (failBoot m' reason msg) (wait_ok m).
Proof.
  intros Hn Hs. unfold failBoot. apply wp_bind, wp_setCondition; [done|]. intros now cs.
  apply (move_update m); [done| |done|by move_on].
  rewrite state_set_Conditions, state_set_State. done.
Qed.

Lemma promoteToReady_moves R h m m' :
  Name m' = Name m → state m = Booting → wp R (λ _ _, True) h (promoteToReady r m') (wait_ok m).
Proof.
  intros Hn Hs. assert (∀ s, s = Ready ∨ s = Failed → s ≠ state m) as Hne by (intros s [-> | ->]; by rewrite Hs).
  unfold promoteToReady. cbv zeta. apply wp_rbind, wp_skip; [done|].
  intros t1 [uncordoned|]; [|done]. apply wp_bind, wp_skip; [done|]. intros t2 [|e].
  - apply wp_rbind, wp_skip; [done|]. intros t3 [drift|]; [|done].
    apply wp_bind, wp_skip; [done|]. intros t4 _.
    apply wp_bind, wp_setCondition; [done|]. intros now cs.
    apply (move_update m); [done| |done|by move_on].
    rewrite state_set_Conditions. apply Hne. by left.
  - destruct (IsInvalid e); [by apply failBoot_moves; [|rewrite Hs]|].
    apply wp_bind, wp_skip; [done|]. intros t3 [|]; [by apply failBoot_moves; [|rewrite Hs]|done].
Qed.

Lemma abortDrain_moves R h m m' :
  Name m' = Name m → state m = Draining → wp R (λ _ _, True) h (abortDrain m') (wait_ok m).
Proof.
  intros Hn Hs. unfold abortDrain. apply wp_rbind, wp_skip; [done|]. intros t [|]; [|done].
  apply wp_bind, wp_setCondition; [done|]. intros.
  apply (move_update m); [done|by rewrite Hs|done|by move_on].
Qed.

Lemma failDrain_moves R h m m' timeout :
  Name m' = Name m → state m = Draining → wp R (λ _ _, True) h (failDrain m' timeout) (wait_ok m).
Proof.
  intros Hn Hs. unfold failDrain. apply wp_rbind, wp_skip; [done|]. intros t [|]; [|done].
  apply wp_bind, wp_setCondition; [done|]. intros.
  apply (move_update m); [done|by rewrite Hs|done|by move_on].
Qed.

(** *** Timers *)

(** A timer that has not run out has a start and a reading within the budget. *)
Lemma wp_timer R h (start : option Time) (test : Duration → bool) (Q : trace → bool → Prop) :
  (∀ t b, (b = false → start = None ∨ ∃ s, start = Some s ∧ clocked (t ++ h) s (λ d, test d = false)) →
     Q (t ++ h) b) →
  wp R (λ _ _, True) h
    (match start with None => Ret false | Some t => let! d := clock_since t in Ret (test d) end) Q.
Proof.
  intros HQ. destruct start as [s|]; [|by apply (HQ []); left]. apply wp_bind. wp_call now; [done|].
  do 2 apply wp_ret. apply (HQ [_]). intros Hb. right. exists s. split; [done|]. exists now. split; [left|done].
Qed.

(** The delay before the next poll, with the reading it was computed from. *)
Lemma wp_delay R h (start : Time) budget poll (Q : trace → Duration → Prop) :
  0 < poll → in_int64 budget →
  (∀ t d, 0 ≤ d ≤ poll → (0 < d ∨ clocked (t ++ h) start (λ e, ¬ (0 ≤ e < budget))) → Q (t ++ h) d) →
  wp R (λ _ _, True) h (let! d := clock_since start in Ret (remaining_or_poll budget d poll)) Q.
Proof.
  intros Hp Hb HQ. apply wp_bind. wp_call now; [done|]. do 2 apply wp_ret. apply (HQ [_]).
  - by apply poll_delay_bounds.
  - destruct (decide (0 ≤ Sub now start < budget)) as [He|He].
    + left. apply remaining_positive; [done| |lia]. unfold in_int64, int64_min, int64_max in *. lia.
    + right. exists now. split; [left|done].
Qed.

(** The Machine the handler goes on with differs from [m] in its annotations at
    most. *)
Definition same_but_annotations m m' : Prop :=
  Status m' = Status m ∧ Spec m' = Spec m ∧ Labels m' = Labels m ∧ Name m' = Name m.

Lemma wp_removeDrain_same h m (Q : trace → result error Machine → Prop) :
  (∀ t m', same_but_annotations m m' → Q (t ++ h) (Ok m')) → (∀ t e, Q (t ++ h) (Err e)) →
  wp patch_keeps_object (λ _ _, True) h (removeDrainAnnotation m) Q.
Proof.
  intros HQ HE. unfold removeDrainAnnotation. destruct (_ !! _); [|by apply wp_ret, (HQ [])].
  apply wp_wrapf. split; [done|]. intros [m'|e] Hr; [apply (HQ [_]); exact Hr|apply (HE [_])].
Qed.

Lemma drainPolicy_same m m' : same_but_annotations m m' → drainPolicy m' = drainPolicy m.
Proof. intros (_ & _ & HL & HN). unfold drainPolicy, poolForMachine, matchingPools. by rewrite HL, HN. Qed.


Lemma clocked_app t h start P : clocked h start P → clocked (t ++ h) start P.
Proof. apply clocked_mono. set_solver. Qed.

Lemma waits_on_mono h h' m res : h ⊆ h' → waits_on h m res → waits_on h' m res.
Proof.
  intros Hsub. unfold waits_on. destruct (state m); naive_solver eauto using clocked_mono, observed_mono.
Qed.

Lemma waits_on_app t h m res : waits_on h m res → waits_on (t ++ h) m res.
Proof. apply waits_on_mono. set_solver. Qed.

(** *** The handlers *)

Hypothesis boot_int64 : in_int64 (BootTimeout r).
Hypothesis shutdown_int64 : in_int64 (ShutdownTimeout r).

(** Where the timer has not run out, whoever set it. *)
Ltac anchor Hin :=
  match goal with H : anchored _, Hs : state _ = _ |- _ =>
    let H' := fresh in pose proof Hs as H'; unfold state in H'; unfold anchored in H; rewrite H' in H; clear H';
    destruct H as [start Hstart]; destruct (Hin eq_refl) as [?|(? & ? & Hclock)]; [congruence|];
    simplify_eq end.

Lemma reconcileBooting_waits m h :
  state m = Booting → anchored (Status m) →
  wp patch_keeps_object (λ _ _, True) h (reconcileBooting r m) (wait_ok m).
Proof.
  intros Hs Ha. unfold reconcileBooting. apply wp_rbind, wp_removeDrain_same; [|done]. intros t0 m' Hm'.
  pose proof Hm' as (_ & _ & _ & Hn).
  cbv zeta. apply wp_rbind, wp_wrapf, wp_skip; [done|]. intros t1 [[|]|]; [| |done].
  { by apply promoteToReady_moves. }
  apply wp_bind. unfold bootTimedOut. apply wp_timer. intros t2 [|] Hin.
  { by apply failBoot_moves; [|rewrite Hs]. }
  apply wp_bind, wp_skip; [done|]. intros t3 _. apply wp_bind. unfold requeueForBoot.
  destruct Hm' as (HS & _). rewrite HS in Hin |- *. anchor Hin. rewrite Hstart.
  apply wp_delay; [done|done|]. intros t4 d Hd Hpos. right. unfold waits_on. rewrite Hs.
  exists start. split_and!; [done| |apply Hd|apply Hd|done].
  do 2 apply clocked_app. destruct Hclock as (now & ? & ?). exists now. split; [done|]. by bool_simpl.
Qed.

Lemma reconcileShuttingDown_waits m h :
  state m = ShuttingDown → anchored (Status m) →
  wp patch_keeps_object (λ _ _, True) h (reconcileShuttingDown r m) (wait_ok m).
Proof.
  intros Hs Ha. unfold reconcileShuttingDown. cbv zeta. apply wp_rbind, wp_skip; [done|].
  intros t1 [[|]|]; cbn [negb]; [| |done].
  { apply wp_bind, wp_setCondition; [done|]. intros. apply (move_update m); [done|by rewrite Hs|done|by move_on]. }
  apply wp_bind. unfold shutdownTimedOut. apply wp_timer. intros t2 [|] Hin.
  { apply wp_bind, wp_setCondition; [done|]. intros. apply (move_update m); [done|by rewrite Hs|done|by move_on]. }
  apply wp_bind. unfold requeueForShutdown. anchor Hin. rewrite Hstart.
  apply wp_delay; [done|done|]. intros t4 d Hd Hpos. right. unfold waits_on. rewrite Hs.
  exists start. split_and!; [done| |apply Hd|apply Hd|done].
  apply clocked_app. destruct Hclock as (now & ? & ?). exists now. split; [done|]. by bool_simpl.
Qed.

Lemma finishDrain_waits m m' h :
  Name m' = Name m → state m = Draining → waits_on h m (requeue_after drainPollInterval) →
  wp patch_keeps_object (λ _ _, True) h (finishDrain m') (wait_ok m).
Proof.
  intros Hn Hs Hw. unfold finishDrain. apply wp_rbind, wp_skip; [done|]. intros t1 [[|]|]; cbn [negb]; [| |done].
  - apply wp_bind. wp_call now; [done|]. apply wp_bind, wp_setCondition; [done|]. intros.
    apply (move_update m); [done|by rewrite Hs|done|by move_on].
  - apply wp_ret. right. by apply waits_on_app.
Qed.

Lemma reconcileDraining_waits m h :
  state m = Draining → anchored (Status m) →
  wp patch_keeps_object (λ _ _, True) h (reconcileDraining r m) (wait_ok m).
Proof.
  intros Hs Ha. unfold reconcileDraining. apply wp_rbind, wp_removeDrain_same; [|done]. intros t0 m' Hm'.
  pose proof Hm' as (_ & _ & _ & Hn).
  cbv zeta. apply wp_rbind, wp_skip; [done|]. intros t1 [[|]|]; [| |done].
  { by apply abortDrain_moves. }
  apply wp_rbind, wp_record. intros t2 [[timeout force]|] Hpol; [|done].
  rewrite (drainPolicy_same _ _ Hm') in Hpol. apply wp_bind. unfold drainTimedOut.
  apply wp_timer. intros t3 [|] Hin.
  { by apply failDrain_moves. }
  assert (waits_on (t3 ++ t2 ++ t1 ++ t0 ++ h) m (requeue_after drainPollInterval)) as Hw.
  { destruct Hm' as (HS & _). rewrite HS in Hin. anchor Hin. unfold waits_on. rewrite Hs.
    exists start, timeout, force. split_and!; [done|by apply observed_app| |done].
    destruct Hclock as (now & ? & ?). exists now. split; [done|]. by bool_simpl. }
  apply wp_rbind, wp_skip; [done|]. intros t4 [[|]|]; [by right; apply waits_on_app| |done].
  apply wp_rbind, wp_wrapf, wp_skip; [done|]. intros t5 [[|p ps]|]; [| |done].
  - apply finishDrain_waits; [done|done|]. by do 2 apply waits_on_app.
  - apply wp_rbind, wp_skip; [done|]. intros t6 [|]; [|done]. right. by do 3 apply waits_on_app.
Qed.

(** *** The whole run *)

Definition waiting (s : MachineState) : Prop := s = Booting ∨ s = Draining ∨ s = ShuttingDown.

Lemma dispatch_waits m h :
  waiting (state m) → anchored (Status m) →
  wp patch_keeps_object (λ _ _, True) h (dispatch r m) (wait_ok m).
Proof.
  intros [Hs|[Hs|Hs]] Ha; unfold dispatch; rewrite Hs.
  - by apply reconcileBooting_waits.
  - by apply reconcileDraining_waits.
  - by apply reconcileShuttingDown_waits.
Qed.

(** Another Machine claims the Node, and the claim is looked at again. *)
Definition claims_read (node : string) (ms : list Machine) : event :=
  Ev (ListMachinesOnNode node) (Ok ms).

Definition held_back h m (res : ReconcileResult) : Prop :=
  res = requeue_after duplicateNodeRecheck ∧
  ∃ (ms : list Machine) (o : Machine), claims_read (NodeName (Spec m)) ms ∈ h ∧ o ∈ ms ∧ Name o ≠ Name m.

Definition outcome_ok m h (a : result error ReconcileResult) : Prop :=
  match a with
  | Ok res => moved m h ∨ waits_on h m res ∨ held_back h m res
  | Err _ => True
  end.

Lemma outcome_mono m h h' a : h ⊆ h' → outcome_ok m h a → outcome_ok m h' a.
Proof.
  intros Hsub. destruct a as [res|e]; [|done]. unfold outcome_ok, held_back.
  naive_solver eauto using moved_mono, waits_on_mono.
Qed.

Lemma wait_outcome m h a : wait_ok m h a → outcome_ok m h a.
Proof. destruct a; naive_solver. Qed.

End waits.

(** *** Witness *)

Definition is_machine_patch `{K8sTypes} (c : call) : bool :=
  match c with PatchMachine _ _ => true | _ => false end.

Lemma no_patch_keeps `{K8sTypes} (t : trace) :
  forallb (λ e, negb (is_machine_patch (ev_call e))) t = true → Forall patch_keeps_object t.
Proof.
  rewrite forallb_forall, Forall_forall. intros Ht e He.
  specialize (Ht e (proj1 (list_elem_of_In _ _) He)). by destruct e as [[] res].
Qed.

Definition after_read (w : world) : trace := tail (run_w1 w).

Lemma starts_with_read w m a :
  (serve (GetMachine "w1") w).1 = Ok m → run_value serve (Reconcile onp "w1") w = a →
  exec (Reconcile onp "w1") (machine_read "w1" m :: after_read w) a.
Proof.
  intros Hm <-. pose proof (run_exec serve (Reconcile onp "w1") w) as Hx.
  assert (run_w1 w = machine_read "w1" m :: after_read w) as <-; [|exact Hx].
  unfold after_read, run_w1, run_trace, Reconcile. cbn [run get_machine bind do].
  destruct (serve _ w) as [got w']. cbn in Hm. subst got. by destruct (run _ _ _) as [[]].
Qed.

