(* ===== verification/Fleet.v ===== *)
(** * A pool's budgets, over a whole fleet

    The API server holds the Machines by name; one worker (scale-down, or
    scale-up) runs one reconcile after the other against it, call by call, and
    every other writer may change any Machine at any time.  [taken] and [added]
    count, since the run began, how often another writer made a member stop, or
    start, to satisfy a property; a budget can only be missed by as much.

    The theorems are about the counts of the pool as stored on the server, where
    [ScaleUpSafety] and [ScaleDownSafety] are about what a run has read. *)

From S2P Require Import Prelude GoStd Prog K8s Api Client Guards Power Pools NodeOps MachineController ScaleUp ScaleUpSafety ScaleDown ScaleDownSafety MachineSystem Fixture Scenarios.

Local Open Scope Z_scope.

(** ** Counting members *)

Abbreviation fleet := (gmap string Machine).

Section counting.
Context `{KL : K8sLib}.
Implicit Types m : Machine.
Implicit Types sel : Selector.

Definition values (fl : fleet) : list Machine := (map_to_list fl).*2.

(** [m] is a member by [sel] and satisfies [f]. *)
Definition counted sel (f : Machine → bool) m : bool := Selector_Matches sel (Labels m) && f m.

(** The members that satisfy [f]. *)
Definition total sel (f : Machine → bool) (fl : fleet) : Z := count_if (counted sel f) (values fl).

Definition unit_of sel (f : Machine → bool) (o : option Machine) : Z :=
  match o with Some m => if counted sel f m then 1 else 0 | None => 0 end.

(** One entry set or removed. *)
Definition put_entry (n : string) (o : option Machine) (fl : fleet) : fleet :=
  match o with Some m => <[n := m]> fl | None => delete n fl end.

Lemma total_split sel f n fl : total sel f fl = unit_of sel f (fl !! n) + total sel f (delete n fl).
Proof.
  unfold total, values. destruct (fl !! n) as [m|] eqn:E; [|by rewrite delete_id].
  rewrite <-(map_to_list_delete fl n m E), fmap_cons, count_if_cons. done.
Qed.

Lemma total_put sel f n o fl :
  total sel f (put_entry n o fl) = total sel f fl - unit_of sel f (fl !! n) + unit_of sel f o.
Proof.
  rewrite (total_split sel f n fl), (total_split sel f n (put_entry n o fl)).
  destruct o as [m|]; cbn.
  - rewrite lookup_insert_eq, delete_insert_eq. cbn. lia.
  - rewrite lookup_delete_eq, delete_delete_eq. cbn. lia.
Qed.

(** A fresh list counts what the server holds. *)
Lemma total_listed sel f fl ms :
  ms ≡ₚ filter (λ m, Selector_Matches sel (Labels m) = true) (values fl) → count_if f ms = total sel f fl.
Proof.
  intros ->. unfold total. induction (values fl) as [|m l IH]; [done|].
  rewrite filter_cons, (count_if_cons (counted sel f)). unfold counted at 1.
  case_decide as Hm; [rewrite count_if_cons, Hm, IH; done|].
  apply not_true_is_false in Hm. by rewrite Hm, IH.
Qed.

(** A property of the lifecycle state and the annotations alone. *)
Definition coarse (f : Machine → bool) : Prop :=
  ∀ m m', state m = state m' → Annotations m = Annotations m' → f m = f m'.
End counting.

(** ** The server and its clients *)

Section system.
Context `{KL : K8sLib}.
Implicit Types m cur : Machine.
Implicit Types sel : Selector.

(** The labels each Machine keeps, the specs of the pools, the readers that
    answer with the server's current state, and the runs of the worker. *)
Variable labels_of : string → gmap string string.
Variable pools_of : string → option NodePoolSpec.
Variable fresh : reader → Prop.
Variable runs : prog unit → Prop.

Definition same_identity cur m : Prop :=
  Name m = Name cur ∧ Labels m = Labels cur ∧ Spec m = Spec cur.

Definition patched (orig sent cur m : Machine) : Prop :=
  same_identity cur m ∧ Status m = Status cur ∧
  ∀ k, picked (Annotations orig !! k) (Annotations sent !! k) (Annotations cur !! k) (Annotations m !! k).

Definition status_patched (orig sent cur m : Machine) : Prop :=
  same_identity cur m ∧ Annotations m = Annotations cur ∧
  merged_status (Status orig) (Status sent) (Status cur) (Status m).

(** A write is applied and answered with the new object, or refused; an error may
    also hide a write that was applied. *)
Definition written (fl : fleet) (n : string) (change : Machine → Machine → Prop)
    (res : result error Machine) (fl' : fleet) : Prop :=
  (∃ cur m', fl !! n = Some cur ∧ change cur m' ∧ fl' = put_entry n (Some m') fl ∧
     match res with Ok m => m = m' | Err _ => True end) ∨
  (∃ e, res = Err e ∧ fl' = fl).

Definition fleet_effect (fl : fleet) (c : call) : resp c → fleet → Prop :=
  match c as c return resp c → fleet → Prop with
  | PatchMachine orig sent => written fl (Name orig) (patched orig sent)
  | PatchMachineStatus orig sent => written fl (Name orig) (status_patched orig sent)
  | UpdateMachineStatus sent => written fl (Name sent) (λ cur m,
      same_identity cur m ∧ Annotations m = Annotations cur ∧ Status m = Status sent)
  | _ => λ _ fl', fl' = fl
  end.

(** What a fresh reader answers. *)
Definition answered (fl : fleet) (e : event) : Prop :=
  match e with
  | Ev c res =>
      match c as c return resp c → Prop with
      | GetPool rd n => λ res,
          match res with Ok p => fresh rd → pools_of n = Some (Pool_Spec p) | Err _ => True end
      | ListPools => λ res,
          match res with
          | Ok ps => fresh Cache → ∀ p : NodePool, p ∈ ps → pools_of (Name p) = Some (Pool_Spec p)
          | Err _ => True
          end
      | ListMachinesMatching rd sel => λ res,
          match res with
          | Ok ms => fresh rd → ms ≡ₚ filter (λ m, Selector_Matches sel (Labels m) = true) (values fl)
          | Err _ => True
          end
      | _ => λ _, True
      end res
  end.

Record fleet_state : Type := MkFleet {
  store : fleet;
  taken : (Machine → bool) → Selector → Z;
  added : (Machine → bool) → Selector → Z;
  history : trace;
  rest : prog unit;
}.

Inductive worker_step : fleet_state → fleet_state → Prop :=
| worker_call fl tk ad h c k res fl' :
    fleet_effect fl c res fl' → answered fl (Ev c res) →
    worker_step (MkFleet fl tk ad h (Call c k)) (MkFleet fl' tk ad (Ev c res :: h) (k res)).

(** By how much the entry moving from [o] to [o'] lowers the count. *)
Definition drop sel f (o o' : option Machine) : Z := Z.max 0 (unit_of sel f o - unit_of sel f o').

(** The next run; the one before it returned, or was cut short by a restart. *)
Inductive start_step : fleet_state → fleet_state → Prop :=
| next_run fl tk ad h p p' :
    runs p' → start_step (MkFleet fl tk ad h p) (MkFleet fl (λ _ _, 0) (λ _ _, 0) [] p').

Inductive other_step : fleet_state → fleet_state → Prop :=
| other_write fl tk ad h p n o :
    (∀ m, o = Some m → Name m = n ∧ Labels m = labels_of n) →
    other_step (MkFleet fl tk ad h p)
      (MkFleet (put_entry n o fl) (λ f sel, tk f sel + drop sel f (fl !! n) o)
         (λ f sel, ad f sel + drop sel f o (fl !! n)) h p).

Definition well_named (fl : fleet) : Prop :=
  ∀ n m, fl !! n = Some m → Name m = n ∧ Labels m = labels_of n.

Definition idle_fleet (s : fleet_state) : Prop :=
  well_named (store s) ∧ history s = [] ∧ rest s = Ret tt ∧
  (∀ f sel, taken s f sel = 0) ∧ (∀ f sel, added s f sel = 0).

Definition fleet_reachable (s : fleet_state) : Prop :=
  ∃ s0, idle_fleet s0 ∧ rtc (λ s s', worker_step s s' ∨ start_step s s' ∨ other_step s s') s0 s.

(** ** What the history of a run says of the server *)

(** Every run of the worker writes a Machine only with the evidence of one of
    these gates, and otherwise leaves states and annotations alone. *)
Variable gates : (trace → call → Prop) → Prop.
Hypothesis runs_gated : ∀ p, runs p →
  emits anything harmless p ∧
  ∃ E, gates E ∧ wp anything (gate is_machine_write E) [] p (λ _ _, True).

Record fleet_inv (s : fleet_state) : Prop := {
  fi_named : well_named (store s);
  fi_ledger f sel : 0 ≤ taken s f sel ∧ 0 ≤ added s f sel;
  fi_harmless : wp anything (λ _, harmless) (history s) (rest s) (λ _ _, True);
  fi_gated : rest s = Ret tt ∨
    ∃ E, gates E ∧ wp anything (gate is_machine_write E) (history s) (rest s) (λ _ _, True);
  fi_counts rd sel ms f :
    none_of is_machine_write (history s) → fresh rd → members_read rd sel ms ∈ history s → coarse f →
    count_if f ms ≤ total sel f (store s) + taken s f sel ∧
    total sel f (store s) - added s f sel ≤ count_if f ms;
  fi_members rd sel ms m :
    fresh rd → members_read rd sel ms ∈ history s → m ∈ ms →
    Selector_Matches sel (labels_of (Name m)) = true;
  fi_pool rd n p : fresh rd → pool_read rd n p ∈ history s → pools_of n = Some (Pool_Spec p);
  fi_pools ps (p : NodePool) :
    fresh Cache → pools_read ps ∈ history s → p ∈ ps → pools_of (Name p) = Some (Pool_Spec p);
}.

Lemma idle_inv s : idle_fleet s → fleet_inv s.
Proof.
  intros (Hn & Hh & Hr & Ht & Ha). split; rewrite ?Hh, ?Hr; try done.
  - intros f sel. by rewrite Ht, Ha.
  - by left.
  - by intros rd sel ms f _ _ ?%elem_of_nil.
  - by intros rd sel ms m _ ?%elem_of_nil.
  - by intros rd n p _ ?%elem_of_nil.
  - by intros ps p _ ?%elem_of_nil.
Qed.

Lemma well_named_put fl n cur m :
  well_named fl → fl !! n = Some cur → same_identity cur m → well_named (put_entry n (Some m) fl).
Proof.
  intros Hw Hn (HN & HL & _) n' m'. cbn. destruct (Hw _ _ Hn) as [<- Hl].
  destruct (decide (n' = Name cur)) as [->|Hne].
  - rewrite lookup_insert_eq. intros [= <-]. by rewrite HL.
  - rewrite lookup_insert_ne by done. apply Hw.
Qed.

Lemma written_named fl n change res fl' :
  (∀ cur m, change cur m → same_identity cur m) → written fl n change res fl' →
  well_named fl → well_named fl'.
Proof.
  intros Hc [(cur & m & Hn & Hm & -> & _)|(e & _ & ->)] Hw; [|done]. by apply (well_named_put _ _ cur); auto.
Qed.

Lemma effect_named fl c res fl' : fleet_effect fl c res fl' → well_named fl → well_named fl'.
Proof.
  destruct c; try (by intros ->); intros Hw; eapply written_named; try exact Hw; by intros ?? [? _].
Qed.

(** A harmless call that is not a Machine patch leaves every count alone. *)
Lemma effect_total fl c res fl' sel f :
  harmless c → ¬ is_machine_write c → coarse f → fleet_effect fl c res fl' →
  total sel f fl' = total sel f fl.
Proof.
  intros Hh Hw Hf. destruct c; try (by intros ->); [done| |by destruct Hw].
  intros [(cur & new & Hn & ((_ & HL & _) & HA & HS) & -> & _)|(e & _ & ->)]; [|done].
  rewrite total_put, Hn. cbn. unfold counted. rewrite HL.
  rewrite (Hf new cur); [lia| |done]. by apply (merged_keeps _ _ _ _ Hh HS).
Qed.

Lemma none_of_cons c (res : resp c) h :
  none_of is_machine_write (Ev c res :: h) → ¬ is_machine_write c ∧ none_of is_machine_write h.
Proof. unfold none_of. by rewrite Forall_cons. Qed.

(** The event [e] of a read leaves the server alone. *)
Lemma read_effect fl c res fl' rd sel ms :
  members_read rd sel ms = Ev c res → fleet_effect fl c res fl' → fl' = fl.
Proof.
  intros He Hf. change (match Ev c res with Ev c res => fleet_effect fl c res fl' end) in Hf.
  by rewrite <-He in Hf.
Qed.

Lemma worker_step_inv s s' : worker_step s s' → fleet_inv s → fleet_inv s'.
Proof.
  intros Hstep [Hn Hl Hharm Hg Hc Hm Hp Hps]. destruct Hstep as [fl tk ad h c k res fl' He Ha].
  destruct Hharm as [Hharm Hk]. cbn in Hn, Hl, Hk, Hg, Hc, Hm, Hp, Hps. split; cbn.
  - by eapply effect_named.
  - done.
  - by apply Hk.
  - destruct Hg as [|(E & HE & _ & Hg)]; [done|]. right. exists E. split; [done|]. by apply Hg.
  - intros rd sel ms f [Hw Hnone]%none_of_cons Hrd [Heq|Hin]%elem_of_cons Hf.
    + pose proof (read_effect _ _ _ _ _ _ _ Heq He) as ->. rewrite <-Heq in Ha.
      rewrite (total_listed sel f fl ms (Ha Hrd)). destruct (Hl f sel). lia.
    + rewrite (effect_total fl c res fl' sel f) by done. by apply (Hc rd).
  - intros rd sel ms m Hrd [Heq|Hin]%elem_of_cons Hms; [|by apply (Hm rd sel ms)].
    rewrite <-Heq in Ha. rewrite (Ha Hrd) in Hms.
    apply list_elem_of_filter in Hms as [Hsel ([n m'] & -> & Hin)%list_elem_of_fmap].
    apply elem_of_map_to_list in Hin. destruct (Hn _ _ Hin) as [HN HL]. cbn in Hsel |- *. by rewrite HN, <-HL.
  - intros rd n p Hrd [Heq|Hin]%elem_of_cons; [|by apply (Hp rd)]. rewrite <-Heq in Ha. by apply Ha.
  - intros ps p Hrd [Heq|Hin]%elem_of_cons Hin'; [|by apply (Hps ps)]. rewrite <-Heq in Ha. by apply Ha.
Qed.

Lemma start_step_inv s s' : start_step s s' → fleet_inv s → fleet_inv s'.
Proof.
  intros Hstep [Hn _ _ _ _ _ _ _]. destruct Hstep as [fl tk ad h p p' Hr].
  destruct (runs_gated p' Hr) as [Hh (E & HE & Hgate)]. split; cbn; try done.
  - right. by exists E.
  - by intros rd sel ms f _ _ ?%elem_of_nil.
  - by intros rd sel ms m _ ?%elem_of_nil.
  - by intros rd n q _ ?%elem_of_nil.
  - by intros ps q _ ?%elem_of_nil.
Qed.

Lemma other_step_inv s s' : other_step s s' → fleet_inv s → fleet_inv s'.
Proof.
  intros Hstep [Hn Hl Hharm Hg Hc Hm Hp Hps].
  destruct Hstep as [fl tk ad h p n o Ho]; cbn in *. split; cbn; try done.
  - intros n' m. destruct o as [m'|]; cbn.
    + destruct (decide (n' = n)) as [->|Hne]; [rewrite lookup_insert_eq|rewrite lookup_insert_ne by done; apply Hn].
      intros [= <-]. by apply Ho.
    + intros [_ ?]%lookup_delete_Some. by apply Hn.
  - intros f sel. destruct (Hl f sel). unfold drop. lia.
  - intros rd sel ms f Hnone Hrd Hin Hf. destruct (Hc rd sel ms f Hnone Hrd Hin Hf).
    rewrite total_put. unfold drop. lia.
Qed.

Lemma fleet_reachable_inv s : fleet_reachable s → fleet_inv s.
Proof.
  intros (s0 & Hi%idle_inv & Hrun). induction Hrun as [s|s0 s1 s Hstep _ IH]; [done|]. apply IH.
  destruct Hstep as [?|[?|?]]; eauto using worker_step_inv, start_step_inv, other_step_inv.
Qed.

(** The worker changes a count only by a Machine patch its gate admits, of a
    member, and by one. *)
Lemma worker_moves s s' sel f :
  fleet_inv s → worker_step s s' → coarse f → total sel f (store s') ≠ total sel f (store s) →
  ∃ E orig sent, gates E ∧ E (history s) (PatchMachine orig sent) ∧
    Selector_Matches sel (labels_of (Name orig)) = true ∧
    Z.abs (total sel f (store s') - total sel f (store s)) ≤ 1 ∧
    (∀ g sel', taken s' g sel' = taken s g sel' ∧ added s' g sel' = added s g sel').
Proof.
  intros Hi Hstep Hf Hne. destruct Hstep as [fl tk ad h c k res fl' He _].
  destruct (fi_harmless _ Hi) as [Hharm _]. destruct (fi_gated _ Hi) as [|(E & HE & Hg & _)]; [done|].
  cbn in *. destruct c as [| | | | | | | | | | | |m|o m|orig sent| | | | | | | | | | | | |];
    try (by rewrite (effect_total _ _ _ _ sel f Hharm id Hf He) in Hne).
  exists E, orig, sent. split_and!; [done|by apply Hg| | |done].
  - destruct He as [(cur & m & Hn & (Hid & _ & _) & -> & _)|(e & _ & ->)]; [|done].
    rewrite total_put, Hn in Hne. cbn in Hne. destruct (fi_named _ Hi _ _ Hn) as [HN HL].
    destruct Hid as (HN' & HL' & _). unfold counted in Hne. rewrite HL', HL in Hne.
    destruct (Selector_Matches sel (labels_of (Name orig))); [done|]. cbn in Hne. lia.
  - destruct He as [(cur & m & Hn & _ & -> & _)|(e & _ & ->)]; [|done].
    rewrite total_put, Hn. cbn. repeat case_match; lia.
Qed.
End system.

(** ** The workers *)

Section workers.
Context `{KL : K8sLib} `{!MapRange}.
Implicit Types m : Machine.

Definition only {A} (p : prog A) : prog unit := bind p (λ _, Ret tt).

Definition scale_down_worker (p : prog unit) : Prop :=
  ∃ st name, p = only (ScaleDown_Reconcile st name).
Definition scale_up_worker (p : prog unit) : Prop :=
  ∃ ns name, p = only (ScaleUp_Reconcile ns name).

(** No Machine is a member of two pools. *)
Definition pools_disjoint (labels_of : string → gmap string string)
    (pools_of : string → option NodePoolSpec) : Prop :=
  ∀ n1 n2 s1 s2 sel1 sel2 name,
    pools_of n1 = Some s1 → LabelSelectorAsSelector (MachineSelector s1) = Ok sel1 →
    pools_of n2 = Some s2 → LabelSelectorAsSelector (MachineSelector s2) = Ok sel2 →
    Selector_Matches sel1 (labels_of name) = true → Selector_Matches sel2 (labels_of name) = true →
    n1 = n2.

Lemma emits_only {A} P (p : prog A) : emits anything P p → emits anything P (only p).
Proof. intros Hp h. apply wp_bind. eapply wp_conseq; [|apply Hp]. done. Qed.
Lemma wp_only {A} E (p : prog A) :
  wp anything E [] p (λ _ _, True) → wp anything E [] (only p) (λ _ _, True).
Proof. intros Hp. apply wp_bind. eapply wp_conseq; [|apply Hp]. done. Qed.

Lemma scale_down_gated p :
  scale_down_worker p → emits anything harmless p ∧
  ∃ E, (∃ name, E = drain_gate name) ∧ wp anything (gate is_machine_write E) [] p (λ _ _, True).
Proof.
  intros (st & name & ->). split; [apply emits_only, ScaleDown_harmless|].
  exists (drain_gate name). split; [by exists name|]. apply wp_only, wp_bind.
  eapply wp_conseq; [|apply wp_reconcile]. by intros h [st' r] _.
Qed.

Lemma scale_up_gated p :
  scale_up_worker p → emits anything harmless p ∧
  ∃ E, (∃ ns name, E = wake_gate ns name) ∧ wp anything (gate is_machine_write E) [] p (λ _ _, True).
Proof.
  intros (ns & name & ->). split; [apply emits_only, ScaleUp_harmless|].
  exists (wake_gate ns name). split; [by exists ns, name|]. apply wp_only, wp_ScaleUp_Reconcile.
Qed.

Lemma isScalingDown_coarse : coarse isScalingDown.
Proof. intros m m' Hs Ha. unfold isScalingDown, drainRequested. by rewrite Hs, Ha. Qed.
Lemma kept_on_coarse : coarse kept_on.
Proof. intros m m' Hs Ha. unfold kept_on. by rewrite (isScalingDown_coarse m m'), Hs. Qed.
Lemma isActive_coarse : coarse isActive.
Proof. intros m m' Hs Ha. unfold isActive, wakeRequested. by rewrite Hs, Ha. Qed.

Variable labels_of : string → gmap string string.
Variable pools_of : string → option NodePoolSpec.
Hypothesis disjoint : pools_disjoint labels_of pools_of.


End workers.
