(* ===== verification/FleetRuns.v ===== *)
(** * Runs of the fleet

    An API server over several Machines that can be executed, with one pool and a
    cache that shows [view] of what the server holds.  Its runs are runs of the
    system of [Fleet], so evaluating one shows what the system can reach. *)

From S2P Require Import Prelude GoStd Prog K8s Api Client Guards Power Pools NodeOps MachineController ScaleUp ScaleUpSafety ScaleDown ScaleDownSafety MachineSystem Fixture Scenarios SystemRuns Fleet.

Local Open Scope Z_scope.

(** ** An executable server *)

Section server.
Variable pl : NodePool.
Variable view : fleet → fleet.

Record fsim : Type := MkFsim { fs_state : fleet_state; fs_world : world }.

Definition commit_entry (fl : fleet) (n : string) (change : Machine → Machine)
    : result error Machine * fleet :=
  match fl !! n with
  | Some cur => (Ok (change cur), put_entry n (Some (change cur)) fl)
  | None => (not_found, fl)
  end.

Definition matching (sel : Selector) (fl : fleet) : list Machine :=
  filter (λ m : Machine, Selector_Matches sel (Labels m) = true) (values fl).

(** The answer, what the server holds after it, and the rest of the world. *)
Definition fserve (c : call) : fleet → world → resp c * fleet * world :=
  match c as c return fleet → world → resp c * fleet * world with
  | GetMachine n => λ fl w,
      (match fl !! n with Some m => Ok m | None => not_found end, fl, w)
  | GetPool _ n => λ fl w, (if decide (n = Name pl) then Ok pl else not_found, fl, w)
  | ListPools => λ fl w, (Ok [pl], fl, w)
  | ListMachinesMatching rd sel => λ fl w,
      (Ok (matching sel (match rd with Cache => view fl | APIReader => fl end)), fl, w)
  | UpdateMachineStatus sent => λ fl w,
      (commit_entry fl (Name sent) (with_Status (λ _, Status sent)), w)
  | PatchMachineStatus orig sent => λ fl w,
      (commit_entry fl (Name orig) (with_Status (merge_status (Status orig) (Status sent))), w)
  | PatchMachine orig sent => λ fl w,
      (commit_entry fl (Name orig) (with_Meta (λ o,
         set_Annotations (merge_annotations (Annotations orig) (Annotations sent) (Annotations o)) o)), w)
  | c => λ fl w, let '(res, w') := serve c w in (res, fl, w')
  end.

Definition pools_in (n : string) : option NodePoolSpec :=
  if decide (n = Name pl) then Some (Pool_Spec pl) else None.

(** One call of the run in progress. *)
Definition fstep (y : fsim) : fsim :=
  match rest (fs_state y) with
  | Ret _ => y
  | Call c k =>
      let '(res, fl', w') := fserve c (store (fs_state y)) (fs_world y) in
      MkFsim (MkFleet fl' (taken (fs_state y)) (added (fs_state y))
                (Ev c res :: history (fs_state y)) (k res)) w'
  end.

Definition start (p : prog unit) (y : fsim) : fsim :=
  MkFsim (MkFleet (store (fs_state y)) (λ _ _, 0) (λ _ _, 0) [] p) (fs_world y).

(** ** Its runs are runs of the system *)

Variable fresh : reader → Prop.
Hypothesis view_fresh : fresh Cache → ∀ fl, view fl = fl.

Lemma commit_entry_written fl n change (f : Machine → Machine) :
  (∀ cur, change cur (f cur)) →
  written fl n change (commit_entry fl n f).1 (commit_entry fl n f).2.
Proof.
  intros Hf. unfold commit_entry. destruct (fl !! n) as [cur|] eqn:E; cbn.
  - left. exists cur, (f cur). by split_and!.
  - right. by eexists.
Qed.

Lemma fserve_ok c fl w :
  let '(res, fl', _) := fserve c fl w in
  fleet_effect fl c res fl' ∧ answered pools_in fresh fl (Ev c res).
Proof.
  destruct c as [| | |rd n| | | | | |rd sel| | |sent|orig sent|orig sent| | | | | | | | | | | | |];
    try first [done | cbn; destruct (serve _ _); by split].
  - cbn. split; [done|]. case_decide as Hn; [|done]. intros _. unfold pools_in. by rewrite decide_True.
  - cbn. split; [done|]. intros _ p ->%list_elem_of_singleton. unfold pools_in. by rewrite decide_True.
  - cbn. split; [done|]. intros Hrd. destruct rd; [by rewrite (view_fresh Hrd)|done].
  - cbn [fserve]. rewrite (surjective_pairing (commit_entry _ _ _)). split; [|done].
    by apply commit_entry_written.
  - cbn [fserve]. rewrite (surjective_pairing (commit_entry _ _ _)). split; [|done].
    apply commit_entry_written. intros cur. split_and!; [done|done|].
    unfold merged_status. split_and!; apply pick_picked.
  - cbn [fserve]. rewrite (surjective_pairing (commit_entry _ _ _)). split; [|done].
    apply commit_entry_written. intros cur. split_and!; [done|done|]. intros k. apply merge_annotations_picked.
Qed.

Definition running (y : fsim) : bool := match rest (fs_state y) with Ret _ => false | Call _ _ => true end.

Lemma fstep_step y :
  running y = true → worker_step pools_in fresh (fs_state y) (fs_state (fstep y)).
Proof.
  destruct y as [[fl tk ad h p] w]. unfold running, fstep. cbn. destruct p as [a|c k]; [done|]. intros _.
  pose proof (fserve_ok c fl w) as Hok. destruct (fserve c fl w) as [[res fl'] w'].
  destruct Hok. cbn. by constructor.
Qed.
End server.

(** ** Scripts *)

Section scripts.
Variable pl : NodePool.
Variable view : fleet → fleet.
Variable fresh : reader → Prop.
Hypothesis view_fresh : fresh Cache → ∀ fl, view fl = fl.
Variable runs : prog unit → Prop.

(** Every Machine has the labels of the pool [edge]. *)
Definition edge_of (_ : string) : gmap string string := edge_labels.

Abbreviation fsteps := (rtc (λ s s', worker_step (pools_in pl) fresh s s' ∨ start_step runs s s')).

Lemma calls_reach n y : fsteps (fs_state y) (fs_state (Nat.iter n (fstep pl view) y)).
Proof.
  revert y. induction n as [|n IH]; intros y; [done|]. rewrite Nat.iter_succ_r.
  etransitivity; [|apply IH]. destruct (running y) eqn:E.
  - apply rtc_once. left. by apply fstep_step.
  - unfold running in E. unfold fstep. by destruct (rest (fs_state y)).
Qed.

Lemma start_reach p y : runs p → fsteps (fs_state y) (fs_state (start p y)).
Proof. intros Hp. apply rtc_once. right. destruct y as [[fl tk ad h q] w]. by constructor. Qed.
End scripts.

Definition resting (fl : fleet) (w : world) : fsim :=
  MkFsim (MkFleet fl (λ _ _, 0) (λ _ _, 0) [] (Ret tt)) w.

Lemma resting_idle fl w : well_named edge_of fl → idle_fleet edge_of (fs_state (resting fl w)).
Proof. by intros. Qed.

Definition quiet_world (pods : list Pod) (now : Time) : world :=
  MkWorld [] [] [] pods now accepted (Ok "").

(** A Machine of the pool with [cpu] millicores. *)
Definition sized (name : string) (cpu : Z) (s : MachineState) : Machine :=
  MkMachine (meta name edge_labels ∅)
    (MkMachineSpec name {["cpu" := cpu]} ∅
       (MkPowerSpec "wol" (Some (MkWoLConfig "aa:bb:cc:dd:ee:ff" ""))) None)
    (status s None).

Definition pair (m1 m2 : Machine) : fleet := <[Name m1 := m1]> {[Name m2 := m2]}.

Lemma pair_named (m1 m2 : Machine) :
  Labels m1 = edge_labels → Labels m2 = edge_labels → well_named edge_of (pair m1 m2).
Proof.
  unfold pair. intros H1 H2 n m [[<- <-]|[_ [<- <-]%lookup_singleton_Some]]%lookup_insert_Some; done.
Qed.

Lemma one_pool_disjoint pl : pools_disjoint edge_of (pools_in pl).
Proof. intros n1 n2 s1 s2 sel1 sel2 name. unfold pools_in. repeat case_decide; congruence. Qed.

(** *** Two idle Ready members, one of which may go *)

Definition idle_pair : fleet :=
  pair (set_EmptySince (Some (100 * Second)) (sized "w1" 8000 Ready)) (sized "w2" 8000 Ready).
Definition drain_run (n : nat) : fsim :=
  Nat.iter n (fstep (pool 1 None) id)
    (start (only (ScaleDown_Reconcile (MkHolds ∅ false) "w1"))
       (resting idle_pair (quiet_world [] (1000 * Second)))).

(** *** Two Off members, of which the pool may have one on *)

Definition small : Pod := pending_pod.
Definition large : Pod :=
  MkPod (MkMeta "db" "default" ∅ ∅ 1 1 None ["StatefulSet"]) "" [] []
    (MkRest {["cpu" := 6000]} ∅) PodPending
    [MkPodCondition PodScheduled ConditionFalse PodReasonUnschedulable].
Definition off_pair : fleet := pair (sized "w1" 4000 Off) (sized "w2" 8000 Off).
Definition capped : NodePool := pool 0 (Some 1).
Definition wake_run (view : fleet → fleet) (pod : Pod) (n : nat) (y : fsim) : fsim :=
  Nat.iter n (fstep capped view) (start (only (ScaleUp_Reconcile (Namespace pod) (Name pod))) y).
Definition off_world : fsim := resting off_pair (quiet_world [small; large] (1000 * Second)).
Definition wakes_of (view : fleet → fleet) : fsim :=
  wake_run view large 50 (wake_run view small 50 off_world).
Definition active (y : fsim) : Z := total edge_labels isActive (store (fs_state y)).

Lemma wake_run_reach view fresh pod n y :
  (fresh Cache → ∀ fl, view fl = fl) →
  rtc (λ s s', worker_step (pools_in capped) fresh s s' ∨ start_step scale_up_worker s s')
    (fs_state y) (fs_state (wake_run view pod n y)).
Proof.
  intros Hv. etransitivity; [|by apply (calls_reach capped view fresh Hv)].
  apply start_reach. by eexists _, _.
Qed.

(** C37.  The cap is counted on the cache, so it can be exceeded: of a pool of two Off
    Machines with maxNodes 1, two scale-up runs in a row on a cache that does not
    yet show the first wake make both active, with no other writer involved.  On a
    cache that does show it, the second run wakes nothing. *)
Theorem stale_cache_exceeds_the_cap :
  let stale (_ : fleet) := off_pair in
  MaxNodes (Pool_Spec capped) = Some 1 ∧ active off_world = 0 ∧
  rtc (λ s s', worker_step (pools_in capped) (λ rd, rd = APIReader) s s' ∨ start_step scale_up_worker s s')
    (fs_state off_world) (fs_state (wakes_of stale)) ∧
  running (wakes_of stale) = false ∧ active (wakes_of stale) = 2 ∧ active (wakes_of id) = 1.
Proof.
  cbv zeta. split_and!; [done|done| |by vm_compute..].
  etransitivity; apply wake_run_reach; done.
Qed.

(** ** The theorems of [Fleet] at these runs *)

Lemma with_others_writes pools fresh runs s s' :
  rtc (λ s s', worker_step pools fresh s s' ∨ start_step runs s s') s s' →
  rtc (λ s s', worker_step pools fresh s s' ∨ start_step runs s s' ∨ other_step edge_of s s') s s'.
Proof. intros Hs. eapply rtc_subrel; [|exact Hs]. intros ? ? [?|?]; auto. Qed.


