(* ===== verification/Cycle.v ===== *)
(** * The whole cycle, in a cluster that cooperates

    The safety theorems say what the Machine reconciler never does; here is what
    it gets done.  A [setting] is what the surroundings answer during one run: the
    Nodes, the pods, the pools and the clock, every call accepted and no other
    writer at work.  In a sequence of settings in which a woken Node comes up
    within the boot budget the Machine goes from Off to Ready, and in one in which
    a drained Node empties and goes down it goes from Ready to Off, each run but
    the last asking for the next. *)

From S2P Require Import Prelude GoStd Prog Ghost K8s Api Client Guards Power Pools NodeOps MachineController Fixture Scenarios MachineLifecycle MachineTimers MachineSystem SystemRuns Fleet.

Local Open Scope Z_scope.

Section cycle.
Context `{KL : K8sLib} `{!MapRange}.
Implicit Types m g : Machine.

(** ** The surroundings of a run *)

Record setting : Type := MkSetting {
  nodes : Node → Prop;
  pods : list Pod → Prop;
  pools : list NodePool → Prop;
  times : Time → Prop;
}.

Definition accepted_by_agent (res : result error HTTPResponse) : Prop :=
  ∃ rs, res = Ok rs ∧ 200 ≤ Resp_StatusCode rs < 300.

(** What is answered while [g] is the Machine on the API server. *)
Definition answers (W : setting) g (c : call) : resp c → Prop :=
  match c as c return resp c → Prop with
  | GetMachine _ => λ res, res = Ok g
  | ListMachinesOnNode _ => λ res, ∃ ms, res = Ok ms ∧ ∀ o : Machine, o ∈ ms → Name o = Name g
  | GetNode _ => λ res, ∃ n, res = Ok n ∧ nodes W n
  | ListPodsOnNode _ _ => λ res, ∃ ps, res = Ok ps ∧ pods W ps
  | ListPools => λ res, ∃ ps, res = Ok ps ∧ pools W ps
  | ClockNow => λ now, times W now
  | UpdateMachineStatus sent => λ res, ∃ m, res = Ok m ∧
      same_identity g m ∧ Annotations m = Annotations g ∧ Status m = Status sent
  | PatchMachine orig sent => λ res, ∃ m, res = Ok m ∧ patched orig sent g m
  | PatchMachineStatus orig sent => λ res, ∃ m, res = Ok m ∧ status_patched orig sent g m
  | PatchNode _ _ => λ res, ∃ n, res = Ok n
  | CreateEviction _ => λ res, res = Ok tt ∨ ∃ e, res = Err e ∧ IsTooManyRequests e = true
  | HTTPNewRequest _ _ => λ res, res = Ok tt
  | HTTPDo _ => accepted_by_agent
  | _ => λ _, True
  end.

Definition keeps_answer g (res : result error Machine) : Machine :=
  match res with Ok m => m | Err _ => g end.

Definition now_stored g (c : call) : resp c → Machine :=
  match c as c return resp c → Machine with
  | UpdateMachineStatus _ | PatchMachine _ _ | PatchMachineStatus _ _ => keeps_answer g
  | _ => λ _, g
  end.

Definition quiet_cluster (W : setting) : protocol Machine := {|
  pre := λ _ _, True;
  valid := λ g '(Ev c res), answers W g c res;
  next := λ g '(Ev c res), now_stored g c res;
|}.

#[local] Instance same_identity_preorder : PreOrder same_identity.
Proof. unfold same_identity. split; [done|]. intros g1 g2 g3; naive_solver congruence. Qed.

(** ** Rules *)

(** Walk a program, following every branch; the answers are what the setting
    says. *)
Ltac hear :=
  match goal with
  | H : valid (quiet_cluster _) _ (Ev _ _) |- _ =>
      cbn in H; unfold accepted_by_agent in H;
      repeat match goal with
      | H : ∃ _, _ |- _ => destruct H
      | H : _ ∧ _ |- _ => destruct H
      end; subst; cbn [next quiet_cluster now_stored keeps_answer]; cbv beta iota
  end.
(** The next call of the program, its answer named. *)
Ltac ask res :=
  repeat first [apply gwp_bind | apply gwp_rbind | apply gwp_wrapf];
  repeat (lazymatch goal with |- gwp _ _ (do _) _ => fail | _ => gwp_unfold end);
  lazymatch goal with
  | |- gwp ?P ?g (do ?c) ?Q => refine (gwp_do P g c Q I _); intros res; cbn [quiet_cluster next now_stored]; cbv beta iota
  end.

Ltac walk tac := repeat first [tac | exact I | hear | gwp_step].

Ltac reports := solve [apply obeys_ret | apply obeys_do; done].

Section rules.
Variable W : setting.
Abbreviation P := (quiet_cluster W).

Lemma gwp_nodeIsReady g n (Q : Machine → result error bool → Prop) :
  n ≠ "" → (∀ nd, nodes W nd → Q g (Ok (conditions_ready (Node_Conditions nd)))) →
  gwp P g (nodeIsReady n) Q.
Proof. intros Hn HQ. unfold nodeIsReady. rewrite decide_False by done. walk ltac:(fail). auto. Qed.

(** What goes through whatever it finds. *)
Lemma gwp_uncordon g n (Q : Machine → result error bool → Prop) :
  (∀ b, Q g (Ok b)) → gwp P g (uncordonIfONPCordoned n) Q.
Proof. intros HQ. walk ltac:(apply HQ). Qed.

Lemma gwp_template g m (Q : Machine → result error unit → Prop) :
  Q g (Ok tt) → gwp P g (applyNodeTemplate m) Q.
Proof. intros HQ. walk ltac:(apply HQ). Qed.

Lemma gwp_drift g m (Q : Machine → result error string → Prop) :
  (∀ s, Q g (Ok s)) → gwp P g (capacityDrift m) Q.
Proof. intros HQ. walk ltac:(apply HQ). Qed.

Lemma gwp_clock_since g t (Q : Machine → Duration → Prop) :
  (∀ now, times W now → Q g (Sub now t)) → gwp P g (clock_since t) Q.
Proof. intros HQ. walk ltac:(by apply HQ). Qed.

Lemma gwp_condition g m ty st reason msg (Q : Machine → Machine → Prop) :
  (∀ cs, Q g (set_Conditions cs m)) → gwp P g (setCondition m ty st reason msg) Q.
Proof. intros HQ. walk ltac:(apply HQ). Qed.

(** Events and metrics change nothing. *)
Definition report (c : call) : Prop :=
  match c with RecordEvent _ _ _ _ | CounterInc _ _ | HistogramObserve _ _ => True | _ => False end.

Lemma gwp_said g (p : prog unit) (Q : Machine → unit → Prop) :
  emits anything report p → Q g tt → gwp P g p Q.
Proof.
  intros Hp HQ. apply gwp_idle; [|by intros []].
  eapply emits_weaken; [|exact Hp]. intros c Hc g'. split; [done|]. by destruct c.
Qed.

(** Writes of the Machine: the handler goes on with what is stored. *)
Lemma gwp_store g m (Q : Machine → result error Machine → Prop) :
  (∀ g', same_identity g g' → Annotations g' = Annotations g → Status g' = Status m → Q g' (Ok g')) →
  gwp P g (update_status m) Q.
Proof. intros HQ. walk ltac:(by apply HQ). Qed.

Lemma patched_own g sent g' :
  patched g sent g g' → Annotations g' = Annotations sent.
Proof.
  intros (_ & _ & Hp). apply map_eq. intros k. destruct (Hp k) as [H1 H2].
  destruct (decide (Annotations g !! k = Annotations sent !! k)) as [E|E]; [|by apply H2].
  rewrite H1 by done. done.
Qed.

Lemma gwp_trigger g k fmt (Q : Machine → result error Machine → Prop) :
  (∀ g', same_identity g g' → Status g' = Status g → Annotations g' = delete k (Annotations g) →
     Q g' (Ok g')) →
  gwp P g (match Annotations g !! k with
           | None => ok g
           | Some _ => wrapf fmt [AStr (Name g)] (patch_machine g (with_Meta (unannotate k) g))
           end) Q.
Proof.
  intros HQ. destruct (_ !! k) eqn:Hk.
  - walk ltac:(fail). apply HQ; [apply H2|apply H2|exact (patched_own _ _ _ H2)].
  - apply gwp_ret, HQ; [done|done|by rewrite delete_id].
Qed.

Lemma gwp_dropDrain g (Q : Machine → result error Machine → Prop) :
  (∀ g', same_identity g g' → Status g' = Status g →
     Annotations g' = delete AnnotationDrainNow (Annotations g) → Q g' (Ok g')) →
  gwp P g (removeDrainAnnotation g) Q.
Proof. apply gwp_trigger. Qed.

Lemma gwp_dropWake g (Q : Machine → result error Machine → Prop) :
  (∀ g', same_identity g g' → Status g' = Status g →
     Annotations g' = delete AnnotationWakeNow (Annotations g) → Q g' (Ok g')) →
  gwp P g (removeWakeAnnotation g) Q.
Proof. apply gwp_trigger. Qed.

(** The same for the trigger [reconcileReady] looks for itself. *)
Lemma gwp_ignoreWake g (Q : Machine → result error Machine → Prop) :
  (∀ g', same_identity g g' → Status g' = Status g →
     Annotations g' = delete AnnotationWakeNow (Annotations g) → Q g' (Ok g')) →
  gwp P g (match Annotations g !! AnnotationWakeNow with
           | Some _ => removeWakeAnnotation g
           | None => ok g
           end) Q.
Proof.
  intros HQ. destruct (_ !! _) eqn:Hk; [by apply gwp_dropWake|].
  apply gwp_ret, HQ; [done|done|by rewrite delete_id].
Qed.

Lemma gwp_Reconcile r g n (Q : Machine → result error ReconcileResult → Prop) :
  gwp P g (dispatch r g) Q → gwp P g (Reconcile r n) Q.
Proof.
  intros HQ. unfold Reconcile. ask got. intros ->. cbv iota.
  apply gwp_rbind. unfold otherMachinesOnNode. case_decide; [exact HQ|].
  ask res. intros (ms & -> & Hms). apply gwp_ret.
  destruct (_ <$> filter _ ms) as [|o others] eqn:Hf; [exact HQ|].
  assert (o ∈ o :: others) as Ho by left. rewrite <- Hf in Ho.
  apply list_elem_of_fmap in Ho as (o' & -> & [Hne Ho']%list_elem_of_filter). destruct (Hne (Hms _ Ho')).
Qed.
End rules.

(** Two instants of one window of the budget's length, whichever comes first. *)
Lemma window_sub budget lo start now :
  2 * budget ≤ int64_max → lo ≤ start < lo + budget → lo ≤ now < lo + budget →
  Sub now start = now - start ∧ - budget < now - start < budget.
Proof. unfold Sub, int64_max, int64_min in *. lia. Qed.

Lemma window_delay budget lo poll start now :
  0 < poll → 2 * budget ≤ int64_max → lo ≤ start < lo + budget → lo ≤ now < lo + budget →
  0 < remaining_or_poll budget (Sub now start) poll ≤ poll.
Proof.
  intros Hp Hb Hs Hn. destruct (window_sub _ _ _ _ Hb Hs Hn) as [-> Hd].
  apply remaining_positive; [done|unfold in_int64, int64_min, int64_max in *; lia|lia].
Qed.

(** ** Waking *)

Section wake.
Variable client : WolClient.
Variables boot shutdown grace : Duration.
Abbreviation r := (production client boot shutdown grace).
Hypothesis boot_range : 0 < boot ∧ 2 * boot ≤ int64_max.

(** A Machine ONP can wake: a Node and the WoL provider. *)
Definition wakeable m : Prop :=
  NodeName (Spec m) ≠ "" ∧ Power_Provider (Power (Spec m)) = providerNameWoL ∧
  is_Some (Power_WoL (Power (Spec m))).

Definition node_up (W : setting) : Prop :=
  ∀ n, nodes W n → conditions_ready (Node_Conditions n) = true.
Definition node_unready (W : setting) : Prop :=
  ∀ n, nodes W n → conditions_ready (Node_Conditions n) = false.

(** Every clock reading lies in the window. *)
Definition during (lo hi : Time) (W : setting) : Prop := ∀ now, times W now → lo ≤ now < hi.

(** The next run is asked for, at most [poll] away. *)
Definition asks_again (poll : Duration) (a : result error ReconcileResult) : Prop :=
  ∃ res, a = Ok res ∧ 0 < RequeueAfter res ≤ poll.

Definition booting_since (lo hi : Time) m : Prop :=
  state m = Booting ∧ ∃ start, BootStartTime (Status m) = Some start ∧ lo ≤ start < hi.

Lemma gwp_wake W g m (Q : Machine → option error → Prop) :
  is_Some (Power_WoL (Power (Spec m))) → Q g None → gwp (quiet_cluster W) g (wolPowerOn client m) Q.
Proof.
  intros [cfg Hc] HQ. unfold wolPowerOn, Wake. rewrite Hc. ask built. intros ->.
  ask answer. intros (rs & -> & Hrs). cbv iota.
  replace (_ || _) with false; [exact HQ|]. symmetry. rewrite orb_false_iff, Z.ltb_ge, Z.leb_gt. lia.
Qed.

Definition awake m : Prop :=
  state m = Ready ∧ BootStartTime (Status m) = None ∧
  Annotations m !! AnnotationWakeNow = None ∧ Annotations m !! AnnotationDrainNow = None.

Lemma gwp_resend W g m (Q : Machine → unit → Prop) :
  Power_Provider (Power (Spec m)) = providerNameWoL → is_Some (Power_WoL (Power (Spec m))) →
  Q g tt → gwp (quiet_cluster W) g (resendPowerOn r m) Q.
Proof.
  intros Hp Hw HQ. unfold resendPowerOn. destruct (BootStartTime _) as [t|]; [|exact HQ].
  apply gwp_bind, gwp_clock_since. intros now _. destruct (_ <? _); [exact HQ|].
  rewrite Hp. cbn [Reg production]. unfold Registry_Get. rewrite lookup_singleton_eq.
  cbn [CanPowerOn Provider_Capabilities NewWoLProvider PowerOn negb].
  apply gwp_bind, gwp_wake; [done|]. ask u. by intros _; destruct u.
Qed.

Lemma gwp_requeueForBoot W g start lo (Q : Machine → Duration → Prop) :
  BootStartTime (Status g) = Some start → lo ≤ start < lo + boot → during lo (lo + boot) W →
  (∀ d, 0 < d ≤ bootPollInterval → Q g d) → gwp (quiet_cluster W) g (requeueForBoot r g) Q.
Proof.
  intros Hb Hstart Hclock HQ. unfold requeueForBoot. rewrite Hb.
  apply gwp_bind, gwp_clock_since. intros now Hnow%Hclock. apply gwp_ret, HQ.
  by apply (window_delay boot lo bootPollInterval); [|apply boot_range| |].
Qed.

(** Asked to wake, with its Node not Ready: the power-on is sent and the Machine
    boots. *)
Lemma off_is_woken W g lo :
  state g = Off → wakeable g → wakeRequested g = true → node_unready W → during lo (lo + boot) W →
  gwp (quiet_cluster W) g (Reconcile r (Name g)) (λ g' a,
    asks_again bootPollInterval a ∧ booting_since lo (lo + boot) g' ∧ same_identity g g').
Proof.
  intros Hs (Hn & Hp & Hw) Hwake Hup Hclock. apply gwp_Reconcile. unfold dispatch. rewrite Hs.
  unfold reconcileOff. apply gwp_rbind, gwp_dropDrain. intros g1 Hid HS HA. cbv zeta.
  pose proof Hid as (_ & _ & Hspec). rewrite Hspec.
  apply gwp_rbind, gwp_wrapf, gwp_nodeIsReady; [done|]. intros nd Hnd. rewrite (Hup _ Hnd).
  assert (wakeRequested g1 = true) as ->.
  { unfold wakeRequested, map_get in *. rewrite HA, lookup_delete_ne by done. exact Hwake. }
  cbn [negb]. rewrite Hp. cbn [Reg production]. unfold Registry_Get. rewrite lookup_singleton_eq.
  cbn [CanPowerOn Provider_Capabilities NewWoLProvider PowerOn negb].
  apply gwp_bind, gwp_wake; [by rewrite Hspec|]. ask u1. intros _. ask now. intros Hnow%Hclock.
  apply gwp_bind, gwp_condition. intros cs. apply gwp_rbind, gwp_wrapf, gwp_store.
  intros g2 Hid2 HA2 HS2. ask u2. intros _. apply gwp_bind. eapply gwp_requeueForBoot; [by rewrite HS2|done|done|].
  intros d Hd. split_and!; [by eexists| |by trans g1]. split; [unfold state; by rewrite HS2|].
  exists now. by rewrite HS2.
Qed.

(** The budget not spent and the Node not Ready: the power-on may be sent again,
    and the Machine goes on booting. *)
Lemma booting_waits W g lo :
  wakeable g → booting_since lo (lo + boot) g → node_unready W → during lo (lo + boot) W →
  gwp (quiet_cluster W) g (Reconcile r (Name g)) (λ g' a,
    asks_again bootPollInterval a ∧ booting_since lo (lo + boot) g' ∧ same_identity g g').
Proof.
  intros (Hn & Hp & Hw) [Hs (start & Hstart & Hin)] Hup Hclock. apply gwp_Reconcile.
  unfold dispatch. rewrite Hs. unfold reconcileBooting.
  apply gwp_rbind, gwp_dropDrain. intros g1 Hid HS HA. cbv zeta. pose proof Hid as (_ & _ & Hspec).
  rewrite Hspec. apply gwp_rbind, gwp_wrapf, gwp_nodeIsReady; [done|]. intros nd Hnd. rewrite (Hup _ Hnd).
  apply gwp_bind. unfold bootTimedOut. rewrite HS, Hstart. apply gwp_bind, gwp_clock_since.
  intros now Hnow%Hclock. destruct (window_sub boot lo start now) as [-> Hd]; [apply boot_range|done|done|].
  replace (_ <=? _) with false by (symmetry; apply Z.leb_gt, Hd). apply gwp_ret.
  apply gwp_bind, gwp_resend; [by rewrite Hspec..|].
  apply gwp_bind. eapply gwp_requeueForBoot; [by rewrite HS|done|done|].
  intros d Hd'. split_and!; [by eexists| |done]. split; [unfold state; by rewrite HS|].
  exists start. by rewrite HS.
Qed.

(** The Node up: the Machine is Ready, and the triggers are gone. *)
Lemma booting_becomes_ready W g lo :
  wakeable g → booting_since lo (lo + boot) g → node_up W →
  gwp (quiet_cluster W) g (Reconcile r (Name g)) (λ g' a,
    a = Ok Result_ ∧ awake g' ∧ same_identity g g').
Proof.
  intros (Hn & Hp & Hw) [Hs (start & Hstart & Hin)] Hup. apply gwp_Reconcile.
  unfold dispatch. rewrite Hs. unfold reconcileBooting.
  apply gwp_rbind, gwp_dropDrain. intros g1 Hid HS HA. cbv zeta. pose proof Hid as (_ & _ & Hspec).
  rewrite Hspec. apply gwp_rbind, gwp_wrapf, gwp_nodeIsReady; [done|]. intros nd Hnd. rewrite (Hup _ Hnd).
  unfold promoteToReady. cbv zeta. apply gwp_rbind, gwp_uncordon. intros uncordoned.
  apply gwp_bind, gwp_template. apply gwp_rbind, gwp_drift. intros drift.
  rewrite HS, Hstart. apply gwp_bind, gwp_bind, gwp_clock_since. intros now Hnow. ask u1. intros _.
  apply gwp_bind, gwp_condition. intros cs. apply gwp_rbind, gwp_wrapf, gwp_store.
  intros g2 Hid2 HA2 HS2. ask u2. intros _.
  apply gwp_bind, gwp_said; [by destruct uncordoned; reports|]. apply gwp_bind, gwp_said; [by case_decide; reports|].
  apply gwp_rbind, gwp_dropWake.
  intros g3 Hid3 HS3 HA3. apply gwp_ret. split_and!; [done| |by trans g1; [|trans g2]].
  unfold awake, state. rewrite HS3, HS2, HA3, HA2, HA. split_and!; [done|done|by rewrite lookup_delete_eq|].
  by rewrite lookup_delete_ne, lookup_delete_eq.
Qed.

End wake.

(** ** Draining and powering off *)

Section drain.
Variable client : WolClient.
Variables boot shutdown grace : Duration.
Abbreviation r := (production client boot shutdown grace).

(** [drain] is a budget no pool undercuts. *)
Variable drain : Duration.
Hypothesis shutdown_range : 0 < shutdown ∧ 2 * shutdown ≤ int64_max.
Hypothesis drain_range : 0 < drain ≤ defaultDrainTimeout.

Definition may_power_off (W : setting) : Prop :=
  ∀ n, nodes W n → map_get (Labels n) LabelAlwaysOn ≠ LabelAlwaysOnValue.
Definition patient (W : setting) : Prop :=
  ∀ ps p, pools W ps → p ∈ ps → drain ≤ (poolDrainPolicy (Some p)).1.
Definition still_open (W : setting) : Prop := ∀ n, nodes W n → Unschedulable n = false.
Definition busy (W : setting) : Prop := ∀ ps, pods W ps → Exists (λ p, keepsNodeOn p = true) ps.
Definition emptied (W : setting) : Prop :=
  (∀ n, nodes W n → Unschedulable n = true) ∧
  ∀ ps, pods W ps → Forall (λ p, keepsNodeOn p = false) ps.

Definition draining_since (lo hi : Time) m : Prop :=
  state m = Draining ∧ ∃ start, DrainStartTime (Status m) = Some start ∧ lo ≤ start < hi.
Definition stopping_since (lo hi : Time) m : Prop :=
  state m = ShuttingDown ∧ ∃ start, ShutdownStartTime (Status m) = Some start ∧ lo ≤ start < hi.

Lemma gwp_alwaysOn W g n (Q : Machine → result error bool → Prop) :
  may_power_off W → Q g (Ok false) → gwp (quiet_cluster W) g (nodeAlwaysOn n) Q.
Proof.
  intros Hno HQ. unfold nodeAlwaysOn. case_decide; [exact HQ|]. ask res. intros (nd & -> & Hnd).
  apply gwp_ret. by rewrite bool_decide_false by by apply Hno.
Qed.

Lemma gwp_drainPolicy W g m (Q : Machine → result error (Duration * bool) → Prop) :
  patient W → (∀ timeout force, drain ≤ timeout → Q g (Ok (timeout, force))) →
  gwp (quiet_cluster W) g (drainPolicy m) Q.
Proof.
  intros Hpat HQ. unfold drainPolicy, poolForMachine, matchingPools.
  ask res. intros (ps & -> & Hps). cbv iota. do 2 apply gwp_ret.
  assert (∀ p, p ∈ sort_by pool_name_lt (filter (λ p, pool_selects p (Labels m) = true) ps) →
    drain ≤ (poolDrainPolicy (Some p)).1) as Hl.
  { intros p. rewrite sort_by_perm, list_elem_of_filter. intros [_ Hp]. by eapply Hpat. }
  destruct (sort_by _ _) as [|p [|q rest]]; do 2 apply gwp_ret.
  - apply HQ, drain_range.
  - specialize (Hl p ltac:(left)). destruct (poolDrainPolicy (Some p)) as [timeout force]. by apply HQ.
  - apply HQ. destruct (conservativeDrainTimeout_min p (q :: rest)) as [(p' & Hp' & ->) _]. by apply Hl.
Qed.

Lemma gwp_evictAll W g m force ps (Q : Machine → result error unit → Prop) :
  Q g (Ok tt) → gwp (quiet_cluster W) g (evictAll r m force ps) Q.
Proof.
  intros HQ. unfold evictAll. induction ps as [|p ps IH]; [exact HQ|]. cbn [for_each].
  apply gwp_rbind. destruct (negb _); [exact IH|]. unfold evictPod. cbn [Evict production].
  ask res. intros [->|(e & -> & ->)]; exact IH.
Qed.

(** Asked to drain, with a Node that may be powered off. *)
Lemma ready_starts_draining W g lo :
  state g = Ready → drainRequested g = true → may_power_off W → during lo (lo + drain) W →
  gwp (quiet_cluster W) g (Reconcile r (Name g)) (λ g' a,
    a = Ok requeue_now ∧ draining_since lo (lo + drain) g' ∧ same_identity g g').
Proof.
  intros Hs Hdr Hno Hclock. apply gwp_Reconcile. unfold dispatch. rewrite Hs. unfold reconcileReady.
  apply gwp_rbind, gwp_ignoreWake. intros g1 Hid HS HA.
  assert (drainRequested g1 = true) as ->.
  { unfold drainRequested, map_get in *. rewrite HA, lookup_delete_ne by done. exact Hdr. }
  unfold startDraining. cbv zeta. apply gwp_rbind, gwp_alwaysOn; [done|]. ask now. intros Hnow%Hclock.
  apply gwp_rbind, gwp_wrapf, gwp_store. intros g2 Hid2 HA2 HS2. ask u. intros _.
  apply gwp_rbind, gwp_dropDrain. intros g3 Hid3 HS3 HA3. apply gwp_ret.
  split_and!; [done| |by trans g1; [|trans g2]]. unfold draining_since, state. rewrite HS3, HS2.
  split; [done|]. by exists now.
Qed.

Lemma gwp_drainTimedOut W g m timeout lo (Q : Machine → bool → Prop) :
  draining_since lo (lo + drain) m → during lo (lo + drain) W → drain ≤ timeout → Q g false →
  gwp (quiet_cluster W) g (drainTimedOut m timeout) Q.
Proof.
  intros [_ (start & Hstart & Hin)] Hclock Ht HQ. unfold drainTimedOut. rewrite Hstart.
  apply gwp_bind, gwp_clock_since. intros now Hnow%Hclock. apply gwp_ret.
  replace (_ <? _) with false; [exact HQ|]. symmetry. apply Z.ltb_ge.
  destruct (window_sub drain lo start now) as [-> ?]; [|done|done|lia].
  unfold defaultDrainTimeout, Second, int64_max in *. lia.
Qed.

Lemma gwp_close W g n (Q : Machine → result error bool → Prop) :
  n ≠ "" → (∀ nd, nodes W nd → Q g (Ok (negb (Unschedulable nd)))) →
  gwp (quiet_cluster W) g (setCordon n true) Q.
Proof.
  intros Hn HQ. unfold setCordon. rewrite decide_False by done. ask res. intros (nd & -> & Hnd).
  specialize (HQ nd Hnd). destruct (Unschedulable nd); [exact HQ|]. ask res. intros (nd' & ->). exact HQ.
Qed.

(** What a run on a draining Machine comes down to before the budget is spent. *)
Definition drain_step m (force : bool) : prog (result error ReconcileResult) :=
  let? cordoned := setCordon (NodeName (Spec m)) true in
  if (cordoned : bool) then ok (requeue_after drainPollInterval)
  else
  let? workload := wrapf "list workload pods on node %q: %w" [AStr (NodeName (Spec m))]
                     (podsKeepingNodeOn (NodeName (Spec m))) in
  match workload with
  | [] => finishDrain m
  | _ =>
      let? _ := evictAll r m force workload in
      ok (requeue_after drainPollInterval)
  end.

Lemma gwp_draining W g lo (Q : Machine → result error ReconcileResult → Prop) :
  draining_since lo (lo + drain) g → may_power_off W → patient W → during lo (lo + drain) W →
  (∀ g1 force, same_identity g g1 → draining_since lo (lo + drain) g1 →
     gwp (quiet_cluster W) g1 (drain_step g1 force) Q) →
  gwp (quiet_cluster W) g (Reconcile r (Name g)) Q.
Proof.
  intros [Hs Hd] Hno Hpat Hclock HQ. apply gwp_Reconcile. unfold dispatch. rewrite Hs.
  unfold reconcileDraining. apply gwp_rbind, gwp_dropDrain. intros g1 Hid HS HA. cbv zeta.
  assert (draining_since lo (lo + drain) g1) as Hd1 by (unfold draining_since, state; by rewrite HS).
  apply gwp_rbind, gwp_alwaysOn; [done|]. apply gwp_rbind, gwp_drainPolicy; [done|]. intros timeout force Ht.
  apply gwp_bind. eapply gwp_drainTimedOut; [done|done|done|]. by apply HQ.
Qed.

(** Not closed to new pods yet, or with pods still on it: the Machine goes on
    draining. *)
Lemma draining_waits W g lo :
  draining_since lo (lo + drain) g → NodeName (Spec g) ≠ "" → may_power_off W → patient W →
  still_open W ∨ busy W → during lo (lo + drain) W →
  gwp (quiet_cluster W) g (Reconcile r (Name g)) (λ g' a,
    a = Ok (requeue_after drainPollInterval) ∧ draining_since lo (lo + drain) g' ∧ same_identity g g').
Proof.
  intros Hd Hn Hno Hpat Hwait Hclock. eapply gwp_draining; [done..|]. intros g1 force Hid Hd1.
  pose proof Hid as (_ & _ & Hspec). unfold drain_step. rewrite Hspec.
  apply gwp_rbind, gwp_close; [done|]. intros nd Hnd.
  destruct Hwait as [Hopen|Hbusy]; [by rewrite (Hopen _ Hnd)|]. destruct (negb _); [done|].
  apply gwp_rbind, gwp_wrapf. unfold podsKeepingNodeOn. rewrite decide_False by done.
  ask res. intros (ps & -> & Hps%Hbusy). apply gwp_ret.
  destruct (filter _ ps) as [|p rest] eqn:Hf.
  { apply Exists_exists in Hps as (p & Hp & Hk). by destruct (filter_nil_not_elem_of _ _ p Hf Hk). }
  apply gwp_rbind, gwp_evictAll. by apply gwp_ret.
Qed.

Lemma nothing_kept ps :
  Forall (λ p, keepsNodeOn p = false) ps → filter (λ p, keepsNodeOn p = true) ps = [].
Proof. induction 1 as [|p ps Hp _ IH]; [done|]. rewrite filter_cons, decide_False by congruence. done. Qed.

(** Closed and empty: the node is handed to the shutdown agent. *)
Lemma draining_hands_over W g lo lo' :
  draining_since lo (lo + drain) g → NodeName (Spec g) ≠ "" → may_power_off W → patient W →
  emptied W → during lo (lo + drain) W → during lo' (lo' + shutdown) W →
  gwp (quiet_cluster W) g (Reconcile r (Name g)) (λ g' a,
    a = Ok Result_ ∧ stopping_since lo' (lo' + shutdown) g' ∧ same_identity g g').
Proof.
  intros Hd Hn Hno Hpat [Hclosed Hempty] Hclock Hclock'. eapply gwp_draining; [done..|].
  intros g1 force Hid Hd1. pose proof Hid as (_ & _ & Hspec). unfold drain_step. rewrite Hspec.
  apply gwp_rbind, gwp_close; [done|]. intros nd Hnd. rewrite (Hclosed _ Hnd). cbn [negb].
  apply gwp_rbind, gwp_wrapf. unfold podsKeepingNodeOn. rewrite decide_False by done.
  ask res. intros (ps & -> & Hps%Hempty). apply gwp_ret.
  rewrite (nothing_kept _ Hps).
  unfold finishDrain. cbv zeta. apply gwp_rbind. unfold nothingKeepsNodeOn.
  ask res. intros (ps' & -> & Hps'%Hempty). do 2 apply gwp_ret.
  rewrite (proj2 (none_keeps_on_spec ps') Hps'). cbn [negb]. ask now. intros Hnow%Hclock'.
  apply gwp_bind, gwp_condition. intros cs. apply gwp_rbind, gwp_wrapf, gwp_store. intros g2 Hid2 HA2 HS2.
  ask u. intros _. split_and!; [done| |by trans g1]. unfold stopping_since, state. rewrite HS2.
  split; [done|]. by exists now.
Qed.

(** The Node reported not Ready at [t] or later. *)
Definition down_since (t : Time) (W : setting) : Prop :=
  ∀ n, nodes W n → ∃ c, ready_condition n = Some c ∧ NCond_Status c ≠ ConditionTrue ∧
    t ≤ NCond_LastTransitionTime c.

Lemma gwp_wentDown W g n since (Q : Machine → result error bool → Prop) :
  n ≠ "" → (∀ nd, nodes W nd → Q g (Ok (went_down_since since (Node_Conditions nd)))) →
  gwp (quiet_cluster W) g (nodeWentDownSince n since) Q.
Proof.
  intros Hn HQ. unfold nodeWentDownSince. rewrite decide_False by done. ask res. intros (nd & -> & Hnd).
  by apply gwp_ret, HQ.
Qed.

Lemma up_not_down nd since :
  conditions_ready (Node_Conditions nd) = true → went_down_since since (Node_Conditions nd) = false.
Proof.
  intros (c & Hc & Hst)%conditions_ready_spec. apply not_true_is_false.
  intros (c' & Hc' & Hst' & _)%went_down_since_spec. congruence.
Qed.

(** Still up within the budget: the Machine goes on shutting down. *)
Lemma stopping_waits W g lo :
  stopping_since lo (lo + shutdown) g → NodeName (Spec g) ≠ "" → node_up W → during lo (lo + shutdown) W →
  gwp (quiet_cluster W) g (Reconcile r (Name g)) (λ g' a,
    asks_again shutdownPollInterval a ∧ g' = g).
Proof.
  intros [Hs (start & Hstart & Hin)] Hn Hup Hclock. apply gwp_Reconcile. unfold dispatch. rewrite Hs.
  unfold reconcileShuttingDown. cbv zeta. apply gwp_rbind, gwp_wentDown; [done|]. intros nd Hnd%Hup.
  rewrite (up_not_down _ _ Hnd). cbn [negb]. unfold shutdownTimedOut, requeueForShutdown. rewrite Hstart.
  apply gwp_bind, gwp_bind, gwp_clock_since. intros now Hnow%Hclock. apply gwp_ret.
  replace (_ <? _) with false; cycle 1.
  { symmetry. apply Z.ltb_ge. destruct (window_sub shutdown lo start now) as [-> ?]; [lia|done|done|].
    cbn [ShutdownTimeout production]. lia. }
  apply gwp_bind, gwp_bind, gwp_clock_since. intros now' Hnow'%Hclock. apply gwp_ret. split; [|done].
  eexists. split; [done|]. by apply (window_delay shutdown lo shutdownPollInterval); [|apply shutdown_range| |].
Qed.

(** Down since the power-off was issued: the Machine is Off. *)
Lemma stopping_becomes_off W g lo :
  stopping_since lo (lo + shutdown) g → NodeName (Spec g) ≠ "" → down_since (lo + shutdown) W →
  gwp (quiet_cluster W) g (Reconcile r (Name g)) (λ g' a,
    a = Ok Result_ ∧ (state g' = Off ∧ ShutdownStartTime (Status g') = None) ∧ same_identity g g').
Proof.
  intros [Hs (start & Hstart & Hin)] Hn Hdown. apply gwp_Reconcile. unfold dispatch. rewrite Hs.
  unfold reconcileShuttingDown. cbv zeta. apply gwp_rbind, gwp_wentDown; [done|].
  intros nd (c & Hc & Hst & Hlt)%Hdown. rewrite Hstart. change (default zeroTime (Some start)) with start.
  rewrite (proj2 (went_down_since_spec start nd)) by (exists c; split_and!; [done|done|lia]). cbn [negb].
  apply gwp_bind, gwp_condition. intros cs. apply gwp_rbind, gwp_wrapf, gwp_store. intros g2 Hid2 HA2 HS2.
  ask u. intros _. split_and!; [done|unfold state; by rewrite HS2|by rewrite HS2|done].
Qed.
End drain.
(** ** Sequences of runs *)

(** There is a Node, a list of pods, a list of pools and an instant to answer
    with. *)
Definition answering (W : setting) : Prop :=
  (∃ n, nodes W n) ∧ (∃ ps, pods W ps) ∧ (∃ ps, pools W ps) ∧ ∃ now, times W now.

Definition patch_applied (orig sent g : Machine) : Machine :=
  with_Meta (λ o, set_Annotations (merge_annotations (Annotations orig) (Annotations sent) (Annotations o)) o) g.

Definition agent_answer : HTTPResponse := MkHTTPResponse 204 "204 No Content" "".

Lemma answer_exists W g c : answering W → ∃ res, answers W g c res.
Proof.
  intros ((n & Hn) & (ps & Hps) & (pls & Hpls) & (now & Hnow)).
  destruct c as [| | | | | | | | | | | |sent|orig sent|orig sent| | | | | | | | | | | | |]; cbn;
    try solve [by exists (Err (MkError ReasonUnknown "")) | by exists now | by exists tt
      | by exists (Ok n), n | by exists (Ok g) | by exists (Ok ps), ps | by exists (Ok pls), pls | by exists (Ok tt)].
  - exists (Ok []), []. split; [done|]. by intros o ?%elem_of_nil.
  - eexists _, (with_Status (λ _, Status sent) g). split_and!; [done|done|done|done].
  - eexists _, (with_Status (merge_status (Status orig) (Status sent)) g).
    split; [done|]. split_and!; [done|done|]. unfold merged_status. split_and!; apply pick_picked.
  - eexists _, (patch_applied orig sent g). split; [done|]. split_and!; [done|done|].
    intros k. apply merge_annotations_picked.
  - exists (Ok tt). by left.
  - exists (Ok agent_answer), agent_answer. split; [done|]. cbn. lia.
Qed.

Lemma play_exists {A} W (p : prog A) g : answering W → ∃ t a, exec p t a ∧ plays (quiet_cluster W) g t.
Proof.
  intros HW. revert g. induction p as [a|c k IH]; intros g; [exists [], a; by split; [constructor|]|].
  destruct (answer_exists W g c HW) as [res Hres].
  destruct (IH res (now_stored g c res)) as (t & a & Hx & Ht).
  exists (Ev c res :: t), a. by split; [constructor|].
Qed.

Section turns.
Variable r : MachineReconciler.

(** One run in the setting [W], from the stored Machine [m] to [m']. *)
Definition turn (W : setting) m (a : result error ReconcileResult) (m' : Machine) : Prop :=
  ∃ t, exec (Reconcile r (Name m)) t a ∧ plays (quiet_cluster W) m t ∧ m' = ends_in (quiet_cluster W) m t.

Inductive turns : list setting → Machine → list (result error ReconcileResult) → Machine → Prop :=
| turns_nil m : turns [] m [] m
| turns_cons W Ws m a m' rs m'' :
    turn W m a m' → turns Ws m' rs m'' → turns (W :: Ws) m (a :: rs) m''.

Lemma turn_gwp W m a m' (Q : Machine → result error ReconcileResult → Prop) :
  gwp (quiet_cluster W) m (Reconcile r (Name m)) Q → turn W m a m' → Q m' a.
Proof. intros HQ (t & Hx & Ht & ->). by eapply gwp_exec. Qed.

Lemma turns_app Ws Ws' m rs m' :
  turns (Ws ++ Ws') m rs m' →
  ∃ rs1 rs2 m1, rs = rs1 ++ rs2 ∧ turns Ws m rs1 m1 ∧ turns Ws' m1 rs2 m'.
Proof.
  revert m rs. induction Ws as [|W Ws IH]; intros m rs Ht; [exists [], rs, m; split_and!; [done|constructor|done]|].
  inversion Ht as [|? ? ? a m1 rs' ? H1 H2]; subst.
  destruct (IH _ _ H2) as (rs1 & rs2 & m2 & -> & ? & ?).
  exists (a :: rs1), rs2, m2. split_and!; [done|by econstructor|done].
Qed.

(** What every run of a stretch keeps, holds at its end. *)
Lemma turns_keep (I : Machine → Prop) (A : result error ReconcileResult → Prop) (ok_setting : setting → Prop)
    Ws m rs m' :
  (∀ W g, ok_setting W → I g → gwp (quiet_cluster W) g (Reconcile r (Name g)) (λ g' a, A a ∧ I g')) →
  Forall ok_setting Ws → I m → turns Ws m rs m' → Forall A rs ∧ I m'.
Proof.
  intros Hstep HW HI Ht. induction Ht as [|W Ws m a m' rs m'' H1 H2 IH]; [done|].
  apply Forall_cons in HW as [HW HWs]. destruct (turn_gwp _ _ _ _ _ (Hstep W m HW HI) H1) as [Ha HI'].
  destruct (IH HWs HI') as [? ?]. by split; [constructor|].
Qed.

(** Every setting that has an answer to give lets the run go through. *)
Lemma turn_exists W m : answering W → ∃ a m', turn W m a m'.
Proof.
  intros HW. destruct (play_exists W (Reconcile r (Name m)) m HW) as (t & a & Hx & Ht).
  exists a, (ends_in (quiet_cluster W) m t), t. done.
Qed.

Lemma turns_exist Ws m : Forall answering Ws → ∃ rs m', turns Ws m rs m'.
Proof.
  intros HWs. revert m. induction HWs as [|W Ws HW _ IH]; intros m; [exists [], m; constructor|].
  destruct (turn_exists W m HW) as (a & m1 & H1). destruct (IH m1) as (rs & m2 & H2).
  exists (a :: rs), m2. by econstructor.
Qed.

Lemma turns_length Ws m rs m' : turns Ws m rs m' → length rs = length Ws.
Proof. induction 1; simpl; congruence. Qed.

Lemma turns_one W m rs m' : turns [W] m rs m' → ∃ a, rs = [a] ∧ turn W m a m'.
Proof.
  intros Ht. inversion Ht as [|? ? ? a m1 rs' ? H1 H2]; subst. inversion H2; subst. by exists a.
Qed.
End turns.

(** ** The two halves of the cycle *)

Section halves.
Variable client : WolClient.
Variables boot shutdown grace : Duration.
Abbreviation r := (production client boot shutdown grace).

(** The Node is on its way up, the boot budget not spent. *)
Definition coming_up (lo : Time) (W : setting) : Prop :=
  node_unready W ∧ during lo (lo + boot) W.

Lemma wakeable_same m m' : same_identity m m' → wakeable m → wakeable m'.
Proof. intros (_ & _ & Hs). unfold wakeable. by rewrite Hs. Qed.

Lemma boot_stretch lo Ws m rs m' :
  0 < boot ∧ 2 * boot ≤ int64_max → wakeable m → booting_since lo (lo + boot) m → Forall (coming_up lo) Ws →
  turns r Ws m rs m' →
  Forall (asks_again bootPollInterval) rs ∧ booting_since lo (lo + boot) m' ∧ same_identity m m'.
Proof.
  intros Hb Hw Hm HWs Ht. refine (turns_keep r (λ g, booting_since lo (lo + boot) g ∧ same_identity m g) _ _ Ws m rs m' _ HWs _ Ht); [|done].
  intros W g [Hn Hc] [Hg Hid]. eapply gwp_mono; [|apply (booting_waits client boot shutdown grace Hb W g lo)];
    [|by eapply wakeable_same|done..].
  intros g' a (? & ? & ?). split_and!; [done|done|by trans g].
Qed.


(** The Node is being emptied, the drain budget not spent; later, after the
    hand-over, it is still up, the shutdown budget not spent. *)
Definition emptying (drain : Duration) (lo : Time) (W : setting) : Prop :=
  may_power_off W ∧ patient drain W ∧ (still_open W ∨ busy W) ∧ during lo (lo + drain) W.
(** The run that closes the drain finds the Node closed and empty. *)
Definition handing_over (drain : Duration) (lo lo' : Time) (W : setting) : Prop :=
  may_power_off W ∧ patient drain W ∧ emptied W ∧ during lo (lo + drain) W ∧ during lo' (lo' + shutdown) W.
Definition going_down (lo : Time) (W : setting) : Prop :=
  node_up W ∧ during lo (lo + shutdown) W.

Lemma drain_stretch drain lo Ws m rs m' :
  0 < drain ≤ defaultDrainTimeout → NodeName (Spec m) ≠ "" → draining_since lo (lo + drain) m →
  Forall (emptying drain lo) Ws → turns r Ws m rs m' →
  Forall (λ a, a = Ok (requeue_after drainPollInterval)) rs ∧
  draining_since lo (lo + drain) m' ∧ same_identity m m'.
Proof.
  intros Hd Hn Hm HWs Ht. refine (turns_keep r (λ g, draining_since lo (lo + drain) g ∧ same_identity m g) _ _ Ws m rs m' _ HWs _ Ht); [|done].
  intros W g (Hno & Hp & Hw & Hc) [Hg Hid].
  assert (NodeName (Spec g) ≠ "") as Hn' by (destruct Hid as (_ & _ & ->); done).
  eapply gwp_mono; [|by apply (draining_waits client boot shutdown grace drain Hd W g lo)].
  intros g' a (? & ? & ?). split_and!; [done|done|by trans g].
Qed.

Lemma shutdown_stretch lo Ws m rs m' :
  0 < shutdown ∧ 2 * shutdown ≤ int64_max → NodeName (Spec m) ≠ "" →
  stopping_since lo (lo + shutdown) m → Forall (going_down lo) Ws → turns r Ws m rs m' →
  Forall (asks_again shutdownPollInterval) rs ∧ m' = m.
Proof.
  intros Hd Hn Hm HWs Ht. refine (turns_keep r (λ g, g = m) _ _ Ws m rs m' _ HWs _ Ht); [|done].
  intros W g [Hup Hc] ->. by apply (stopping_waits client boot shutdown grace Hd W m lo).
Qed.

End halves.
End cycle.

(** *** Witnesses *)

(** One answer to every question, at one instant. *)
Definition exactly (n : Node) (ps : list Pod) (now : Time) : setting :=
  MkSetting (λ n', n' = n) (λ ps', ps' = ps) (λ pls, pls = [pool 0 None]) (λ t, t = now).

Definition asleep : Machine := machine "w1" Off None wake_now.
Definition dark : Node := node "w1" false false ∅.
Definition lit : Node := node "w1" false true ∅.

Lemma exactly_answers n ps now : answering (exactly n ps now).
Proof. split_and!; by eexists. Qed.


(** A cordon, an eviction, the hand-over, 15 s of shutting down. *)
Definition leaving : Machine := machine "w1" Ready None drain_now.
Definition closed : Node := node "w1" true true marked.
Definition powered_down : Node :=
  MkNode (meta "w1" ∅ marked) true [] [MkNodeCondition "Ready" ConditionFalse (2000 * Second)] ∅.
Definition guest : Pod := pod "web" "w1" PodRunning ∅.

